(** * stlab channels: the shared process of [stlab/channel.hpp]

    A shallow embedding of the channel runtime of [src/stlab/channel.hpp]:
    the per-stage coordination object [shared_process<T, Arg>], the value
    handles [sender<T>] and [receiver<T>], the factory [channel<T>()] and
    the composition [receiver::operator|].

    Conventions of the embedding.
    - Objects live in a heap [gmap pid shared_process]; a [std::weak_ptr] is
      an optional [pid] that is expired when the heap has no entry for it,
      a [std::shared_ptr] is a [pid] counted in the cell's [use_count].
    - [std::size_t] and [std::atomic_size_t] are integers modulo [2^64];
      increments and decrements wrap as the unsigned C++ operators do.
    - The blocks the source runs under [_process_mutex] are pure functions
      on one [shared_process] (suffix [_locked]); the member functions
      thread the whole heap through an error-and-state monad [M].
    - [assert] aborts: a failed assertion is the result [Fail].
    - [default_scheduler()] comes from [stlab/future.hpp], which is not part
      of the sources: it is modelled as a list of pending closures, each
      capturing the weak pointer that [run()] gives it; an executor move
      takes any pending closure and runs it to completion.
    - A ghost [trace] records the user hooks and transport calls that the
      properties below speak about; no code path reads it. *)

From stdpp Require Import gmap list.
From Stdlib Require Import ZArith Lia.

Local Open Scope Z_scope.

(** ** Scalars *)

Definition pid := nat.

(** [enum class process_state] *)
Inductive process_state := await | await_try | yield.

Definition process_state_eqb (a b : process_state) : bool :=
  match a, b with
  | await, await | await_try, await_try | yield, yield => true
  | _, _ => false
  end.

Definition size_modulus : Z := 2 ^ 64.

(** [++n] and [--n] on a [std::size_t] *)
Definition size_incr (n : Z) : Z := (n + 1) mod size_modulus.
Definition size_decr (n : Z) : Z := (n - 1) mod size_modulus.

(** [class sender]: a weak pointer to the sender face of a shared process *)
Record sender := Sender { sender_p : option pid }.

(** [class receiver]: a shared pointer (null when default constructed) to the
    receiver face of a shared process, and the [_ready] flag *)
Record receiver := Receiver { receiver_p : option pid; receiver_ready : bool }.

(** What the contract assertions and the undefined dereferences abort with *)
Inductive failure :=
| Assert_run_and_close     (* "can't run and close at the same time" *)
| Assert_cts_not_running   (* "cts but not running!" *)
| Assert_broadcast_suspended (* "broadcasting while suspended" *)
| Null_receiver            (* [_p->map] on a default constructed receiver *)
| Past_the_end             (* [for_each_n] walking off the deque *)
| Dangling (p : pid)       (* a [this] or shared pointer with no object *)
| Out_of_fuel.

Section Model.
Context {V St : Type}.

(** ** The user process [T]

    The template parameter [T] of [shared_process<T, Arg>].  The trait
    [has_process_yield<T>] selects between the two [step] overloads: without
    [yield] the process is invoked as a plain function, with [yield] it is
    fed through [await] and read through [yield].  [state] and [close] are
    optional members ([has_process_state], [has_process_close]).  For a
    process whose result is [void] the value a call returns stands for
    [avoid_()]. *)
Inductive process_body :=
| Function (call : St -> V -> V * St)
| Coroutine (await_ : St -> V -> St) (yield_ : St -> V * St).

Record process := {
  t_body : process_body;
  t_state : option (St -> process_state);   (* [T::state() const] *)
  t_close : option (St -> St);              (* [T::close()] *)
  result_is_void : bool;                    (* [std::is_same<result, void>] *)
}.

Definition has_process_yield (T : process) : bool :=
  match t_body T with Coroutine _ _ => true | Function _ => false end.

Definition has_process_state (T : process) : bool :=
  match t_state T with Some _ => true | None => false end.

Definition has_process_close (T : process) : bool :=
  match t_close T with Some _ => true | None => false end.

Definition get_process_state (T : process) (x : St) : process_state :=
  match t_state T with Some state => state x | None => await end.

(** [struct identity] *)
Definition identity : process :=
  {| t_body := Function (fun s x => (x, s)); t_state := None; t_close := None;
     result_is_void := false |}.

(** ** The shared process *)
Record shared_process := {
  process_T : process;                     (* the template argument [T] *)
  use_count : nat;                         (* owners of the [std::shared_ptr] control block *)
  _downstream : list sender;
  _process : St;
  _process_message_queue : list V;
  _process_running : bool;
  _process_suspend_count : Z;
  _process_close_queue : bool;
  _process_final : bool;
  _sender_count : Z;
  _receiver_count : Z;
  _upstream : option pid;
}.

(** Field updates *)
Definition set_use_count (x : nat) (sp : shared_process) : shared_process :=
  {| process_T := process_T sp; use_count := x; _downstream := _downstream sp;
     _process := _process sp; _process_message_queue := _process_message_queue sp;
     _process_running := _process_running sp;
     _process_suspend_count := _process_suspend_count sp;
     _process_close_queue := _process_close_queue sp; _process_final := _process_final sp;
     _sender_count := _sender_count sp; _receiver_count := _receiver_count sp;
     _upstream := _upstream sp |}.
Definition set_downstream (x : list sender) (sp : shared_process) : shared_process :=
  {| process_T := process_T sp; use_count := use_count sp; _downstream := x;
     _process := _process sp; _process_message_queue := _process_message_queue sp;
     _process_running := _process_running sp;
     _process_suspend_count := _process_suspend_count sp;
     _process_close_queue := _process_close_queue sp; _process_final := _process_final sp;
     _sender_count := _sender_count sp; _receiver_count := _receiver_count sp;
     _upstream := _upstream sp |}.
Definition set_process (x : St) (sp : shared_process) : shared_process :=
  {| process_T := process_T sp; use_count := use_count sp; _downstream := _downstream sp;
     _process := x; _process_message_queue := _process_message_queue sp;
     _process_running := _process_running sp;
     _process_suspend_count := _process_suspend_count sp;
     _process_close_queue := _process_close_queue sp; _process_final := _process_final sp;
     _sender_count := _sender_count sp; _receiver_count := _receiver_count sp;
     _upstream := _upstream sp |}.
Definition set_process_message_queue (x : list V) (sp : shared_process) : shared_process :=
  {| process_T := process_T sp; use_count := use_count sp; _downstream := _downstream sp;
     _process := _process sp; _process_message_queue := x;
     _process_running := _process_running sp;
     _process_suspend_count := _process_suspend_count sp;
     _process_close_queue := _process_close_queue sp; _process_final := _process_final sp;
     _sender_count := _sender_count sp; _receiver_count := _receiver_count sp;
     _upstream := _upstream sp |}.
Definition set_process_running (x : bool) (sp : shared_process) : shared_process :=
  {| process_T := process_T sp; use_count := use_count sp; _downstream := _downstream sp;
     _process := _process sp; _process_message_queue := _process_message_queue sp;
     _process_running := x; _process_suspend_count := _process_suspend_count sp;
     _process_close_queue := _process_close_queue sp; _process_final := _process_final sp;
     _sender_count := _sender_count sp; _receiver_count := _receiver_count sp;
     _upstream := _upstream sp |}.
Definition set_process_suspend_count (x : Z) (sp : shared_process) : shared_process :=
  {| process_T := process_T sp; use_count := use_count sp; _downstream := _downstream sp;
     _process := _process sp; _process_message_queue := _process_message_queue sp;
     _process_running := _process_running sp; _process_suspend_count := x;
     _process_close_queue := _process_close_queue sp; _process_final := _process_final sp;
     _sender_count := _sender_count sp; _receiver_count := _receiver_count sp;
     _upstream := _upstream sp |}.
Definition set_process_close_queue (x : bool) (sp : shared_process) : shared_process :=
  {| process_T := process_T sp; use_count := use_count sp; _downstream := _downstream sp;
     _process := _process sp; _process_message_queue := _process_message_queue sp;
     _process_running := _process_running sp;
     _process_suspend_count := _process_suspend_count sp; _process_close_queue := x;
     _process_final := _process_final sp; _sender_count := _sender_count sp;
     _receiver_count := _receiver_count sp; _upstream := _upstream sp |}.
Definition set_process_final (x : bool) (sp : shared_process) : shared_process :=
  {| process_T := process_T sp; use_count := use_count sp; _downstream := _downstream sp;
     _process := _process sp; _process_message_queue := _process_message_queue sp;
     _process_running := _process_running sp;
     _process_suspend_count := _process_suspend_count sp;
     _process_close_queue := _process_close_queue sp; _process_final := x;
     _sender_count := _sender_count sp; _receiver_count := _receiver_count sp;
     _upstream := _upstream sp |}.
Definition set_sender_count (x : Z) (sp : shared_process) : shared_process :=
  {| process_T := process_T sp; use_count := use_count sp; _downstream := _downstream sp;
     _process := _process sp; _process_message_queue := _process_message_queue sp;
     _process_running := _process_running sp;
     _process_suspend_count := _process_suspend_count sp;
     _process_close_queue := _process_close_queue sp; _process_final := _process_final sp;
     _sender_count := x; _receiver_count := _receiver_count sp; _upstream := _upstream sp |}.
Definition set_receiver_count (x : Z) (sp : shared_process) : shared_process :=
  {| process_T := process_T sp; use_count := use_count sp; _downstream := _downstream sp;
     _process := _process sp; _process_message_queue := _process_message_queue sp;
     _process_running := _process_running sp;
     _process_suspend_count := _process_suspend_count sp;
     _process_close_queue := _process_close_queue sp; _process_final := _process_final sp;
     _sender_count := _sender_count sp; _receiver_count := x; _upstream := _upstream sp |}.

(** ** Ghost trace *)
Inductive event :=
| EvSend (p : pid) (v : V)        (* [send] enqueued [v] at [p] *)
| EvCts (p : pid)                 (* [p->cts()] was entered *)
| EvCtsUpstream (p u : pid)       (* [p] calls [_upstream->cts()] on [u] *)
| EvAwait (p : pid) (v : V)       (* [_process.await(v)] *)
| EvInvoke (p : pid) (v : V)      (* [_process(v)] in the one-shot step *)
| EvYield (p : pid) (v : V)       (* [_process.yield()] returned [v] *)
| EvClose (p : pid)               (* [x.close()] of [process_close] *)
| EvBroadcast (p : pid) (v : V)   (* [broadcast(v)] was entered *)
| EvTaskDone (p : pid).           (* [task_done()] was entered *)

(** ** The world: heap, allocator, executor queue, trace *)
Record world := {
  heap : gmap pid shared_process;
  next_pid : pid;
  tasks : list pid;      (* closures given to [default_scheduler()], by captured weak pointer *)
  trace : list event;
}.

Inductive result (A : Type) :=
| Ok (a : A) (w : world)
| Fail (f : failure).
Global Arguments Ok {A} a w.
Global Arguments Fail {A} f.

Definition M (A : Type) : Type := world -> result A.

Definition ret {A} (a : A) : M A := fun w => Ok a w.

Definition bind {A B} (m : M A) (k : A -> M B) : M B :=
  fun w => match m w with Ok a w' => k a w' | Fail f => Fail f end.

Definition fail {A} (f : failure) : M A := fun _ => Fail f.

End Model.

Declare Scope proc_scope.
Delimit Scope proc_scope with proc.
Bind Scope proc_scope with M.
Notation "'let*' x ':=' m 'in' k" := (bind m (fun x => k))
  (at level 10, x name, m at level 100, k at level 200) : proc_scope.
Notation "'let*' ' p ':=' m 'in' k" := (bind m (fun x => match x with p => k end))
  (at level 10, p pattern, m at level 100, k at level 200) : proc_scope.
Notation "m1 ;; m2" := (bind m1 (fun _ => m2))
  (at level 100, m2 at level 200, right associativity) : proc_scope.
Local Open Scope proc_scope.

Section Methods.
Context {V St : Type} `{!Inhabited St}.
Abbreviation shared_process := (@shared_process V St).
Abbreviation world := (@world V St).
Abbreviation M := (@M V St).

(** *** Heap and executor primitives *)

(** dereference of [this] or of a shared pointer *)
Definition load (p : pid) : M shared_process :=
  fun w => match heap w !! p with Some sp => Ok sp w | None => Fail (Dangling p) end.

Definition store (p : pid) (sp : shared_process) : M unit :=
  fun w => Ok tt {| heap := <[p := sp]> (heap w); next_pid := next_pid w;
                    tasks := tasks w; trace := trace w |}.

Definition erase (p : pid) : M unit :=
  fun w => Ok tt {| heap := delete p (heap w); next_pid := next_pid w;
                    tasks := tasks w; trace := trace w |}.

(** [std::make_shared] *)
Definition alloc (sp : shared_process) : M pid :=
  fun w => Ok (next_pid w)
              {| heap := <[next_pid w := sp]> (heap w); next_pid := S (next_pid w);
                 tasks := tasks w; trace := trace w |}.

Definition emit (e : event) : M unit :=
  fun w => Ok tt {| heap := heap w; next_pid := next_pid w;
                    tasks := tasks w; trace := trace w ++ [e] |}.

(** Modelled from the spec: the executor hook [schedule(task)] behind
    [default_scheduler()], declared in [stlab/future.hpp].  It accepts a
    callable for asynchronous execution; the callable is kept pending. *)
Definition default_scheduler (task : pid) : M unit :=
  fun w => Ok tt {| heap := heap w; next_pid := next_pid w;
                    tasks := tasks w ++ [task]; trace := trace w |}.

(** [weak_ptr::lock()] *)
Definition lock (s : sender) : M (option pid) :=
  fun w => match sender_p s with
           | Some p => match heap w !! p with Some _ => Ok (Some p) w | None => Ok None w end
           | None => Ok None w
           end.

(** [std::deque::empty()] *)
Definition deque_empty {A} (q : list A) : bool :=
  match q with [] => true | _ :: _ => false end.

Definition when (b : bool) (m : M unit) : M unit := if b then m else ret tt.

(** *** [shared_process] members, in source order *)

(** constructors: [_sender_count = 1; _receiver_count = !is_same<result, void>] *)
Definition make_shared_process (T : process) (f : St) (upstream : option pid)
  : shared_process :=
  {| process_T := T; use_count := 1; _downstream := []; _process := f;
     _process_message_queue := []; _process_running := false;
     _process_suspend_count := 0; _process_close_queue := false;
     _process_final := false; _sender_count := 1;
     _receiver_count := if result_is_void T then 0 else 1;
     _upstream := upstream |}.

(** [run()]: hand the executor a closure holding a weak pointer to [this] *)
Definition run (p : pid) : M unit := default_scheduler p.

Definition add_sender (p : pid) : M unit :=
  let* sp := load p in
  store p (set_sender_count (size_incr (_sender_count sp)) sp).

Definition remove_sender_locked (sp : shared_process) : shared_process * bool :=
  let sp := set_process_close_queue true sp in
  let do_run := (_receiver_count sp =? 0) && negb (_process_running sp) in
  (set_process_running (_process_running sp || do_run) sp, do_run).

Definition remove_sender (p : pid) : M unit :=
  let* sp := load p in
  let sp := set_sender_count (size_decr (_sender_count sp)) sp in
  if _sender_count sp =? 0 then
    let '(sp, do_run) := remove_sender_locked sp in
    store p sp ;; when do_run (run p)
  else store p sp.

Definition add_receiver (p : pid) : M unit :=
  let* sp := load p in
  if result_is_void (process_T sp) then ret tt
  else store p (set_receiver_count (size_incr (_receiver_count sp)) sp).

Definition remove_receiver_locked (sp : shared_process) : shared_process * bool :=
  let do_run := (negb (deque_empty (_process_message_queue sp))
                 || _process_close_queue sp) && negb (_process_running sp) in
  (set_process_running (_process_running sp || do_run) sp, do_run).

Definition remove_receiver (p : pid) : M unit :=
  let* sp := load p in
  if result_is_void (process_T sp) then ret tt
  else
    let sp := set_receiver_count (size_decr (_receiver_count sp)) sp in
    if _receiver_count sp =? 0 then
      let '(sp, do_run) := remove_receiver_locked sp in
      store p sp ;; when do_run (run p)
    else store p sp.

(** [~sender()] *)
Definition sender_destroy (s : sender) : M unit :=
  let* p := lock s in
  match p with Some p => remove_sender p | None => ret tt end.

(** the locked block of [task_done]: the process, [do_run] and [do_final] *)
Definition task_done_locked (sp : shared_process) : shared_process * bool * bool :=
  let do_run := negb (deque_empty (_process_message_queue sp)) || _process_close_queue sp in
  (set_process_running do_run sp, do_run, _process_final sp).

(** [_downstream.clear()]: every element's destructor runs *)
Definition clear_downstream (p : pid) : M unit :=
  let* sp := load p in
  store p (set_downstream [] sp) ;;
  foldr (fun e k => sender_destroy e ;; k) (ret tt) (_downstream sp).

Definition task_done (p : pid) : M unit :=
  emit (EvTaskDone p) ;;
  let* sp := load p in
  let '(sp, do_run, do_final) := task_done_locked sp in
  store p sp ;;
  (if do_run && do_final then fail Assert_run_and_close else ret tt) ;;
  when do_run (run p) ;;
  when do_final (clear_downstream p).

(** the locked block of [cts]: [None] when the assertion fails *)
Definition cts_locked (sp : shared_process) : option (shared_process * bool) :=
  let sp := set_process_suspend_count (size_decr (_process_suspend_count sp)) sp in
  if negb (_process_running sp) then None
  else if _process_suspend_count sp =? 0 then
    if process_state_eqb (get_process_state (process_T sp) (_process sp)) yield
       || negb (deque_empty (_process_message_queue sp))
       || _process_close_queue sp
    then Some (sp, true)
    else Some (set_process_running false sp, false)
  else Some (sp, false).

Definition cts (p : pid) : M unit :=
  emit (EvCts p) ;;
  let* sp := load p in
  match cts_locked sp with
  | None => fail Assert_cts_not_running
  | Some (sp, do_run) => store p sp ;; when do_run (run p)
  end.

(** the locked block shared by [dequeue] and the one-shot [step]:
    the process, [message], [cts] and [do_close] *)
Definition dequeue_locked (sp : shared_process)
  : shared_process * option V * bool * bool :=
  match _process_message_queue sp with
  | [] =>
      let do_close := _process_close_queue sp in
      (set_process_final do_close (set_process_close_queue false sp), None, false, do_close)
  | message :: rest =>
      (set_process_message_queue rest sp, Some message, Nat.eqb (length rest) 0, false)
  end.

(** [if (cts && _upstream) _upstream->cts();] *)
Definition upstream_cts (p : pid) (do_cts : bool) : M unit :=
  let* sp := load p in
  match _upstream sp with
  | Some u => when do_cts (emit (EvCtsUpstream p u) ;; cts u)
  | None => ret tt
  end.

Definition process_close (p : pid) : M unit :=
  let* sp := load p in
  match t_close (process_T sp) with
  | Some close => store p (set_process (close (_process sp)) sp) ;; emit (EvClose p)
  | None => ret tt
  end.

Definition dequeue (await_ : St -> V -> St) (p : pid) : M bool :=
  let* sp := load p in
  let '(sp, message, do_cts, do_close) := dequeue_locked sp in
  store p sp ;;
  upstream_cts p do_cts ;;
  match message with
  | Some m =>
      let* sp := load p in
      store p (set_process (await_ (_process sp) m) sp) ;;
      emit (EvAwait p m) ;;
      ret true
  | None => when do_close (process_close p) ;; ret false
  end.

Definition send_locked (arg : V) (sp : shared_process) : shared_process * bool :=
  let sp := set_process_message_queue (_process_message_queue sp ++ [arg]) sp in
  let do_run := (_receiver_count sp =? 0) && negb (_process_running sp) in
  (set_process_running (_process_running sp || do_run) sp, do_run).

Definition send (p : pid) (arg : V) : M unit :=
  let* sp := load p in
  let '(sp, do_run) := send_locked arg sp in
  store p sp ;;
  emit (EvSend p arg) ;;
  when do_run (run p).

(** [sender::operator()] *)
Definition sender_call (s : sender) (arg : V) : M unit :=
  let* p := lock s in
  match p with Some p => send p arg | None => ret tt end.

(** [for_each_n(p, n, f)] over a deque: [n] steps from the front *)
Fixpoint for_each_n {A} (l : list A) (n : nat) (f : A -> M unit) {struct n} : M unit :=
  match n with
  | O => ret tt
  | S n' =>
      match l with
      | [] => fail Past_the_end
      | x :: l' => f x ;; for_each_n l' n' f
      end
  end.

(** [broadcast], first half: the snapshot of the size under
    [_downstream_mutex], the assertion and [_process_suspend_count = n + 1] *)
Definition broadcast_snapshot (p : pid) : M nat :=
  let* sp := load p in
  let n := length (_downstream sp) in
  if negb (_process_suspend_count sp =? 0) then fail Assert_broadcast_suspended
  else
    store p (set_process_suspend_count ((Z.of_nat n + 1) mod size_modulus) sp) ;;
    ret n.

(** [broadcast], second half: [for_each_n(begin(_downstream), n, ...)] on the
    deque as it is when the iteration starts *)
Definition broadcast_deliver (p : pid) (n : nat) (arg : V) : M unit :=
  let* sp := load p in
  for_each_n (_downstream sp) n (fun e => sender_call e arg).

Definition broadcast (p : pid) (arg : V) : M unit :=
  emit (EvBroadcast p arg) ;;
  let* n := broadcast_snapshot p in
  broadcast_deliver p n arg.

(** the loop of the [step] overload for a process with [yield]; every
    iteration but the last takes a message off the queue, so the queue
    length plus one bounds the iterations *)
Fixpoint step_loop (fuel : nat) (await_ : St -> V -> St) (p : pid) : M unit :=
  match fuel with
  | O => fail Out_of_fuel
  | S fuel' =>
      let* sp := load p in
      if process_state_eqb (get_process_state (process_T sp) (_process sp)) yield
      then ret tt
      else
        let* more := dequeue await_ p in
        if more then step_loop fuel' await_ p else ret tt
  end.

(** what follows the loop: [task_done()] when the state is [await],
    otherwise [broadcast(_process.yield()); cts();] *)
Definition step_tail (yield_ : St -> V * St) (p : pid) : M unit :=
  let* sp := load p in
  if process_state_eqb (get_process_state (process_T sp) (_process sp)) await
  then task_done p
  else
    let '(v, x) := yield_ (_process sp) in
    store p (set_process x sp) ;;
    emit (EvYield p v) ;;
    broadcast p v ;;
    cts p.

(** [step<U>()] with [has_process_yield<U>] *)
Definition step_yield (await_ : St -> V -> St) (yield_ : St -> V * St) (p : pid) : M unit :=
  let* sp := load p in
  step_loop (S (length (_process_message_queue sp))) await_ p ;;
  step_tail yield_ p.

(** [step<U>()] without [has_process_yield<U>] *)
Definition step_call (call : St -> V -> V * St) (p : pid) : M unit :=
  let* sp := load p in
  let '(sp, message, do_cts, do_close) := dequeue_locked sp in
  store p sp ;;
  upstream_cts p do_cts ;;
  match message with
  | Some m =>
      let* sp := load p in
      let '(v, x) := call (_process sp) m in
      store p (set_process x sp) ;;
      emit (EvInvoke p m) ;;
      broadcast p v ;;
      cts p
  | None => task_done p
  end.

Definition step (p : pid) : M unit :=
  let* sp := load p in
  match t_body (process_T sp) with
  | Function call => step_call call p
  | Coroutine await_ yield_ => step_yield await_ yield_ p
  end.

(** the closure of [run()]: [auto p = _p.lock(); if (p) p->step<T>();] *)
Definition task (p : pid) : M unit :=
  let* q := lock (Sender (Some p)) in
  match q with Some q => step q | None => ret tt end.

(** [sender(const sender&)] *)
Definition sender_copy (x : sender) : M sender :=
  let* p := lock x in
  match p with Some p => add_sender p | None => ret tt end ;;
  ret (Sender (sender_p x)).

(** [map(sender<result> f)]: the parameter is copied into the deque and
    destroyed on return *)
Definition map (p : pid) (f : sender) : M unit :=
  let* e := sender_copy f in
  let* sp := load p in
  store p (set_downstream (_downstream sp ++ [e]) sp) ;;
  sender_destroy f.

(** *** Shared pointers *)

(** a copy of a [std::shared_ptr] *)
Definition acquire (p : pid) : M unit :=
  let* sp := load p in
  store p (set_use_count (S (use_count sp)) sp).

(** the end of a [std::shared_ptr]; the last owner expires the weak pointers
    and runs [~shared_process()], which destroys the members in reverse
    order of declaration: [_upstream] first, [_downstream] last.  An
    upstream was allocated before its downstream, so [fuel = p] suffices. *)
Fixpoint release (fuel : nat) (p : pid) : M unit :=
  let* sp := load p in
  match use_count sp with
  | S (S n) => store p (set_use_count (S n) sp)
  | _ =>
      erase p ;;
      match _upstream sp with
      | Some u =>
          match fuel with
          | S fuel' => release fuel' u
          | O => fail Out_of_fuel
          end
      | None => ret tt
      end ;;
      foldr (fun e k => sender_destroy e ;; k) (ret tt) (_downstream sp)
  end.

(** *** [channel<T>()] *)
Definition channel : M (sender * receiver) :=
  let* p := alloc (make_shared_process identity inhabitant None) in
  ret (Sender (Some p), Receiver (Some p) false).

(** *** [class receiver] *)

(** [~receiver()] *)
Definition receiver_destroy (r : receiver) : M unit :=
  match receiver_p r with
  | Some p => when (negb (receiver_ready r)) (remove_receiver p) ;; release p p
  | None => ret tt
  end.

(** [receiver(const receiver& x) : _p(x._p) { if (_p) _p->add_sender(); }];
    [_ready] takes its default member initializer *)
Definition receiver_copy (x : receiver) : M receiver :=
  match receiver_p x with
  | Some p => acquire p ;; add_sender p ;; ret (Receiver (Some p) false)
  | None => ret (Receiver None false)
  end.

Definition set_ready (r : receiver) : M receiver :=
  match receiver_p r with
  | Some p => when (negb (receiver_ready r)) (remove_receiver p)
  | None => ret tt
  end ;;
  ret (Receiver (receiver_p r) true).

Definition ready (r : receiver) : bool := receiver_ready r.

(** [operator|(F&& f) const]: the new process takes a copy of [_p] as its
    [_upstream]; [_p->map] on a null [_p] has no defined behaviour *)
Definition pipe (r : receiver) (F : process) (f : St) : M receiver :=
  match receiver_p r with
  | Some q =>
      acquire q ;;
      let* p := alloc (make_shared_process F f (Some q)) in
      map q (Sender (Some p)) ;;
      ret (Receiver (Some p) false)
  | None => fail Null_receiver
  end.

(** *** [class sender] *)

(** [close()] *)
Definition sender_close (s : sender) : M sender :=
  let* p := lock s in
  match p with Some p => remove_sender p | None => ret tt end ;;
  ret (Sender None).

(** *** The executor: any pending closure is taken and run *)
Definition execute (k : nat) : M unit :=
  fun w =>
    match tasks w !! k with
    | Some p =>
        task p {| heap := heap w; next_pid := next_pid w;
                  tasks := delete k (tasks w); trace := trace w |}
    | None => Ok tt w
    end.

End Methods.

(** ** One shared process under concurrent access

    The member functions of one [shared_process] are called from several
    threads; what serialises them is [_process_mutex] and the atomic
    counters.  An [access] is one such indivisible piece: a locked block, an
    atomic counter operation, or a call of user code.  Besides the object
    the state carries three ghosts: the number of live [sender] handles,
    whether a thread stands between [--_sender_count == 0] and the locked
    block of [remove_sender], and how often [close()] of the user process
    was called.  The sender-facing members are reached through a live
    [sender] handle only (the members of [class sender] are their only
    callers); [perform] refuses an access that is not enabled. *)
Section Concurrent.
Context {V St : Type}.
Abbreviation shared_process := (@shared_process V St).

Record concurrent := {
  c_object : shared_process;
  c_senders : nat;       (* live [sender] handles *)
  c_closing : bool;      (* a [remove_sender] saw zero and waits for the mutex *)
  c_closes : nat;        (* calls of [_process.close()] *)
}.

Inductive access :=
| Sender_call (arg : V)       (* [sender::operator()]: the locked block of [send] *)
| Sender_copy                 (* [sender(const sender&)]: [++_sender_count] *)
| Sender_end                  (* [~sender()], [close()]: [--_sender_count] *)
| Sender_overwritten          (* defaulted move assignment over a live handle *)
| Receiver_copy               (* [receiver(const receiver&)]: [++_sender_count] *)
| Remove_sender_block         (* the locked block of [remove_sender] *)
| Receiver_count (n : Z)      (* [add_receiver] and the decrement of [remove_receiver] *)
| Remove_receiver_block       (* the locked block of [remove_receiver] *)
| Cts_block                   (* the locked block of [cts] *)
| Dequeue_block               (* the locked block of [dequeue] or of the one-shot [step],
                                 and the [process_close] that [dequeue] lets follow *)
| Task_done_block             (* the locked block of [task_done] *)
| Suspend (n : nat)           (* [broadcast]: [_process_suspend_count = n + 1] *)
| Downstream (d : list sender)(* [map], [_downstream.clear()] *)
| User (x : St).              (* [await], [yield], [close], a call of the process *)

Definition with_object (sp : shared_process) (c : concurrent) : concurrent :=
  {| c_object := sp; c_senders := c_senders c; c_closing := c_closing c;
     c_closes := c_closes c |}.

Definition perform (a : access) (c : concurrent) : option concurrent :=
  let sp := c_object c in
  match a with
  | Sender_call arg =>
      if bool_decide (0 < c_senders c)%nat
      then Some (with_object (send_locked arg sp).1 c)
      else None
  | Sender_copy =>
      if bool_decide (0 < c_senders c)%nat && bool_decide (_sender_count sp + 1 < size_modulus)
      then Some {| c_object := set_sender_count (size_incr (_sender_count sp)) sp;
                   c_senders := S (c_senders c); c_closing := c_closing c;
                   c_closes := c_closes c |}
      else None
  | Sender_end =>
      if bool_decide (0 < c_senders c)%nat
      then
        let sp := set_sender_count (size_decr (_sender_count sp)) sp in
        Some {| c_object := sp; c_senders := pred (c_senders c);
                c_closing := c_closing c || (_sender_count sp =? 0);
                c_closes := c_closes c |}
      else None
  | Sender_overwritten =>
      if bool_decide (0 < c_senders c)%nat
      then Some {| c_object := sp; c_senders := pred (c_senders c);
                   c_closing := c_closing c; c_closes := c_closes c |}
      else None
  | Receiver_copy =>
      if bool_decide (_sender_count sp + 1 < size_modulus)
      then Some (with_object (set_sender_count (size_incr (_sender_count sp)) sp) c)
      else None
  | Remove_sender_block =>
      if c_closing c
      then Some {| c_object := (remove_sender_locked sp).1; c_senders := c_senders c;
                   c_closing := false; c_closes := c_closes c |}
      else None
  | Receiver_count n => Some (with_object (set_receiver_count n sp) c)
  | Remove_receiver_block => Some (with_object (remove_receiver_locked sp).1 c)
  | Cts_block =>
      match cts_locked sp with
      | Some (sp, _) => Some (with_object sp c)
      | None => None
      end
  | Dequeue_block =>
      let '(sp', _, _, do_close) := dequeue_locked sp in
      Some {| c_object := sp'; c_senders := c_senders c; c_closing := c_closing c;
              c_closes := if do_close && has_process_yield (process_T sp)
                             && has_process_close (process_T sp)
                          then S (c_closes c) else c_closes c |}
  | Task_done_block =>
      let '(sp', do_run, do_final) := task_done_locked sp in
      if do_run && do_final then None else Some (with_object sp' c)
  | Suspend n =>
      Some (with_object (set_process_suspend_count
                           ((Z.of_nat n + 1) mod size_modulus) sp) c)
  | Downstream d => Some (with_object (set_downstream d sp) c)
  | User x => Some (with_object (set_process x sp) c)
  end.

(** a schedule of accesses, performed in order *)
Fixpoint perform_all (l : list access) (c : concurrent) : option concurrent :=
  match l with
  | [] => Some c
  | a :: l' =>
      match perform a c with
      | Some c' => perform_all l' c'
      | None => None
      end
  end.

(** a new shared process: the constructor's [_sender_count = 1] stands for
    the one [sender] that [channel()] or [operator|] makes for it *)
Definition created (T : process) (f : St) (upstream : option pid) : concurrent :=
  {| c_object := make_shared_process T f upstream; c_senders := 1;
     c_closing := false; c_closes := 0 |}.

End Concurrent.

(** ** A producer, an identity channel and one mapping receiver

    [auto ch = channel<T>(); auto r = ch.second | f;] with both receivers
    set ready, the producer calling [ch.first] and the executor running
    pending closures in any order and at any time in between. *)
Section Pipeline.
Context {V St : Type} `{!Inhabited St}.

(** a plain unary function as the stage's process, as in [r | [](int x){...}] *)
Definition fn (f : V -> V) : @process V St :=
  {| t_body := Function (fun s x => (f x, s)); t_state := None; t_close := None;
     result_is_void := false |}.

Definition empty_world : @world V St :=
  {| heap := ∅; next_pid := 0%nat; tasks := []; trace := [] |}.

Definition pipeline_setup (f : V -> V) (x : St) : @M V St sender :=
  let* '(s, r0) := channel in
  let* r1 := pipe r0 (fn f) x in
  let* _ := set_ready r0 in
  let* _ := set_ready r1 in
  ret s.

Inductive move :=
| Produce (v : V)     (* the producer calls the sender *)
| Execute (k : nat).  (* the executor runs its [k]-th pending closure *)

Fixpoint play (s : sender) (ms : list move) : @M V St unit :=
  match ms with
  | [] => ret tt
  | Produce v :: ms' => sender_call s v ;; play s ms'
  | Execute k :: ms' => execute k ;; play s ms'
  end.

Fixpoint produced (ms : list move) : list V :=
  match ms with
  | [] => []
  | Produce v :: ms' => v :: produced ms'
  | Execute _ :: ms' => produced ms'
  end.

(** the executor runs its oldest pending closure, [n] times *)
Fixpoint run_all (n : nat) : @M V St unit :=
  match n with
  | O => ret tt
  | S n' => execute 0 ;; run_all n'
  end.

(** what stage [p] was invoked on, and what it broadcast, in order *)
Fixpoint consumed (p : pid) (tr : list (@event V)) : list V :=
  match tr with
  | [] => []
  | EvInvoke q v :: tr' => if Nat.eqb p q then v :: consumed p tr' else consumed p tr'
  | _ :: tr' => consumed p tr'
  end.

Fixpoint outputs (p : pid) (tr : list (@event V)) : list V :=
  match tr with
  | [] => []
  | EvBroadcast q v :: tr' => if Nat.eqb p q then v :: outputs p tr' else outputs p tr'
  | _ :: tr' => outputs p tr'
  end.

(** how often stage [p] called [_upstream->cts()] *)
Fixpoint upstream_cts_count (p : pid) (tr : list (@event V)) : nat :=
  match tr with
  | [] => 0
  | EvCtsUpstream q _ :: tr' =>
      if Nat.eqb p q then S (upstream_cts_count p tr') else upstream_cts_count p tr'
  | _ :: tr' => upstream_cts_count p tr'
  end.

(** how often [close()] of the process of stage [p] was called *)
Fixpoint closes (p : pid) (tr : list (@event V)) : nat :=
  match tr with
  | [] => 0
  | EvClose q :: tr' => if Nat.eqb p q then S (closes p tr') else closes p tr'
  | _ :: tr' => closes p tr'
  end.

(** The worlds this pipeline is ever in, by phase: nothing to do; the head
    is scheduled with [q] queued; the head waits for the [cts] of the stage,
    which is scheduled with [v] queued. *)
Inductive phase :=
| Idle
| Head_scheduled (q : list V)
| Stage_scheduled (q : list V) (v : V).

Definition head_process (running : bool) (suspend : Z) (q : list V) : @shared_process V St :=
  {| process_T := identity; use_count := 2; _downstream := [Sender (Some 1%nat)];
     _process := inhabitant; _process_message_queue := q; _process_running := running;
     _process_suspend_count := suspend; _process_close_queue := false;
     _process_final := false; _sender_count := 1; _receiver_count := 0;
     _upstream := None |}.

Definition stage_process (f : V -> V) (x : St) (running : bool) (q : list V)
  : @shared_process V St :=
  {| process_T := fn f; use_count := 1; _downstream := [];
     _process := x; _process_message_queue := q; _process_running := running;
     _process_suspend_count := 0; _process_close_queue := false;
     _process_final := false; _sender_count := 1; _receiver_count := 0;
     _upstream := Some 0%nat |}.

Definition phase_world (f : V -> V) (x : St) (ph : phase) (tr : list event) : @world V St :=
  match ph with
  | Idle =>
      {| heap := <[1%nat := stage_process f x false []]> {[ 0%nat := head_process false 0 [] ]};
         next_pid := 2%nat; tasks := []; trace := tr |}
  | Head_scheduled q =>
      {| heap := <[1%nat := stage_process f x false []]> {[ 0%nat := head_process true 0 q ]};
         next_pid := 2%nat; tasks := [0%nat]; trace := tr |}
  | Stage_scheduled q v =>
      {| heap := <[1%nat := stage_process f x true [v]]> {[ 0%nat := head_process true 1 q ]};
         next_pid := 2%nat; tasks := [1%nat]; trace := tr |}
  end.

(** the values sent and not yet through the mapping stage *)
Definition pending (ph : phase) : list V :=
  match ph with
  | Idle => []
  | Head_scheduled q => q
  | Stage_scheduled q v => v :: q
  end.

(** the executor moves left until the pipeline is idle *)
Definition remaining (ph : phase) : nat :=
  match ph with
  | Idle => 0
  | Head_scheduled q => S (2 * length q)
  | Stage_scheduled q _ => S (S (2 * length q))
  end.

(** the phase one move leads to, and the events it appends *)
Definition after (f : V -> V) (m : move) (ph : phase) : phase * list (@event V) :=
  match m, ph with
  | Produce v, Idle => (Head_scheduled [v], [EvSend 0%nat v])
  | Produce v, Head_scheduled q => (Head_scheduled (q ++ [v]), [EvSend 0%nat v])
  | Produce v, Stage_scheduled q u => (Stage_scheduled (q ++ [v]) u, [EvSend 0%nat v])
  | Execute 0, Head_scheduled [] => (Idle, [EvTaskDone 0%nat])
  | Execute 0, Head_scheduled (v :: q) =>
      (Stage_scheduled q v,
       [EvInvoke 0%nat v; EvBroadcast 0%nat v; EvSend 1%nat v; EvCts 0%nat])
  | Execute 0, Stage_scheduled q v =>
      (match q with [] => Idle | _ :: _ => Head_scheduled q end,
       [EvCtsUpstream 1%nat 0%nat; EvCts 0%nat; EvInvoke 1%nat v;
        EvBroadcast 1%nat (f v); EvCts 1%nat])
  | Execute _, _ => (ph, [])
  end.

Fixpoint after_all (f : V -> V) (ms : list move) (ph : phase) : phase * list (@event V) :=
  match ms with
  | [] => (ph, [])
  | m :: ms' =>
      let '(ph1, e1) := after f m ph in
      let '(ph2, e2) := after_all f ms' ph1 in
      (ph2, e1 ++ e2)
  end.

End Pipeline.

(** ** The same pipeline before its receivers are ready and after its
    sender is closed

    [setup] differs from [pipeline_setup] in leaving the two [set_ready]
    calls to the program, which may place them anywhere among the sends
    and the runs of the executor; [sender_close] may follow any schedule. *)
Section Lifecycle.
Context {V St : Type} `{!Inhabited St}.

(** [auto ch = channel<T>(); auto r = ch.second | f;] *)
Definition pipeline_objects (f : V -> V) (x : St) : @M V St (sender * receiver * receiver) :=
  let* '(s, r0) := channel in
  let* r1 := pipe r0 (fn f) x in
  ret (s, r0, r1).

(** the head and the stage of the pipeline, by the fields that vary *)
Definition head_object (receivers senders : Z) (running : bool) (suspend : Z)
    (close_queue final : bool) (down : list sender) (q : list V) : @shared_process V St :=
  {| process_T := identity; use_count := 2; _downstream := down;
     _process := inhabitant; _process_message_queue := q; _process_running := running;
     _process_suspend_count := suspend; _process_close_queue := close_queue;
     _process_final := final; _sender_count := senders; _receiver_count := receivers;
     _upstream := None |}.

Definition stage_object (f : V -> V) (x : St) (receivers senders : Z)
    (running close_queue final : bool) (q : list V) : @shared_process V St :=
  {| process_T := fn f; use_count := 1; _downstream := [];
     _process := x; _process_message_queue := q; _process_running := running;
     _process_suspend_count := 0; _process_close_queue := close_queue;
     _process_final := final; _sender_count := senders; _receiver_count := receivers;
     _upstream := Some 0%nat |}.

Definition two_objects (h s : @shared_process V St) (ts : list pid) (tr : list event)
  : @world V St :=
  {| heap := <[1%nat := s]> {[ 0%nat := h ]}; next_pid := 2%nat; tasks := ts; trace := tr |}.

(** the head not ready: it holds [q], nothing is scheduled *)
Definition unready_world (f : V -> V) (x : St) (stage_ready : bool) (q : list V)
    (tr : list event) : @world V St :=
  two_objects (head_object 1 1 false 0 false false [Sender (Some 1%nat)] q)
              (stage_object f x (if stage_ready then 0 else 1) 1 false false false [])
              [] tr.

(** the head ready, the stage not: the phases of [phase_world], but a value
    the head has passed on waits in the queue of the stage, which is not
    scheduled, and the head waits for its [cts] *)
Definition half_world (f : V -> V) (x : St) (ph : phase) (tr : list event) : @world V St :=
  match ph with
  | Idle =>
      two_objects (head_object 0 1 false 0 false false [Sender (Some 1%nat)] [])
                  (stage_object f x 1 1 false false false []) [] tr
  | Head_scheduled q =>
      two_objects (head_object 0 1 true 0 false false [Sender (Some 1%nat)] q)
                  (stage_object f x 1 1 false false false []) [0%nat] tr
  | Stage_scheduled q v =>
      two_objects (head_object 0 1 true 1 false false [Sender (Some 1%nat)] q)
                  (stage_object f x 1 1 false false false [v]) [] tr
  end.

Definition half_after (m : move) (ph : phase) : phase * list (@event V) :=
  match m, ph with
  | Produce v, Idle => (Head_scheduled [v], [EvSend 0%nat v])
  | Produce v, Head_scheduled q => (Head_scheduled (q ++ [v]), [EvSend 0%nat v])
  | Produce v, Stage_scheduled q u => (Stage_scheduled (q ++ [v]) u, [EvSend 0%nat v])
  | Execute 0, Head_scheduled [] => (Idle, [EvTaskDone 0%nat])
  | Execute 0, Head_scheduled (v :: q) =>
      (Stage_scheduled q v,
       [EvInvoke 0%nat v; EvBroadcast 0%nat v; EvSend 1%nat v; EvCts 0%nat])
  | Execute _, _ => (ph, [])
  end.

Fixpoint half_after_all (ms : list move) (ph : phase) : phase * list (@event V) :=
  match ms with
  | [] => (ph, [])
  | m :: ms' =>
      let '(ph1, e1) := half_after m ph in
      let '(ph2, e2) := half_after_all ms' ph1 in
      (ph2, e1 ++ e2)
  end.

(** the phase a queue [q] at the head starts in when the head becomes ready *)
Definition started (q : list V) : phase :=
  match q with [] => Idle | _ :: _ => Head_scheduled q end.

(** The pipeline once its sender is closed: the head is scheduled with [q]
    queued and its close pending; the stage is scheduled with [v], the head
    waiting for its [cts]; the head is final and has dropped its downstream,
    the stage is scheduled with its close pending; both are final. *)
Inductive closing :=
| Closing_head (q : list V)
| Closing_stage (q : list V) (v : V)
| Stage_closing
| Closed.

Definition closing_world (f : V -> V) (x : St) (c : closing) (tr : list event) : @world V St :=
  match c with
  | Closing_head q =>
      two_objects (head_object 0 0 true 0 true false [Sender (Some 1%nat)] q)
                  (stage_object f x 0 1 false false false []) [0%nat] tr
  | Closing_stage q v =>
      two_objects (head_object 0 0 true 1 true false [Sender (Some 1%nat)] q)
                  (stage_object f x 0 1 true false false [v]) [1%nat] tr
  | Stage_closing =>
      two_objects (head_object 0 0 false 0 false true [] [])
                  (stage_object f x 0 0 true true false []) [1%nat] tr
  | Closed =>
      two_objects (head_object 0 0 false 0 false true [] [])
                  (stage_object f x 0 0 false false true []) [] tr
  end.

(** where [close()] of the sender takes the pipeline *)
Definition closing_of (ph : phase) : closing :=
  match ph with
  | Idle => Closing_head []
  | Head_scheduled q => Closing_head q
  | Stage_scheduled q v => Closing_stage q v
  end.

(** one run of the oldest pending closure *)
Definition closing_after (f : V -> V) (c : closing) : closing * list (@event V) :=
  match c with
  | Closing_head [] => (Stage_closing, [EvTaskDone 0%nat])
  | Closing_head (v :: q) =>
      (Closing_stage q v,
       [EvInvoke 0%nat v; EvBroadcast 0%nat v; EvSend 1%nat v; EvCts 0%nat])
  | Closing_stage q v =>
      (Closing_head q,
       [EvCtsUpstream 1%nat 0%nat; EvCts 0%nat; EvInvoke 1%nat v;
        EvBroadcast 1%nat (f v); EvCts 1%nat])
  | Stage_closing => (Closed, [EvTaskDone 1%nat])
  | Closed => (Closed, [])
  end.

Fixpoint closing_after_n (f : V -> V) (n : nat) (c : closing) : closing * list (@event V) :=
  match n with
  | O => (c, [])
  | S n' =>
      let '(c1, e1) := closing_after f c in
      let '(c2, e2) := closing_after_n f n' c1 in
      (c2, e1 ++ e2)
  end.

Definition closing_pending (c : closing) : list V :=
  match c with
  | Closing_head q => q
  | Closing_stage q v => v :: q
  | Stage_closing | Closed => []
  end.

Definition closing_remaining (c : closing) : nat :=
  match c with
  | Closing_head q => 2 * length q + 2
  | Closing_stage q _ => 2 * length q + 3
  | Stage_closing => 1
  | Closed => 0
  end.

(** The pipeline once the receiver of the stage is destroyed, the stage
    with it: the head is idle; scheduled with [q] queued; or has broadcast
    to the expired sender in its deque and waits for a [cts] that nobody
    will send, [stale] telling whether the closure of the stage is still
    pending. *)
Inductive orphan :=
| Orphan_idle
| Orphan_head (q : list V)
| Orphan_stalled (q : list V) (stale : bool).

Definition orphan_object (running : bool) (suspend : Z) (q : list V) : @shared_process V St :=
  {| process_T := identity; use_count := 1; _downstream := [Sender (Some 1%nat)];
     _process := inhabitant; _process_message_queue := q; _process_running := running;
     _process_suspend_count := suspend; _process_close_queue := false;
     _process_final := false; _sender_count := 1; _receiver_count := 0;
     _upstream := None |}.

Definition orphan_world (o : orphan) (tr : list event) : @world V St :=
  match o with
  | Orphan_idle =>
      {| heap := {[ 0%nat := orphan_object false 0 [] ]}; next_pid := 2%nat;
         tasks := []; trace := tr |}
  | Orphan_head q =>
      {| heap := {[ 0%nat := orphan_object true 0 q ]}; next_pid := 2%nat;
         tasks := [0%nat]; trace := tr |}
  | Orphan_stalled q stale =>
      {| heap := {[ 0%nat := orphan_object true 1 q ]}; next_pid := 2%nat;
         tasks := if stale then [1%nat] else []; trace := tr |}
  end.

Definition orphan_of (ph : phase) : orphan :=
  match ph with
  | Idle => Orphan_idle
  | Head_scheduled q => Orphan_head q
  | Stage_scheduled q _ => Orphan_stalled q true
  end.

Definition orphan_after (m : move) (o : orphan) : orphan * list (@event V) :=
  match m, o with
  | Produce v, Orphan_idle => (Orphan_head [v], [EvSend 0%nat v])
  | Produce v, Orphan_head q => (Orphan_head (q ++ [v]), [EvSend 0%nat v])
  | Produce v, Orphan_stalled q stale => (Orphan_stalled (q ++ [v]) stale, [EvSend 0%nat v])
  | Execute 0, Orphan_head [] => (Orphan_idle, [EvTaskDone 0%nat])
  | Execute 0, Orphan_head (v :: q) =>
      (Orphan_stalled q false, [EvInvoke 0%nat v; EvBroadcast 0%nat v; EvCts 0%nat])
  | Execute 0, Orphan_stalled q true => (Orphan_stalled q false, [])
  | Execute _, _ => (o, [])
  end.

Fixpoint orphan_after_all (ms : list move) (o : orphan) : orphan * list (@event V) :=
  match ms with
  | [] => (o, [])
  | m :: ms' =>
      let '(o1, e1) := orphan_after m o in
      let '(o2, e2) := orphan_after_all ms' o1 in
      (o2, e1 ++ e2)
  end.

Definition orphan_queue (o : orphan) : list V :=
  match o with
  | Orphan_idle => []
  | Orphan_head q | Orphan_stalled q _ => q
  end.

End Lifecycle.

(** ** [struct function_process<R (Args...)>]

    [_f] and [_bound] are [std::function] objects; [_bound] is empty until
    the first [await], and calling an empty one throws
    [std::bad_function_call]: [function_process.yield] answers [None]
    then, having set [_done].  The argument pack is one value. *)
Module function_process.
Section Members.
Context {Arg R : Type}.

Record t := {
  _f : Arg -> R;
  _bound : option (unit -> R);
  _done : bool;
}.

(** [function_process(F&& f) : _f(std::forward<F>(f)) { }] *)
Definition make (f : Arg -> R) : t := {| _f := f; _bound := None; _done := true |}.

Definition state (x : t) : process_state := if _done x then await else yield.

Definition await (x : t) (a : Arg) : t :=
  {| _f := _f x; _bound := Some (fun _ => _f x a); _done := false |}.

Definition yield (x : t) : t * option R :=
  ({| _f := _f x; _bound := _bound x; _done := true |},
   match _bound x with
   | Some bound => Some (bound tt)
   | None => None
   end).

(** a caller's use of the process: [await] and [yield] in any order *)
Inductive call :=
| Await (a : Arg)
| Yield.

Definition after (x : t) (c : call) : t :=
  match c with
  | Await a => await x a
  | Yield => (yield x).1
  end.

Definition calls (l : list call) (x : t) : t := foldl after x l.

End Members.
End function_process.

(** ** Concrete processes and worlds used by the examples *)

(** a world holding one process at [0] *)
Definition single {V St : Type} (sp : @shared_process V St) : @world V St :=
  {| heap := {[ 0%nat := sp ]}; next_pid := 1%nat; tasks := []; trace := [] |}.

(** an identity head that has broadcast and waits for its last [cts] *)
Definition suspended_head : @shared_process Z unit :=
  set_process_suspend_count 1
    (set_process_running true (make_shared_process identity tt None)).

(** a stateful process over a buffer of integers: [await] buffers its
    argument, [yield] hands out the sum of the buffer and empties it, [state]
    is [await] on an empty buffer, [yield] on three or more values and
    [await_try] in between; [close] leaves the buffer alone *)
Definition batcher : @process Z (list Z) :=
  {| t_body := Coroutine (fun s x => s ++ [x]) (fun s => (foldr Z.add 0 s, []));
     t_state := Some (fun s => match s with
                               | [] => await
                               | [_] | [_; _] => await_try
                               | _ => yield
                               end);
     t_close := Some (fun s => s);
     result_is_void := false |}.

(** a running [batcher] stage holding the buffer [s], its queue empty *)
Definition batcher_stage (s : list Z) : @shared_process Z (list Z) :=
  set_process_running true (set_receiver_count 0 (make_shared_process batcher s None)).

(** what a computation leaves behind; a failed one leaves nothing *)
Definition world_of {V St A : Type} (r : @result V St A) : @world V St :=
  match r with Ok _ w => w | Fail _ => empty_world end.

(** [auto ch = channel<int>(); auto r = ch.second | f;] with both receivers
    still held and not ready: head [0], stage [1] *)
Definition two_stages (f : Z -> Z) : @world Z unit :=
  world_of ((let* '(_, r0) := channel in pipe r0 (fn f) tt) empty_world).

(** [two_stages] after the head has taken the snapshot of a broadcast and,
    before it iterates over its deque, a second stage [2] has been attached
    to the head with [operator|] *)
Definition late_joiner : @world Z unit :=
  world_of ((let* _ := broadcast_snapshot 0%nat in
             pipe (Receiver (Some 0%nat) false) (fn Z.succ) tt) (two_stages Z.succ)).

(** [auto ch = channel<int>();] with both handles held *)
Definition fresh_channel : @world Z unit := world_of (channel empty_world).

(** a channel whose receiver was set ready, was sent [5] and then destroyed:
    the only shared pointer is gone, the sender and the scheduled closure
    are left with expired weak pointers *)
Definition orphaned : @world Z unit :=
  world_of ((let* '(s, r) := channel in
             let* r := set_ready r in
             sender_call s 5 ;; receiver_destroy r) empty_world).

(** a schedule of accesses to an identity head: two sends, the last sender
    gone, the close noticed, three dequeues *)
Definition close_schedule : list (@access Z unit) :=
  [Sender_call 1; Sender_call 2; Sender_end; Remove_sender_block;
   Dequeue_block; Dequeue_block; Dequeue_block].

Definition closed_head : @concurrent Z unit :=
  default (created identity tt None)
          (perform_all close_schedule (created identity tt None)).

(** a callable with a [close()] member and no [yield] *)
Definition closable (f : Z -> Z) : @process Z unit :=
  {| t_body := Function (fun s x => (f x, s)); t_state := None;
     t_close := Some (fun s => s); result_is_void := false |}.

(** head and one stage [F], both ready; [1] is sent, the sender is closed,
    and the executor runs until nothing is pending *)
Definition closed_pipeline {St : Type} `{!Inhabited St} (F : @process Z St) (x : St)
  : @world Z St :=
  world_of ((let* '(s, r0) := channel in
             let* r1 := pipe r0 F x in
             let* _ := set_ready r0 in
             let* _ := set_ready r1 in
             sender_call s 1 ;;
             let* _ := sender_close s in
             run_all 10) empty_world).

(** head, a [batcher] stage and a second [batcher] stage behind it, all
    receivers ready; [1] is sent, the sender is destroyed, and the executor
    runs until nothing is pending *)
Definition closed_three_stages : @world Z (list Z) :=
  world_of ((let* '(s, r0) := channel in
             let* r1 := pipe r0 batcher [] in
             let* r2 := pipe r1 batcher [] in
             let* _ := set_ready r0 in
             let* _ := set_ready r1 in
             let* _ := set_ready r2 in
             sender_call s 1 ;;
             sender_destroy s ;;
             run_all 10) empty_world).

(** head, a [batcher] stage, a plain function and a second [batcher] stage,
    all receivers ready; [1] is sent, the sender is destroyed, and the
    executor runs until nothing is pending *)
Definition closed_four_stages : @world Z (list Z) :=
  world_of ((let* '(s, r0) := channel in
             let* r1 := pipe r0 batcher [] in
             let* r2 := pipe r1 (fn Z.succ) [] in
             let* r3 := pipe r2 batcher [] in
             let* _ := set_ready r0 in
             let* _ := set_ready r1 in
             let* _ := set_ready r2 in
             let* _ := set_ready r3 in
             sender_call s 1 ;;
             sender_destroy s ;;
             run_all 11) empty_world).

(** the same three processes, all receivers ready; [1] and [2] are sent and
    the executor has run the closure of the head once: the first stage holds
    [1] and has a closure pending, the head holds [2] and is suspended *)
Definition sent_three_stages : @world Z (list Z) :=
  world_of ((let* '(s, r0) := channel in
             let* r1 := pipe r0 batcher [] in
             let* r2 := pipe r1 batcher [] in
             let* _ := set_ready r0 in
             let* _ := set_ready r1 in
             let* _ := set_ready r2 in
             sender_call s 1 ;;
             sender_call s 2 ;;
             execute 0) empty_world).

(** [auto ch = channel<int>(); auto r = ch.second | f;] after [ch.second]
    was destroyed: the stage is the only owner of the head *)
Definition stage_owns_head : @world Z unit :=
  world_of ((let* '(_, r0) := channel in
             let* _ := pipe r0 (fn Z.succ) tt in
             receiver_destroy r0) empty_world).

(** a running [batcher] stage with an empty buffer and four messages queued *)
Definition queued_batcher : @world Z (list Z) :=
  single (set_process_message_queue [1; 2; 3; 4] (batcher_stage [])).

(** accesses to a process whose receiver has been copied: a send, the end
    of the only sender, two dequeues and the end of the step *)
Definition after_copy_schedule : list (@access Z unit) :=
  [Sender_call 1; Sender_end; Dequeue_block; Dequeue_block; Task_done_block].

(** ** Theorems *)

Create HintDb emits.
Create HintDb pres.
Create HintDb fuel.
Create HintDb keeps.
Create HintDb grow.
Create HintDb tally.
Create HintDb order.

Ltac solve_lookup :=
  cbn [heap];
  repeat first
    [ rewrite lookup_insert_eq
    | rewrite lookup_insert_ne by (first [assumption | apply not_eq_sym; assumption | congruence | lia]) ];
  first [eassumption | reflexivity].

Section Theorems.
Context {V St : Type} `{!Inhabited St}.
Abbreviation M := (@M V St).
Abbreviation event := (@event V).
Abbreviation world := (@world V St).
Abbreviation shared_process := (@shared_process V St).
Abbreviation concurrent := (@concurrent V St).
Abbreviation process := (@process V St).
Implicit Types (w : world) (sp : shared_process) (p : pid).

(** *** Protocol invariants

    The predicates the theorems below are stated with: what a member
    function may append to the trace, the phases of the close of one
    process, the moves a program can make through the public interface and
    the invariant they keep. *)

(** [m] only appends events, each of them satisfying [P] *)
Definition emits (P : event -> Prop) {A} (m : M A) : Prop :=
  forall w a w', m w = Ok a w' -> exists evs, trace w' = trace w ++ evs /\ Forall P evs.

(** the events of the transport itself: no call of user code, no [cts] to
    an upstream *)
Definition plain (e : event) : Prop :=
  match e with
  | EvSend _ _ | EvCts _ | EvBroadcast _ _ | EvTaskDone _ => True
  | _ => False
  end.

(** The close of a process passes through four phases: senders may still be
    alive; the last one is gone and its [remove_sender] waits for the mutex;
    [_process_close_queue] is set; the close has been applied by a dequeue
    that found the queue empty. *)
Definition close_phases (c : concurrent) : Prop :=
  let sp := c_object c in
  (Z.of_nat (c_senders c) <= _sender_count sp < size_modulus)
  /\ ((c_closing c = false /\ _process_close_queue sp = false
       /\ _process_final sp = false /\ c_closes c = 0%nat)
      \/ (c_senders c = 0%nat /\ c_closing c = true /\ _process_close_queue sp = false
          /\ _process_final sp = false /\ c_closes c = 0%nat)
      \/ (c_senders c = 0%nat /\ c_closing c = false /\ _process_close_queue sp = true
          /\ _process_final sp = false /\ c_closes c = 0%nat)
      \/ (c_senders c = 0%nat /\ c_closing c = false /\ _process_close_queue sp = false
          /\ _process_message_queue sp = [] /\ (c_closes c <= 1)%nat
          /\ (c_closes c = 1%nat -> has_process_yield (process_T sp) = true))).

(** a process whose [close()] the transport can ever call: it has [yield],
    so its [step] goes through [dequeue], and it has [close] *)
Definition hook_capable (T : process) : bool :=
  has_process_yield T && has_process_close T.

(** One move of a program that uses the public interface: [channel()], the
    members of [class sender] on a sender that [channel()] has returned (the
    senders that [operator|] makes stay inside the library), the members of
    [class receiver], and the executor running a pending closure.  Handles
    are not counted: a move is possible whether or not the program still
    holds a handle for it, so the programs are among the runs. *)
Inductive api_step : world -> world -> Prop :=
| Api_channel w s r w' :
    channel w = Ok (s, r) w' -> api_step w w'
| Api_sender_call w p sp v w' :
    heap w !! p = Some sp -> _upstream sp = None ->
    sender_call (Sender (Some p)) v w = Ok tt w' -> api_step w w'
| Api_sender_copy w p sp s' w' :
    heap w !! p = Some sp -> _upstream sp = None ->
    sender_copy (Sender (Some p)) w = Ok s' w' -> api_step w w'
| Api_sender_end w p sp w' :
    heap w !! p = Some sp -> _upstream sp = None ->
    sender_destroy (Sender (Some p)) w = Ok tt w' -> api_step w w'
| Api_receiver_copy w r r' w' :
    receiver_copy r w = Ok r' w' -> api_step w w'
| Api_receiver_end w r w' :
    receiver_destroy r w = Ok tt w' -> api_step w w'
| Api_receiver_assigned w q w' :      (* the defaulted move assignment drops [_p] *)
    release q q w = Ok tt w' -> api_step w w'
| Api_set_ready w r r' w' :
    set_ready r w = Ok r' w' -> api_step w w'
| Api_pipe w r F f r' w' :
    pipe r F f w = Ok r' w' -> api_step w w'
| Api_execute w k w' :
    execute k w = Ok tt w' -> api_step w w'.

(** the states of such programs *)
Definition reachable (w : world) : Prop := rtc api_step empty_world w.

(** What the moves keep: objects, upstream pointers, downstream entries and
    closed processes are allocated; a downstream entry leads to an object
    whose upstream is the holder of the entry; a final process that has the
    hook has been closed; a process is told to close, and is closed, only
    after its upstream has been closed, if that one has the hook. *)
Record close_inv (w : world) : Prop := {
  inv_dom : forall p sp, heap w !! p = Some sp -> (p < next_pid w)%nat;
  inv_up : forall p sp u, heap w !! p = Some sp -> _upstream sp = Some u -> (u < next_pid w)%nat;
  inv_older : forall p sp u, heap w !! p = Some sp -> _upstream sp = Some u -> (u < p)%nat;
  inv_closed : forall p, (1 <= closes p (trace w))%nat -> (p < next_pid w)%nat;
  inv_entry : forall q sq p,
      heap w !! q = Some sq -> Sender (Some p) ∈ _downstream sq -> (p < next_pid w)%nat;
  inv_down : forall q sq p sp,
      heap w !! q = Some sq -> Sender (Some p) ∈ _downstream sq ->
      heap w !! p = Some sp -> _upstream sp = Some q;
  inv_final : forall q sq,
      heap w !! q = Some sq -> _process_final sq = true ->
      hook_capable (process_T sq) = true -> (1 <= closes q (trace w))%nat;
  inv_close_queue : forall p sp u su,
      heap w !! p = Some sp -> _upstream sp = Some u -> heap w !! u = Some su ->
      _process_close_queue sp = true ->
      hook_capable (process_T su) = true -> (1 <= closes u (trace w))%nat;
  inv_order : forall pre post p sp u su,
      trace w = pre ++ EvClose p :: post ->
      heap w !! p = Some sp -> _upstream sp = Some u -> heap w !! u = Some su ->
      hook_capable (process_T su) = true -> (1 <= closes u pre)%nat;
}.

(** the upstream of [p], if it can be closed, has been *)
Definition upstream_closed w p : Prop :=
  forall sp u su,
    heap w !! p = Some sp -> _upstream sp = Some u -> heap w !! u = Some su ->
    hook_capable (process_T su) = true -> (1 <= closes u (trace w))%nat.

(** [m] never answers that the fuel of the embedding ran out *)
Definition fueled {A} (m : M A) : Prop := forall w, m w <> Fail Out_of_fuel.

(** any event but a call of [close()] *)
Definition not_close (e : event) : Prop :=
  match e with EvClose _ => False | _ => True end.

(** [m] keeps the invariant *)
Definition preserves {A} (m : M A) : Prop :=
  forall w a w', close_inv w -> m w = Ok a w' -> close_inv w'.

(** the same, knowing the object at [p] *)
Definition preserves_at {A} p sp (m : M A) : Prop :=
  forall w a w', close_inv w -> heap w !! p = Some sp -> m w = Ok a w' -> close_inv w'.

(** [sp'] differs from [sp] in nothing the close protocol looks at *)
Definition same_close_state sp' sp : Prop :=
  process_T sp' = process_T sp /\ _upstream sp' = _upstream sp
  /\ _downstream sp' = _downstream sp /\ _process_final sp' = _process_final sp
  /\ _process_close_queue sp' = _process_close_queue sp.

(** [w'] has the objects of [w], each with its process type and upstream,
    and every [close()] that [w] has seen *)
Definition same_shape w w' : Prop :=
  (forall x sx', heap w' !! x = Some sx' ->
     exists sx, heap w !! x = Some sx
       /\ process_T sx' = process_T sx /\ _upstream sx' = _upstream sx)
  /\ (forall x, (closes x (trace w) <= closes x (trace w'))%nat).

(** *** The sender handles of a program

    The senders that are not elements of a downstream deque, counted per
    process: those the program holds, and those a member function has taken
    out of a deque and not yet destroyed. *)
Definition handles := pid -> nat.

Definition more (p : pid) (H : handles) : handles :=
  fun x => if decide (x = p) then S (H x) else H x.

Definition fewer (p : pid) (H : handles) : handles :=
  fun x => if decide (x = p) then pred (H x) else H x.

(** the senders for [p] among [l] *)
Fixpoint aimed (p : pid) (l : list sender) : nat :=
  match l with
  | [] => 0
  | e :: l' => ((if decide (sender_p e = Some p) then 1 else 0) + aimed p l')%nat
  end.

Definition with_entries (l : list sender) (H : handles) : handles :=
  fun x => (H x + aimed x l)%nat.

(** the senders for [p] in the downstream deque of its upstream *)
Definition entries w (p : pid) sp : nat :=
  match _upstream sp with
  | Some u =>
      match heap w !! u with
      | Some su => aimed p (_downstream su)
      | None => 0%nat
      end
  | None => 0%nat
  end.

(** The close protocol of a process with [N] senders alive and [k] calls of
    [close()] so far: open; told to close; closed.  [_sender_count] is never
    below the number of senders. *)
Definition protocol_ok (N : nat) sp (k : nat) : Prop :=
  (Z.of_nat N <= _sender_count sp < size_modulus)
  /\ ((_process_close_queue sp = false /\ _process_final sp = false /\ k = 0%nat)
      \/ (N = 0%nat /\ _process_close_queue sp = true /\ _process_final sp = false
          /\ k = 0%nat)
      \/ (N = 0%nat /\ _process_close_queue sp = false /\ _process_message_queue sp = []
          /\ (k <= 1)%nat)).

(** What the moves of a program keep, [H] being the handles outside the
    deques: every process follows the close protocol; no [close()] is called
    twice; no handle is for a process not yet allocated; a process with a
    handle outside the deques has no upstream that could still close. *)
Record handle_inv (w : world) (H : handles) : Prop := {
  hi_object : forall p sp,
      heap w !! p = Some sp ->
      protocol_ok (H p + entries w p sp) sp (closes p (trace w));
  hi_once : forall p, (closes p (trace w) <= 1)%nat;
  hi_fresh : forall p, (next_pid w <= p)%nat -> H p = 0%nat;
  hi_held : forall p, (1 <= H p)%nat -> upstream_closed w p;
}.

Definition sound w (H : handles) : Prop := close_inv w /\ handle_inv w H.

(** [m] keeps both invariants, whatever the handles *)
Definition keeps {A} (m : M A) : Prop :=
  forall H w a w', sound w H -> m w = Ok a w' -> sound w' H.

Definition keeps_at {A} p sp (m : M A) : Prop :=
  forall H w a w', sound w H -> heap w !! p = Some sp -> m w = Ok a w' -> sound w' H.

(** [sp'] differs from [sp] in nothing the two invariants look at *)
Definition same_protocol_state sp' sp : Prop :=
  same_close_state sp' sp
  /\ _process_message_queue sp' = _process_message_queue sp
  /\ _sender_count sp' = _sender_count sp.

(** One move of a program that keeps count of its senders: a sender is
    called, copied, destroyed or overwritten only while the program holds
    one for that process, and no counter overflows. *)
Inductive api_move : world * handles -> world * handles -> Prop :=
| Move_channel w H p r w' :
    channel w = Ok (Sender (Some p), r) w' -> api_move (w, H) (w', more p H)
| Move_sender_call w H p v w' :
    (1 <= H p)%nat ->
    sender_call (Sender (Some p)) v w = Ok tt w' -> api_move (w, H) (w', H)
| Move_sender_copy w H p s' w' :
    (1 <= H p)%nat ->
    (forall sp, heap w !! p = Some sp -> _sender_count sp + 1 < size_modulus) ->
    sender_copy (Sender (Some p)) w = Ok s' w' -> api_move (w, H) (w', more p H)
| Move_sender_end w H p w' :          (* [~sender()], [close()] *)
    (1 <= H p)%nat ->
    sender_destroy (Sender (Some p)) w = Ok tt w' -> api_move (w, H) (w', fewer p H)
| Move_sender_assigned w H p :        (* the defaulted move assignment drops [_p] *)
    (1 <= H p)%nat -> api_move (w, H) (w, fewer p H)
| Move_receiver_copy w H r r' w' :
    (forall p sp, receiver_p r = Some p -> heap w !! p = Some sp ->
                  _sender_count sp + 1 < size_modulus) ->
    receiver_copy r w = Ok r' w' -> api_move (w, H) (w', H)
| Move_receiver_end w H r w' :
    receiver_destroy r w = Ok tt w' -> api_move (w, H) (w', H)
| Move_receiver_assigned w H q w' :
    release q q w = Ok tt w' -> api_move (w, H) (w', H)
| Move_set_ready w H r r' w' :
    set_ready r w = Ok r' w' -> api_move (w, H) (w', H)
| Move_pipe w H r F f r' w' :
    pipe r F f w = Ok r' w' -> api_move (w, H) (w', H)
| Move_execute w H k w' :
    execute k w = Ok tt w' -> api_move (w, H) (w', H).

Definition reachable_counted (w : world) (H : handles) : Prop :=
  rtc api_move (empty_world, fun _ => 0%nat) (w, H).

(** [w'] has the objects of [w], each with its upstream and its downstream
    deque *)
Definition same_links w w' : Prop :=
  forall x, ((fun s => (_upstream s, _downstream s)) <$> heap w' !! x)
            = ((fun s => (_upstream s, _downstream s)) <$> heap w !! x).

(** [_sender_count] is above the number of live senders, and the close has
    not begun: a count was added that no destructor will take back *)
Definition uncounted (c : concurrent) : Prop :=
  let sp := c_object c in
  (Z.of_nat (c_senders c) < _sender_count sp < size_modulus)
  /\ c_closing c = false /\ _process_close_queue sp = false /\ _process_final sp = false.

(** *** Flow control *)

(** the process [t] is alive and holds a message *)
Definition nonempty w (t : pid) : bool :=
  match heap w !! t with
  | Some st => negb (deque_empty (_process_message_queue st))
  | None => false
  end.

Definition holds w (e : sender) : bool :=
  match sender_p e with
  | Some t => nonempty w t
  | None => false
  end.

(** the elements of a downstream deque whose process holds a message *)
Fixpoint holding w (l : list sender) : nat :=
  match l with
  | [] => 0
  | e :: l' => ((if holds w e then 1 else 0) + holding w l')%nat
  end.

(** What the moves of a program keep of the flow control.  An idle
    process is not suspended; a scheduled one is running and not suspended,
    and scheduled once, and was made before; a process is suspended at least once for each
    downstream process that holds a message; a process with an upstream
    holds one message at most, and only while its sender is in the deque of
    the upstream; the deque has no element twice, and each leads to a
    process made after the holder, whose upstream is the holder. *)
Record flow_inv (w : world) : Prop := {
  fl_dom : forall p sp, heap w !! p = Some sp -> (p < next_pid w)%nat;
  fl_older : forall p sp u, heap w !! p = Some sp -> _upstream sp = Some u -> (u < p)%nat;
  fl_entry : forall q sq p,
      heap w !! q = Some sq -> Sender (Some p) ∈ _downstream sq -> (p < next_pid w)%nat;
  fl_down : forall q sq p sp,
      heap w !! q = Some sq -> Sender (Some p) ∈ _downstream sq ->
      heap w !! p = Some sp -> _upstream sp = Some q;
  fl_idle : forall p sp,
      heap w !! p = Some sp -> _process_running sp = false -> _process_suspend_count sp = 0;
  fl_task : forall p sp,
      p ∈ tasks w -> heap w !! p = Some sp ->
      _process_running sp = true /\ _process_suspend_count sp = 0;
  fl_once : NoDup (tasks w);
  fl_sched : forall p, p ∈ tasks w -> (p < next_pid w)%nat;
  fl_wait : forall p sp,
      heap w !! p = Some sp ->
      Z.of_nat (holding w (_downstream sp)) <= _process_suspend_count sp < size_modulus;
  fl_one : forall s ss u,
      heap w !! s = Some ss -> _upstream ss = Some u ->
      (length (_process_message_queue ss) <= 1)%nat;
  fl_listed : forall s ss u su,
      heap w !! s = Some ss -> _upstream ss = Some u -> heap w !! u = Some su ->
      _process_message_queue ss <> [] -> Sender (Some s) ∈ _downstream su;
  fl_nodup : forall p sp, heap w !! p = Some sp -> NoDup (_downstream sp);
  fl_short : forall p sp, heap w !! p = Some sp -> (length (_downstream sp) <= next_pid w)%nat;
}.

(** no counter of the flow control can wrap *)
Definition bounded (w : world) : Prop := Z.of_nat (next_pid w) + 1 < size_modulus.

(** the failures that are no assertion of the library: a pointer without
    an object, and the fuel of the embedding *)
Definition benign (f : failure) : Prop :=
  match f with
  | Dangling _ | Out_of_fuel => True
  | _ => False
  end.

(** [m] run in [w] trips no assertion, and establishes [Q] if it returns *)
Definition wp {A} (m : M A) (Q : A -> world -> Prop) (w : world) : Prop :=
  match m w with
  | Ok a w' => Q a w'
  | Fail f => benign f
  end.

(** [p] is in its step: running, not suspended, its closure taken *)
Definition at_work (p : pid) (w : world) : Prop :=
  exists sp, heap w !! p = Some sp
    /\ _process_running sp = true /\ _process_suspend_count sp = 0 /\ p ∉ tasks w.

(** nothing but [q] has changed or been scheduled *)
Definition only (q : pid) (w w' : world) : Prop :=
  (forall x, x <> q -> heap w' !! x = heap w !! x)
  /\ (forall x, x <> q -> x ∈ tasks w' -> x ∈ tasks w)
  /\ next_pid w' = next_pid w.


(** [m] frees no object identifier: it only makes new ones *)
Definition grows {A} (m : M A) : Prop :=
  forall w a w', m w = Ok a w' -> (next_pid w <= next_pid w')%nat.

(** what [sender_destroy e] leaves alone: every process but the one [e]
    leads to *)
Definition but (e : sender) (w w' : world) : Prop :=
  (forall x, sender_p e <> Some x -> heap w' !! x = heap w !! x)
  /\ (forall x, sender_p e <> Some x -> x ∈ tasks w' -> x ∈ tasks w)
  /\ next_pid w' = next_pid w.

(** *** Wake-up *)

(** the process has something to do: a message to take, or a close to
    carry out *)
Definition has_work (sp : shared_process) : Prop :=
  _process_message_queue sp <> [] \/ _process_close_queue sp = true.

(** What the moves keep of the scheduling, but for the process [E] whose
    closure the executor is running, if any: a process that has something
    to do and no receiver to wait for is running; a running process that is
    not suspended has a closure pending. *)
Record wake_but (E : option pid) (w : world) : Prop := {
  wk_ready : forall p sp,
      heap w !! p = Some sp -> _receiver_count sp = 0 -> has_work sp ->
      _process_running sp = true;
  wk_sched : forall p sp,
      heap w !! p = Some sp -> Some p <> E ->
      _process_running sp = true -> _process_suspend_count sp = 0 -> p ∈ tasks w;
}.

(** [m] run in [w] establishes [Q] if it returns *)
Definition wlp {A} (m : M A) (Q : A -> world -> Prop) (w : world) : Prop :=
  match m w with
  | Ok a w' => Q a w'
  | Fail _ => True
  end.

(** the processes that the senders of a deque lead to, those that are
    alive, in deque order *)
Fixpoint live_targets w (l : list sender) : list pid :=
  match l with
  | [] => []
  | e :: l' =>
      match sender_p e with
      | Some t =>
          match heap w !! t with
          | Some _ => t :: live_targets w l'
          | None => live_targets w l'
          end
      | None => live_targets w l'
      end
  end.

(** *** One upstream [cts] per message *)

(** the messages that [p] has taken off its queue: those given to
    [await] by [dequeue], and those the one-shot [step] has called the
    process with *)
Fixpoint dequeued (p : pid) (tr : list event) : list V :=
  match tr with
  | [] => []
  | EvAwait q v :: tr' | EvInvoke q v :: tr' =>
      if Nat.eqb p q then v :: dequeued p tr' else dequeued p tr'
  | _ :: tr' => dequeued p tr'
  end.

(** the events that neither count is about *)
Definition toll_free (e : event) : Prop :=
  match e with
  | EvCtsUpstream _ _ | EvAwait _ _ | EvInvoke _ _ => False
  | _ => True
  end.

(** What the moves keep of the count of upstream [cts] calls: a process
    that has an upstream has called [_upstream->cts()] once for each message
    it has taken off its queue, and once more if it is [E], the process
    that has called it for the message it is about to hand over; a process
    yet to be made has done neither. *)
Record cts_bal (E : option pid) (w : world) : Prop := {
  cb_dom : forall p sp, heap w !! p = Some sp -> (p < next_pid w)%nat;
  cb_fresh : forall p,
      (next_pid w <= p)%nat ->
      upstream_cts_count p (trace w) = 0%nat /\ dequeued p (trace w) = [];
  cb_count : forall p sp u,
      heap w !! p = Some sp -> _upstream sp = Some u ->
      upstream_cts_count p (trace w)
      = (length (dequeued p (trace w)) + if decide (E = Some p) then 1 else 0)%nat;
}.

(** [p], if it has an upstream, holds one message at most *)
Definition short (p : pid) (w : world) : Prop :=
  exists sp, heap w !! p = Some sp
    /\ (_upstream sp <> None -> (length (_process_message_queue sp) <= 1)%nat).

(** [m] keeps the count *)
Definition tally (E : option pid) {A} (m : M A) : Prop :=
  forall w, cts_bal E w -> wlp m (fun _ w' => cts_bal E w') w.

(** the same, knowing the object at [p] *)
Definition tally_at (E : option pid) {A} p sp (m : M A) : Prop :=
  forall w, cts_bal E w -> heap w !! p = Some sp -> wlp m (fun _ w' => cts_bal E w') w.

(** whom a process that has taken a message owes it to the count for: itself,
    if it has an upstream *)
Definition owes (sp : shared_process) (p : pid) : option pid :=
  match _upstream sp with Some _ => Some p | None => None end.

(** *** The order of the close hooks *)

(** [a] is upstream of [p]: it is the [_upstream] of [p], or upstream of
    that one, through processes that are alive *)
Inductive ancestor (w : world) : pid -> pid -> Prop :=
| anc_parent p sp u :
    heap w !! p = Some sp -> _upstream sp = Some u -> ancestor w u p
| anc_far p sp u a :
    heap w !! p = Some sp -> _upstream sp = Some u -> ancestor w a u -> ancestor w a p.

(** [tr] has the [close()] of every process upstream of [p] that has the
    hook *)
Definition ancestors_closed (w : world) (p : pid) (tr : list event) : Prop :=
  forall a sa,
    ancestor w a p -> heap w !! a = Some sa -> hook_capable (process_T sa) = true ->
    (1 <= closes a tr)%nat.

(** the process has been told to close, or has closed *)
Definition told (sp : shared_process) : Prop :=
  _process_close_queue sp = true \/ _process_final sp = true.

(** What the moves keep of the order of the hooks: a process is told to
    close only after [close()] has been called for every process upstream
    of it that has the hook, and so is its own [close()] called. *)
Record order_inv (w : world) : Prop := {
  oi_told : forall p sp, heap w !! p = Some sp -> told sp -> ancestors_closed w p (trace w);
  oi_order : forall pre post p,
      trace w = pre ++ EvClose p :: post -> ancestors_closed w p pre;
}.

(** the objects of [w'] are objects of [w], each with its process type and
    its upstream *)
Definition sub_chain (w w' : world) : Prop :=
  forall x sx', heap w' !! x = Some sx' ->
    exists sx, heap w !! x = Some sx
      /\ process_T sx' = process_T sx /\ _upstream sx' = _upstream sx.

(** [sp'] is the process, upstream and all, that [sp] is, and is told to
    close only if [sp] is *)
Definition steady (sp' sp : shared_process) : Prop :=
  process_T sp' = process_T sp /\ _upstream sp' = _upstream sp /\ (told sp' -> told sp).

(** [m] keeps the order *)
Definition orderly {A} (m : M A) : Prop :=
  forall w, order_inv w -> wlp m (fun _ w' => order_inv w') w.

(** the same, knowing the object at [p] *)
Definition orderly_at {A} p sp (m : M A) : Prop :=
  forall w, order_inv w -> heap w !! p = Some sp -> wlp m (fun _ w' => order_inv w') w.

(** C6.  A [cts] call whose decrement brings [_process_suspend_count] to zero
    (the process being marked running, as the assertion demands) schedules
    another step exactly when the user process reports [yield], or the
    message queue is not empty, or [_process_close_queue] is set; otherwise
    it clears [_process_running] and schedules nothing. *)
Theorem cts_zero_schedules_iff_work p sp w :
  heap w !! p = Some sp ->
  _process_running sp = true ->
  size_decr (_process_suspend_count sp) = 0 ->
  let work := process_state_eqb (get_process_state (process_T sp) (_process sp)) yield
              || negb (deque_empty (_process_message_queue sp))
              || _process_close_queue sp in
  exists w', cts p w = Ok tt w'
    /\ tasks w' = (if work then tasks w ++ [p] else tasks w)
    /\ (_process_running <$> heap w' !! p) = Some work
    /\ (_process_suspend_count <$> heap w' !! p) = Some 0.
Proof.
  intros Hp Hrun Hdec work.
  unfold cts, bind, emit, load. simpl. rewrite Hp.
  unfold cts_locked. simpl. rewrite Hrun, Hdec. simpl.
  fold work. destruct work; simpl.
  - eexists. split; [reflexivity|]. simpl.
    rewrite lookup_insert_eq. simpl. rewrite Hrun. auto.
  - eexists. split; [reflexivity|]. simpl.
    rewrite lookup_insert_eq. simpl. auto.
Qed.

Lemma for_each_n_app {A} (l late : list A) (f : A -> M unit) w :
  for_each_n (l ++ late) (length l) f w = foldr (fun e k => f e ;; k) (ret tt) l w.
Proof.
  revert w. induction l as [|x l IH]; intros w; simpl; [reflexivity|].
  unfold bind. destruct (f x w); [apply IH|reflexivity].
Qed.

Lemma store_same p sp w : heap w !! p = Some sp -> store p sp w = Ok tt w.
Proof.
  intros Hp. unfold store. rewrite insert_id by exact Hp. destruct w; reflexivity.
Qed.

Lemma bind_load {A} p sp w (k : shared_process -> M A) :
  heap w !! p = Some sp -> bind (load p) k w = k sp w.
Proof. intros Hp. unfold bind, load. rewrite Hp. reflexivity. Qed.

Lemma bind_bind {A B C} (m : M A) (k1 : A -> M B) (k2 : B -> M C) w :
  bind (bind m k1) k2 w = bind m (fun x => bind (k1 x) k2) w.
Proof. unfold bind. destruct (m w); reflexivity. Qed.

Lemma bind_store {A} p sp w (k : unit -> M A) :
  bind (store p sp) k w
  = k tt {| heap := <[p := sp]> (heap w); next_pid := next_pid w;
            tasks := tasks w; trace := trace w |}.
Proof. reflexivity. Qed.

Lemma bind_emit {A} (e : event) w (k : unit -> M A) :
  bind (emit e) k w
  = k tt {| heap := heap w; next_pid := next_pid w;
            tasks := tasks w; trace := trace w ++ [e] |}.
Proof. reflexivity. Qed.

Lemma bind_ret {A B} (a : A) w (k : A -> M B) : bind (ret a) k w = k a w.
Proof. reflexivity. Qed.

Lemma bind_run {A} p w (k : unit -> M A) :
  bind (run p) k w
  = k tt {| heap := heap w; next_pid := next_pid w;
            tasks := tasks w ++ [p]; trace := trace w |}.
Proof. reflexivity. Qed.

Lemma bind_lock_live {A} p sp w (k : option pid -> M A) :
  heap w !! p = Some sp -> bind (lock (Sender (Some p))) k w = k (Some p) w.
Proof. intros Hp. unfold bind, lock. simpl. rewrite Hp. reflexivity. Qed.

Lemma bind_lock_expired {A} p w (k : option pid -> M A) :
  heap w !! p = None -> bind (lock (Sender (Some p))) k w = k None w.
Proof. intros Hp. unfold bind, lock. simpl. rewrite Hp. reflexivity. Qed.

Lemma bind_inv {A B} (m : M A) (k : A -> M B) w b w' :
  bind m k w = Ok b w' -> exists a w1, m w = Ok a w1 /\ k a w1 = Ok b w'.
Proof. unfold bind. destruct (m w) as [a w1|]; [eauto|discriminate]. Qed.

Ltac mstep :=
  repeat first
    [ rewrite bind_bind
    | rewrite bind_ret
    | rewrite bind_store
    | rewrite bind_emit
    | rewrite bind_run
    | erewrite bind_load by solve_lookup
    | erewrite bind_lock_live by solve_lookup
    | rewrite bind_lock_expired by solve_lookup
    | progress cbn [heap next_pid tasks trace] ].

(** *** [broadcast] as a whole *)

Lemma live_targets_store t st st' w n ts tr (l : list sender) :
  heap w !! t = Some st ->
  live_targets {| heap := <[t := st']> (heap w); next_pid := n; tasks := ts; trace := tr |} l
  = live_targets w l.
Proof.
  intros Ht. induction l as [|e l IH]; [reflexivity|].
  cbn [live_targets]. rewrite IH. cbn [heap].
  destruct (sender_p e) as [x|]; [|reflexivity].
  destruct (decide (x = t)) as [->|Hne].
  - rewrite lookup_insert_eq, Ht. reflexivity.
  - rewrite lookup_insert_ne by congruence. reflexivity.
Qed.

(** [send] to a live process returns: the message is queued and recorded *)
Lemma send_live t st (v : V) w :
  heap w !! t = Some st ->
  exists st' ts,
    send t v w = Ok tt {| heap := <[t := st']> (heap w); next_pid := next_pid w;
                          tasks := ts; trace := trace w ++ [EvSend t v] |}
    /\ _process_suspend_count st' = _process_suspend_count st.
Proof.
  intros Ht. unfold send. rewrite (bind_load _ _ _ _ Ht). unfold send_locked. cbn zeta.
  rewrite bind_store, bind_emit.
  destruct ((_receiver_count _ =? 0) && negb (_process_running _)); cbn [when];
    eexists _, _; (split; [reflexivity|reflexivity]).
Qed.

(** the iteration over the senders of a deque returns; it sends to the live
    ones in deque order, and leaves every suspend count as it is *)
Lemma deliver_all (l : list sender) (v : V) w :
  exists w',
    foldr (fun e k => sender_call e v ;; k) (ret tt) l w = Ok tt w'
    /\ trace w' = trace w ++ ((fun t => EvSend t v) <$> live_targets w l)
    /\ (forall x, (_process_suspend_count <$> heap w' !! x)
                  = (_process_suspend_count <$> heap w !! x)).
Proof.
  revert w. induction l as [|e l IH]; intros w; cbn [foldr].
  - exists w. split; [reflexivity|]. cbn. rewrite app_nil_r. auto.
  - cbn [live_targets].
    unfold sender_call at 1, bind at 1 2, lock.
    destruct (sender_p e) as [t|]; [destruct (heap w !! t) as [st|] eqn:Ht|].
    + destruct (send_live t st v w Ht) as (st' & ts & -> & Hs).
      destruct (IH {| heap := <[t := st']> (heap w); next_pid := next_pid w;
                      tasks := ts; trace := trace w ++ [EvSend t v] |})
        as (w' & Hrun & Htr & Hsus).
      exists w'. split; [exact Hrun|]. cbn [trace heap] in Htr, Hsus. split.
      * rewrite Htr, <- app_assoc, (live_targets_store t st st' w _ _ _ l Ht). reflexivity.
      * intros x. rewrite Hsus. destruct (decide (x = t)) as [->|Hne].
        -- rewrite lookup_insert_eq, Ht. cbn. rewrite Hs. reflexivity.
        -- rewrite lookup_insert_ne by congruence. reflexivity.
    + cbn. apply IH.
    + cbn. apply IH.
Qed.

(** C5.  [broadcast] aborts unless [_process_suspend_count] is zero.
    Otherwise it returns: it has set [_process_suspend_count] to [n + 1],
    for [n] the length of the downstream deque at its start, it has called
    the [n] senders of the deque once each in deque order, so that the live
    processes behind them have been sent the value in that order, and no
    other; the count is still [n + 1] when it returns.  Its snapshot touches
    nothing but the count, and the iteration calls the first [n] senders
    whatever has been appended to the deque since the snapshot ([late]): a
    late sender is not called by this broadcast, and is counted by the
    snapshot of the next one. *)
Theorem broadcast_snapshot_first_n p sp w v (late : list sender) :
  heap w !! p = Some sp ->
  Z.of_nat (length (_downstream sp)) + 1 < size_modulus ->
  let n := length (_downstream sp) in
  let counted := set_process_suspend_count (Z.of_nat n + 1) sp in
  (_process_suspend_count sp <> 0 -> broadcast p v w = Fail Assert_broadcast_suspended)
  /\ (_process_suspend_count sp = 0 ->
      broadcast p v w
      = foldr (fun e k => sender_call e v ;; k) (ret tt) (_downstream sp)
          {| heap := <[p := counted]> (heap w); next_pid := next_pid w; tasks := tasks w;
             trace := trace w ++ [EvBroadcast p v] |}
      /\ (exists w',
            broadcast p v w = Ok tt w'
            /\ trace w'
               = trace w ++ EvBroadcast p v
                   :: ((fun t => EvSend t v) <$> live_targets w (_downstream sp))
            /\ (_process_suspend_count <$> heap w' !! p) = Some (Z.of_nat n + 1))
      /\ exists w1, broadcast_snapshot p w = Ok n w1
        /\ heap w1 = <[p := counted]> (heap w)
        /\ tasks w1 = tasks w /\ trace w1 = trace w /\ next_pid w1 = next_pid w
        /\ (forall w2 sp2,
              heap w2 !! p = Some sp2 ->
              _downstream sp2 = _downstream sp ++ late ->
              broadcast_deliver p n v w2
              = foldr (fun e k => sender_call e v ;; k) (ret tt) (_downstream sp) w2
              /\ broadcast_snapshot p
                   {| heap := <[p := set_process_suspend_count 0 sp2]> (heap w2);
                      next_pid := next_pid w2; tasks := tasks w2; trace := trace w2 |}
                 = Ok (n + length late)%nat
                      {| heap := <[p := set_process_suspend_count
                                          ((Z.of_nat (n + length late) + 1) mod size_modulus) sp2]>
                                   (heap w2);
                         next_pid := next_pid w2; tasks := tasks w2; trace := trace w2 |})).
Proof.
  intros Hp Hn n counted. split.
  - intros Hs. unfold broadcast, bind, emit, broadcast_snapshot, bind, load. simpl.
    rewrite Hp.
    destruct (Z.eqb_spec (_process_suspend_count sp) 0) as [E|E]; [contradiction|].
    reflexivity.
  - intros Hs.
    assert (Hall : broadcast p v w
                   = foldr (fun e k => sender_call e v ;; k) (ret tt) (_downstream sp)
                       {| heap := <[p := counted]> (heap w); next_pid := next_pid w;
                          tasks := tasks w; trace := trace w ++ [EvBroadcast p v] |}).
    { unfold broadcast. rewrite bind_emit. unfold broadcast_snapshot.
      rewrite bind_bind. erewrite bind_load by (cbn [heap]; exact Hp).
      rewrite Hs. cbn [Z.eqb negb]. rewrite bind_bind, bind_store, bind_ret.
      cbn [heap next_pid tasks trace].
      rewrite Z.mod_small by (unfold n in *; lia).
      unfold broadcast_deliver. erewrite bind_load by (cbn [heap]; apply lookup_insert_eq).
      cbn [_downstream set_process_suspend_count].
      rewrite <- (app_nil_r (_downstream sp)) at 1. apply for_each_n_app. }
    split; [exact Hall|]. split.
    + destruct (deliver_all (_downstream sp) v
                  {| heap := <[p := counted]> (heap w); next_pid := next_pid w;
                     tasks := tasks w; trace := trace w ++ [EvBroadcast p v] |})
        as (w' & Hrun & Htr & Hsus).
      exists w'. rewrite Hall. split; [exact Hrun|]. cbn [heap trace] in Htr, Hsus. split.
      * rewrite Htr, <- app_assoc, (live_targets_store p sp counted w _ _ _ _ Hp).
        reflexivity.
      * rewrite Hsus, lookup_insert_eq. reflexivity.
    + unfold broadcast_snapshot, bind, load, store, ret. rewrite Hp, Hs. simpl.
      eexists. split; [reflexivity|]. simpl.
      rewrite Z.mod_small by (unfold n in *; lia).
      do 4 (split; [reflexivity|]).
      intros w2 sp2 Hp2 Hds. split.
      * unfold broadcast_deliver, bind, load. rewrite Hp2, Hds.
        apply for_each_n_app.
      * unfold load. simpl. rewrite lookup_insert_eq. simpl.
        rewrite Hds, length_app, insert_insert_eq. reflexivity.
Qed.


(** C9.  When the shared process behind a weak pointer is gone, calling the
    sender, closing it, and running a closure scheduled by [run()] all leave
    the world as it is (the closed sender ends up empty, the executor drops
    the closure it ran). *)
Theorem expired_process_is_noop p v w :
  heap w !! p = None ->
  sender_call (Sender (Some p)) v w = Ok tt w
  /\ sender_close (Sender (Some p)) w = Ok (Sender None) w
  /\ sender_destroy (Sender (Some p)) w = Ok tt w
  /\ task p w = Ok tt w
  /\ (forall k, tasks w !! k = Some p ->
        execute k w = Ok tt {| heap := heap w; next_pid := next_pid w;
                               tasks := delete k (tasks w); trace := trace w |}).
Proof.
  intros Hp.
  assert (Hlock : lock (Sender (Some p)) w = Ok None w).
  { unfold lock. simpl. rewrite Hp. reflexivity. }
  repeat split.
  - unfold sender_call, bind. rewrite Hlock. reflexivity.
  - unfold sender_close, bind. rewrite Hlock. reflexivity.
  - unfold sender_destroy, bind. rewrite Hlock. reflexivity.
  - unfold task, bind. rewrite Hlock. reflexivity.
  - intros k Hk. unfold execute. rewrite Hk. unfold task, bind, lock. simpl.
    rewrite Hp. reflexivity.
Qed.

(** what [r | f] does to the heap, for a live [r] and a fresh [next_pid] *)
Lemma pipe_result (r : receiver) (F : process) (f : St) w q sq :
  receiver_p r = Some q ->
  heap w !! q = Some sq ->
  heap w !! next_pid w = None ->
  pipe r F f w
  = Ok (Receiver (Some (next_pid w)) false)
       {| heap := <[next_pid w := make_shared_process F f (Some q)]>
                    (<[q := set_downstream (_downstream sq ++ [Sender (Some (next_pid w))])
                              (set_use_count (S (use_count sq)) sq)]> (heap w));
          next_pid := S (next_pid w); tasks := tasks w; trace := trace w |}.
Proof.
  intros Hr Hq Hfresh.
  assert (Hne : q <> next_pid w) by (intros ->; congruence).
  unfold pipe. rewrite Hr.
  unfold acquire. mstep.
  unfold alloc at 1. unfold bind at 1. cbn [heap next_pid tasks trace].
  unfold map, sender_copy, add_sender. mstep.
  unfold sender_destroy, remove_sender. mstep.
  cbn [_sender_count set_sender_count make_shared_process].
  replace (size_decr (size_incr 1)) with 1 by reflexivity.
  change (1 =? 0) with false. cbv iota. mstep.
  f_equal. f_equal.
  rewrite (insert_insert_ne _ (next_pid w) q) by congruence.
  rewrite !insert_insert_eq.
  rewrite (insert_insert_ne _ q (next_pid w)) by congruence.
  rewrite insert_insert_eq. reflexivity.
Qed.

(** C2 as amended.  [r | f] allocates the new process with [r]'s process as
    its upstream (which it co-owns), appends a sender for it to the
    downstream deque of [r]'s process and returns a receiver for it that is
    not ready.  Nothing else changes: [_receiver_count] of [r]'s process,
    and the receiver [r] itself (the operator is [const]), are as before. *)
Theorem pipe_appends_downstream (r : receiver) (F : process) (f : St) w q sq :
  receiver_p r = Some q ->
  heap w !! q = Some sq ->
  heap w !! next_pid w = None ->
  exists w',
    pipe r F f w = Ok (Receiver (Some (next_pid w)) false) w'
    /\ heap w' !! next_pid w = Some (make_shared_process F f (Some q))
    /\ heap w' !! q
       = Some (set_downstream (_downstream sq ++ [Sender (Some (next_pid w))])
                 (set_use_count (S (use_count sq)) sq))
    /\ (forall x, x <> q -> x <> next_pid w -> heap w' !! x = heap w !! x)
    /\ (_receiver_count <$> heap w' !! q) = Some (_receiver_count sq)
    /\ tasks w' = tasks w /\ trace w' = trace w.
Proof.
  intros Hr Hq Hfresh.
  assert (Hne : q <> next_pid w) by (intros ->; congruence).
  eexists. split; [exact (pipe_result r F f w q sq Hr Hq Hfresh)|].
  cbn [heap tasks trace].
  split; [apply lookup_insert_eq|].
  split; [rewrite lookup_insert_ne by congruence; apply lookup_insert_eq|].
  split; [intros x Hxq Hxn; rewrite !lookup_insert_ne by congruence; reflexivity|].
  split; [|split; reflexivity].
  rewrite lookup_insert_ne by congruence. rewrite lookup_insert_eq. reflexivity.
Qed.

(** *** Reading the trace *)

Lemma outputs_app p (a b : list event) :
  outputs p (a ++ b) = outputs p a ++ outputs p b.
Proof.
  induction a as [|e a IH]; [reflexivity|].
  destruct e; simpl; try exact IH. destruct (Nat.eqb p p0); simpl; congruence.
Qed.

Lemma consumed_app p (a b : list event) :
  consumed p (a ++ b) = consumed p a ++ consumed p b.
Proof.
  induction a as [|e a IH]; [reflexivity|].
  destruct e; simpl; try exact IH. destruct (Nat.eqb p p0); simpl; congruence.
Qed.

Lemma upstream_cts_count_app p (a b : list event) :
  upstream_cts_count p (a ++ b) = (upstream_cts_count p a + upstream_cts_count p b)%nat.
Proof.
  induction a as [|e a IH]; [reflexivity|].
  destruct e; simpl; try exact IH. destruct (Nat.eqb p p0); simpl; congruence.
Qed.

Lemma app_snoc_cons {A} (tr : list A) e1 e2 l :
  tr ++ e1 :: e2 :: l = (tr ++ [e1]) ++ e2 :: l.
Proof. rewrite <- app_assoc. reflexivity. Qed.

Lemma closes_app p (a b : list event) :
  closes p (a ++ b) = (closes p a + closes p b)%nat.
Proof.
  induction a as [|e a IH]; [reflexivity|].
  destruct e; simpl; try exact IH. destruct (Nat.eqb p p0); simpl; congruence.
Qed.

(** *** What a member function appends to the trace *)

Lemma emits_ret P {A} (a : A) : emits P (@ret V St A a).
Proof. intros w a' w' [= <- <-]. exists []. rewrite app_nil_r. auto. Qed.

Lemma emits_fail P {A} f : emits P (@fail V St A f).
Proof. intros w a w' [=]. Qed.

Lemma emits_bind P {A B} (m : M A) (k : A -> M B) :
  emits P m -> (forall a, emits P (k a)) -> emits P (bind m k).
Proof.
  intros Hm Hk w b w' Hrun. unfold bind in Hrun.
  destruct (m w) as [a w1|] eqn:Hmw; [|discriminate].
  destruct (Hm _ _ _ Hmw) as (e1 & E1 & H1).
  destruct (Hk a _ _ _ Hrun) as (e2 & E2 & H2).
  exists (e1 ++ e2). rewrite E2, E1, app_assoc. split; [reflexivity|]. apply Forall_app; auto.
Qed.

Lemma emits_emit (P : event -> Prop) e : P e -> emits P (emit e).
Proof. intros He w a w' [= <- <-]. exists [e]. auto. Qed.

Lemma emits_load P p : emits P (load p).
Proof.
  intros w a w' Hrun. unfold load in Hrun. destruct (heap w !! p); [|discriminate].
  injection Hrun as <- <-. exists []. rewrite app_nil_r. auto.
Qed.

Lemma emits_store P p sp : emits P (store p sp).
Proof. intros w a w' [= <- <-]. exists []. cbn. rewrite app_nil_r. auto. Qed.

Lemma emits_run P p : emits P (run p).
Proof. intros w a w' [= <- <-]. exists []. cbn. rewrite app_nil_r. auto. Qed.

Lemma emits_lock P s : emits P (lock s).
Proof.
  intros w a w' Hrun. unfold lock in Hrun.
  destruct (sender_p s) as [p|]; [destruct (heap w !! p)|];
    injection Hrun as <- <-; exists []; rewrite app_nil_r; auto.
Qed.

Lemma emits_when P b (m : M unit) : emits P m -> emits P (when b m).
Proof. intros Hm. destruct b; [exact Hm|apply emits_ret]. Qed.

Ltac emits_step :=
  first
    [ solve [auto with emits nocore]
    | apply emits_ret | apply emits_fail | apply emits_load | apply emits_store
    | apply emits_run | apply emits_lock
    | apply emits_emit; exact I
    | apply emits_when
    | apply emits_bind; [|intros ?]
    | match goal with
      | |- emits _ (match ?x with _ => _ end) => destruct x
      | |- emits _ (if ?x then _ else _) => destruct x
      | |- emits _ (let '(_, _) := ?x in _) => destruct x
      end ].

Lemma plain_add_sender p : emits plain (add_sender p).
Proof. unfold add_sender. repeat emits_step. Qed.
#[local] Hint Resolve plain_add_sender : emits.

Lemma plain_remove_sender p : emits plain (remove_sender p).
Proof. unfold remove_sender, remove_sender_locked. repeat emits_step. Qed.
#[local] Hint Resolve plain_remove_sender : emits.

Lemma plain_remove_receiver p : emits plain (remove_receiver p).
Proof. unfold remove_receiver, remove_receiver_locked. repeat emits_step. Qed.
#[local] Hint Resolve plain_remove_receiver : emits.

Lemma plain_sender_destroy s : emits plain (sender_destroy s).
Proof. unfold sender_destroy. repeat emits_step. Qed.
#[local] Hint Resolve plain_sender_destroy : emits.

Lemma plain_clear_downstream p : emits plain (clear_downstream p).
Proof.
  unfold clear_downstream. repeat emits_step.
  induction (_downstream a) as [|e l IH]; cbn [foldr]; repeat emits_step; auto.
Qed.
#[local] Hint Resolve plain_clear_downstream : emits.

Lemma plain_task_done p : emits plain (task_done p).
Proof.
  unfold task_done, task_done_locked. repeat emits_step.
Qed.
#[local] Hint Resolve plain_task_done : emits.

Lemma plain_cts p : emits plain (cts p).
Proof. unfold cts. repeat emits_step. Qed.
#[local] Hint Resolve plain_cts : emits.

Lemma plain_send p v : emits plain (send p v).
Proof. unfold send, send_locked. repeat emits_step. Qed.
#[local] Hint Resolve plain_send : emits.

Lemma plain_sender_call s v : emits plain (sender_call s v).
Proof. unfold sender_call. repeat emits_step. Qed.
#[local] Hint Resolve plain_sender_call : emits.

Lemma plain_for_each_n (l : list sender) n v :
  emits plain (for_each_n l n (fun e => sender_call e v)).
Proof.
  revert l. induction n as [|n IH]; intros l; cbn [for_each_n]; repeat emits_step; auto.
Qed.
#[local] Hint Resolve plain_for_each_n : emits.

Lemma plain_broadcast p v : emits plain (broadcast p v).
Proof.
  unfold broadcast, broadcast_snapshot, broadcast_deliver. repeat emits_step.
Qed.
#[local] Hint Resolve plain_broadcast : emits.

Lemma plain_counts p (evs : list event) :
  Forall plain evs ->
  upstream_cts_count p evs = 0%nat /\ closes p evs = 0%nat /\ consumed p evs = [].
Proof.
  induction 1 as [|e evs He _ IH]; [auto|].
  destruct e; cbn in *; auto; contradiction.
Qed.

Lemma emits_counts {A} (m : M A) w a w' p :
  emits plain m ->
  m w = Ok a w' ->
  upstream_cts_count p (trace w') = upstream_cts_count p (trace w)
  /\ closes p (trace w') = closes p (trace w)
  /\ consumed p (trace w') = consumed p (trace w).
Proof.
  intros Hm Hrun. destruct (Hm _ _ _ Hrun) as (evs & -> & Hplain).
  rewrite upstream_cts_count_app, closes_app, consumed_app.
  destruct (plain_counts p evs Hplain) as (-> & -> & ->).
  rewrite app_nil_r. repeat split; lia.
Qed.

(** taking a message off the queue of a stage with an upstream: one
    [_upstream->cts()] if that leaves the queue empty, none otherwise *)
Lemma dequeue_cts_when_emptied p sp u w (m : V) (rest : list V) :
  heap w !! p = Some sp ->
  _process_message_queue sp = m :: rest ->
  _upstream sp = Some u ->
  let delivered := match rest with [] => 1%nat | _ :: _ => 0%nat end in
  (forall await_ b w',
      dequeue await_ p w = Ok b w' ->
      b = true
      /\ upstream_cts_count p (trace w')
         = (upstream_cts_count p (trace w) + delivered)%nat)
  /\ (forall call w',
        step_call call p w = Ok tt w' ->
        consumed p (trace w') = consumed p (trace w) ++ [m]
        /\ upstream_cts_count p (trace w')
           = (upstream_cts_count p (trace w) + delivered)%nat).
Proof.
  intros Hp Hq Hu delivered. split.
  - intros await_ b w' Hrun.
    unfold dequeue in Hrun. rewrite (bind_load _ _ _ _ Hp) in Hrun.
    unfold dequeue_locked in Hrun. rewrite Hq in Hrun.
    rewrite bind_store in Hrun.
    unfold upstream_cts in Hrun. rewrite bind_bind in Hrun.
    erewrite bind_load in Hrun by solve_lookup.
    cbn [_upstream set_process_message_queue] in Hrun. rewrite Hu in Hrun.
    apply bind_inv in Hrun as (? & w1 & Hcts & Hrun).
    assert (Hb : b = true /\ upstream_cts_count p (trace w') = upstream_cts_count p (trace w1)).
    { apply bind_inv in Hrun as (sp1 & w2 & Hload & Hrun).
      pose proof (emits_counts _ _ _ _ p (emits_load plain p) Hload) as (E1 & _).
      rewrite bind_store, bind_emit in Hrun. injection Hrun as <- <-.
      split; [reflexivity|]. cbn [trace]. rewrite upstream_cts_count_app, <- E1. cbn. lia. }
    destruct Hb as [-> ->]. split; [reflexivity|].
    destruct rest as [|m' rest]; cbn [length Nat.eqb when] in Hcts.
    + rewrite bind_emit in Hcts.
      pose proof (emits_counts _ _ _ _ p (plain_cts u) Hcts) as (-> & _).
      cbn [trace]. rewrite upstream_cts_count_app. cbn. rewrite Nat.eqb_refl. reflexivity.
    + injection Hcts as _ <-. cbn [trace]. subst delivered. cbn. lia.
  - intros call w' Hrun.
    unfold step_call in Hrun. rewrite (bind_load _ _ _ _ Hp) in Hrun.
    unfold dequeue_locked in Hrun. rewrite Hq in Hrun.
    rewrite bind_store in Hrun.
    unfold upstream_cts in Hrun. rewrite bind_bind in Hrun.
    erewrite bind_load in Hrun by solve_lookup.
    cbn [_upstream set_process_message_queue] in Hrun. rewrite Hu in Hrun.
    apply bind_inv in Hrun as (? & w1 & Hcts & Hrun).
    assert (Hb : consumed p (trace w') = consumed p (trace w1) ++ [m]
                 /\ upstream_cts_count p (trace w') = upstream_cts_count p (trace w1)).
    { apply bind_inv in Hrun as (sp1 & w2 & Hload & Hrun).
      pose proof (emits_counts _ _ _ _ p (emits_load plain p) Hload) as (E1 & _ & E2).
      destruct (call (_process sp1) m) as [v x'].
      rewrite bind_store, bind_emit in Hrun.
      assert (Hrest : emits plain (broadcast p v ;; cts p)) by repeat emits_step.
      pose proof (emits_counts _ _ _ _ p Hrest Hrun) as (-> & _ & ->).
      cbn [trace]. rewrite consumed_app, upstream_cts_count_app, E1, E2.
      cbn. rewrite Nat.eqb_refl. split; [reflexivity|lia]. }
    destruct Hb as [-> ->].
    destruct rest as [|m' rest]; cbn [length Nat.eqb when] in Hcts.
    + rewrite bind_emit in Hcts.
      pose proof (emits_counts _ _ _ _ p (plain_cts u) Hcts) as (-> & _ & ->).
      cbn [trace]. rewrite consumed_app, upstream_cts_count_app. cbn.
      rewrite Nat.eqb_refl, app_nil_r. split; reflexivity.
    + injection Hcts as _ <-. cbn [trace]. subst delivered. cbn. split; [reflexivity|lia].
Qed.

(** *** The close protocol of one process, under any interleaving *)

Lemma close_phases_created (T : process) (f : St) up : close_phases (created T f up).
Proof.
  unfold close_phases, created. simpl. split; [unfold size_modulus; lia|].
  left. auto.
Qed.

Lemma size_decr_pos n : 1 <= n < size_modulus -> size_decr n = n - 1.
Proof. intros Hn. unfold size_decr. apply Z.mod_small. lia. Qed.

Lemma size_incr_small n : 0 <= n -> n + 1 < size_modulus -> size_incr n = n + 1.
Proof. intros H0 Hn. unfold size_incr. apply Z.mod_small. lia. Qed.

Lemma close_phases_perform a (c c' : concurrent) :
  close_phases c -> perform a c = Some c' -> close_phases c'.
Proof.
  destruct c as [sp n closing closes]. unfold close_phases.
  cbn [c_object c_senders c_closing c_closes].
  intros [Hcount Hphase] Hperform.
  destruct a; cbn [perform c_object c_senders c_closing c_closes with_object] in Hperform.
  all: repeat match type of Hperform with
       | context [bool_decide ?P] => destruct (bool_decide_reflect P); cbn [andb] in Hperform
       end.
  all: try discriminate Hperform.
  all: try (injection Hperform as <-; cbn [c_object c_senders c_closing c_closes with_object]).
  - (* Sender_call *)
    destruct sp; cbn in *. split; [lia|]. left. intuition (try lia; auto).
  - (* Sender_copy *)
    rewrite size_incr_small by lia.
    destruct sp; cbn in *. split; [lia|]. left. intuition (try lia; auto).
  - (* Sender_end *)
    rewrite size_decr_pos by lia.
    destruct sp; cbn in *. split; [lia|].
    destruct Hphase as [(-> & ? & ? & ->)|Hphase]; [|intuition lia].
    cbn [orb]. destruct (Z.eqb_spec (_sender_count0 - 1) 0) as [E|E].
    + right. left. intuition lia.
    + left. intuition lia.
  - (* Sender_overwritten *)
    split; [lia|]. destruct Hphase as [?|Hphase]; [left; assumption|intuition lia].
  - (* Receiver_copy *)
    rewrite size_incr_small by lia.
    destruct sp; cbn in *. split; [lia|]. intuition (try lia; auto).
  - (* Remove_sender_block *)
    destruct closing; [|discriminate].
    injection Hperform as <-. cbn [c_object c_senders c_closing c_closes].
    destruct sp; cbn in *. split; [lia|].
    destruct Hphase as [(? & _)|[(-> & _ & ? & ? & ->)|[(_ & ? & _)|(_ & ? & _)]]]; try discriminate.
    right. right. left. auto.
  - (* Receiver_count *)
    destruct sp; cbn in *. split; [lia|]. exact Hphase.
  - (* Remove_receiver_block *)
    destruct sp; cbn in *. split; [lia|]. exact Hphase.
  - (* Cts_block *)
    destruct (cts_locked sp) as [[sp' ?]|] eqn:Hcts; [|discriminate].
    injection Hperform as <-. cbn [c_object c_senders c_closing c_closes with_object].
    assert (Hsame : _sender_count sp' = _sender_count sp
                    /\ _process_close_queue sp' = _process_close_queue sp
                    /\ _process_final sp' = _process_final sp
                    /\ _process_message_queue sp' = _process_message_queue sp
                    /\ process_T sp' = process_T sp).
    { unfold cts_locked in Hcts.
      repeat match type of Hcts with
             | context [if ?b then _ else _] => destruct b
             end; try discriminate; injection Hcts as <- <-; destruct sp; cbn; auto. }
    destruct Hsame as (-> & -> & -> & -> & ->). auto.
  - (* Dequeue_block *)
    unfold dequeue_locked in Hperform.
    destruct (_process_message_queue sp) as [|m rest] eqn:Hq.
    + injection Hperform as <-. cbn [c_object c_senders c_closing c_closes].
      destruct sp; cbn in *. split; [lia|]. subst.
      destruct Hphase as [(-> & -> & -> & ->)|[(-> & -> & -> & -> & ->)
                         |[(-> & -> & -> & -> & ->)|(-> & -> & -> & _ & Hle & Hy)]]]; cbn.
      * left. auto.
      * right. left. auto.
      * right. right. right.
        destruct (has_process_yield process_T0) eqn:Hy; cbn;
          [destruct (has_process_close process_T0); cbn|]; intuition (try lia; congruence).
      * right. right. right. intuition.
    + injection Hperform as <-. cbn [c_object c_senders c_closing c_closes].
      destruct sp; cbn in *. split; [lia|]. subst.
      destruct Hphase as [?|[?|[?|(_ & _ & _ & ? & _)]]]; [tauto|tauto|tauto|discriminate].
  - (* Task_done_block *)
    unfold task_done_locked in Hperform.
    match type of Hperform with context [if ?b then _ else _] => destruct b end;
      [discriminate|].
    injection Hperform as <-. cbn [c_object c_senders c_closing c_closes with_object].
    destruct sp; cbn in *. split; [lia|]. exact Hphase.
  - (* Suspend *)
    destruct sp; cbn in *. split; [lia|]. exact Hphase.
  - (* Downstream *)
    destruct sp; cbn in *. split; [lia|]. exact Hphase.
  - (* User *)
    destruct sp; cbn in *. split; [lia|]. exact Hphase.
Qed.

Lemma close_phases_reachable l (c0 c : concurrent) :
  close_phases c0 -> perform_all l c0 = Some c -> close_phases c.
Proof.
  revert c0. induction l as [|a l IH]; intros c0 Hinv Hrun; simpl in Hrun.
  - injection Hrun as <-. exact Hinv.
  - destruct (perform a c0) as [c1|] eqn:Ha; [|discriminate].
    exact (IH c1 (close_phases_perform a c0 c1 Hinv Ha) Hrun).
Qed.

(** C7.  Whatever the threads do to a shared process after its creation,
    one indivisible access after the other, whenever [_process_final] is set
    the message queue is empty and [_process_close_queue] is clear; so the
    locked block of [task_done] never computes [do_run] and [do_final] both
    true, and its assertion passes. *)
Theorem task_done_never_asserts (T : process) (f : St) up
    (l : list (@access V St)) (c : concurrent) :
  perform_all l (created T f up) = Some c ->
  (_process_final (c_object c) = true ->
     _process_message_queue (c_object c) = []
     /\ _process_close_queue (c_object c) = false)
  /\ (let '(_, do_run, do_final) := task_done_locked (c_object c) in
      (do_run && do_final) = false)
  /\ is_Some (perform Task_done_block c).
Proof.
  intros Hrun.
  pose proof (close_phases_reachable l _ c (close_phases_created T f up) Hrun) as [_ Hphase].
  assert (Hfinal : _process_final (c_object c) = true ->
                   _process_message_queue (c_object c) = []
                   /\ _process_close_queue (c_object c) = false).
  { intros Hf.
    destruct Hphase as [(_ & _ & ? & _)|[(_ & _ & _ & ? & _)
                       |[(_ & _ & _ & ? & _)|(_ & _ & ? & ? & _)]]];
      try congruence. auto. }
  split; [exact Hfinal|]. split.
  - unfold task_done_locked.
    destruct (negb (deque_empty (_process_message_queue (c_object c)))) eqn:Hq; cbn.
    + destruct (_process_final (c_object c)) eqn:Hf; [|reflexivity].
      destruct (Hfinal eq_refl) as [Hq' _]. rewrite Hq' in Hq. discriminate.
    + destruct (_process_close_queue (c_object c)) eqn:Hc; cbn; [|reflexivity].
      destruct (_process_final (c_object c)) eqn:Hf; [|reflexivity].
      destruct (Hfinal eq_refl) as [_ Hc']. congruence.
  - cbn [perform]. unfold task_done_locked.
    destruct (negb (deque_empty (_process_message_queue (c_object c)))) eqn:Hq; cbn.
    + destruct (_process_final (c_object c)) eqn:Hf; [|eauto].
      destruct (Hfinal eq_refl) as [Hq' _]. rewrite Hq' in Hq. discriminate.
    + destruct (_process_close_queue (c_object c)) eqn:Hc; cbn; [|eauto].
      destruct (_process_final (c_object c)) eqn:Hf; [|eauto].
      destruct (Hfinal eq_refl) as [_ Hc']. congruence.
Qed.

(** *** The order of the close hooks along a pipeline *)

Lemma close_inv_store w p sp sp' :
  close_inv w ->
  heap w !! p = Some sp ->
  process_T sp' = process_T sp ->
  _upstream sp' = _upstream sp ->
  (forall x, Sender (Some x) ∈ _downstream sp' ->
     Sender (Some x) ∈ _downstream sp
     \/ ((x < next_pid w)%nat /\ x <> p
         /\ forall sx, heap w !! x = Some sx -> _upstream sx = Some p)) ->
  (_process_final sp' = true ->
     _process_final sp = true \/ hook_capable (process_T sp) = false
     \/ (1 <= closes p (trace w))%nat) ->
  (_process_close_queue sp' = true ->
     _process_close_queue sp = true \/ upstream_closed w p) ->
  close_inv {| heap := <[p := sp']> (heap w); next_pid := next_pid w;
               tasks := tasks w; trace := trace w |}.
Proof.
  intros [Hdom Hup Holder Hcl Hent Hdown Hfin Hcq Hord] Hp HT Hu Hds Hf Hc.
  assert (Hlk : forall x sx, <[p := sp']> (heap w) !! x = Some sx ->
                  exists sx0, heap w !! x = Some sx0
                    /\ process_T sx = process_T sx0 /\ _upstream sx = _upstream sx0).
  { intros x sx Hx. destruct (decide (x = p)) as [->|Hne].
    - rewrite lookup_insert_eq in Hx. injection Hx as <-. eauto.
    - rewrite lookup_insert_ne in Hx by congruence. eauto. }
  split; cbn [heap next_pid tasks trace].
  - intros x sx Hx. destruct (Hlk x sx Hx) as (sx0 & Hx0 & _). eauto.
  - intros x sx u Hx Hxu. destruct (Hlk x sx Hx) as (sx0 & Hx0 & _ & E).
    rewrite E in Hxu. eauto.
  - intros x sx u Hx Hxu. destruct (Hlk x sx Hx) as (sx0 & Hx0 & _ & E).
    rewrite E in Hxu. eauto.
  - exact Hcl.
  - intros q sq x Hq Hin.
    destruct (decide (q = p)) as [->|Hne].
    + rewrite lookup_insert_eq in Hq. injection Hq as <-.
      destruct (Hds x Hin) as [Hold|[Hnew _]]; [eapply Hent; eauto|exact Hnew].
    + rewrite lookup_insert_ne in Hq by congruence. eapply Hent; eauto.
  - intros q sq x sx Hq Hin Hx.
    destruct (decide (q = p)) as [->|Hne].
    + rewrite lookup_insert_eq in Hq. injection Hq as <-.
      destruct (Hds x Hin) as [Hold|(_ & Hxp & Hnew)].
      * destruct (Hlk x sx Hx) as (sx0 & Hx0 & _ & E). rewrite E. eapply Hdown; eauto.
      * rewrite lookup_insert_ne in Hx by congruence. eauto.
    + rewrite lookup_insert_ne in Hq by congruence.
      destruct (Hlk x sx Hx) as (sx0 & Hx0 & _ & E). rewrite E. eapply Hdown; eauto.
  - intros q sq Hq Hqf Hhook.
    destruct (decide (q = p)) as [->|Hne].
    + rewrite lookup_insert_eq in Hq. injection Hq as <-.
      destruct (Hf Hqf) as [Hold|[Hno|Hyes]].
      * apply (Hfin p sp Hp Hold). rewrite <- HT. exact Hhook.
      * rewrite HT in Hhook. congruence.
      * exact Hyes.
    + rewrite lookup_insert_ne in Hq by congruence. eauto.
  - intros x sx u su Hx Hxu Hu' Hxc Hhook.
    destruct (Hlk u su Hu') as (su0 & Hu0 & ET & _). rewrite ET in Hhook.
    destruct (decide (x = p)) as [->|Hne].
    + rewrite lookup_insert_eq in Hx. injection Hx as <-. rewrite Hu in Hxu.
      destruct (Hc Hxc) as [Hold|Hnew]; [eauto|]. eapply Hnew; eauto.
    + rewrite lookup_insert_ne in Hx by congruence. eauto.
  - intros pre post x sx u su Htr Hx Hxu Hu' Hhook.
    destruct (Hlk x sx Hx) as (sx0 & Hx0 & _ & EU).
    destruct (Hlk u su Hu') as (su0 & Hu0 & ET & _).
    rewrite EU in Hxu. rewrite ET in Hhook. eauto.
Qed.

Lemma close_inv_tasks w t :
  close_inv w ->
  close_inv {| heap := heap w; next_pid := next_pid w; tasks := t; trace := trace w |}.
Proof. intros [? ? ? ? ? ? ? ? ?]. split; cbn [heap next_pid tasks trace]; assumption. Qed.

Lemma closes_snoc p (tr : list event) e :
  (closes p tr <= closes p (tr ++ [e]))%nat.
Proof. rewrite closes_app. lia. Qed.

Lemma closes_snoc_other p (tr : list event) e :
  not_close e -> closes p (tr ++ [e]) = closes p tr.
Proof. intros He. rewrite closes_app. destruct e; cbn in *; try lia; contradiction. Qed.

Lemma close_inv_emit w e :
  close_inv w ->
  (forall p, e = EvClose p -> is_Some (heap w !! p) /\ upstream_closed w p) ->
  close_inv {| heap := heap w; next_pid := next_pid w; tasks := tasks w;
               trace := trace w ++ [e] |}.
Proof.
  intros [Hdom Hup Holder Hcl Hent Hdown Hfin Hcq Hord] He.
  split; cbn [heap next_pid tasks trace].
  - exact Hdom.
  - exact Hup.
  - exact Holder.
  - intros p Hp. rewrite closes_app in Hp.
    destruct (closes p (trace w)) eqn:Hc; [|apply Hcl; lia].
    destruct e; cbn in Hp; try lia.
    destruct (Nat.eqb_spec p p0) as [->|]; [|cbn in Hp; lia].
    destruct (He p0 eq_refl) as [[sp Hsp] _]. eauto.
  - exact Hent.
  - exact Hdown.
  - intros q sq Hq Hf Hh. pose proof (closes_snoc q (trace w) e). specialize (Hfin q sq Hq Hf Hh). lia.
  - intros p sp u su Hp Hu Hsu Hc Hh. pose proof (closes_snoc u (trace w) e).
    specialize (Hcq p sp u su Hp Hu Hsu Hc Hh). lia.
  - intros pre post p sp u su Htr Hp Hu Hsu Hh.
    destruct post as [|x post _] using rev_ind.
    + apply app_inj_tail in Htr as [<- ->].
      destruct (He p eq_refl) as [_ Hclosed]. eapply Hclosed; eauto.
    + rewrite app_comm_cons, app_assoc in Htr. apply app_inj_tail in Htr as [Htr _].
      eapply Hord; eauto.
Qed.

Lemma close_inv_emit_other w e :
  close_inv w -> not_close e ->
  close_inv {| heap := heap w; next_pid := next_pid w; tasks := tasks w;
               trace := trace w ++ [e] |}.
Proof.
  intros Hinv He. apply close_inv_emit; [exact Hinv|].
  intros p ->. contradiction.
Qed.

(** a fresh object that is neither closing nor final and has no downstream *)
Lemma close_inv_alloc w sp :
  close_inv w ->
  _downstream sp = [] -> _process_final sp = false -> _process_close_queue sp = false ->
  (forall u, _upstream sp = Some u -> (u < next_pid w)%nat) ->
  close_inv {| heap := <[next_pid w := sp]> (heap w); next_pid := S (next_pid w);
               tasks := tasks w; trace := trace w |}.
Proof.
  intros [Hdom Hup Holder Hcl Hent Hdown Hfin Hcq Hord] Hds Hf Hc Hu.
  assert (Hfresh : heap w !! next_pid w = None).
  { destruct (heap w !! next_pid w) as [sx|] eqn:E; [|reflexivity].
    apply Hdom in E. lia. }
  assert (Hlk : forall x sx, <[next_pid w := sp]> (heap w) !! x = Some sx ->
                  (x = next_pid w /\ sx = sp) \/ (x <> next_pid w /\ heap w !! x = Some sx)).
  { intros x sx Hx. destruct (decide (x = next_pid w)) as [->|Hne].
    - rewrite lookup_insert_eq in Hx. injection Hx as <-. auto.
    - rewrite lookup_insert_ne in Hx by congruence. auto. }
  split; cbn [heap next_pid tasks trace].
  - intros x sx Hx. destruct (Hlk x sx Hx) as [[-> _]|[_ Hx0]]; [lia|]. apply Hdom in Hx0. lia.
  - intros x sx u Hx Hxu. destruct (Hlk x sx Hx) as [[-> ->]|[_ Hx0]].
    + apply Hu in Hxu. lia.
    + specialize (Hup x sx u Hx0 Hxu). lia.
  - intros x sx u Hx Hxu. destruct (Hlk x sx Hx) as [[-> ->]|[_ Hx0]]; [auto|eauto].
  - intros p Hp. apply Hcl in Hp. lia.
  - intros q sq x Hq Hin.
    destruct (Hlk q sq Hq) as [[-> ->]|[_ Hq0]].
    + rewrite Hds in Hin. inversion Hin.
    + specialize (Hent q sq x Hq0 Hin). lia.
  - intros q sq x sx Hq Hin Hx.
    destruct (Hlk q sq Hq) as [[-> ->]|[_ Hq0]].
    + rewrite Hds in Hin. inversion Hin.
    + destruct (Hlk x sx Hx) as [[-> ->]|[_ Hx0]]; [|eauto].
      specialize (Hent q sq _ Hq0 Hin). lia.
  - intros q sq Hq Hqf Hh.
    destruct (Hlk q sq Hq) as [[-> ->]|[_ Hq0]]; [congruence|eauto].
  - intros x sx u su Hx Hxu Hsu Hxc Hh.
    destruct (Hlk x sx Hx) as [[-> ->]|[_ Hx0]]; [congruence|].
    destruct (Hlk u su Hsu) as [[-> ->]|[_ Hu0]]; [|eauto].
    specialize (Hup x sx _ Hx0 Hxu). lia.
  - intros pre post x sx u su Htr Hx Hxu Hsu Hh.
    destruct (Hlk x sx Hx) as [[-> ->]|[_ Hx0]].
    + assert (1 <= closes (next_pid w) (trace w))%nat.
      { rewrite Htr, closes_app. cbn. rewrite Nat.eqb_refl. lia. }
      apply Hcl in H. lia.
    + destruct (Hlk u su Hsu) as [[-> ->]|[_ Hu0]]; [|eauto].
      specialize (Hup x sx _ Hx0 Hxu). lia.
Qed.

(** *** Member functions that keep the close protocol *)

Lemma preserves_ret {A} (a : A) : preserves (@ret V St A a).
Proof. intros w a' w' Hinv [= _ <-]. exact Hinv. Qed.

Lemma preserves_fail {A} f : preserves (@fail V St A f).
Proof. intros w a w' _ [=]. Qed.

Lemma preserves_bind {A B} (m : M A) (k : A -> M B) :
  preserves m -> (forall a, preserves (k a)) -> preserves (bind m k).
Proof.
  intros Hm Hk w b w' Hinv Hrun. apply bind_inv in Hrun as (a & w1 & H1 & H2).
  eapply Hk; [|exact H2]. eapply Hm; eauto.
Qed.

Lemma preserves_when b (m : M unit) : preserves m -> preserves (when b m).
Proof. intros Hm. destruct b; [exact Hm|apply preserves_ret]. Qed.

Lemma preserves_run p : preserves (run p).
Proof. intros w a w' Hinv [= _ <-]. apply close_inv_tasks. exact Hinv. Qed.

Lemma preserves_emit e : not_close e -> preserves (emit e).
Proof. intros He w a w' Hinv [= _ <-]. apply close_inv_emit_other; assumption. Qed.

Lemma preserves_lock s : preserves (lock s).
Proof.
  intros w a w' Hinv Hrun. unfold lock in Hrun.
  destruct (sender_p s) as [p|]; [destruct (heap w !! p)|]; injection Hrun as _ <-; exact Hinv.
Qed.

Lemma preserves_load {A} p (k : shared_process -> M A) :
  (forall sp, preserves_at p sp (k sp)) -> preserves (bind (load p) k).
Proof.
  intros Hk w a w' Hinv Hrun. unfold bind, load in Hrun.
  destruct (heap w !! p) as [sp|] eqn:Hp; [|discriminate].
  eapply Hk; eauto.
Qed.

Lemma at_store p sp sp' :
  same_close_state sp' sp -> preserves_at p sp (store p sp').
Proof.
  intros (HT & Hu & Hd & Hf & Hc) w a w' Hinv Hp [= _ <-].
  eapply close_inv_store; eauto.
  intros e. rewrite Hd. auto.
Qed.

Lemma at_bind_store {A} p sp sp' (k : unit -> M A) :
  same_close_state sp' sp -> preserves (k tt) -> preserves_at p sp (bind (store p sp') k).
Proof.
  intros Hsame Hk w a w' Hinv Hp Hrun. rewrite bind_store in Hrun.
  eapply Hk; [|exact Hrun]. eapply (at_store p sp sp' Hsame w tt); eauto.
Qed.

Lemma at_any {A} p sp (m : M A) : preserves m -> preserves_at p sp m.
Proof. intros Hm w a w' Hinv _ Hrun. eapply Hm; eauto. Qed.

Ltac same_state := repeat split; reflexivity.

Ltac pres_step :=
  first
    [ solve [auto with pres nocore]
    | apply preserves_ret | apply preserves_fail | apply preserves_run | apply preserves_lock
    | apply preserves_emit; exact I
    | apply preserves_when
    | apply preserves_load; intros ?
    | apply at_store; same_state
    | apply at_bind_store; [same_state|]
    | apply preserves_bind; [|intros ?]
    | match goal with
      | |- preserves (match ?x with _ => _ end) => destruct x
      | |- preserves (if ?x then _ else _) => destruct x
      | |- preserves_at _ _ (match ?x with _ => _ end) => destruct x
      | |- preserves_at _ _ (if ?x then _ else _) => destruct x
      end
    | apply at_any ].

Lemma preserves_add_sender p : preserves (add_sender p).
Proof. unfold add_sender. repeat pres_step. Qed.

Lemma preserves_add_receiver p : preserves (add_receiver p).
Proof. unfold add_receiver. repeat pres_step. Qed.

Lemma preserves_remove_receiver p : preserves (remove_receiver p).
Proof. unfold remove_receiver, remove_receiver_locked. cbn zeta. repeat pres_step. Qed.

Lemma preserves_send p v : preserves (send p v).
Proof. unfold send, send_locked. cbn zeta. repeat pres_step. Qed.

#[local] Hint Resolve preserves_add_sender preserves_add_receiver
  preserves_remove_receiver preserves_send : pres.

Lemma cts_locked_same sp sp' b :
  cts_locked sp = Some (sp', b) -> same_close_state sp' sp.
Proof.
  unfold cts_locked. intros H.
  repeat match type of H with
         | context [if ?c then _ else _] => destruct c
         end; try discriminate; injection H as <- <-; same_state.
Qed.

Lemma preserves_cts p : preserves (cts p).
Proof.
  unfold cts. apply preserves_bind; [apply preserves_emit; exact I|intros _].
  apply preserves_load. intros sp.
  destruct (cts_locked sp) as [[sp' b]|] eqn:E; [|apply at_any, preserves_fail].
  apply at_bind_store; [eapply cts_locked_same; eauto|]. repeat pres_step.
Qed.
#[local] Hint Resolve preserves_cts : pres.

Lemma preserves_sender_call s v : preserves (sender_call s v).
Proof. unfold sender_call. repeat pres_step. Qed.
#[local] Hint Resolve preserves_sender_call : pres.

Lemma preserves_for_each_n (l : list sender) n v :
  preserves (for_each_n l n (fun e => sender_call e v)).
Proof.
  revert l. induction n as [|n IH]; intros l; cbn [for_each_n]; repeat pres_step; auto.
Qed.
#[local] Hint Resolve preserves_for_each_n : pres.

Lemma preserves_broadcast p v : preserves (broadcast p v).
Proof.
  unfold broadcast, broadcast_snapshot, broadcast_deliver. repeat pres_step.
Qed.
#[local] Hint Resolve preserves_broadcast : pres.

Lemma preserves_upstream_cts p b : preserves (upstream_cts p b).
Proof. unfold upstream_cts. repeat pres_step. Qed.
#[local] Hint Resolve preserves_upstream_cts : pres.

Lemma preserves_sender_copy s : preserves (sender_copy s).
Proof. unfold sender_copy. repeat pres_step. Qed.
#[local] Hint Resolve preserves_sender_copy : pres.

Lemma preserves_acquire p : preserves (acquire p).
Proof. unfold acquire. repeat pres_step. Qed.
#[local] Hint Resolve preserves_acquire : pres.

(** *** The members that move the close protocol *)

Lemma load_inv p w sp w' : load p w = Ok sp w' -> w' = w /\ heap w !! p = Some sp.
Proof.
  unfold load. destruct (heap w !! p) as [sp0|]; [|discriminate].
  intros [= <- <-]. auto.
Qed.

Lemma bind_load_inv {A} p (k : shared_process -> M A) w a w' :
  bind (load p) k w = Ok a w' -> exists sp, heap w !! p = Some sp /\ k sp w = Ok a w'.
Proof.
  intros H. apply bind_inv in H as (sp & w1 & Hl & Hk).
  apply load_inv in Hl as [-> Hp]. eauto.
Qed.

Lemma remove_sender_inv p w w' :
  close_inv w -> upstream_closed w p -> remove_sender p w = Ok tt w' -> close_inv w'.
Proof.
  intros Hinv Hclosed Hrun. unfold remove_sender in Hrun.
  apply bind_load_inv in Hrun as (sp & Hp & Hrun). cbn zeta in Hrun.
  destruct (_sender_count (set_sender_count (size_decr (_sender_count sp)) sp) =? 0).
  - unfold remove_sender_locked in Hrun. cbn zeta in Hrun. rewrite bind_store in Hrun.
    assert (Hinv1 : close_inv {| heap := <[p := set_process_running
                                   (_process_running sp
                                    || (_receiver_count sp =? 0) && negb (_process_running sp))
                                   (set_process_close_queue true
                                      (set_sender_count (size_decr (_sender_count sp)) sp))]>
                                   (heap w);
                                 next_pid := next_pid w; tasks := tasks w; trace := trace w |}).
    { eapply close_inv_store; eauto; cbn; auto. }
    revert Hrun. generalize Hinv1. apply preserves_when, preserves_run.
  - injection Hrun as <-. eapply close_inv_store; eauto; cbn; auto.
Qed.

Lemma same_shape_refl w : same_shape w w.
Proof. split; eauto. Qed.

Lemma upstream_closed_shape w w' p :
  same_shape w w' -> upstream_closed w p -> upstream_closed w' p.
Proof.
  intros [Hobj Htr] Hc sp u su Hp Hu Hsu Hh.
  destruct (Hobj _ _ Hp) as (sp0 & Hp0 & _ & EU).
  destruct (Hobj _ _ Hsu) as (su0 & Hsu0 & ET & _).
  rewrite EU in Hu. rewrite ET in Hh.
  specialize (Hc sp0 u su0 Hp0 Hu Hsu0 Hh). specialize (Htr u). lia.
Qed.

Lemma when_run_inv b p w a w' :
  when b (run p) w = Ok a w' ->
  heap w' = heap w /\ trace w' = trace w /\ next_pid w' = next_pid w.
Proof. destruct b; intros [= _ <-]; auto. Qed.

Lemma remove_sender_shape p w w' : remove_sender p w = Ok tt w' -> same_shape w w'.
Proof.
  intros Hrun.
  assert (Htr : forall x, closes x (trace w') = closes x (trace w)).
  { intros x. eapply emits_counts; [apply plain_remove_sender|exact Hrun]. }
  split; [|intros x; rewrite Htr; lia].
  unfold remove_sender in Hrun.
  apply bind_load_inv in Hrun as (sp & Hp & Hrun). cbn zeta in Hrun.
  assert (Hins : forall sp' x sx',
            process_T sp' = process_T sp -> _upstream sp' = _upstream sp ->
            <[p := sp']> (heap w) !! x = Some sx' ->
            exists sx, heap w !! x = Some sx
              /\ process_T sx' = process_T sx /\ _upstream sx' = _upstream sx).
  { intros sp' x sx' HT HU Hx. destruct (decide (x = p)) as [->|Hne].
    - rewrite lookup_insert_eq in Hx. injection Hx as <-. eauto.
    - rewrite lookup_insert_ne in Hx by congruence. eauto. }
  destruct (_sender_count (set_sender_count (size_decr (_sender_count sp)) sp) =? 0).
  - unfold remove_sender_locked in Hrun. cbn zeta in Hrun. rewrite bind_store in Hrun.
    intros x sx' Hx. apply when_run_inv in Hrun as (Hh & _). rewrite Hh in Hx. cbn [heap] in Hx.
    eapply Hins; [| |exact Hx]; reflexivity.
  - injection Hrun as <-. intros x sx' Hx. cbn [heap] in Hx.
    eapply Hins; [| |exact Hx]; reflexivity.
Qed.

Lemma sender_destroy_inv e w w' :
  close_inv w ->
  (forall p, sender_p e = Some p -> upstream_closed w p) ->
  sender_destroy e w = Ok tt w' -> close_inv w'.
Proof.
  intros Hinv Hc Hrun. unfold sender_destroy, bind, lock in Hrun.
  destruct (sender_p e) as [p|]; [destruct (heap w !! p)|].
  - eapply remove_sender_inv; eauto.
  - injection Hrun as <-. exact Hinv.
  - injection Hrun as <-. exact Hinv.
Qed.

Lemma sender_destroy_shape e w w' : sender_destroy e w = Ok tt w' -> same_shape w w'.
Proof.
  intros Hrun. unfold sender_destroy, bind, lock in Hrun.
  destruct (sender_p e) as [p|]; [destruct (heap w !! p)|].
  - eapply remove_sender_shape; eauto.
  - injection Hrun as <-. apply same_shape_refl.
  - injection Hrun as <-. apply same_shape_refl.
Qed.

(** the senders of a cleared downstream deque are destroyed one by one;
    all of them lead to objects whose upstream [q] has closed *)
Lemma destroy_entries_inv q (es : list sender) w w' :
  close_inv w ->
  (forall p sp, Sender (Some p) ∈ es -> heap w !! p = Some sp -> _upstream sp = Some q) ->
  (forall sq, heap w !! q = Some sq ->
     hook_capable (process_T sq) = true -> (1 <= closes q (trace w))%nat) ->
  foldr (fun e k => sender_destroy e ;; k) (ret tt) es w = Ok tt w' ->
  close_inv w'.
Proof.
  revert w. induction es as [|e es IH]; intros w Hinv Hes Hq Hrun; cbn [foldr] in Hrun.
  - injection Hrun as <-. exact Hinv.
  - apply bind_inv in Hrun as ([] & w1 & He & Hrun).
    pose proof (sender_destroy_shape _ _ _ He) as [Hobj Htr].
    eapply (IH w1); [| | |exact Hrun].
    + eapply sender_destroy_inv; [exact Hinv| |exact He].
      intros p Hep sp u su Hp Hu Hsu Hh.
      assert (u = q) as ->.
      { destruct e as [o]. cbn in Hep. subst o.
        specialize (Hes p sp ltac:(left) Hp). congruence. }
      eauto.
    + intros p sp Hin Hp. destruct (Hobj _ _ Hp) as (sp0 & Hp0 & _ & ->).
      eapply Hes; [right; exact Hin|exact Hp0].
    + intros sq Hsq Hh. destruct (Hobj _ _ Hsq) as (sq0 & Hsq0 & ET & _).
      rewrite ET in Hh. specialize (Hq sq0 Hsq0 Hh). specialize (Htr q). lia.
Qed.

Lemma clear_downstream_inv q sq w w' :
  close_inv w ->
  heap w !! q = Some sq ->
  (hook_capable (process_T sq) = true -> (1 <= closes q (trace w))%nat) ->
  clear_downstream q w = Ok tt w' -> close_inv w'.
Proof.
  intros Hinv Hq Hclosed Hrun. unfold clear_downstream in Hrun.
  rewrite (bind_load _ _ _ _ Hq), bind_store in Hrun.
  eapply (destroy_entries_inv q (_downstream sq)); [| | |exact Hrun].
  - eapply close_inv_store; eauto; cbn; auto. intros e He. inversion He.
  - cbn [heap]. intros p sp Hin Hp.
    destruct (decide (p = q)) as [->|Hne].
    + rewrite lookup_insert_eq in Hp. injection Hp as <-. cbn.
      eapply (inv_down w Hinv q sq q sq); eauto.
    + rewrite lookup_insert_ne in Hp by congruence.
      eapply (inv_down w Hinv q sq p sp); eauto.
  - cbn [heap trace]. rewrite lookup_insert_eq. intros sq' [= <-]. exact Hclosed.
Qed.

Lemma preserves_task_done p : preserves (task_done p).
Proof.
  intros w [] w' Hinv Hrun. unfold task_done in Hrun.
  rewrite bind_emit in Hrun.
  apply bind_load_inv in Hrun as (sp & Hp & Hrun). cbn [heap] in Hp.
  unfold task_done_locked in Hrun. cbn zeta in Hrun. rewrite bind_store in Hrun.
  set (do_run := negb (deque_empty (_process_message_queue sp)) || _process_close_queue sp) in *.
  set (w1 := {| heap := <[p:=set_process_running do_run sp]> (heap w);
                next_pid := next_pid w; tasks := tasks w;
                trace := trace w ++ [EvTaskDone p] |}) in *.
  assert (Hinv1 : close_inv w1).
  { unfold w1.
    eapply (close_inv_store {| heap := heap w; next_pid := next_pid w; tasks := tasks w;
                               trace := trace w ++ [EvTaskDone p] |} p sp);
      [apply close_inv_emit_other; [exact Hinv|exact I]|exact Hp|..]; cbn; auto. }
  apply bind_inv in Hrun as ([] & w2 & Hassert & Hrun).
  assert (w2 = w1) as ->.
  { destruct (do_run && _process_final sp); [discriminate|]. injection Hassert as <-. reflexivity. }
  apply bind_inv in Hrun as ([] & w3 & Hsched & Hrun).
  assert (Hinv3 : close_inv w3) by (revert Hsched; generalize Hinv1; apply preserves_when, preserves_run).
  destruct (_process_final sp) eqn:Hf; cbn [when] in Hrun.
  - assert (Hp3 : heap w3 !! p = Some (set_process_running do_run sp)
                  /\ trace w3 = trace w1).
    { destruct do_run; cbn [when] in Hsched; injection Hsched as <-; cbn [heap trace w1];
        rewrite lookup_insert_eq; auto. }
    destruct Hp3 as [Hp3 Htr3].
    eapply clear_downstream_inv; [exact Hinv3|exact Hp3| |exact Hrun].
    cbn. intros Hh. eapply (inv_final w3 Hinv3 p); eauto.
  - injection Hrun as <-. exact Hinv3.
Qed.
#[local] Hint Resolve preserves_task_done : pres.

Lemma upstream_cts_false p sp w :
  heap w !! p = Some sp -> upstream_cts p false w = Ok tt w.
Proof.
  intros Hp. unfold upstream_cts. rewrite (bind_load _ _ _ _ Hp).
  destruct (_upstream sp); reflexivity.
Qed.

(** a dequeue that finds the queue empty: the pending close, if any,
    becomes [_process_final] and [close()] is called *)
Lemma apply_close_inv p sp w b w' :
  close_inv w ->
  heap w !! p = Some sp ->
  (store p (set_process_final (_process_close_queue sp) (set_process_close_queue false sp)) ;;
   upstream_cts p false ;;
   when (_process_close_queue sp) (process_close p) ;; ret false) w = Ok b w' ->
  close_inv w'.
Proof.
  intros Hinv Hp Hrun. rewrite bind_store in Hrun.
  unfold bind at 1 in Hrun.
  erewrite upstream_cts_false in Hrun by (cbn [heap]; apply lookup_insert_eq).
  destruct (_process_close_queue sp) eqn:Hcq; cbn [when] in Hrun.
  - unfold process_close in Hrun. rewrite bind_bind in Hrun.
    erewrite bind_load in Hrun by (cbn [heap]; apply lookup_insert_eq).
    cbn [process_T set_process_final set_process_close_queue] in Hrun.
    destruct (t_close (process_T sp)) as [close|] eqn:Hclose.
    + rewrite bind_bind, bind_store, bind_emit in Hrun. injection Hrun as _ <-.
      cbn [heap next_pid tasks trace]. rewrite insert_insert_eq.
      eapply (close_inv_store {| heap := heap w; next_pid := next_pid w; tasks := tasks w;
                                 trace := trace w ++ [EvClose p] |} p sp);
        [|exact Hp|reflexivity|reflexivity|cbn; auto| |cbn; discriminate].
      * apply close_inv_emit; [exact Hinv|]. intros p' [= <-]. split; [eauto|].
        intros sp0 u su Hp0 Hu Hsu Hh. rewrite Hp in Hp0. injection Hp0 as <-.
        eapply (inv_close_queue w Hinv p sp u su); eauto.
      * intros _. right. right. cbn [trace]. rewrite closes_app. cbn.
        rewrite Nat.eqb_refl. lia.
    + injection Hrun as _ <-.
      eapply close_inv_store; [exact Hinv|exact Hp|reflexivity|reflexivity|cbn; auto| |cbn; discriminate].
      intros _. right. left. unfold hook_capable, has_process_close. rewrite Hclose.
      apply andb_false_r.
  - injection Hrun as _ <-.
    eapply close_inv_store; [exact Hinv|exact Hp|reflexivity|reflexivity|cbn; auto
                            |cbn; discriminate|cbn; discriminate].
Qed.

Lemma preserves_dequeue await_ p : preserves (dequeue await_ p).
Proof.
  unfold dequeue. apply preserves_load. intros sp.
  unfold dequeue_locked. destruct (_process_message_queue sp) as [|m rest] eqn:Hq.
  - intros w b w' Hinv Hp Hrun. eapply apply_close_inv; eauto.
  - apply at_bind_store; [same_state|]. repeat pres_step.
Qed.
#[local] Hint Resolve preserves_dequeue : pres.

Lemma step_call_inv call p sp w a w' :
  close_inv w ->
  heap w !! p = Some sp ->
  t_body (process_T sp) = Function call ->
  step_call call p w = Ok a w' -> close_inv w'.
Proof.
  intros Hinv Hp Hbody Hrun. unfold step_call in Hrun.
  rewrite (bind_load _ _ _ _ Hp) in Hrun. unfold dequeue_locked in Hrun.
  destruct (_process_message_queue sp) as [|m rest] eqn:Hq.
  - rewrite bind_store in Hrun.
    unfold bind at 1 in Hrun.
    erewrite upstream_cts_false in Hrun by (cbn [heap]; apply lookup_insert_eq).
    revert Hrun. apply preserves_task_done.
    eapply close_inv_store; [exact Hinv|exact Hp|reflexivity|reflexivity|cbn; auto| |cbn; discriminate].
    intros _. right. left. unfold hook_capable, has_process_yield. rewrite Hbody. reflexivity.
  - refine (at_bind_store p sp _ _ _ _ w a w' Hinv Hp Hrun); [same_state|].
    repeat pres_step.
Qed.

Lemma preserves_step_loop fuel await_ p : preserves (step_loop fuel await_ p).
Proof.
  induction fuel as [|fuel IH]; cbn [step_loop]; [apply preserves_fail|].
  apply preserves_load. intros sp. apply at_any.
  destruct (process_state_eqb _ _); [apply preserves_ret|].
  apply preserves_bind; [apply preserves_dequeue|]. intros [|]; [exact IH|apply preserves_ret].
Qed.
#[local] Hint Resolve preserves_step_loop : pres.

Lemma preserves_step_tail yield_ p : preserves (step_tail yield_ p).
Proof.
  unfold step_tail. apply preserves_load. intros sp.
  destruct (process_state_eqb _ _); [apply at_any, preserves_task_done|].
  destruct (yield_ (_process sp)) as [v x].
  apply at_bind_store; [same_state|]. repeat pres_step.
Qed.
#[local] Hint Resolve preserves_step_tail : pres.

Lemma preserves_step p : preserves (step p).
Proof.
  unfold step. apply preserves_load. intros sp.
  destruct (t_body (process_T sp)) as [call|await_ yield_] eqn:Hbody.
  - intros w a w' Hinv Hp Hrun. eapply step_call_inv; eauto.
  - apply at_any. unfold step_yield. repeat pres_step.
Qed.
#[local] Hint Resolve preserves_step : pres.

Lemma preserves_task p : preserves (task p).
Proof. unfold task. repeat pres_step. Qed.

Lemma preserves_execute k : preserves (execute k).
Proof.
  intros w a w' Hinv Hrun. unfold execute in Hrun.
  destruct (tasks w !! k) as [p|]; [|injection Hrun as _ <-; exact Hinv].
  revert Hrun. apply preserves_task. apply close_inv_tasks. exact Hinv.
Qed.

Lemma preserves_set_ready r : preserves (set_ready r).
Proof. unfold set_ready. repeat pres_step. Qed.

Lemma preserves_channel : preserves channel.
Proof.
  intros w a w' Hinv Hrun. unfold channel, bind, alloc, ret in Hrun.
  injection Hrun as _ <-.
  apply close_inv_alloc; [exact Hinv|reflexivity..|]. cbn. discriminate.
Qed.

Lemma preserves_pipe r F f : preserves (pipe r F f).
Proof.
  intros w r' w' Hinv Hrun.
  destruct (receiver_p r) as [q|] eqn:Hr; [|unfold pipe in Hrun; rewrite Hr in Hrun; discriminate].
  destruct (heap w !! q) as [sq|] eqn:Hq.
  - assert (Hfresh : heap w !! next_pid w = None).
    { destruct (heap w !! next_pid w) as [sx|] eqn:E; [|reflexivity].
      apply (inv_dom w Hinv) in E. lia. }
    assert (Hne : q <> next_pid w) by congruence.
    rewrite (pipe_result r F f w q sq Hr Hq Hfresh) in Hrun.
    injection Hrun as _ <-.
    set (sq' := set_downstream (_downstream sq ++ [Sender (Some (next_pid w))])
                  (set_use_count (S (use_count sq)) sq)).
    assert (H : close_inv
                  {| heap := <[q := sq']>
                               (<[next_pid w := make_shared_process F f (Some q)]> (heap w));
                     next_pid := S (next_pid w); tasks := tasks w; trace := trace w |}).
    { pose proof (close_inv_store
                    {| heap := <[next_pid w := make_shared_process F f (Some q)]> (heap w);
                       next_pid := S (next_pid w); tasks := tasks w; trace := trace w |}
                    q sq sq') as Hstore.
      cbn [heap next_pid tasks trace] in Hstore. apply Hstore.
      + apply close_inv_alloc; [exact Hinv|reflexivity..|].
        cbn. intros u [= <-]. eapply (inv_dom w Hinv); eauto.
      + cbn [heap]. rewrite lookup_insert_ne by congruence. exact Hq.
      + reflexivity.
      + reflexivity.
      + cbn. intros x Hin. apply elem_of_app in Hin as [Hin|Hin]; [left; exact Hin|right].
        apply list_elem_of_singleton in Hin. injection Hin as ->.
        split; [lia|]. split; [congruence|].
        intros sx. rewrite lookup_insert_eq. intros [= <-]. reflexivity.
      + cbn. auto.
      + cbn. auto. }
    rewrite insert_insert_ne in H by congruence. exact H.
  - unfold pipe, acquire in Hrun. rewrite Hr in Hrun.
    rewrite !bind_bind in Hrun. unfold bind at 1, load in Hrun. rewrite Hq in Hrun.
    discriminate.
Qed.

(** *** The end of a shared pointer *)

Lemma close_inv_erase w p :
  close_inv w ->
  close_inv {| heap := delete p (heap w); next_pid := next_pid w;
               tasks := tasks w; trace := trace w |}.
Proof.
  intros [Hdom Hup Holder Hcl Hent Hdown Hfin Hcq Hord].
  split; cbn [heap next_pid tasks trace]; intros;
    repeat match goal with
           | H : delete _ _ !! _ = Some _ |- _ => apply lookup_delete_Some in H as [_ H]
           end; eauto.
Qed.

Lemma same_shape_trans w1 w2 w3 : same_shape w1 w2 -> same_shape w2 w3 -> same_shape w1 w3.
Proof.
  intros [H1 T1] [H2 T2]. split.
  - intros x sx3 Hx. destruct (H2 _ _ Hx) as (sx2 & Hx2 & ET & EU).
    destruct (H1 _ _ Hx2) as (sx1 & Hx1 & ET' & EU').
    exists sx1. split; [exact Hx1|]. split; congruence.
  - intros x. specialize (T1 x). specialize (T2 x). lia.
Qed.

Lemma store_shape p sp sp' w :
  heap w !! p = Some sp ->
  process_T sp' = process_T sp -> _upstream sp' = _upstream sp ->
  same_shape w {| heap := <[p := sp']> (heap w); next_pid := next_pid w;
                  tasks := tasks w; trace := trace w |}.
Proof.
  intros Hp HT HU. split; cbn [heap trace]; [|intros x; lia].
  intros x sx' Hx. destruct (decide (x = p)) as [->|Hne].
  - rewrite lookup_insert_eq in Hx. injection Hx as <-. eauto.
  - rewrite lookup_insert_ne in Hx by congruence. eauto.
Qed.

Lemma destroy_entries_shape (es : list sender) w w' :
  foldr (fun e k => sender_destroy e ;; k) (ret tt) es w = Ok tt w' -> same_shape w w'.
Proof.
  revert w. induction es as [|e es IH]; intros w Hrun; cbn [foldr] in Hrun.
  - injection Hrun as <-. apply same_shape_refl.
  - apply bind_inv in Hrun as ([] & w1 & He & Hrun).
    eapply same_shape_trans; [eapply sender_destroy_shape; eauto|eauto].
Qed.

(** the last owner: the object is gone, then its upstream pointer, then
    the senders of its downstream deque *)
Lemma last_owner_shape p (m : M unit) es w w' :
  (forall w1 w2, m w1 = Ok tt w2 -> same_shape w1 w2) ->
  (erase p ;; m ;; foldr (fun e k => sender_destroy e ;; k) (ret tt) es) w = Ok tt w' ->
  same_shape w w'.
Proof.
  intros Hm Hrun. unfold bind at 1, erase in Hrun.
  apply bind_inv in Hrun as ([] & w2 & Hup & Hrun).
  eapply same_shape_trans; [|eapply same_shape_trans;
                              [eapply Hm; exact Hup|eapply destroy_entries_shape; exact Hrun]].
  split; cbn [heap trace]; [|intros x; lia].
  intros x sx Hx. apply lookup_delete_Some in Hx as [_ Hx]. eauto.
Qed.

Lemma last_owner_inv p sp (m : M unit) w w' :
  preserves m ->
  (forall w1 w2, m w1 = Ok tt w2 -> same_shape w1 w2) ->
  close_inv w ->
  heap w !! p = Some sp ->
  (erase p ;; m ;; foldr (fun e k => sender_destroy e ;; k) (ret tt) (_downstream sp)) w
  = Ok tt w' ->
  close_inv w'.
Proof.
  intros Hm Hshape Hinv Hp Hrun. unfold bind at 1, erase in Hrun.
  apply bind_inv in Hrun as ([] & w2 & Hup & Hrun).
  pose proof (Hshape _ _ Hup) as [Hobj _]. cbn [heap] in Hobj.
  eapply (destroy_entries_inv p (_downstream sp) w2); [| | |exact Hrun].
  - eapply Hm; [|exact Hup]. apply close_inv_erase. exact Hinv.
  - intros x sx Hin Hx. destruct (Hobj _ _ Hx) as (sx0 & Hx0 & _ & ->).
    apply lookup_delete_Some in Hx0 as [_ Hx0].
    eapply (inv_down w Hinv p sp x sx0); eauto.
  - intros sq Hsq. destruct (Hobj _ _ Hsq) as (sq0 & Hsq0 & _).
    rewrite lookup_delete_eq in Hsq0. discriminate.
Qed.

Lemma release_shape fuel p w w' : release fuel p w = Ok tt w' -> same_shape w w'.
Proof.
  revert p w w'. induction fuel as [|fuel IH]; intros p w w' Hrun;
    cbn [release] in Hrun; apply bind_load_inv in Hrun as (sp & Hp & Hrun);
    destruct (use_count sp) as [|[|n]];
    try (injection Hrun as <-; apply (store_shape p sp); [exact Hp|reflexivity..]);
    (eapply last_owner_shape; [|exact Hrun]);
    destruct (_upstream sp); intros w1 w2 H1;
    first [discriminate | injection H1 as <-; apply same_shape_refl | eapply IH; exact H1].
Qed.

Lemma preserves_release fuel p : preserves (release fuel p).
Proof.
  revert p. induction fuel as [|fuel IH]; intros p w [] w' Hinv Hrun;
    cbn [release] in Hrun; apply bind_load_inv in Hrun as (sp & Hp & Hrun);
    destruct (use_count sp) as [|[|n]];
    try (refine (at_store p sp _ _ w tt w' Hinv Hp Hrun); same_state);
    (eapply (last_owner_inv p sp); [| |exact Hinv|exact Hp|exact Hrun]);
    destruct (_upstream sp);
    first [apply preserves_fail | apply preserves_ret | apply IH
          | intros w1 w2 H1;
            first [discriminate | injection H1 as <-; apply same_shape_refl
                  | eapply release_shape; exact H1]].
Qed.
#[local] Hint Resolve preserves_release : pres.

Lemma preserves_receiver_destroy r : preserves (receiver_destroy r).
Proof. unfold receiver_destroy. repeat pres_step. Qed.

Lemma preserves_receiver_copy r : preserves (receiver_copy r).
Proof. unfold receiver_copy. repeat pres_step. Qed.

Lemma close_inv_empty : close_inv (@empty_world V St).
Proof.
  split; cbn; intros; try lia;
    repeat match goal with
           | H : _ !! _ = Some _ |- _ => rewrite lookup_empty in H; discriminate
           | H : [] = _ ++ _ :: _ |- _ => destruct (app_cons_not_nil _ _ _ H)
           end.
Qed.

Lemma api_step_inv w w' : close_inv w -> api_step w w' -> close_inv w'.
Proof.
  intros Hinv Hstep. destruct Hstep.
  - eapply preserves_channel; eauto.
  - eapply preserves_sender_call; eauto.
  - eapply preserves_sender_copy; eauto.
  - eapply sender_destroy_inv; [exact Hinv| |eauto].
    intros p' [= <-] sp' u su Hp' Hu. congruence.
  - eapply preserves_receiver_copy; eauto.
  - eapply preserves_receiver_destroy; eauto.
  - eapply preserves_release; eauto.
  - eapply preserves_set_ready; eauto.
  - eapply preserves_pipe; eauto.
  - eapply preserves_execute; eauto.
Qed.

Lemma reachable_close_inv w : reachable w -> close_inv w.
Proof.
  unfold reachable. intros Hr.
  eapply (rtc_ind_r (fun w => close_inv w)); [apply close_inv_empty| |exact Hr].
  intros y z _ Hstep IH. eapply api_step_inv; eauto.
Qed.

(** *** The fuel of the embedding is never used up

    [step_loop] and [release] are the two recursions of the embedding that
    are not structural in the source; neither ever answers
    [Out_of_fuel]. *)

Lemma fueled_ret {A} (a : A) : fueled (@ret V St A a).
Proof. intros w. discriminate. Qed.

Lemma fueled_fail {A} f : f <> Out_of_fuel -> fueled (@fail V St A f).
Proof. intros Hf w [= E]. contradiction. Qed.

Lemma fueled_bind {A B} (m : M A) (k : A -> M B) :
  fueled m -> (forall a, fueled (k a)) -> fueled (bind m k).
Proof.
  intros Hm Hk w. unfold bind. destruct (m w) as [a w1|f] eqn:E.
  - apply Hk.
  - intros [= ->]. exact (Hm w E).
Qed.

Lemma fueled_load p : fueled (load p).
Proof. intros w. unfold load. destruct (heap w !! p); discriminate. Qed.

Lemma fueled_store p sp : fueled (store p sp).
Proof. intros w. discriminate. Qed.

Lemma fueled_erase p : fueled (erase p).
Proof. intros w. discriminate. Qed.

Lemma fueled_emit e : fueled (emit e).
Proof. intros w. discriminate. Qed.

Lemma fueled_run p : fueled (run p).
Proof. intros w. discriminate. Qed.

Lemma fueled_lock s : fueled (lock s).
Proof.
  intros w. unfold lock. destruct (sender_p s) as [p|]; [destruct (heap w !! p)|]; discriminate.
Qed.

Lemma fueled_when b (m : M unit) : fueled m -> fueled (when b m).
Proof. intros Hm. destruct b; [exact Hm|apply fueled_ret]. Qed.

Ltac fuel_step :=
  first
    [ solve [auto with fuel nocore]
    | apply fueled_ret | apply fueled_fail; discriminate
    | apply fueled_load | apply fueled_store | apply fueled_erase
    | apply fueled_emit | apply fueled_run | apply fueled_lock
    | apply fueled_when
    | apply fueled_bind; [|intros ?]
    | match goal with
      | |- fueled (match ?x with _ => _ end) => destruct x
      | |- fueled (if ?x then _ else _) => destruct x
      | |- fueled (let '(_, _) := ?x in _) => destruct x
      end ].

Lemma fueled_remove_sender p : fueled (remove_sender p).
Proof. unfold remove_sender, remove_sender_locked. repeat fuel_step. Qed.
#[local] Hint Resolve fueled_remove_sender : fuel.

Lemma fueled_add_sender p : fueled (add_sender p).
Proof. unfold add_sender. repeat fuel_step. Qed.
#[local] Hint Resolve fueled_add_sender : fuel.

Lemma fueled_remove_receiver p : fueled (remove_receiver p).
Proof. unfold remove_receiver, remove_receiver_locked. repeat fuel_step. Qed.
#[local] Hint Resolve fueled_remove_receiver : fuel.

Lemma fueled_sender_destroy s : fueled (sender_destroy s).
Proof. unfold sender_destroy. repeat fuel_step. Qed.
#[local] Hint Resolve fueled_sender_destroy : fuel.

Lemma fueled_destroy_entries (es : list sender) :
  fueled (foldr (fun e k => sender_destroy e ;; k) (ret tt) es).
Proof. induction es as [|e es IH]; cbn [foldr]; repeat fuel_step; auto. Qed.
#[local] Hint Resolve fueled_destroy_entries : fuel.

Lemma fueled_task_done p : fueled (task_done p).
Proof. unfold task_done, task_done_locked, clear_downstream. repeat fuel_step. Qed.
#[local] Hint Resolve fueled_task_done : fuel.

Lemma fueled_cts p : fueled (cts p).
Proof. unfold cts. repeat fuel_step. Qed.
#[local] Hint Resolve fueled_cts : fuel.

Lemma fueled_send p v : fueled (send p v).
Proof. unfold send, send_locked. repeat fuel_step. Qed.
#[local] Hint Resolve fueled_send : fuel.

Lemma fueled_for_each_n (l : list sender) n v :
  fueled (for_each_n l n (fun e => sender_call e v)).
Proof.
  revert l. induction n as [|n IH]; intros l; cbn [for_each_n]; unfold sender_call;
    repeat fuel_step; auto.
Qed.
#[local] Hint Resolve fueled_for_each_n : fuel.

Lemma fueled_broadcast p v : fueled (broadcast p v).
Proof. unfold broadcast, broadcast_snapshot, broadcast_deliver. repeat fuel_step. Qed.
#[local] Hint Resolve fueled_broadcast : fuel.

Lemma fueled_dequeue await_ p : fueled (dequeue await_ p).
Proof. unfold dequeue, upstream_cts, process_close. repeat fuel_step. Qed.
#[local] Hint Resolve fueled_dequeue : fuel.

Lemma fueled_step_tail yield_ p : fueled (step_tail yield_ p).
Proof. unfold step_tail. repeat fuel_step. Qed.
#[local] Hint Resolve fueled_step_tail : fuel.

Lemma fueled_step_call call p : fueled (step_call call p).
Proof. unfold step_call, upstream_cts. repeat fuel_step. Qed.
#[local] Hint Resolve fueled_step_call : fuel.

(** [cts] leaves every message queue as it is *)
Lemma cts_keeps_queue u p w w' sp :
  cts u w = Ok tt w' ->
  heap w !! p = Some sp ->
  exists sp', heap w' !! p = Some sp'
    /\ _process_message_queue sp' = _process_message_queue sp.
Proof.
  intros Hrun Hp. unfold cts in Hrun. rewrite bind_emit in Hrun.
  apply bind_load_inv in Hrun as (su & Hu & Hrun). cbn [heap] in Hu.
  destruct (cts_locked su) as [[su' b]|] eqn:Hcts; [|discriminate].
  rewrite bind_store in Hrun. apply when_run_inv in Hrun as (-> & _). cbn [heap].
  destruct (decide (p = u)) as [->|Hne].
  - rewrite lookup_insert_eq. exists su'. split; [reflexivity|].
    assert (su = sp) as -> by congruence.
    unfold cts_locked in Hcts.
    repeat match type of Hcts with
           | context [if ?c then _ else _] => destruct c
           end; try discriminate; injection Hcts as <- <-; reflexivity.
  - rewrite lookup_insert_ne by congruence. eauto.
Qed.

(** a [dequeue] that finds a message takes the front one, and nothing else
    touches the queue *)
Lemma dequeue_takes_front await_ p sp (m : V) rest w b w' :
  heap w !! p = Some sp ->
  _process_message_queue sp = m :: rest ->
  dequeue await_ p w = Ok b w' ->
  exists sp', heap w' !! p = Some sp' /\ _process_message_queue sp' = rest.
Proof.
  intros Hp Hq Hrun. unfold dequeue in Hrun. rewrite (bind_load _ _ _ _ Hp) in Hrun.
  unfold dequeue_locked in Hrun. rewrite Hq in Hrun. rewrite bind_store in Hrun.
  apply bind_inv in Hrun as ([] & w1 & Hcts & Hrun).
  assert (H1 : exists sp1, heap w1 !! p = Some sp1 /\ _process_message_queue sp1 = rest).
  { unfold upstream_cts in Hcts.
    erewrite bind_load in Hcts by (cbn [heap]; apply lookup_insert_eq).
    cbn [_upstream set_process_message_queue] in Hcts.
    destruct (_upstream sp) as [u|]; [destruct (Nat.eqb (length rest) 0)|]; cbn [when] in Hcts.
    - rewrite bind_emit in Hcts.
      eapply (cts_keeps_queue u p) in Hcts as (sp1 & H1 & H2);
        [|cbn [heap]; apply lookup_insert_eq].
      exists sp1. split; [exact H1|]. rewrite H2. reflexivity.
    - injection Hcts as <-. cbn [heap]. rewrite lookup_insert_eq. eauto.
    - injection Hcts as <-. cbn [heap]. rewrite lookup_insert_eq. eauto. }
  destruct H1 as (sp1 & Hp1 & Hq1).
  rewrite (bind_load _ _ _ _ Hp1), bind_store, bind_emit in Hrun. injection Hrun as _ <-.
  cbn [heap]. rewrite lookup_insert_eq. eexists. split; [reflexivity|]. exact Hq1.
Qed.

Lemma dequeue_empty_false await_ p sp w b w' :
  heap w !! p = Some sp ->
  _process_message_queue sp = [] ->
  dequeue await_ p w = Ok b w' -> b = false.
Proof.
  intros Hp Hq Hrun. unfold dequeue in Hrun. rewrite (bind_load _ _ _ _ Hp) in Hrun.
  unfold dequeue_locked in Hrun. rewrite Hq in Hrun. rewrite bind_store in Hrun.
  apply bind_inv in Hrun as ([] & w1 & _ & Hrun).
  apply bind_inv in Hrun as ([] & w2 & _ & Hrun).
  injection Hrun as <- _. reflexivity.
Qed.

(** the loop of [step] takes one message off the queue per round and stops
    on the first empty queue: more fuel than messages is enough *)
Lemma step_loop_fuel fuel await_ p w sp :
  heap w !! p = Some sp ->
  (length (_process_message_queue sp) < fuel)%nat ->
  step_loop fuel await_ p w <> Fail Out_of_fuel.
Proof.
  revert w sp. induction fuel as [|fuel IH]; intros w sp Hp Hlen; [lia|].
  cbn [step_loop]. rewrite (bind_load _ _ _ _ Hp).
  destruct (process_state_eqb _ _); [discriminate|].
  unfold bind. destruct (dequeue await_ p w) as [b w1|f] eqn:Hd.
  - destruct b; [|discriminate].
    destruct (_process_message_queue sp) as [|m rest] eqn:Hq.
    + pose proof (dequeue_empty_false _ _ _ _ _ _ Hp Hq Hd). discriminate.
    + destruct (dequeue_takes_front _ _ _ _ _ _ _ _ Hp Hq Hd) as (sp' & Hp' & Hq').
      apply (IH w1 sp' Hp'). rewrite Hq'. cbn [length] in Hlen. lia.
  - intros [= ->]. exact (fueled_dequeue await_ p w Hd).
Qed.

Lemma fueled_step_yield await_ yield_ p : fueled (step_yield await_ yield_ p).
Proof.
  intros w. unfold step_yield, bind at 1, load.
  destruct (heap w !! p) as [sp|] eqn:Hp; [|discriminate].
  unfold bind.
  destruct (step_loop (S (length (_process_message_queue sp))) await_ p w) as [[] w1|f] eqn:Hl.
  - apply fueled_step_tail.
  - intros [= ->]. revert Hl. apply (step_loop_fuel _ _ _ _ sp Hp). lia.
Qed.
#[local] Hint Resolve fueled_step_yield : fuel.

Lemma fueled_step p : fueled (step p).
Proof. unfold step. repeat fuel_step. Qed.
#[local] Hint Resolve fueled_step : fuel.

(** the executor never finds a closure that runs out of fuel *)
Lemma fueled_execute k : fueled (execute k).
Proof.
  intros w. unfold execute. destruct (tasks w !! k) as [p|]; [|discriminate].
  unfold task. repeat fuel_step.
Qed.

(** where every upstream pointer leads to an object allocated earlier,
    [release] from [p] needs no more fuel than [p] *)
Lemma release_fuel fuel p w :
  (forall x sx u, heap w !! x = Some sx -> _upstream sx = Some u -> (u < x)%nat) ->
  (p <= fuel)%nat ->
  release fuel p w <> Fail Out_of_fuel.
Proof.
  revert p w. induction fuel as [|fuel IH]; intros p w Hord Hfuel;
    cbn [release]; unfold bind at 1, load;
    (destruct (heap w !! p) as [sp|] eqn:Hp; [|discriminate]);
    destruct (use_count sp) as [|[|n]]; try discriminate.
  all: unfold bind at 1, erase.
  all: destruct (_upstream sp) as [u|] eqn:Hu;
    [pose proof (Hord p sp u Hp Hu); try lia|apply fueled_bind; repeat fuel_step].
  all: unfold bind;
    match goal with
    | |- context [release ?n ?x ?w1] =>
        destruct (release n x w1) as [[] w2|f] eqn:Hr;
        [apply fueled_destroy_entries|]
    end.
  all: intros [= ->]; revert Hr; apply IH; [|lia];
    cbn [heap]; intros x sx u' Hx; apply lookup_delete_Some in Hx as [_ Hx]; eauto.
Qed.

Lemma receiver_destroy_fuel r w :
  close_inv w -> receiver_destroy r w <> Fail Out_of_fuel.
Proof.
  intros Hinv. unfold receiver_destroy. destruct (receiver_p r) as [p|]; [|discriminate].
  unfold bind.
  destruct (when (negb (receiver_ready r)) (remove_receiver p) w) as [[] w1|f] eqn:Hr.
  - apply release_fuel; [|lia].
    eapply inv_older. revert Hr. generalize Hinv.
    apply preserves_when, preserves_remove_receiver.
  - intros [= ->]. revert Hr. apply fueled_when, fueled_remove_receiver.
Qed.

(** no move of a program through the interface is cut short by the fuel of
    the embedding *)
Lemma api_never_out_of_fuel w :
  reachable w ->
  (forall k, execute k w <> Fail Out_of_fuel)
  /\ (forall r, receiver_destroy r w <> Fail Out_of_fuel)
  /\ (forall q, release q q w <> Fail Out_of_fuel).
Proof.
  intros Hr. pose proof (reachable_close_inv w Hr) as Hinv.
  split; [intros k; apply fueled_execute|].
  split; [intros r; apply receiver_destroy_fuel; exact Hinv|].
  intros q. apply release_fuel; [eapply inv_older; exact Hinv|lia].
Qed.

(** *** When [close()] is called *)

Lemma emits_weaken (P Q : event -> Prop) {A} (m : M A) :
  (forall e, P e -> Q e) -> emits P m -> emits Q m.
Proof.
  intros HPQ Hm w a w' Hrun. destruct (Hm _ _ _ Hrun) as (evs & Htr & Hall).
  exists evs. split; [exact Htr|]. eapply Forall_impl; eauto.
Qed.

Lemma plain_not_close e : plain e -> not_close e.
Proof. destruct e; simpl; auto. Qed.

Lemma not_close_counts p (evs : list event) :
  Forall not_close evs -> closes p evs = 0%nat.
Proof.
  induction 1 as [|e evs He _ IH]; [reflexivity|].
  destruct e; cbn in *; auto; contradiction.
Qed.

Lemma emits_closes {A} (m : M A) w a w' p :
  emits not_close m -> m w = Ok a w' -> closes p (trace w') = closes p (trace w).
Proof.
  intros Hm Hrun. destruct (Hm _ _ _ Hrun) as (evs & -> & Hall).
  rewrite closes_app, (not_close_counts p evs Hall). lia.
Qed.

Ltac quiet_step :=
  first
    [ apply (emits_weaken plain); [exact plain_not_close|solve [auto with emits nocore]]
    | emits_step ].

(** the one-shot [step] appends no [close()] to the trace *)
Lemma quiet_step_call call p : emits not_close (step_call call p).
Proof. unfold step_call, upstream_cts. repeat quiet_step. Qed.

(** what a [dequeue] adds to the calls of [close()] *)
Lemma dequeue_closes await_ p sp w b w' q :
  heap w !! p = Some sp ->
  dequeue await_ p w = Ok b w' ->
  closes q (trace w')
  = (closes q (trace w)
     + if Nat.eqb q p && deque_empty (_process_message_queue sp)
          && _process_close_queue sp && has_process_close (process_T sp)
       then 1 else 0)%nat.
Proof.
  intros Hp Hrun. unfold dequeue in Hrun. rewrite (bind_load _ _ _ _ Hp) in Hrun.
  unfold dequeue_locked in Hrun.
  destruct (_process_message_queue sp) as [|m rest] eqn:Hq.
  - rewrite bind_store in Hrun. unfold bind at 1 in Hrun.
    erewrite upstream_cts_false in Hrun by (cbn [heap]; apply lookup_insert_eq).
    cbn [deque_empty]. rewrite andb_true_r.
    destruct (_process_close_queue sp) eqn:Hcq; cbn [when] in Hrun.
    + unfold process_close in Hrun. rewrite bind_bind in Hrun.
      erewrite bind_load in Hrun by (cbn [heap]; apply lookup_insert_eq).
      cbn [process_T set_process_final set_process_close_queue] in Hrun.
      unfold has_process_close.
      destruct (t_close (process_T sp)) as [close|].
      * rewrite bind_bind, bind_store, bind_emit in Hrun. injection Hrun as _ <-.
        cbn [trace]. rewrite closes_app. cbn [closes].
        rewrite !andb_true_r. destruct (Nat.eqb q p); lia.
      * injection Hrun as _ <-. cbn [trace]. rewrite !andb_false_r. lia.
    + injection Hrun as _ <-. cbn [trace]. rewrite andb_false_r. cbn. lia.
  - cbn [deque_empty]. rewrite andb_false_r. cbn [andb].
    rewrite Nat.add_0_r. eapply emits_closes; [|exact Hrun].
    unfold upstream_cts. repeat quiet_step.
Qed.

(** an access to one process keeps its type, and only the dequeue of a
    process with [yield] and [close] that finds the queue empty and
    [_process_close_queue] set adds a call of [close()] *)
Lemma perform_closes a (c c' : concurrent) :
  perform a c = Some c' ->
  process_T (c_object c') = process_T (c_object c)
  /\ (c_closes c' = c_closes c
      \/ (a = Dequeue_block /\ c_closes c' = S (c_closes c)
          /\ hook_capable (process_T (c_object c)) = true
          /\ _process_message_queue (c_object c) = []
          /\ _process_close_queue (c_object c) = true)).
Proof.
  destruct c as [sp n closing k].
  destruct a; cbn [perform c_object c_senders c_closing c_closes with_object];
    intros Hperform.
  all: try (destruct (cts_locked sp) as [[sp' b]|] eqn:Hcts; [|discriminate];
            apply cts_locked_same in Hcts; destruct Hcts as (HT & _)).
  all: try (unfold dequeue_locked, hook_capable in *;
            destruct (_process_message_queue sp) as [|m rest];
            [destruct (_process_close_queue sp),
               (has_process_yield (process_T sp)), (has_process_close (process_T sp))|];
            injection Hperform as <-; cbn; intuition auto).
  all: try (unfold task_done_locked in Hperform;
            destruct (_ && _); [discriminate|]).
  all: repeat match type of Hperform with
              | context [if ?b then _ else _] => destruct b; [|discriminate]
              end.
  all: injection Hperform as <-; cbn; auto.
Qed.

Lemma perform_all_closes l (c0 c : concurrent) :
  perform_all l c0 = Some c ->
  process_T (c_object c) = process_T (c_object c0)
  /\ (c_closes c = c_closes c0 \/ hook_capable (process_T (c_object c0)) = true).
Proof.
  revert c0. induction l as [|a l IH]; intros c0 Hrun; simpl in Hrun.
  - injection Hrun as <-. auto.
  - destruct (perform a c0) as [c1|] eqn:Ha; [|discriminate].
    destruct (perform_closes a c0 c1 Ha) as (HT & Hk).
    destruct (IH c1 Hrun) as (HT' & Hk'). rewrite HT in HT', Hk'.
    split; [exact HT'|].
    destruct Hk' as [Hk'|Hk']; [|right; exact Hk'].
    destruct Hk as [Hk|(_ & _ & Hk & _)]; [left; congruence|right; exact Hk].
Qed.

(** *** Counting the senders of a process *)

Lemma aimed_app p (l1 l2 : list sender) :
  aimed p (l1 ++ l2) = (aimed p l1 + aimed p l2)%nat.
Proof. induction l1 as [|e l IH]; cbn [app aimed]; [reflexivity|]. rewrite IH. lia. Qed.

Lemma aimed_elem p (l : list sender) :
  (1 <= aimed p l)%nat <-> Sender (Some p) ∈ l.
Proof.
  induction l as [|e l IH]; cbn [aimed].
  - split; [lia|]. intros H. inversion H.
  - rewrite elem_of_cons. destruct e as [o]. cbn [sender_p].
    destruct (decide (o = Some p)) as [->|Hne].
    + split; [auto|lia].
    + split.
      * intros H. right. apply IH. lia.
      * intros [[= E]|H]; [congruence|]. apply IH in H. lia.
Qed.

Lemma entries_store w p sp' x sx :
  entries {| heap := <[p := sp']> (heap w); next_pid := next_pid w;
             tasks := tasks w; trace := trace w |} x sx
  = if decide (_upstream sx = Some p) then aimed x (_downstream sp') else entries w x sx.
Proof.
  unfold entries. cbn [heap]. destruct (_upstream sx) as [u|].
  - destruct (decide (Some u = Some p)) as [[= ->]|Hne].
    + rewrite lookup_insert_eq. reflexivity.
    + rewrite lookup_insert_ne by congruence. reflexivity.
  - destruct (decide (None = Some p)); [discriminate|reflexivity].
Qed.

Lemma entries_store_same w p sp sp' x sx :
  heap w !! p = Some sp ->
  _downstream sp' = _downstream sp ->
  entries {| heap := <[p := sp']> (heap w); next_pid := next_pid w;
             tasks := tasks w; trace := trace w |} x sx
  = entries w x sx.
Proof.
  intros Hp Hd. rewrite entries_store.
  destruct (decide (_upstream sx = Some p)) as [E|]; [|reflexivity].
  unfold entries. rewrite E, Hp, Hd. reflexivity.
Qed.

Lemma protocol_ok_fewer N N' sp k :
  (N' <= N)%nat -> protocol_ok N sp k -> protocol_ok N' sp k.
Proof.
  intros Hle [Hcount Hphase]. split; [lia|].
  destruct Hphase as [?|[(? & ?)|(? & ?)]]; [auto|right; left|right; right];
    (split; [lia|assumption]).
Qed.

Lemma handle_inv_fewer w (H H' : handles) :
  (forall x, (H' x <= H x)%nat) -> handle_inv w H -> handle_inv w H'.
Proof.
  intros Hle [Hobj Honce Hfresh Hheld]. split.
  - intros p sp Hp. eapply protocol_ok_fewer; [|exact (Hobj p sp Hp)].
    specialize (Hle p). lia.
  - exact Honce.
  - intros p Hp. specialize (Hfresh p Hp). specialize (Hle p). lia.
  - intros p Hp. apply Hheld. specialize (Hle p). lia.
Qed.

Lemma sound_fewer w (H H' : handles) :
  (forall x, (H' x <= H x)%nat) -> sound w H -> sound w H'.
Proof. intros Hle [Hc Hh]. split; [exact Hc|eapply handle_inv_fewer; eauto]. Qed.

(** a store that changes neither the type nor the upstream of [p] *)
Lemma handle_inv_store w (H H' : handles) p sp sp' :
  close_inv w -> handle_inv w H ->
  heap w !! p = Some sp ->
  process_T sp' = process_T sp ->
  _upstream sp' = _upstream sp ->
  (forall x sx, heap w !! x = Some sx -> x <> p ->
     (H' x + (if decide (_upstream sx = Some p) then aimed x (_downstream sp')
              else entries w x sx)
      <= H x + entries w x sx)%nat) ->
  protocol_ok (H' p + (if decide (_upstream sp = Some p) then aimed p (_downstream sp')
                       else entries w p sp))
              sp' (closes p (trace w)) ->
  (forall x, (1 <= H' x)%nat -> (1 <= H x)%nat \/ upstream_closed w x) ->
  (forall x, (next_pid w <= x)%nat -> H' x = 0%nat) ->
  handle_inv {| heap := <[p := sp']> (heap w); next_pid := next_pid w;
                tasks := tasks w; trace := trace w |} H'.
Proof.
  intros Hinv [Hobj Honce Hfresh Hheld] Hp HT Hu Hothers Hself Hheld' Hfresh'.
  split; cbn [heap next_pid tasks trace].
  - intros x sx Hx. rewrite entries_store. destruct (decide (x = p)) as [->|Hne].
    + rewrite lookup_insert_eq in Hx. injection Hx as <-.
      replace (entries w p sp') with (entries w p sp)
        by (unfold entries; rewrite Hu; reflexivity).
      rewrite Hu. exact Hself.
    + rewrite lookup_insert_ne in Hx by congruence.
      eapply protocol_ok_fewer; [|exact (Hobj x sx Hx)]. apply Hothers; assumption.
  - exact Honce.
  - exact Hfresh'.
  - intros x Hx. eapply upstream_closed_shape; [apply (store_shape p sp); eassumption|].
    destruct (Hheld' x Hx) as [H1|H1]; [apply Hheld; exact H1|exact H1].
Qed.

Lemma protocol_ok_same N sp sp' k :
  same_protocol_state sp' sp -> protocol_ok N sp k -> protocol_ok N sp' k.
Proof.
  intros ((_ & _ & _ & Hf & Hc) & Hq & Hn). unfold protocol_ok.
  rewrite Hf, Hc, Hq, Hn. auto.
Qed.

Lemma sound_store_same w H p sp sp' :
  sound w H -> heap w !! p = Some sp -> same_protocol_state sp' sp ->
  sound {| heap := <[p := sp']> (heap w); next_pid := next_pid w;
           tasks := tasks w; trace := trace w |} H.
Proof.
  intros [Hinv Hh] Hp Hsame. pose proof Hsame as ((HT & Hu & Hd & Hf & Hc) & Hq & Hn).
  split.
  - eapply (at_store p sp sp'); [repeat split; assumption|exact Hinv|exact Hp|reflexivity].
  - eapply handle_inv_store; eauto.
    + intros x sx Hx Hne. destruct (decide (_upstream sx = Some p)) as [E|]; [|lia].
      unfold entries. rewrite E, Hp, Hd. lia.
    + apply (protocol_ok_same _ sp); [exact Hsame|].
      destruct (decide (_upstream sp = Some p)) as [E|]; [|apply (hi_object w H Hh); exact Hp].
      pose proof (hi_object w H Hh p sp Hp) as Hok. unfold entries in Hok.
      rewrite E, Hp in Hok. rewrite Hd. exact Hok.
    + apply (hi_fresh w H Hh).
Qed.

Lemma sound_tasks w H t :
  sound w H ->
  sound {| heap := heap w; next_pid := next_pid w; tasks := t; trace := trace w |} H.
Proof.
  intros [Hinv [Hobj Honce Hfresh Hheld]]. split; [apply close_inv_tasks; exact Hinv|].
  split; cbn [heap next_pid tasks trace]; assumption.
Qed.

Lemma sound_emit w H e :
  sound w H -> not_close e ->
  sound {| heap := heap w; next_pid := next_pid w; tasks := tasks w;
           trace := trace w ++ [e] |} H.
Proof.
  intros [Hinv [Hobj Honce Hfresh Hheld]] He.
  split; [apply close_inv_emit_other; assumption|].
  split; cbn [heap next_pid tasks trace].
  - intros p sp Hp. rewrite closes_snoc_other by exact He. exact (Hobj p sp Hp).
  - intros p. rewrite closes_snoc_other by exact He. apply Honce.
  - exact Hfresh.
  - intros p Hp sp u su Hsp Hu Hsu Hh. cbn [heap trace] in *.
    rewrite closes_snoc_other by exact He. eapply (Hheld p Hp); eauto.
Qed.

(** *** Member functions that keep both invariants *)

Lemma keeps_ret {A} (a : A) : keeps (@ret V St A a).
Proof. intros H w a' w' Hs [= _ <-]. exact Hs. Qed.

Lemma keeps_fail {A} f : keeps (@fail V St A f).
Proof. intros H w a w' _ [=]. Qed.

Lemma keeps_bind {A B} (m : M A) (k : A -> M B) :
  keeps m -> (forall a, keeps (k a)) -> keeps (bind m k).
Proof.
  intros Hm Hk H w b w' Hs Hrun. apply bind_inv in Hrun as (a & w1 & H1 & H2).
  eapply Hk; [|exact H2]. eapply Hm; eauto.
Qed.

Lemma keeps_when b (m : M unit) : keeps m -> keeps (when b m).
Proof. intros Hm. destruct b; [exact Hm|apply keeps_ret]. Qed.

Lemma keeps_run p : keeps (run p).
Proof. intros H w a w' Hs [= _ <-]. apply sound_tasks. exact Hs. Qed.

Lemma keeps_emit e : not_close e -> keeps (emit e).
Proof. intros He H w a w' Hs [= _ <-]. apply sound_emit; assumption. Qed.

Lemma keeps_lock s : keeps (lock s).
Proof.
  intros H w a w' Hs Hrun. unfold lock in Hrun.
  destruct (sender_p s) as [p|]; [destruct (heap w !! p)|]; injection Hrun as _ <-; exact Hs.
Qed.

Lemma keeps_load {A} p (k : shared_process -> M A) :
  (forall sp, keeps_at p sp (k sp)) -> keeps (bind (load p) k).
Proof.
  intros Hk H w a w' Hs Hrun. apply bind_load_inv in Hrun as (sp & Hp & Hrun).
  eapply Hk; eauto.
Qed.

Lemma keeps_at_store p sp sp' :
  same_protocol_state sp' sp -> keeps_at p sp (store p sp').
Proof. intros Hsame H w a w' Hs Hp [= _ <-]. eapply sound_store_same; eauto. Qed.

Lemma keeps_at_bind_store {A} p sp sp' (k : unit -> M A) :
  same_protocol_state sp' sp -> keeps (k tt) -> keeps_at p sp (bind (store p sp') k).
Proof.
  intros Hsame Hk H w a w' Hs Hp Hrun. rewrite bind_store in Hrun.
  eapply Hk; [|exact Hrun]. eapply sound_store_same; eauto.
Qed.

Lemma keeps_at_any {A} p sp (m : M A) : keeps m -> keeps_at p sp m.
Proof. intros Hm H w a w' Hs _ Hrun. eapply Hm; eauto. Qed.

Ltac keeps_step :=
  first
    [ solve [auto with keeps nocore]
    | apply keeps_ret | apply keeps_fail | apply keeps_run | apply keeps_lock
    | apply keeps_emit; exact I
    | apply keeps_when
    | apply keeps_load; intros ?
    | apply keeps_at_store; same_state
    | apply keeps_at_bind_store; [same_state|]
    | apply keeps_bind; [|intros ?]
    | match goal with
      | |- keeps (match ?x with _ => _ end) => destruct x
      | |- keeps (if ?x then _ else _) => destruct x
      | |- keeps_at _ _ (match ?x with _ => _ end) => destruct x
      | |- keeps_at _ _ (if ?x then _ else _) => destruct x
      end
    | apply keeps_at_any ].

Lemma keeps_add_receiver p : keeps (add_receiver p).
Proof. unfold add_receiver. repeat keeps_step. Qed.

Lemma keeps_remove_receiver p : keeps (remove_receiver p).
Proof. unfold remove_receiver, remove_receiver_locked. cbn zeta. repeat keeps_step. Qed.

Lemma keeps_acquire p : keeps (acquire p).
Proof. unfold acquire. repeat keeps_step. Qed.

#[local] Hint Resolve keeps_add_receiver keeps_remove_receiver keeps_acquire : keeps.

Lemma cts_locked_protocol sp sp' b :
  cts_locked sp = Some (sp', b) -> same_protocol_state sp' sp.
Proof.
  unfold cts_locked. intros H.
  repeat match type of H with
         | context [if ?c then _ else _] => destruct c
         end; try discriminate; injection H as <- <-; same_state.
Qed.

Lemma keeps_cts p : keeps (cts p).
Proof.
  unfold cts. apply keeps_bind; [apply keeps_emit; exact I|intros _].
  apply keeps_load. intros sp.
  destruct (cts_locked sp) as [[sp' b]|] eqn:E; [|apply keeps_at_any, keeps_fail].
  apply keeps_at_bind_store; [eapply cts_locked_protocol; eauto|]. repeat keeps_step.
Qed.
#[local] Hint Resolve keeps_cts : keeps.

Lemma keeps_upstream_cts p b : keeps (upstream_cts p b).
Proof. unfold upstream_cts. repeat keeps_step. Qed.
#[local] Hint Resolve keeps_upstream_cts : keeps.

Lemma keeps_set_ready r : keeps (set_ready r).
Proof. unfold set_ready. repeat keeps_step. Qed.

(** *** Sending *)

Lemma protocol_ok_queue N sp sp' k :
  same_close_state sp' sp ->
  _sender_count sp' = _sender_count sp ->
  (1 <= N)%nat \/ _process_message_queue sp <> [] ->
  protocol_ok N sp k -> protocol_ok N sp' k.
Proof.
  intros (_ & _ & _ & Hf & Hc) Hn Hopen [Hcount Hphase]. unfold protocol_ok.
  rewrite Hf, Hc, Hn. split; [exact Hcount|].
  destruct Hphase as [?|[?|(HN & _ & Hq & _)]]; [auto|auto|].
  destruct Hopen as [?|?]; [lia|contradiction].
Qed.

(** a store that changes the queue of a process that is not closed *)
Lemma sound_store_queue w H p sp sp' :
  sound w H -> heap w !! p = Some sp ->
  same_close_state sp' sp ->
  _sender_count sp' = _sender_count sp ->
  (1 <= H p + entries w p sp)%nat \/ _process_message_queue sp <> [] ->
  sound {| heap := <[p := sp']> (heap w); next_pid := next_pid w;
           tasks := tasks w; trace := trace w |} H.
Proof.
  intros [Hinv Hh] Hp Hsame Hn Hopen. pose proof Hsame as (HT & Hu & Hd & Hf & Hc).
  split.
  - eapply (at_store p sp sp'); [exact Hsame|exact Hinv|exact Hp|reflexivity].
  - eapply handle_inv_store; eauto.
    + intros x sx Hx Hne. destruct (decide (_upstream sx = Some p)) as [E|]; [|lia].
      unfold entries. rewrite E, Hp, Hd. lia.
    + pose proof (hi_object w H Hh p sp Hp) as Hok.
      destruct (decide (_upstream sp = Some p)) as [E|].
      * unfold entries in Hok, Hopen. rewrite E, Hp in Hok, Hopen. rewrite Hd.
        eapply protocol_ok_queue; eauto.
      * eapply protocol_ok_queue; eauto.
    + apply (hi_fresh w H Hh).
Qed.

Lemma same_links_refl w : same_links w w.
Proof. intros x. reflexivity. Qed.

Lemma same_links_trans w1 w2 w3 : same_links w1 w2 -> same_links w2 w3 -> same_links w1 w3.
Proof. intros H1 H2 x. rewrite H2. apply H1. Qed.

Lemma same_links_lookup w w' x sx' :
  same_links w w' -> heap w' !! x = Some sx' ->
  exists sx, heap w !! x = Some sx
    /\ _upstream sx' = _upstream sx /\ _downstream sx' = _downstream sx.
Proof.
  intros Hl Hx. specialize (Hl x). rewrite Hx in Hl. cbn in Hl.
  destruct (heap w !! x) as [sx|]; [|discriminate]. cbn in Hl.
  injection Hl as E1 E2. eauto.
Qed.

Lemma entries_links w w' x sx sx' :
  same_links w w' -> _upstream sx' = _upstream sx -> entries w' x sx' = entries w x sx.
Proof.
  intros Hl Hu. unfold entries. rewrite Hu. destruct (_upstream sx) as [u|]; [|reflexivity].
  specialize (Hl u). destruct (heap w' !! u) as [su'|], (heap w !! u) as [su|];
    cbn in Hl; try discriminate; [|reflexivity].
  injection Hl as _ ->. reflexivity.
Qed.

Lemma store_links w p sp sp' :
  heap w !! p = Some sp ->
  _upstream sp' = _upstream sp -> _downstream sp' = _downstream sp ->
  same_links w {| heap := <[p := sp']> (heap w); next_pid := next_pid w;
                  tasks := tasks w; trace := trace w |}.
Proof.
  intros Hp Hu Hd x. cbn [heap]. destruct (decide (x = p)) as [->|Hne].
  - rewrite lookup_insert_eq, Hp. cbn. rewrite Hu, Hd. reflexivity.
  - rewrite lookup_insert_ne by congruence. reflexivity.
Qed.

Lemma send_links p v w w' : send p v w = Ok tt w' -> same_links w w'.
Proof.
  intros Hrun. unfold send in Hrun. apply bind_load_inv in Hrun as (sp & Hp & Hrun).
  unfold send_locked in Hrun. cbn zeta in Hrun. rewrite bind_store, bind_emit in Hrun.
  intros x. apply when_run_inv in Hrun as (-> & _). cbn [heap].
  eapply (store_links w p sp); [exact Hp|reflexivity..].
Qed.

Lemma send_sound p v w w' H sp :
  sound w H -> heap w !! p = Some sp ->
  (1 <= H p + entries w p sp)%nat ->
  send p v w = Ok tt w' -> sound w' H.
Proof.
  intros Hs Hp Hlive Hrun. unfold send in Hrun. rewrite (bind_load _ _ _ _ Hp) in Hrun.
  unfold send_locked in Hrun. cbn zeta in Hrun. rewrite bind_store in Hrun.
  revert Hrun. apply keeps_bind; [apply keeps_emit; exact I|intros _; apply keeps_when, keeps_run|].
  eapply sound_store_queue; eauto. same_state.
Qed.

Lemma sender_call_links e v w w' : sender_call e v w = Ok tt w' -> same_links w w'.
Proof.
  intros Hrun. unfold sender_call, bind, lock in Hrun.
  destruct (sender_p e) as [p|]; [destruct (heap w !! p)|].
  - eapply send_links; eauto.
  - injection Hrun as <-. apply same_links_refl.
  - injection Hrun as <-. apply same_links_refl.
Qed.

Lemma sender_call_sound e v w w' H :
  sound w H ->
  (forall p sp, sender_p e = Some p -> heap w !! p = Some sp ->
                (1 <= H p + entries w p sp)%nat) ->
  sender_call e v w = Ok tt w' -> sound w' H.
Proof.
  intros Hs Hlive Hrun. unfold sender_call, bind, lock in Hrun.
  destruct (sender_p e) as [p|]; [destruct (heap w !! p) as [sp|] eqn:Hp|].
  - eapply send_sound; eauto.
  - injection Hrun as <-. exact Hs.
  - injection Hrun as <-. exact Hs.
Qed.

Lemma for_each_n_sound (l : list sender) n v w w' H :
  sound w H ->
  (forall e p sp, e ∈ l -> sender_p e = Some p -> heap w !! p = Some sp ->
                  (1 <= H p + entries w p sp)%nat) ->
  for_each_n l n (fun e => sender_call e v) w = Ok tt w' -> sound w' H.
Proof.
  revert l w. induction n as [|n IH]; intros l w Hs Hlive Hrun; cbn [for_each_n] in Hrun.
  - injection Hrun as <-. exact Hs.
  - destruct l as [|e l]; [discriminate|].
    apply bind_inv in Hrun as ([] & w1 & He & Hrun).
    pose proof (sender_call_links _ _ _ _ He) as Hl.
    eapply (IH l w1); [| |exact Hrun].
    + eapply sender_call_sound; [exact Hs| |exact He].
      intros p sp Hep Hp. eapply Hlive; eauto. left.
    + intros e' p sp1 Hin Hep Hp1.
      destruct (same_links_lookup _ _ _ _ Hl Hp1) as (sp & Hp & Hu & _).
      rewrite (entries_links w w1 p sp sp1 Hl Hu). eapply Hlive; eauto. right. exact Hin.
Qed.

(** an element of a downstream deque is a sender that is alive *)
Lemma entry_alive w H p sp e d sd :
  sound w H -> heap w !! p = Some sp -> e ∈ _downstream sp ->
  sender_p e = Some d -> heap w !! d = Some sd ->
  (1 <= H d + entries w d sd)%nat.
Proof.
  intros [Hinv _] Hp Hin Hed Hd. destruct e as [o]. cbn in Hed. subst o.
  pose proof (inv_down w Hinv p sp d sd Hp Hin Hd) as Hu.
  unfold entries. rewrite Hu, Hp. apply aimed_elem in Hin. lia.
Qed.

Lemma keeps_broadcast p v : keeps (broadcast p v).
Proof.
  intros H w a w' Hs Hrun. unfold broadcast in Hrun. rewrite bind_emit in Hrun.
  unfold broadcast_snapshot in Hrun. rewrite bind_bind in Hrun.
  apply bind_load_inv in Hrun as (sp & Hp & Hrun). cbn [heap] in Hp.
  destruct (negb (_process_suspend_count sp =? 0)); [discriminate|].
  rewrite bind_bind, bind_store, bind_ret in Hrun. unfold broadcast_deliver in Hrun.
  erewrite bind_load in Hrun by (cbn [heap]; apply lookup_insert_eq).
  destruct a. eapply for_each_n_sound; [| |exact Hrun].
  - eapply sound_store_same; [apply sound_emit; [exact Hs|exact I]|exact Hp|same_state].
  - intros e d sd Hin Hed Hd.
    eapply entry_alive; [|cbn [heap]; apply lookup_insert_eq|exact Hin|exact Hed|exact Hd].
    eapply sound_store_same; [apply sound_emit; [exact Hs|exact I]|exact Hp|same_state].
Qed.
#[local] Hint Resolve keeps_broadcast : keeps.

(** *** Destroying senders *)

Lemma held_alive w H p sp :
  handle_inv w H -> heap w !! p = Some sp -> (1 <= H p + entries w p sp)%nat ->
  1 <= _sender_count sp < size_modulus
  /\ _process_close_queue sp = false /\ _process_final sp = false
  /\ closes p (trace w) = 0%nat.
Proof.
  intros Hh Hp Hlive. destruct (hi_object w H Hh p sp Hp) as [Hcount Hphase].
  split; [lia|]. destruct Hphase as [?|[(? & _)|(? & _)]]; [assumption|lia|lia].
Qed.

Lemma remove_sender_sound p w w' H :
  sound w H -> (1 <= H p)%nat -> remove_sender p w = Ok tt w' -> sound w' (fewer p H).
Proof.
  intros [Hinv Hh] Hheld Hrun. split.
  { eapply remove_sender_inv; [exact Hinv|apply (hi_held w H Hh); exact Hheld|exact Hrun]. }
  unfold remove_sender in Hrun. apply bind_load_inv in Hrun as (sp & Hp & Hrun).
  cbn zeta in Hrun.
  destruct (held_alive w H p sp Hh Hp ltac:(lia)) as (Hcount & Hcq & Hfinal & Hk).
  destruct (hi_object w H Hh p sp Hp) as [HN _].
  assert (Hdecr : size_decr (_sender_count sp) = _sender_count sp - 1)
    by (apply size_decr_pos; lia).
  cbn [_sender_count set_sender_count] in Hrun. rewrite Hdecr in Hrun.
  assert (Hstore : forall sp',
             process_T sp' = process_T sp -> _upstream sp' = _upstream sp ->
             _downstream sp' = _downstream sp ->
             protocol_ok (pred (H p) + entries w p sp) sp' (closes p (trace w)) ->
             handle_inv {| heap := <[p := sp']> (heap w); next_pid := next_pid w;
                           tasks := tasks w; trace := trace w |} (fewer p H)).
  { intros sp' HT Hu Hd Hok. eapply handle_inv_store; eauto.
    - intros x sx Hx Hne. unfold fewer. destruct (decide (x = p)); [contradiction|].
      destruct (decide (_upstream sx = Some p)) as [E|]; [|lia].
      unfold entries. rewrite E, Hp, Hd. lia.
    - unfold fewer. destruct (decide (p = p)); [|contradiction].
      destruct (decide (_upstream sp = Some p)) as [E|]; [|exact Hok].
      unfold entries in Hok. rewrite E, Hp in Hok. rewrite Hd. exact Hok.
    - intros x Hx. left. unfold fewer in Hx. destruct (decide (x = p)); lia.
    - intros x Hx. unfold fewer. rewrite (hi_fresh w H Hh x Hx).
      case_decide; reflexivity. }
  destruct (Z.eqb_spec (_sender_count sp - 1) 0) as [Hz|Hnz].
  - unfold remove_sender_locked in Hrun. cbn zeta in Hrun. rewrite bind_store in Hrun.
    assert (Hs1 : sound _ (fewer p H)
                  -> sound w' (fewer p H))
      by (intros Hs1; revert Hrun; apply keeps_when; [apply keeps_run|exact Hs1]).
    apply Hs1. split.
    + eapply close_inv_store; eauto; cbn; auto.
      intros _. right. apply (hi_held w H Hh). exact Hheld.
    + apply Hstore; [reflexivity..|]. split; cbn; [lia|].
      right. left. repeat split; auto. lia.
  - injection Hrun as <-. apply Hstore; [reflexivity..|]. split; cbn; [lia|].
    left. auto.
Qed.

Lemma sender_destroy_sound e w w' H :
  sound w H ->
  (forall p, sender_p e = Some p -> (1 <= H p)%nat) ->
  sender_destroy e w = Ok tt w' ->
  sound w' (match sender_p e with Some p => fewer p H | None => H end).
Proof.
  intros Hs Hheld Hrun. unfold sender_destroy, bind, lock in Hrun.
  destruct (sender_p e) as [p|]; [destruct (heap w !! p)|].
  - eapply remove_sender_sound; eauto.
  - injection Hrun as <-. eapply sound_fewer; [|exact Hs].
    intros x. unfold fewer. destruct (decide (x = p)); lia.
  - injection Hrun as <-. exact Hs.
Qed.

(** the senders taken out of a deque are destroyed one by one *)
Lemma destroy_entries_sound (es : list sender) w w' H :
  sound w (with_entries es H) ->
  foldr (fun e k => sender_destroy e ;; k) (ret tt) es w = Ok tt w' ->
  sound w' H.
Proof.
  revert w. induction es as [|e es IH]; intros w Hs Hrun; cbn [foldr] in Hrun.
  - injection Hrun as <-. eapply sound_fewer; [|exact Hs].
    intros x. unfold with_entries. cbn. lia.
  - apply bind_inv in Hrun as ([] & w1 & He & Hrun).
    eapply (IH w1); [|exact Hrun].
    eapply sound_fewer; [|eapply sender_destroy_sound; [exact Hs| |exact He]].
    + intros x. unfold with_entries. cbn [aimed].
      destruct (sender_p e) as [p|]; unfold fewer.
      * destruct (decide (x = p)) as [->|Hne].
        -- destruct (decide (Some p = Some p)); [lia|contradiction].
        -- destruct (decide (Some p = Some x)) as [[= ->]|]; [contradiction|lia].
      * destruct (decide (None = Some x)); [discriminate|lia].
    + intros p Hep. unfold with_entries. cbn [aimed]. rewrite Hep.
      destruct (decide (Some p = Some p)); [lia|contradiction].
Qed.

(** no object is the target of an element of its own deque, and a target
    that is alive has the holder of the deque as its upstream *)
Lemma aimed_other w p sp x sx :
  close_inv w -> heap w !! p = Some sp -> heap w !! x = Some sx ->
  _upstream sx <> Some p -> aimed x (_downstream sp) = 0%nat.
Proof.
  intros Hinv Hp Hx Hu. destruct (aimed x (_downstream sp)) eqn:E; [reflexivity|].
  assert (Hin : Sender (Some x) ∈ _downstream sp) by (apply aimed_elem; lia).
  pose proof (inv_down w Hinv p sp x sx Hp Hin Hx). contradiction.
Qed.

Lemma not_own_upstream w p sp : close_inv w -> heap w !! p = Some sp -> _upstream sp <> Some p.
Proof. intros Hinv Hp E. pose proof (inv_older w Hinv p sp p Hp E). lia. Qed.

(** taking the elements out of the deque of [p]: they are handles now *)
Lemma handle_inv_clear w H p sp :
  close_inv w -> handle_inv w H -> heap w !! p = Some sp ->
  _process_final sp = true ->
  handle_inv {| heap := <[p := set_downstream [] sp]> (heap w); next_pid := next_pid w;
                tasks := tasks w; trace := trace w |}
             (with_entries (_downstream sp) H).
Proof.
  intros Hinv Hh Hp Hfinal.
  pose proof (not_own_upstream w p sp Hinv Hp) as Hself.
  eapply handle_inv_store; eauto.
  - intros x sx Hx Hne. unfold with_entries. cbn [_downstream set_downstream aimed].
    destruct (decide (_upstream sx = Some p)) as [E|Hnp].
    + unfold entries. rewrite E, Hp. lia.
    + rewrite (aimed_other w p sp x sx Hinv Hp Hx Hnp). lia.
  - destruct (decide (_upstream sp = Some p)); [contradiction|].
    unfold with_entries. rewrite (aimed_other w p sp p sp Hinv Hp Hp Hself), Nat.add_0_r.
    exact (hi_object w H Hh p sp Hp).
  - intros x Hx. unfold with_entries in Hx.
    destruct (H x) eqn:EH; [right|left; lia].
    assert (Hin : Sender (Some x) ∈ _downstream sp) by (apply aimed_elem; lia).
    intros sx u su Hsx Hu Hsu Hhook.
    pose proof (inv_down w Hinv p sp x sx Hp Hin Hsx) as E. rewrite E in Hu.
    injection Hu as <-. rewrite Hp in Hsu. injection Hsu as <-.
    eapply (inv_final w Hinv p sp); eauto.
  - intros x Hx. unfold with_entries. rewrite (hi_fresh w H Hh x Hx).
    destruct (aimed x (_downstream sp)) eqn:E; [reflexivity|].
    assert (Hin : Sender (Some x) ∈ _downstream sp) by (apply aimed_elem; lia).
    pose proof (inv_entry w Hinv p sp x Hp Hin). lia.
Qed.

Lemma clear_downstream_sound p sp w w' H :
  sound w H -> heap w !! p = Some sp -> _process_final sp = true ->
  clear_downstream p w = Ok tt w' -> sound w' H.
Proof.
  intros [Hinv Hh] Hp Hfinal Hrun. unfold clear_downstream in Hrun.
  rewrite (bind_load _ _ _ _ Hp), bind_store in Hrun.
  eapply destroy_entries_sound; [|exact Hrun]. split.
  - eapply close_inv_store; eauto; cbn; auto. intros e He. inversion He.
  - apply handle_inv_clear; auto.
Qed.

Lemma keeps_task_done p : keeps (task_done p).
Proof.
  intros H w [] w' Hs Hrun. unfold task_done in Hrun. rewrite bind_emit in Hrun.
  apply bind_load_inv in Hrun as (sp & Hp & Hrun). cbn [heap] in Hp.
  unfold task_done_locked in Hrun. cbn zeta in Hrun. rewrite bind_store in Hrun.
  set (do_run := negb (deque_empty (_process_message_queue sp)) || _process_close_queue sp) in *.
  set (w1 := {| heap := <[p:=set_process_running do_run sp]> (heap w);
                next_pid := next_pid w; tasks := tasks w;
                trace := trace w ++ [EvTaskDone p] |}) in *.
  assert (Hs1 : sound w1 H).
  { unfold w1. eapply (sound_store_same
                         {| heap := heap w; next_pid := next_pid w; tasks := tasks w;
                            trace := trace w ++ [EvTaskDone p] |});
      [apply sound_emit; [exact Hs|exact I]|exact Hp|same_state]. }
  apply bind_inv in Hrun as ([] & w2 & Hassert & Hrun).
  assert (w2 = w1) as ->.
  { destruct (do_run && _process_final sp); [discriminate|]. injection Hassert as <-. reflexivity. }
  apply bind_inv in Hrun as ([] & w3 & Hsched & Hrun).
  assert (Hs3 : sound w3 H) by (revert Hsched; apply keeps_when; [apply keeps_run|exact Hs1]).
  destruct (_process_final sp) eqn:Hf; cbn [when] in Hrun.
  - assert (Hp3 : heap w3 !! p = Some (set_process_running do_run sp)).
    { destruct do_run; cbn [when] in Hsched; injection Hsched as <-; cbn [heap w1];
        rewrite lookup_insert_eq; auto. }
    eapply clear_downstream_sound; [exact Hs3|exact Hp3|exact Hf|exact Hrun].
  - injection Hrun as <-. exact Hs3.
Qed.
#[local] Hint Resolve keeps_task_done : keeps.

(** *** Taking messages off the queue *)

(** the locked block of a dequeue that finds the queue empty: a pending
    close becomes [_process_final] *)
Lemma handle_inv_closing w H p sp sp' :
  close_inv w -> handle_inv w H -> heap w !! p = Some sp ->
  _process_message_queue sp = [] ->
  process_T sp' = process_T sp -> _upstream sp' = _upstream sp ->
  _downstream sp' = _downstream sp -> _sender_count sp' = _sender_count sp ->
  _process_message_queue sp' = [] ->
  _process_close_queue sp' = false ->
  _process_final sp' = _process_close_queue sp ->
  handle_inv {| heap := <[p := sp']> (heap w); next_pid := next_pid w;
                tasks := tasks w; trace := trace w |} H.
Proof.
  intros Hinv Hh Hp Hq HT Hu Hd Hn Hq' Hc' Hf'.
  eapply handle_inv_store; eauto.
  - intros x sx Hx Hne. destruct (decide (_upstream sx = Some p)) as [E|]; [|lia].
    unfold entries. rewrite E, Hp, Hd. lia.
  - destruct (decide (_upstream sp = Some p)) as [E|];
      [destruct (not_own_upstream w p sp Hinv Hp E)|].
    destruct (hi_object w H Hh p sp Hp) as [Hcount Hphase]. split; [rewrite Hn; exact Hcount|].
    rewrite Hc', Hq', Hf'.
    destruct Hphase as [(-> & _ & ->)|[(-> & _ & _ & ->)|(-> & -> & _ & Hk)]];
      [left; auto|right; right; auto|right; right; auto].
  - apply (hi_fresh w H Hh).
Qed.

(** the call of [close()] by the dequeue that has closed the process *)
Lemma handle_inv_emit_close w H p sp :
  handle_inv w H -> heap w !! p = Some sp ->
  closes p (trace w) = 0%nat ->
  (H p + entries w p sp = 0)%nat ->
  _process_close_queue sp = false -> _process_message_queue sp = [] ->
  _sender_count sp < size_modulus ->
  handle_inv {| heap := heap w; next_pid := next_pid w; tasks := tasks w;
                trace := trace w ++ [EvClose p] |} H.
Proof.
  intros [Hobj Honce Hfresh Hheld] Hp Hk HN Hc Hq Hn.
  assert (Hcl : forall x, closes x (trace w ++ [EvClose p])
                          = if Nat.eqb x p then 1%nat else closes x (trace w)).
  { intros x. rewrite closes_app. cbn [closes].
    destruct (Nat.eqb_spec x p) as [->|]; lia. }
  split; cbn [heap next_pid tasks trace].
  - intros x sx Hx. rewrite Hcl. destruct (Nat.eqb_spec x p) as [->|Hne].
    + rewrite Hp in Hx. injection Hx as <-.
      change (entries _ p sp) with (entries w p sp). rewrite HN.
      destruct (Hobj p sp Hp) as [Hcount _]. split; [lia|]. right. right. auto.
    + exact (Hobj x sx Hx).
  - intros x. rewrite Hcl. destruct (Nat.eqb x p); [lia|apply Honce].
  - exact Hfresh.
  - intros x Hx sx u su Hsx Hu Hsu Hh. cbn [heap trace] in *.
    pose proof (Hheld x Hx sx u su Hsx Hu Hsu Hh). rewrite Hcl.
    destruct (Nat.eqb u p); lia.
Qed.

Lemma keeps_dequeue await_ p : keeps (dequeue await_ p).
Proof.
  intros H w b w' [Hinv Hh] Hrun.
  pose proof (preserves_dequeue await_ p w b w' Hinv Hrun) as Hinv'.
  unfold dequeue in Hrun. apply bind_load_inv in Hrun as (sp & Hp & Hrun).
  unfold dequeue_locked in Hrun.
  destruct (_process_message_queue sp) as [|m rest] eqn:Hq.
  - split; [exact Hinv'|]. rewrite bind_store in Hrun. unfold bind at 1 in Hrun.
    erewrite upstream_cts_false in Hrun by (cbn [heap]; apply lookup_insert_eq).
    assert (Hclosing : forall sp',
               process_T sp' = process_T sp -> _upstream sp' = _upstream sp ->
               _downstream sp' = _downstream sp -> _sender_count sp' = _sender_count sp ->
               _process_message_queue sp' = [] -> _process_close_queue sp' = false ->
               _process_final sp' = _process_close_queue sp ->
               handle_inv {| heap := <[p := sp']> (heap w); next_pid := next_pid w;
                             tasks := tasks w; trace := trace w |} H)
      by (intros; eapply handle_inv_closing; eauto).
    destruct (_process_close_queue sp) eqn:Hcq; cbn [when] in Hrun.
    + unfold process_close in Hrun. rewrite bind_bind in Hrun.
      erewrite bind_load in Hrun by (cbn [heap]; apply lookup_insert_eq).
      cbn [process_T set_process_final set_process_close_queue] in Hrun.
      destruct (t_close (process_T sp)) as [close|].
      * rewrite bind_bind, bind_store, bind_emit in Hrun. injection Hrun as _ <-.
        cbn [heap next_pid tasks trace]. rewrite insert_insert_eq.
        destruct (hi_object w H Hh p sp Hp) as [Hcount Hphase].
        destruct Hphase as [(? & _)|[(HN & _ & _ & Hk)|(_ & ? & _)]]; try congruence.
        set (sp2 := set_process (close (_process sp))
                      (set_process_final true (set_process_close_queue false sp))).
        pose proof (handle_inv_emit_close
                      {| heap := <[p := sp2]> (heap w); next_pid := next_pid w;
                         tasks := tasks w; trace := trace w |} H p sp2) as Hemit.
        cbn [heap next_pid tasks trace] in Hemit.
        apply Hemit;
          [apply Hclosing; cbn; auto|apply lookup_insert_eq
          |exact Hk| |reflexivity|cbn; exact Hq|cbn; lia].
        rewrite entries_store.
        destruct (decide (_ = Some p)) as [E|];
          [destruct (not_own_upstream w p sp Hinv Hp E)|].
        unfold entries in *. cbn [_upstream set_process set_process_final
                                   set_process_close_queue]. exact HN.
      * injection Hrun as _ <-. apply Hclosing; cbn; auto.
    + injection Hrun as _ <-. apply Hclosing; cbn; auto.
  - rewrite bind_store in Hrun.
    assert (Hrest : keeps (upstream_cts p (Nat.eqb (length rest) 0) ;;
                           (let* sp0 := load p in
                            store p (set_process (await_ (_process sp0) m) sp0) ;;
                            emit (EvAwait p m) ;; ret true)))
      by repeat keeps_step.
    eapply Hrest; [|exact Hrun].
    eapply sound_store_queue; [split; eauto|exact Hp|same_state|reflexivity|].
    right. rewrite Hq. discriminate.
Qed.
#[local] Hint Resolve keeps_dequeue : keeps.

(** *** Steps *)

Lemma keeps_step_loop fuel await_ p : keeps (step_loop fuel await_ p).
Proof.
  induction fuel as [|fuel IH]; cbn [step_loop]; [apply keeps_fail|].
  apply keeps_load. intros sp. apply keeps_at_any.
  destruct (process_state_eqb _ _); [apply keeps_ret|].
  apply keeps_bind; [apply keeps_dequeue|]. intros [|]; [exact IH|apply keeps_ret].
Qed.
#[local] Hint Resolve keeps_step_loop : keeps.

Lemma keeps_step_tail yield_ p : keeps (step_tail yield_ p).
Proof.
  unfold step_tail. apply keeps_load. intros sp.
  destruct (process_state_eqb _ _); [apply keeps_at_any, keeps_task_done|].
  destruct (yield_ (_process sp)) as [v x].
  apply keeps_at_bind_store; [same_state|]. repeat keeps_step.
Qed.
#[local] Hint Resolve keeps_step_tail : keeps.

Lemma step_call_sound call p sp w a w' H :
  sound w H ->
  heap w !! p = Some sp ->
  t_body (process_T sp) = Function call ->
  step_call call p w = Ok a w' -> sound w' H.
Proof.
  intros [Hinv Hh] Hp Hbody Hrun. unfold step_call in Hrun.
  rewrite (bind_load _ _ _ _ Hp) in Hrun. unfold dequeue_locked in Hrun.
  destruct (_process_message_queue sp) as [|m rest] eqn:Hq.
  - rewrite bind_store in Hrun. unfold bind at 1 in Hrun.
    erewrite upstream_cts_false in Hrun by (cbn [heap]; apply lookup_insert_eq).
    eapply keeps_task_done; [|exact Hrun]. split.
    + eapply close_inv_store; [exact Hinv|exact Hp|reflexivity|reflexivity|cbn; auto
                              | |cbn; discriminate].
      intros _. right. left. unfold hook_capable, has_process_yield.
      rewrite Hbody. reflexivity.
    + eapply handle_inv_closing; eauto.
  - rewrite bind_store in Hrun.
    assert (Hrest : keeps (upstream_cts p (Nat.eqb (length rest) 0) ;;
                           (let* sp0 := load p in
                            let '(v, x) := call (_process sp0) m in
                            store p (set_process x sp0) ;;
                            emit (EvInvoke p m) ;; broadcast p v ;; cts p))).
    { apply keeps_bind; [apply keeps_upstream_cts|intros _].
      apply keeps_load. intros sp0. destruct (call (_process sp0) m) as [v x].
      apply keeps_at_bind_store; [same_state|]. repeat keeps_step. }
    eapply Hrest; [|exact Hrun].
    eapply sound_store_queue; [split; eauto|exact Hp|same_state|reflexivity|].
    right. rewrite Hq. discriminate.
Qed.

Lemma keeps_step p : keeps (step p).
Proof.
  unfold step. apply keeps_load. intros sp.
  destruct (t_body (process_T sp)) as [call|await_ yield_] eqn:Hbody.
  - intros H w a w' Hs Hp Hrun. eapply step_call_sound; eauto.
  - apply keeps_at_any. unfold step_yield. repeat keeps_step.
Qed.
#[local] Hint Resolve keeps_step : keeps.

Lemma keeps_execute k : keeps (execute k).
Proof.
  intros H w a w' Hs Hrun. unfold execute in Hrun.
  destruct (tasks w !! k) as [p|]; [|injection Hrun as _ <-; exact Hs].
  assert (Htask : keeps (task p)) by (unfold task; repeat keeps_step).
  eapply Htask; [|exact Hrun]. apply sound_tasks. exact Hs.
Qed.

(** *** Making and copying senders, allocating and freeing processes *)

Lemma add_sender_sound p w w' H :
  sound w H ->
  (forall sp, heap w !! p = Some sp -> _sender_count sp + 1 < size_modulus) ->
  add_sender p w = Ok tt w' ->
  sound w' H /\ ((1 <= H p)%nat -> sound w' (more p H)).
Proof.
  intros [Hinv Hh] Hguard Hrun.
  pose proof (preserves_add_sender p w tt w' Hinv Hrun) as Hinv'.
  unfold add_sender in Hrun. apply bind_load_inv in Hrun as (sp & Hp & Hrun).
  injection Hrun as <-. specialize (Hguard sp Hp).
  destruct (hi_object w H Hh p sp Hp) as [Hcount Hphase].
  assert (Hincr : size_incr (_sender_count sp) = _sender_count sp + 1)
    by (apply size_incr_small; lia).
  pose proof (not_own_upstream w p sp Hinv Hp) as Hself.
  assert (Hothers : forall (H' : handles) x sx,
             heap w !! x = Some sx -> x <> p -> H' x = H x ->
             (H' x + (if decide (_upstream sx = Some p)
                      then aimed x (_downstream
                                      (set_sender_count (size_incr (_sender_count sp)) sp))
                      else entries w x sx)
              <= H x + entries w x sx)%nat).
  { intros H' x sx Hx Hne ->. destruct (decide (_upstream sx = Some p)) as [E|]; [|lia].
    unfold entries. rewrite E, Hp. cbn. lia. }
  split; [|intros Hheld]; (split; [exact Hinv'|]);
    (eapply handle_inv_store;
     [exact Hinv|exact Hh|exact Hp|reflexivity|reflexivity| | | |]).
  - intros x sx Hx Hne. apply Hothers; auto.
  - destruct (decide (_upstream sp = Some p)); [contradiction|].
    split; cbn; [lia|exact Hphase].
  - auto.
  - apply (hi_fresh w H Hh).
  - intros x sx Hx Hne. apply Hothers; auto. unfold more. case_decide; [contradiction|reflexivity].
  - destruct (decide (_upstream sp = Some p)); [contradiction|].
    unfold more. case_decide; [|contradiction].
    split; cbn; [lia|]. left.
    destruct Hphase as [?|[(? & _)|(? & _)]]; [assumption|lia|lia].
  - intros x Hx. left. unfold more in Hx. case_decide; [subst; exact Hheld|exact Hx].
  - intros x Hx. unfold more. case_decide; [|apply (hi_fresh w H Hh); exact Hx].
    subst. pose proof (hi_fresh w H Hh p Hx). lia.
Qed.

(** one more handle for a process that is gone *)
Lemma sound_more_expired w H p :
  sound w H -> (1 <= H p)%nat -> heap w !! p = None -> sound w (more p H).
Proof.
  intros [Hinv [Hobj Honce Hfresh Hheld]] Hp Hgone. split; [exact Hinv|]. split.
  - intros x sx Hx. unfold more. case_decide; [congruence|]. exact (Hobj x sx Hx).
  - exact Honce.
  - intros x Hx. unfold more. case_decide; [|apply Hfresh; exact Hx].
    subst. pose proof (Hfresh p Hx). lia.
  - intros x Hx. unfold more in Hx. case_decide; [subst; apply Hheld; exact Hp|apply Hheld; exact Hx].
Qed.

Lemma sender_copy_sound p s' w w' H :
  sound w H -> (1 <= H p)%nat ->
  (forall sp, heap w !! p = Some sp -> _sender_count sp + 1 < size_modulus) ->
  sender_copy (Sender (Some p)) w = Ok s' w' -> sound w' (more p H).
Proof.
  intros Hs Hheld Hguard Hrun. unfold sender_copy in Hrun.
  destruct (heap w !! p) as [sp|] eqn:Hp.
  - rewrite (bind_lock_live _ _ _ _ Hp) in Hrun.
    apply bind_inv in Hrun as ([] & w1 & Hadd & Hret). injection Hret as _ <-.
    apply (add_sender_sound p w w1 H Hs); [|exact Hadd|exact Hheld].
    intros sp0 Hp0. apply Hguard. congruence.
  - rewrite (bind_lock_expired _ _ _ Hp) in Hrun. injection Hrun as _ <-.
    apply sound_more_expired; assumption.
Qed.

Lemma receiver_copy_sound r r' w w' H :
  sound w H ->
  (forall p sp, receiver_p r = Some p -> heap w !! p = Some sp ->
                _sender_count sp + 1 < size_modulus) ->
  receiver_copy r w = Ok r' w' -> sound w' H.
Proof.
  intros Hs Hguard Hrun. unfold receiver_copy in Hrun.
  destruct (receiver_p r) as [p|]; [|injection Hrun as _ <-; exact Hs].
  apply bind_inv in Hrun as ([] & w1 & Hacq & Hrun).
  apply bind_inv in Hrun as ([] & w2 & Hadd & Hret). injection Hret as _ <-.
  pose proof (keeps_acquire p H w tt w1 Hs Hacq) as Hs1.
  apply (add_sender_sound p w1 w2 H Hs1); [|exact Hadd].
  intros sp1 Hp1. unfold acquire in Hacq.
  apply bind_load_inv in Hacq as (sp & Hp & Hacq). injection Hacq as <-.
  cbn [heap] in Hp1. rewrite lookup_insert_eq in Hp1. injection Hp1 as <-.
  cbn. eapply Hguard; eauto.
Qed.

Lemma handle_inv_store_each w (H H' : handles) p sp sp' :
  close_inv w -> handle_inv w H ->
  heap w !! p = Some sp ->
  process_T sp' = process_T sp ->
  _upstream sp' = _upstream sp ->
  (forall x sx, heap w !! x = Some sx -> x <> p ->
     protocol_ok (H' x + (if decide (_upstream sx = Some p) then aimed x (_downstream sp')
                          else entries w x sx))
                 sx (closes x (trace w))) ->
  protocol_ok (H' p + (if decide (_upstream sp = Some p) then aimed p (_downstream sp')
                       else entries w p sp))
              sp' (closes p (trace w)) ->
  (forall x, (1 <= H' x)%nat -> (1 <= H x)%nat \/ upstream_closed w x) ->
  (forall x, (next_pid w <= x)%nat -> H' x = 0%nat) ->
  handle_inv {| heap := <[p := sp']> (heap w); next_pid := next_pid w;
                tasks := tasks w; trace := trace w |} H'.
Proof.
  intros Hinv [Hobj Honce Hfresh Hheld] Hp HT Hu Hothers Hself Hheld' Hfresh'.
  split; cbn [heap next_pid tasks trace].
  - intros x sx Hx. rewrite entries_store. destruct (decide (x = p)) as [->|Hne].
    + rewrite lookup_insert_eq in Hx. injection Hx as <-.
      replace (entries w p sp') with (entries w p sp)
        by (unfold entries; rewrite Hu; reflexivity).
      rewrite Hu. exact Hself.
    + rewrite lookup_insert_ne in Hx by congruence. apply Hothers; assumption.
  - exact Honce.
  - exact Hfresh'.
  - intros x Hx. eapply upstream_closed_shape; [apply (store_shape p sp); eassumption|].
    destruct (Hheld' x Hx) as [H1|H1]; [apply Hheld; exact H1|exact H1].
Qed.

(** a fresh object that is neither closing nor final *)
Lemma handle_inv_alloc w (H H' : handles) sp0 :
  close_inv w -> handle_inv w H ->
  _process_close_queue sp0 = false -> _process_final sp0 = false ->
  (forall u, _upstream sp0 = Some u -> (u < next_pid w)%nat) ->
  (forall x, x <> next_pid w -> H' x = H x) ->
  Z.of_nat (H' (next_pid w)) <= _sender_count sp0 < size_modulus ->
  ((1 <= H' (next_pid w))%nat -> _upstream sp0 = None) ->
  handle_inv {| heap := <[next_pid w := sp0]> (heap w); next_pid := S (next_pid w);
                tasks := tasks w; trace := trace w |} H'.
Proof.
  intros Hinv [Hobj Honce Hfresh Hheld] Hc Hf Hup Hsame Hcount Hhead.
  assert (Hlk : forall x sx, <[next_pid w := sp0]> (heap w) !! x = Some sx ->
                  (x = next_pid w /\ sx = sp0) \/ (x <> next_pid w /\ heap w !! x = Some sx)).
  { intros x sx Hx. destruct (decide (x = next_pid w)) as [->|Hne].
    - rewrite lookup_insert_eq in Hx. injection Hx as <-. auto.
    - rewrite lookup_insert_ne in Hx by congruence. auto. }
  assert (Hent : forall x sx,
             (forall u, _upstream sx = Some u -> (u < next_pid w)%nat) ->
             entries {| heap := <[next_pid w := sp0]> (heap w); next_pid := S (next_pid w);
                        tasks := tasks w; trace := trace w |} x sx
             = entries w x sx).
  { intros x sx Hu. unfold entries. cbn [heap]. destruct (_upstream sx) as [u|]; [|reflexivity].
    specialize (Hu u eq_refl). rewrite lookup_insert_ne by lia. reflexivity. }
  split; cbn [heap next_pid tasks trace].
  - intros x sx Hx. destruct (Hlk x sx Hx) as [[-> ->]|[Hne Hx0]].
    + rewrite (Hent _ _ Hup).
      assert (Hnone : entries w (next_pid w) sp0 = 0%nat).
      { unfold entries. destruct (_upstream sp0) as [u|]; [|reflexivity].
        destruct (heap w !! u) as [su|] eqn:Hu; [|reflexivity].
        destruct (aimed (next_pid w) (_downstream su)) eqn:E; [reflexivity|].
        assert (Hin : Sender (Some (next_pid w)) ∈ _downstream su) by (apply aimed_elem; lia).
        pose proof (inv_entry w Hinv u su _ Hu Hin). lia. }
      rewrite Hnone, Nat.add_0_r. split; [exact Hcount|]. left.
      repeat split; [exact Hc|exact Hf|].
      destruct (closes (next_pid w) (trace w)) eqn:E; [reflexivity|].
      pose proof (inv_closed w Hinv (next_pid w) ltac:(lia)). lia.
    + rewrite (Hent x sx (fun u => inv_up w Hinv x sx u Hx0)), (Hsame x Hne).
      exact (Hobj x sx Hx0).
  - exact Honce.
  - intros x Hx. rewrite (Hsame x ltac:(lia)). apply Hfresh. lia.
  - intros x Hx sx u su Hsx Hu Hsu Hh. cbn [heap trace] in *.
    destruct (Hlk x sx Hsx) as [[-> ->]|[Hne Hx0]].
    + rewrite (Hhead Hx) in Hu. discriminate.
    + destruct (Hlk u su Hsu) as [[-> ->]|[_ Hu0]].
      * pose proof (inv_up w Hinv x sx _ Hx0 Hu). lia.
      * rewrite (Hsame x Hne) in Hx. eapply (Hheld x Hx); eauto.
Qed.

Lemma channel_sound p r w w' H :
  sound w H -> channel w = Ok (Sender (Some p), r) w' -> sound w' (more p H).
Proof.
  intros [Hinv Hh] Hrun.
  pose proof (preserves_channel w _ w' Hinv Hrun) as Hinv'.
  unfold channel, bind, alloc, ret in Hrun. injection Hrun as <- _ <-.
  split; [exact Hinv'|].
  pose proof (hi_fresh w H Hh (next_pid w) (Nat.le_refl _)) as H0.
  apply (handle_inv_alloc w H); auto.
  - cbn. discriminate.
  - intros x Hne. unfold more. case_decide; [contradiction|reflexivity].
  - unfold more. case_decide; [|contradiction]. rewrite H0. cbn. unfold size_modulus. lia.
Qed.

Lemma keeps_pipe r F f : keeps (pipe r F f).
Proof.
  intros H w r' w' [Hinv Hh] Hrun.
  pose proof (preserves_pipe r F f w r' w' Hinv Hrun) as Hinv'. split; [exact Hinv'|].
  destruct (receiver_p r) as [q|] eqn:Hr; [|unfold pipe in Hrun; rewrite Hr in Hrun; discriminate].
  destruct (heap w !! q) as [sq|] eqn:Hq.
  - assert (Hfresh : heap w !! next_pid w = None).
    { destruct (heap w !! next_pid w) as [sx|] eqn:E; [|reflexivity].
      apply (inv_dom w Hinv) in E. lia. }
    assert (Hne : q <> next_pid w) by congruence.
    rewrite (pipe_result r F f w q sq Hr Hq Hfresh) in Hrun. injection Hrun as _ <-.
    rewrite insert_insert_ne by congruence.
    set (new := make_shared_process F f (Some q)).
    set (sq' := set_downstream (_downstream sq ++ [Sender (Some (next_pid w))])
                  (set_use_count (S (use_count sq)) sq)).
    set (w1 := {| heap := <[next_pid w := new]> (heap w); next_pid := S (next_pid w);
                  tasks := tasks w; trace := trace w |}).
    assert (Hinv1 : close_inv w1).
    { apply close_inv_alloc; [exact Hinv|reflexivity..|].
      cbn. intros u [= <-]. eapply (inv_dom w Hinv); eauto. }
    assert (Hh1 : handle_inv w1 H).
    { apply (handle_inv_alloc w H); auto.
      - cbn. intros u [= <-]. eapply (inv_dom w Hinv); eauto.
      - rewrite (hi_fresh w H Hh (next_pid w) (Nat.le_refl _)). cbn. unfold size_modulus. lia.
      - rewrite (hi_fresh w H Hh (next_pid w) (Nat.le_refl _)). lia. }
    assert (Hq1 : heap w1 !! q = Some sq)
      by (cbn [heap w1]; rewrite lookup_insert_ne by congruence; exact Hq).
    assert (Hnew : aimed (next_pid w) (_downstream sq) = 0%nat).
    { destruct (aimed (next_pid w) (_downstream sq)) eqn:E; [reflexivity|].
      assert (Hin : Sender (Some (next_pid w)) ∈ _downstream sq) by (apply aimed_elem; lia).
      pose proof (inv_entry w Hinv q sq _ Hq Hin). lia. }
    pose proof (handle_inv_store_each w1 H H q sq sq' Hinv1 Hh1 Hq1 eq_refl eq_refl) as Hstore.
    cbn [heap next_pid tasks trace w1] in Hstore. apply Hstore.
    + intros x sx Hx Hxq. pose proof (hi_object w1 H Hh1 x sx Hx) as Hok.
      destruct (decide (_upstream sx = Some q)) as [E|]; [|exact Hok].
      unfold entries in Hok. rewrite E, Hq1 in Hok.
      cbn [_downstream sq' set_downstream]. rewrite aimed_app. cbn [aimed sender_p].
      destruct (decide (Some (next_pid w) = Some x)) as [[= <-]|Hx'].
      * cbn [heap w1] in Hx. rewrite lookup_insert_eq in Hx. injection Hx as <-.
        rewrite Hnew in *. rewrite (hi_fresh w H Hh (next_pid w) (Nat.le_refl _)) in *.
        split; [cbn; unfold size_modulus; lia|]. left.
        destruct Hok as [_ [?|[(_ & ? & _)|(_ & _ & _ & ?)]]]; [assumption|discriminate|].
        cbn. repeat split; try reflexivity.
        destruct (closes (next_pid w) (trace w)) eqn:Ek; [reflexivity|].
        pose proof (inv_closed w Hinv (next_pid w) ltac:(lia)). lia.
      * rewrite !Nat.add_0_r. exact Hok.
    + pose proof (hi_object w1 H Hh1 q sq Hq1) as Hok.
      destruct (decide (_upstream sq = Some q)) as [E|]; [|exact Hok].
      destruct (not_own_upstream w q sq Hinv Hq E).
    + auto.
    + apply (hi_fresh w1 H Hh1).
  - unfold pipe, acquire in Hrun. rewrite Hr in Hrun.
    rewrite !bind_bind in Hrun. unfold bind at 1, load in Hrun. rewrite Hq in Hrun.
    discriminate.
Qed.

(** the object at [p] is freed: the elements of its deque are handles now *)
Lemma handle_inv_erase w H p sp :
  close_inv w -> handle_inv w H -> heap w !! p = Some sp ->
  handle_inv {| heap := delete p (heap w); next_pid := next_pid w;
                tasks := tasks w; trace := trace w |}
             (with_entries (_downstream sp) H).
Proof.
  intros Hinv [Hobj Honce Hfresh Hheld] Hp. split; cbn [heap next_pid tasks trace].
  - intros x sx Hx. apply lookup_delete_Some in Hx as [Hne Hx].
    eapply protocol_ok_fewer; [|exact (Hobj x sx Hx)].
    unfold with_entries, entries. cbn [heap].
    destruct (decide (_upstream sx = Some p)) as [E|Hnp].
    + rewrite E, lookup_delete_eq, Hp. lia.
    + rewrite (aimed_other w p sp x sx Hinv Hp Hx Hnp).
      destruct (_upstream sx) as [u|]; [|lia].
      rewrite lookup_delete_ne by congruence. lia.
  - exact Honce.
  - intros x Hx. unfold with_entries. rewrite (Hfresh x Hx).
    destruct (aimed x (_downstream sp)) eqn:E; [reflexivity|].
    assert (Hin : Sender (Some x) ∈ _downstream sp) by (apply aimed_elem; lia).
    pose proof (inv_entry w Hinv p sp x Hp Hin). lia.
  - intros x Hx sx u su Hsx Hu Hsu Hh. cbn [heap trace] in *.
    apply lookup_delete_Some in Hsx as [Hxp Hsx].
    apply lookup_delete_Some in Hsu as [Hup Hsu].
    unfold with_entries in Hx. destruct (H x) eqn:EH.
    + assert (Hin : Sender (Some x) ∈ _downstream sp) by (apply aimed_elem; lia).
      pose proof (inv_down w Hinv p sp x sx Hp Hin Hsx). congruence.
    + eapply (Hheld x ltac:(lia)); eauto.
Qed.

Lemma keeps_release fuel p : keeps (release fuel p).
Proof.
  revert p. induction fuel as [|fuel IH]; intros p H w [] w' Hs Hrun;
    cbn [release] in Hrun; apply bind_load_inv in Hrun as (sp & Hp & Hrun);
    destruct (use_count sp) as [|[|n]];
    try (refine (keeps_at_store p sp _ _ H w tt w' Hs Hp Hrun); same_state).
  all: unfold bind at 1, erase in Hrun;
    apply bind_inv in Hrun as ([] & w2 & Hup & Hrun);
    (eapply destroy_entries_sound; [|exact Hrun]);
    assert (Hs1 : sound {| heap := delete p (heap w); next_pid := next_pid w;
                           tasks := tasks w; trace := trace w |}
                        (with_entries (_downstream sp) H))
      by (destruct Hs as [Hinv Hh]; split;
          [apply close_inv_erase; exact Hinv|apply handle_inv_erase; assumption]);
    destruct (_upstream sp);
    first [discriminate | injection Hup as <-; exact Hs1 | eapply IH; [exact Hs1|exact Hup]].
Qed.
#[local] Hint Resolve keeps_release : keeps.

Lemma keeps_receiver_destroy r : keeps (receiver_destroy r).
Proof. unfold receiver_destroy. repeat keeps_step. Qed.

(** *** The moves of a program keep both invariants *)

Lemma sound_empty : sound (@empty_world V St) (fun _ => 0%nat).
Proof.
  split; [apply close_inv_empty|]. split; cbn.
  - intros p sp Hp. rewrite lookup_empty in Hp. discriminate.
  - intros p. lia.
  - reflexivity.
  - intros p Hp. lia.
Qed.

Lemma api_move_sound w H w' H' :
  sound w H -> api_move (w, H) (w', H') -> sound w' H'.
Proof.
  intros Hs Hmove. inversion Hmove; subst; clear Hmove.
  - eapply channel_sound; eauto.
  - destruct (heap w !! p) as [sp|] eqn:Hp.
    + eapply sender_call_sound; [exact Hs| |eassumption].
      intros p' sp' [= <-] Hp'. lia.
    + match goal with Hrun : sender_call _ _ _ = _ |- _ =>
        unfold sender_call in Hrun; rewrite (bind_lock_expired _ _ _ Hp) in Hrun;
        injection Hrun as <- end. exact Hs.
  - eapply sender_copy_sound; eauto.
  - match goal with Hrun : sender_destroy _ _ = _ |- _ =>
      apply (sender_destroy_sound _ _ _ _ Hs) in Hrun; [exact Hrun|] end.
    intros p' [= <-]. assumption.
  - eapply sound_fewer; [|exact Hs]. intros x. unfold fewer. case_decide; lia.
  - eapply receiver_copy_sound; eauto.
  - eapply keeps_receiver_destroy; eauto.
  - eapply keeps_release; eauto.
  - eapply keeps_set_ready; eauto.
  - eapply keeps_pipe; eauto.
  - eapply keeps_execute; eauto.
Qed.

Lemma reachable_counted_sound w H : reachable_counted w H -> sound w H.
Proof.
  unfold reachable_counted. intros Hr.
  refine (rtc_ind_r (fun s : world * handles => sound s.1 s.2) _ _ _ (w, H) Hr).
  - apply sound_empty.
  - intros [w1 H1] [w2 H2] _ Hstep IH. eapply api_move_sound; [exact IH|exact Hstep].
Qed.

(** *** What a program that counts its senders can rely on *)

(** [~sender()] never aborts: an expired weak pointer is skipped *)
Lemma sender_destroy_total (s : sender) w : exists w', sender_destroy s w = Ok tt w'.
Proof.
  unfold sender_destroy, bind at 1, lock.
  destruct (sender_p s) as [p|]; [|eexists; reflexivity].
  destruct (heap w !! p) as [sp|] eqn:Hp; [|eexists; reflexivity].
  unfold remove_sender. rewrite (bind_load _ _ _ _ Hp).
  destruct (_ =? 0); [|eexists; reflexivity].
  destruct (remove_sender_locked _) as [sp' []]; eexists; reflexivity.
Qed.

Lemma destroy_entries_total (es : list sender) w :
  exists w', foldr (fun e k => sender_destroy e ;; k) (ret tt) es w = Ok tt w'.
Proof.
  revert w. induction es as [|e es IH]; intros w; cbn [foldr]; [eexists; reflexivity|].
  unfold bind. destruct (sender_destroy_total e w) as (w1 & ->). apply IH.
Qed.

(** X1.  In every state of a program that counts its senders,
    [_sender_count] of a process is at least the number of senders alive
    for it, those the program holds and those in the downstream deque of its
    upstream, and has not wrapped around; a process that has been told to
    close, has become final or has had [close()] called has no sender
    left. *)
Theorem sender_count_covers_live_senders w H p sp :
  reachable_counted w H ->
  heap w !! p = Some sp ->
  (Z.of_nat (H p + entries w p sp) <= _sender_count sp < size_modulus)
  /\ (_process_close_queue sp = true \/ _process_final sp = true
      \/ (1 <= closes p (trace w))%nat ->
      H p = 0%nat /\ entries w p sp = 0%nat).
Proof.
  intros Hr Hp.
  destruct (reachable_counted_sound w H Hr) as [_ Hh].
  destruct (hi_object w H Hh p sp Hp) as [Hcount Hphase].
  split; [exact Hcount|].
  intros Hclosing.
  destruct Hphase as [(Hcq & Hf & Hk)|[(HN & _)|(HN & _)]]; [|lia|lia].
  destruct Hclosing as [?|[?|?]]; [congruence|congruence|lia].
Qed.

(** X2.  In every state of a program that counts its senders, a final
    process has an empty message queue and [_process_close_queue] clear,
    [close()] has been called at most once for each process, and
    [task_done] of any process returns: its assertion holds. *)
Theorem final_process_stays_drained w H p sp :
  reachable_counted w H ->
  heap w !! p = Some sp ->
  (_process_final sp = true ->
     _process_message_queue sp = [] /\ _process_close_queue sp = false)
  /\ (closes p (trace w) <= 1)%nat
  /\ exists w', task_done p w = Ok tt w'.
Proof.
  intros Hr Hp.
  destruct (reachable_counted_sound w H Hr) as [_ Hh].
  destruct (hi_object w H Hh p sp Hp) as [_ Hphase].
  assert (Hfinal : _process_final sp = true ->
                   _process_message_queue sp = [] /\ _process_close_queue sp = false).
  { intros Hf. destruct Hphase as [(_ & ? & _)|[(_ & _ & ? & _)|(_ & ? & ? & _)]];
      [congruence|congruence|auto]. }
  split; [exact Hfinal|]. split; [apply (hi_once w H Hh)|].
  unfold task_done. rewrite bind_emit.
  erewrite bind_load by (cbn [heap]; exact Hp).
  unfold task_done_locked. rewrite bind_store.
  destruct (_process_final sp) eqn:Hf.
  - destruct (Hfinal eq_refl) as [Hq Hc]. rewrite Hq, Hc. cbn [deque_empty negb orb andb when].
    unfold bind at 1, ret. unfold bind at 1, ret.
    unfold clear_downstream. erewrite bind_load by (cbn [heap]; apply lookup_insert_eq).
    rewrite bind_store. apply destroy_entries_total.
  - rewrite andb_false_r. unfold bind at 1, ret. cbn [when].
    destruct (negb _ || _); [|eexists; reflexivity].
    unfold bind, run, default_scheduler. eexists; reflexivity.
Qed.

(** X3.  In every state a program reaches through the interface, an
    element of a downstream deque leads, if its process is still alive, to a
    process that was made after the holder of the deque and has the holder
    as its upstream; an upstream pointer leads to a process made earlier. *)
Theorem downstream_entries_match_upstream w q sq p sp :
  reachable w ->
  heap w !! q = Some sq ->
  heap w !! p = Some sp ->
  (Sender (Some p) ∈ _downstream sq -> _upstream sp = Some q /\ (q < p)%nat)
  /\ (forall u, _upstream sp = Some u -> (u < p)%nat /\ (p < next_pid w)%nat).
Proof.
  intros Hr Hq Hp. pose proof (reachable_close_inv w Hr) as Hinv. split.
  - intros Hin. pose proof (inv_down w Hinv q sq p sp Hq Hin Hp) as Hup.
    split; [exact Hup|]. exact (inv_older w Hinv p sp q Hp Hup).
  - intros u Hu. split; [exact (inv_older w Hinv p sp u Hp Hu)|].
    exact (inv_dom w Hinv p sp Hp).
Qed.

Lemma size_decr_incr n : 0 <= n < size_modulus -> size_decr (size_incr n) = n.
Proof.
  intros Hn. unfold size_decr, size_incr.
  rewrite Zminus_mod_idemp_l. replace (n + 1 - 1) with n by lia.
  apply Z.mod_small. exact Hn.
Qed.

(** X4.  Copying a sender and destroying the copy, as the by-value
    parameter of [map] is, leaves the whole state as it was, provided
    [_sender_count] is not zero; on a process whose count is zero the pair
    runs the closing block of [remove_sender] again. *)
Theorem sender_copy_destroy_round_trip p sp w :
  heap w !! p = Some sp ->
  0 <= _sender_count sp < size_modulus ->
  (_sender_count sp <> 0 ->
   (let* c := sender_copy (Sender (Some p)) in sender_destroy c) w = Ok tt w)
  /\ (_sender_count sp = 0 ->
      exists w',
        (let* c := sender_copy (Sender (Some p)) in sender_destroy c) w = Ok tt w'
        /\ (_process_close_queue <$> heap w' !! p) = Some true
        /\ (_sender_count <$> heap w' !! p) = Some 0).
Proof.
  intros Hp Hn.
  assert (Hrun : (let* c := sender_copy (Sender (Some p)) in sender_destroy c) w
                 = remove_sender p
                     {| heap := <[p := set_sender_count (size_incr (_sender_count sp)) sp]> (heap w);
                        next_pid := next_pid w; tasks := tasks w; trace := trace w |}).
  { unfold sender_copy, add_sender, sender_destroy. mstep. cbn [sender_p]. mstep. reflexivity. }
  rewrite Hrun. clear Hrun. unfold remove_sender. mstep.
  cbn [_sender_count set_sender_count]. rewrite (size_decr_incr _ Hn).
  split.
  - intros Hne. apply Z.eqb_neq in Hne. rewrite Hne.
    unfold store. cbn [heap next_pid tasks trace].
    rewrite insert_insert_eq.
    replace (set_sender_count _ _) with sp by (destruct sp; reflexivity).
    rewrite insert_id by exact Hp. destruct w; reflexivity.
  - intros Hz. rewrite Hz. cbn [Z.eqb].
    destruct (remove_sender_locked _) as [sp' do_run] eqn:Hl.
    unfold remove_sender_locked in Hl. injection Hl as <- <-.
    rewrite bind_store.
    match goal with |- context [when ?b _] => destruct b end;
      (eexists; split; [reflexivity|]);
      cbn [heap]; rewrite lookup_insert_eq; split; reflexivity.
Qed.

(** X5.  A handle is counted once.  [close()] followed by the destructor
    does what the destructor alone does, a second [close()] and a call of a
    closed sender do nothing; [set_ready()] twice does what it does once,
    and the destructor of a receiver that was set ready only drops the
    shared pointer. *)
Theorem close_and_set_ready_count_once (s : sender) (r : receiver) (v : V) w :
  (let* s' := sender_close s in sender_destroy s') w = sender_destroy s w
  /\ (let* s' := sender_close s in sender_close s') w = sender_close s w
  /\ (let* s' := sender_close s in sender_call s' v) w = (sender_close s ;; ret tt) w
  /\ (let* r' := set_ready r in set_ready r') w = set_ready r w
  /\ (let* r' := set_ready r in receiver_destroy r') w = receiver_destroy r w.
Proof.
  assert (Hs : forall B (k k' : sender -> M B),
             (forall w1, k (Sender None) w1 = k' (Sender None) w1) ->
             (let* s' := sender_close s in k s') w = (let* s' := sender_close s in k' s') w).
  { intros B k k' Hk. unfold bind. destruct (sender_close s w) as [s' w1|f] eqn:E; [|reflexivity].
    unfold sender_close, bind, ret in E.
    destruct (lock s w) as [[p|] w0|f]; [|injection E as <- <-; apply Hk|discriminate].
    destruct (remove_sender p w0) as [[] w2|f]; [injection E as <- <-; apply Hk|discriminate]. }
  assert (Hr : forall B (k k' : receiver -> M B),
             (forall w1, k (Receiver (receiver_p r) true) w1 = k' (Receiver (receiver_p r) true) w1) ->
             (let* r' := set_ready r in k r') w = (let* r' := set_ready r in k' r') w).
  { intros B k k' Hk. unfold bind. destruct (set_ready r w) as [r' w1|f] eqn:E; [|reflexivity].
    unfold set_ready, bind, ret in E.
    destruct (receiver_p r) as [p|]; [|injection E as <- <-; apply Hk].
    destruct (when (negb (receiver_ready r)) (remove_receiver p) w) as [[] w0|f];
      [injection E as <- <-; apply Hk|discriminate]. }
  split; [|split; [|split; [|split]]].
  - unfold sender_destroy at 2, bind at 2.
    transitivity ((let* s' := sender_close s in ret tt) w); [apply Hs; reflexivity|].
    unfold sender_close. rewrite !bind_bind. unfold bind at 1.
    destruct (lock s w) as [[p|] w1|f]; [| |reflexivity].
    + rewrite !bind_bind. unfold bind at 1. destruct (remove_sender p w1) as [[] w2|f]; reflexivity.
    + reflexivity.
  - transitivity ((let* s' := sender_close s in ret (Sender None)) w); [apply Hs; reflexivity|].
    unfold bind. destruct (sender_close s w) as [s' w1|f] eqn:E; [|reflexivity].
    unfold sender_close, bind, ret in E.
    destruct (lock s w) as [[p|] w0|f]; [|injection E as <- <-; reflexivity|discriminate].
    destruct (remove_sender p w0) as [[] w2|f]; [injection E as <- <-; reflexivity|discriminate].
  - apply (Hs _ (fun s' => sender_call s' v) (fun _ => ret tt)). reflexivity.
  - transitivity ((let* r' := set_ready r in ret (Receiver (receiver_p r) true)) w).
    + apply (Hr _ (fun r' => set_ready r')). intros w1. unfold set_ready.
      cbn [receiver_p receiver_ready negb when]. destruct (receiver_p r); reflexivity.
    + unfold bind. destruct (set_ready r w) as [r' w1|f] eqn:E; [|reflexivity].
      unfold set_ready, bind, ret in E.
      destruct (receiver_p r) as [p|]; [|injection E as <- <-; reflexivity].
      destruct (when (negb (receiver_ready r)) (remove_receiver p) w) as [[] w0|f];
        [injection E as <- <-; reflexivity|discriminate].
  - unfold set_ready, receiver_destroy.
    destruct r as [[p|] b]; cbn [receiver_p receiver_ready]; [|reflexivity].
    rewrite !bind_bind. unfold bind at 1 4.
    destruct (when (negb b) (remove_receiver p) w) as [[] w1|f]; reflexivity.
Qed.

(** *** The end of the last shared pointer *)

(** what the last owner leaves: the object erased, and whatever its members
    release or destroy *)
Lemma last_owner_steps fuel p sp w w' :
  heap w !! p = Some sp ->
  (use_count sp <= 1)%nat ->
  release fuel p w = Ok tt w' ->
  exists w2,
    match _upstream sp with
    | Some u => match fuel with S fuel' => release fuel' u | O => fail Out_of_fuel end
    | None => ret tt
    end {| heap := delete p (heap w); next_pid := next_pid w;
           tasks := tasks w; trace := trace w |} = Ok tt w2
    /\ same_shape {| heap := delete p (heap w); next_pid := next_pid w;
                     tasks := tasks w; trace := trace w |} w2
    /\ same_shape w2 w'.
Proof.
  intros Hp Huse Hrun.
  assert (Hbody : (erase p ;;
                   match _upstream sp with
                   | Some u => match fuel with S fuel' => release fuel' u | O => fail Out_of_fuel end
                   | None => ret tt
                   end ;;
                   foldr (fun e k => sender_destroy e ;; k) (ret tt) (_downstream sp)) w = Ok tt w').
  { destruct fuel; cbn [release] in Hrun; rewrite (bind_load _ _ _ _ Hp) in Hrun;
      destruct (use_count sp) as [|[|n]]; try lia; exact Hrun. }
  unfold bind at 1, erase in Hbody.
  apply bind_inv in Hbody as ([] & w2 & Hup & Hrest).
  exists w2. split; [exact Hup|]. split; [|eapply destroy_entries_shape; exact Hrest].
  destruct (_upstream sp) as [u|].
  - destruct fuel; [discriminate|]. eapply release_shape. exact Hup.
  - injection Hup as <-. apply same_shape_refl.
Qed.

Lemma last_owner_gone fuel p sp w w' :
  heap w !! p = Some sp ->
  (use_count sp <= 1)%nat ->
  release fuel p w = Ok tt w' ->
  heap w' !! p = None.
Proof.
  intros Hp Huse Hrun.
  destruct (last_owner_steps fuel p sp w w' Hp Huse Hrun) as (w2 & _ & [H1 _] & [H2 _]).
  destruct (heap w' !! p) as [sp'|] eqn:Hp'; [|reflexivity].
  destruct (H2 _ _ Hp') as (sp2 & Hp2 & _). destruct (H1 _ _ Hp2) as (sp1 & Hp1 & _).
  cbn [heap] in Hp1. rewrite lookup_delete_eq in Hp1. discriminate.
Qed.

(** X11.  Dropping a shared pointer to a process creates no object.  If
    other owners remain, only [use_count] changes.  If it was the last one,
    the process is destroyed: every sender for it has expired, so calling or
    destroying one and running a closure scheduled for it do nothing; and
    an upstream process that this one alone kept alive is destroyed with
    it. *)
Theorem last_owner_destroys_process fuel p sp w w' :
  heap w !! p = Some sp ->
  release fuel p w = Ok tt w' ->
  (forall q sq', heap w' !! q = Some sq' -> exists sq, heap w !! q = Some sq)
  /\ ((2 <= use_count sp)%nat ->
      w' = {| heap := <[p := set_use_count (pred (use_count sp)) sp]> (heap w);
              next_pid := next_pid w; tasks := tasks w; trace := trace w |})
  /\ ((use_count sp <= 1)%nat ->
      heap w' !! p = None
      /\ (forall v : V, sender_call (Sender (Some p)) v w' = Ok tt w')
      /\ sender_destroy (Sender (Some p)) w' = Ok tt w'
      /\ task p w' = Ok tt w'
      /\ (forall u su,
            _upstream sp = Some u -> heap w !! u = Some su -> (use_count su <= 1)%nat ->
            heap w' !! u = None)).
Proof.
  intros Hp Hrun. split; [|split].
  - intros q sq' Hq. destruct (release_shape fuel p w w' Hrun) as [Hobj _].
    destruct (Hobj _ _ Hq) as (sq & Hsq & _). eauto.
  - intros Huse. destruct fuel; cbn [release] in Hrun; rewrite (bind_load _ _ _ _ Hp) in Hrun;
      destruct (use_count sp) as [|[|n]]; try lia; injection Hrun as <-; reflexivity.
  - intros Huse. pose proof (last_owner_gone fuel p sp w w' Hp Huse Hrun) as Hgone.
    split; [exact Hgone|].
    split; [intros v; unfold sender_call; rewrite bind_lock_expired by exact Hgone; reflexivity|].
    split; [unfold sender_destroy; rewrite bind_lock_expired by exact Hgone; reflexivity|].
    split; [unfold task; rewrite bind_lock_expired by exact Hgone; reflexivity|].
    intros u su Hu Hsu Huse'.
    destruct (last_owner_steps fuel p sp w w' Hp Huse Hrun) as (w2 & Hup & _ & [H2 _]).
    rewrite Hu in Hup. destruct fuel as [|fuel]; [discriminate|].
    assert (Hne : u <> p).
    { intros ->. cbn [release] in Hup. destruct fuel; cbn [release] in Hup;
        unfold bind, load in Hup; cbn [heap] in Hup; rewrite lookup_delete_eq in Hup; discriminate. }
    assert (Hu1 : heap {| heap := delete p (heap w); next_pid := next_pid w;
                          tasks := tasks w; trace := trace w |} !! u = Some su).
    { cbn [heap]. rewrite lookup_delete_ne by congruence. exact Hsu. }
    pose proof (last_owner_gone fuel u su _ w2 Hu1 Huse' Hup) as Hgone2.
    destruct (heap w' !! u) as [su'|] eqn:Hu'; [|reflexivity].
    destruct (H2 _ _ Hu') as (su2 & Hu2 & _). congruence.
Qed.

(** *** A count that no destructor takes back *)

Lemma uncounted_perform a (c c' : concurrent) :
  uncounted c -> perform a c = Some c' -> uncounted c' /\ c_closes c' = c_closes c.
Proof.
  destruct c as [sp n closing closes]. unfold uncounted.
  cbn [c_object c_senders c_closing c_closes].
  intros (Hcount & -> & Hcq & Hfin) Hperform.
  destruct a; cbn [perform c_object c_senders c_closing c_closes with_object] in Hperform.
  all: repeat match type of Hperform with
       | context [bool_decide ?P] => destruct (bool_decide_reflect P); cbn [andb] in Hperform
       end.
  all: try discriminate Hperform.
  all: try (injection Hperform as <-; cbn [c_object c_senders c_closing c_closes with_object]).
  - (* Sender_call *)
    destruct sp; cbn in *. intuition (try lia; auto).
  - (* Sender_copy *)
    rewrite size_incr_small by lia.
    destruct sp; cbn in *. intuition (try lia; auto).
  - (* Sender_end *)
    rewrite size_decr_pos by lia.
    destruct sp; cbn in *.
    destruct (Z.eqb_spec (_sender_count0 - 1) 0) as [E|E]; [lia|]. intuition (try lia; auto).
  - (* Sender_overwritten *)
    intuition (try lia; auto).
  - (* Receiver_copy *)
    rewrite size_incr_small by lia.
    destruct sp; cbn in *. intuition (try lia; auto).
  - (* Receiver_count *)
    destruct sp; cbn in *. intuition (try lia; auto).
  - (* Remove_receiver_block *)
    destruct sp; cbn in *. intuition (try lia; auto).
  - (* Cts_block *)
    destruct (cts_locked sp) as [[sp' ?]|] eqn:Hcts; [|discriminate].
    injection Hperform as <-. cbn [c_object c_senders c_closing c_closes with_object].
    assert (Hsame : _sender_count sp' = _sender_count sp
                    /\ _process_close_queue sp' = _process_close_queue sp
                    /\ _process_final sp' = _process_final sp).
    { unfold cts_locked in Hcts.
      repeat match type of Hcts with
             | context [if ?b then _ else _] => destruct b
             end; try discriminate; injection Hcts as <- <-; destruct sp; cbn; auto. }
    destruct Hsame as (-> & -> & ->). auto.
  - (* Dequeue_block *)
    unfold dequeue_locked in Hperform. rewrite Hcq in Hperform.
    destruct (_process_message_queue sp) as [|m rest] eqn:Hq;
      injection Hperform as <-; cbn [c_object c_senders c_closing c_closes andb];
      destruct sp; cbn in *; intuition (try lia; auto).
  - (* Task_done_block *)
    unfold task_done_locked in Hperform.
    destruct (_ && _); [discriminate|]. injection Hperform as <-.
    destruct sp; cbn in *. intuition (try lia; auto).
  - (* Suspend *)
    destruct sp; cbn in *. intuition (try lia; auto).
  - (* Downstream *)
    destruct sp; cbn in *. intuition (try lia; auto).
  - (* User *)
    destruct sp; cbn in *. intuition (try lia; auto).
Qed.

Lemma uncounted_perform_all l (c c' : concurrent) :
  uncounted c -> perform_all l c = Some c' -> uncounted c' /\ c_closes c' = c_closes c.
Proof.
  revert c. induction l as [|a l IH]; intros c Hc Hrun; simpl in Hrun.
  - injection Hrun as <-. auto.
  - destruct (perform a c) as [c1|] eqn:Ha; [|discriminate].
    destruct (uncounted_perform a c c1 Hc Ha) as [Hc1 Hk1].
    destruct (IH c1 Hc1 Hrun) as [Hc' Hk']. split; [exact Hc'|congruence].
Qed.

(** X12.  The copy constructor of [receiver] adds to [_sender_count], and
    the defaulted move assignment of [sender] drops a handle without
    [remove_sender].  Once either has happened to a process that has a
    sender alive, [_sender_count] stays above the number of senders under
    every later interleaving: the process is never told to close, never
    becomes final and [close()] is never called, also after every sender
    is gone. *)
Theorem uncounted_sender_never_closes (T : process) (f : St) up
    (l0 l : list (@access V St)) (a : @access V St) (c0 c1 c' : concurrent) :
  perform_all l0 (created T f up) = Some c0 ->
  (1 <= c_senders c0)%nat ->
  a = Receiver_copy \/ a = Sender_overwritten ->
  perform a c0 = Some c1 ->
  perform_all l c1 = Some c' ->
  Z.of_nat (c_senders c') < _sender_count (c_object c')
  /\ c_closing c' = false
  /\ _process_close_queue (c_object c') = false
  /\ _process_final (c_object c') = false
  /\ c_closes c' = 0%nat.
Proof.
  intros Hrun0 Hlive Ha Hstep Hrun.
  pose proof (close_phases_reachable l0 _ c0 (close_phases_created T f up) Hrun0)
    as [Hcount Hphase].
  destruct Hphase as [(Hcl & Hcq & Hfin & Hk)|[(? & _)|[(? & _)|(? & _)]]]; try lia.
  assert (H1 : uncounted c1 /\ c_closes c1 = 0%nat).
  { destruct c0 as [sp n closing closes]. cbn [c_object c_senders c_closing c_closes] in *.
    subst closing closes.
    destruct Ha as [-> | ->];
      cbn [perform c_object c_senders c_closing c_closes with_object] in Hstep;
      repeat match type of Hstep with
             | context [bool_decide ?P] => destruct (bool_decide_reflect P); cbn [andb] in Hstep
             end; try discriminate Hstep; injection Hstep as <-;
      unfold uncounted; cbn [c_object c_senders c_closing c_closes with_object].
    - rewrite size_incr_small by lia. destruct sp; cbn in *. intuition (try lia; auto).
    - intuition (try lia; auto). }
  destruct H1 as [Hun Hk1].
  destruct (uncounted_perform_all l c1 c' Hun Hrun) as [(Hc' & Hcl' & Hcq' & Hfin') Hk'].
  repeat split; try assumption; lia.
Qed.

(** *** [function_process] *)

Lemma function_process_keeps_f {Arg R : Type} (l : list (@function_process.call Arg))
    (x : @function_process.t Arg R) :
  function_process._f (function_process.calls l x) = function_process._f x.
Proof.
  unfold function_process.calls. revert x.
  induction l as [|c l IH]; intros x; cbn [foldl]; [reflexivity|].
  rewrite IH. destruct c; reflexivity.
Qed.

(** X9.  A [function_process] made from [f], after any calls of [await]
    and [yield]: [await(a)] puts it in state [yield], the [yield()] that
    follows returns [f a] and puts it back in state [await], and a second
    [yield()] returns [f a] again; after a [yield()] the state is [await];
    it is in state [yield] only if the last call was an [await]; and if
    [await] was never called, [yield()] finds [_bound] empty and throws. *)
Theorem function_process_protocol {Arg R : Type} (f : Arg -> R)
    (l : list (@function_process.call Arg)) :
  let x := function_process.calls l (function_process.make f) in
  (forall a,
      let y := function_process.await x a in
      function_process.state y = yield
      /\ (function_process.yield y).2 = Some (f a)
      /\ function_process.state (function_process.yield y).1 = await
      /\ (function_process.yield (function_process.yield y).1).2 = Some (f a))
  /\ function_process.state (function_process.yield x).1 = await
  /\ (function_process.state x = yield ->
      exists l' a, l = l' ++ [function_process.Await a])
  /\ ((forall a, function_process.Await a ∉ l) ->
      function_process.state x = await /\ (function_process.yield x).2 = None).
Proof.
  intros x. split; [|split; [|split]].
  - intros a y. unfold y, function_process.await, function_process.yield, function_process.state.
    cbn. unfold x. rewrite function_process_keeps_f. auto.
  - reflexivity.
  - unfold x. clear x. destruct l as [|c l _] using rev_ind; [discriminate|].
    unfold function_process.calls. rewrite foldl_app. cbn [foldl].
    destruct c as [a|]; [eauto|discriminate].
  - unfold x. clear x. induction l as [|c l IH] using rev_ind; intros Hno; [auto|].
    unfold function_process.calls. rewrite foldl_app. cbn [foldl].
    destruct c as [a|].
    + exfalso. apply (Hno a). apply elem_of_app. right. apply list_elem_of_singleton. reflexivity.
    + destruct IH as [_ Hb].
      { intros a Ha. apply (Hno a). apply elem_of_app. left. exact Ha. }
      unfold function_process.yield in *. cbn in *.
      split; [reflexivity|].
      destruct (function_process._bound _); [discriminate|reflexivity].
Qed.

(** *** [for_each_n] *)

(** X10.  [for_each_n(p, n, f)] calls [f] on the first [n] elements, in
    order, stopping at the first call that aborts, and on nothing else; with
    [n] above the number of elements it calls [f] on all of them and then
    walks past the end. *)
Theorem for_each_n_visits_first_n {A} (l : list A) (n : nat) (f : A -> M unit) w :
  ((n <= length l)%nat ->
   for_each_n l n f w = foldr (fun x k => f x ;; k) (ret tt) (take n l) w)
  /\ ((length l < n)%nat ->
      for_each_n l n f w
      = (foldr (fun x k => f x ;; k) (ret tt) l ;; fail Past_the_end) w).
Proof.
  revert l w. induction n as [|n IH]; intros l w.
  - split; [reflexivity|lia].
  - destruct l as [|x l]; cbn [for_each_n length take foldr].
    + split; [lia|reflexivity].
    + split; intros Hn.
      * unfold bind. destruct (f x w) as [[] w1|]; [|reflexivity].
        apply (proj1 (IH l w1)). lia.
      * rewrite bind_bind. unfold bind at 1 2. destruct (f x w) as [[] w1|]; [|reflexivity].
        apply (proj2 (IH l w1)). lia.
Qed.

(** *** The dequeue loop of [step] *)

(** [cts] on any process leaves the user process, the queue and the close
    flags of every process as they are *)
Lemma cts_keeps_user u p w w' sp :
  cts u w = Ok tt w' ->
  heap w !! p = Some sp ->
  exists sp', heap w' !! p = Some sp'
    /\ _process_message_queue sp' = _process_message_queue sp
    /\ _process sp' = _process sp /\ process_T sp' = process_T sp
    /\ _process_close_queue sp' = _process_close_queue sp
    /\ _upstream sp' = _upstream sp.
Proof.
  intros Hrun Hp. unfold cts in Hrun. rewrite bind_emit in Hrun.
  apply bind_load_inv in Hrun as (su & Hu & Hrun). cbn [heap] in Hu.
  destruct (cts_locked su) as [[su' b]|] eqn:Hcts; [|discriminate].
  rewrite bind_store in Hrun. apply when_run_inv in Hrun as (-> & _). cbn [heap].
  destruct (decide (p = u)) as [->|Hne].
  - rewrite lookup_insert_eq. exists su'. split; [reflexivity|].
    assert (su = sp) as -> by congruence.
    unfold cts_locked in Hcts.
    repeat match type of Hcts with
           | context [if ?c then _ else _] => destruct c
           end; try discriminate; injection Hcts as <- <-; repeat split; reflexivity.
  - rewrite lookup_insert_ne by congruence. eauto 10.
Qed.

Lemma dequeue_nonempty await_ p sp (m : V) rest w b w' :
  heap w !! p = Some sp ->
  _process_message_queue sp = m :: rest ->
  dequeue await_ p w = Ok b w' ->
  b = true
  /\ exists sp', heap w' !! p = Some sp'
       /\ _process_message_queue sp' = rest
       /\ _process sp' = await_ (_process sp) m
       /\ process_T sp' = process_T sp
       /\ _process_close_queue sp' = _process_close_queue sp
       /\ _upstream sp' = _upstream sp.
Proof.
  intros Hp Hq Hrun. unfold dequeue in Hrun. rewrite (bind_load _ _ _ _ Hp) in Hrun.
  unfold dequeue_locked in Hrun. rewrite Hq in Hrun. rewrite bind_store in Hrun.
  apply bind_inv in Hrun as ([] & w1 & Hcts & Hrun).
  assert (H1 : exists sp1, heap w1 !! p = Some sp1
                 /\ _process_message_queue sp1 = rest
                 /\ _process sp1 = _process sp /\ process_T sp1 = process_T sp
                 /\ _process_close_queue sp1 = _process_close_queue sp
                 /\ _upstream sp1 = _upstream sp).
  { unfold upstream_cts in Hcts.
    erewrite bind_load in Hcts by (cbn [heap]; apply lookup_insert_eq).
    cbn [_upstream set_process_message_queue] in Hcts.
    destruct (_upstream sp) as [u|] eqn:Hu;
      [destruct (Nat.eqb (length rest) 0)|]; cbn [when] in Hcts.
    - rewrite bind_emit in Hcts.
      eapply (cts_keeps_user u p) in Hcts as (sp1 & H1 & H2 & H3 & H4 & H5 & H6);
        [|cbn [heap]; apply lookup_insert_eq].
      exists sp1. rewrite H2, H3, H4, H5, H6. cbn. rewrite Hu. auto 10.
    - injection Hcts as <-. cbn [heap]. rewrite lookup_insert_eq.
      eexists. split; [reflexivity|]. cbn. rewrite Hu. auto 10.
    - injection Hcts as <-. cbn [heap]. rewrite lookup_insert_eq.
      eexists. split; [reflexivity|]. cbn. rewrite Hu. auto 10. }
  destruct H1 as (sp1 & Hp1 & Hq1 & Hx1 & HT1 & Hc1 & Hu1).
  rewrite (bind_load _ _ _ _ Hp1), bind_store, bind_emit in Hrun. injection Hrun as <- <-.
  split; [reflexivity|].
  cbn [heap]. rewrite lookup_insert_eq. eexists. split; [reflexivity|].
  cbn. rewrite Hx1. auto 10.
Qed.

Lemma dequeue_empty await_ p sp w b w' :
  heap w !! p = Some sp ->
  _process_message_queue sp = [] ->
  dequeue await_ p w = Ok b w' ->
  b = false
  /\ exists sp', heap w' !! p = Some sp'
       /\ _process_message_queue sp' = []
       /\ process_T sp' = process_T sp
       /\ (_process_close_queue sp = false -> _process sp' = _process sp).
Proof.
  intros Hp Hq Hrun. unfold dequeue in Hrun. rewrite (bind_load _ _ _ _ Hp) in Hrun.
  unfold dequeue_locked in Hrun. rewrite Hq in Hrun. rewrite bind_store in Hrun.
  unfold upstream_cts in Hrun. rewrite bind_bind in Hrun.
  erewrite bind_load in Hrun by (cbn [heap]; apply lookup_insert_eq).
  assert (Hskip : forall (k : unit -> M bool) w0,
             bind match _upstream (set_process_final (_process_close_queue sp)
                                     (set_process_close_queue false sp)) with
                  | Some u => when false (emit (EvCtsUpstream p u) ;; cts u)
                  | None => ret tt
                  end k w0 = k tt w0).
  { intros k w0. destruct (_upstream _); reflexivity. }
  rewrite Hskip in Hrun. clear Hskip.
  destruct (_process_close_queue sp) eqn:Hcq; cbn [when] in Hrun.
  - unfold process_close in Hrun. rewrite bind_bind in Hrun.
    erewrite bind_load in Hrun by (cbn [heap]; apply lookup_insert_eq).
    cbn [process_T set_process_final set_process_close_queue] in Hrun.
    destruct (t_close (process_T sp)) as [close|].
    + repeat first [rewrite bind_bind in Hrun | rewrite bind_store in Hrun
                   | rewrite bind_emit in Hrun | rewrite bind_ret in Hrun].
      injection Hrun as <- <-. split; [reflexivity|].
      cbn [heap]. rewrite lookup_insert_eq. eexists. split; [reflexivity|].
      cbn. rewrite Hq. split; [reflexivity|]. split; [reflexivity|discriminate].
    + rewrite bind_ret in Hrun. injection Hrun as <- <-. split; [reflexivity|].
      cbn [heap]. rewrite lookup_insert_eq. eexists. split; [reflexivity|].
      cbn. rewrite Hq. split; [reflexivity|]. split; [reflexivity|discriminate].
  - rewrite bind_ret in Hrun. injection Hrun as <- <-. split; [reflexivity|].
    cbn [heap]. rewrite lookup_insert_eq. eexists. split; [reflexivity|].
    cbn. rewrite Hq. repeat split; reflexivity.
Qed.

(** without an upstream, [dequeue] returns *)
Lemma dequeue_head_returns await_ p sp w :
  heap w !! p = Some sp -> _upstream sp = None ->
  exists b w', dequeue await_ p w = Ok b w'.
Proof.
  intros Hp Hu. unfold dequeue. rewrite (bind_load _ _ _ _ Hp).
  unfold dequeue_locked.
  destruct (_process_message_queue sp) as [|m rest]; rewrite bind_store;
    unfold upstream_cts; rewrite bind_bind;
    (erewrite bind_load by (cbn [heap]; apply lookup_insert_eq)); cbn; rewrite Hu.
  - rewrite bind_ret. destruct (_process_close_queue sp); cbn [when].
    + unfold process_close. rewrite bind_bind.
      erewrite bind_load by (cbn [heap]; apply lookup_insert_eq). cbn.
      destruct (t_close (process_T sp)); eexists _, _; reflexivity.
    + eexists _, _; reflexivity.
  - rewrite bind_ret. erewrite bind_load by (cbn [heap]; apply lookup_insert_eq).
    eexists _, _; reflexivity.
Qed.

(** X13.  The loop of [step] for a process with [yield] takes messages off
    the front of the queue, in order, and hands each to [await]; it takes
    one only while the process does not report [yield], and it stops when
    the process reports [yield] or the queue is empty.  Unless a close was
    pending, the process is then what the [await] calls made it.  For a
    process without an upstream the loop returns, given one round more than
    there are messages. *)
Theorem step_loop_awaits_until_yield fuel await_ p sp w :
  heap w !! p = Some sp ->
  (forall w',
      step_loop fuel await_ p w = Ok tt w' ->
      exists sp' taken,
        heap w' !! p = Some sp'
        /\ _process_message_queue sp = taken ++ _process_message_queue sp'
        /\ process_T sp' = process_T sp
        /\ (forall k, (k < length taken)%nat ->
              get_process_state (process_T sp) (foldl await_ (_process sp) (take k taken))
              <> yield)
        /\ (get_process_state (process_T sp') (_process sp') = yield
            \/ _process_message_queue sp' = [])
        /\ (_process_close_queue sp = false ->
            _process sp' = foldl await_ (_process sp) taken))
  /\ (_upstream sp = None ->
      (length (_process_message_queue sp) < fuel)%nat ->
      exists w', step_loop fuel await_ p w = Ok tt w').
Proof.
  revert sp w. induction fuel as [|fuel IH]; intros sp w Hp.
  { split; [intros w' Hrun; discriminate|intros _ Hlen; lia]. }
  cbn [step_loop]. rewrite (bind_load _ _ _ _ Hp).
  destruct (process_state_eqb (get_process_state (process_T sp) (_process sp)) yield) eqn:Hst.
  { split.
    - intros w' Hrun. injection Hrun as <-. exists sp, []. cbn [app length foldl].
      split; [exact Hp|]. split; [reflexivity|]. split; [reflexivity|].
      split; [intros k Hk; lia|]. split; [|reflexivity].
      left. destruct (get_process_state _ _); try discriminate. reflexivity.
    - intros _ _. eexists. reflexivity. }
  assert (Hnot : get_process_state (process_T sp) (_process sp) <> yield).
  { intros E. rewrite E in Hst. discriminate. }
  split.
  - intros w' Hrun. apply bind_inv in Hrun as (b & w1 & Hd & Hrun).
    destruct (_process_message_queue sp) as [|m rest] eqn:Hq.
    + destruct (dequeue_empty _ _ _ _ _ _ Hp Hq Hd) as (-> & sp1 & Hp1 & Hq1 & HT1 & Hx1).
      injection Hrun as <-. exists sp1, []. cbn [app length foldl]. rewrite Hq1.
      split; [exact Hp1|]. split; [reflexivity|]. split; [exact HT1|].
      split; [intros k Hk; lia|]. split; [right; reflexivity|exact Hx1].
    + destruct (dequeue_nonempty _ _ _ _ _ _ _ _ Hp Hq Hd)
        as (-> & sp1 & Hp1 & Hq1 & Hx1 & HT1 & Hc1 & Hu1).
      destruct (proj1 (IH sp1 w1 Hp1) w' Hrun) as (sp' & taken & Hp' & Hq' & HT' & Hk' & Hend & Hx').
      exists sp', (m :: taken). rewrite Hq1 in Hq'. cbn [app length foldl].
      split; [exact Hp'|]. split; [rewrite Hq'; reflexivity|]. split; [congruence|].
      split; [|split; [exact Hend|]].
      * intros [|k] Hk; cbn [take foldl]; [exact Hnot|].
        rewrite <- Hx1, <- HT1. apply Hk'. lia.
      * intros Hcq. rewrite <- Hx1. apply Hx'. congruence.
  - intros Hu Hlen.
    destruct (dequeue_head_returns await_ p sp w Hp Hu) as (b & w1 & Hd).
    unfold bind. rewrite Hd.
    destruct (_process_message_queue sp) as [|m rest] eqn:Hq.
    + destruct (dequeue_empty _ _ _ _ _ _ Hp Hq Hd) as (-> & _). eexists. reflexivity.
    + destruct (dequeue_nonempty _ _ _ _ _ _ _ _ Hp Hq Hd)
        as (-> & sp1 & Hp1 & Hq1 & _ & _ & _ & Hu1).
      apply (proj2 (IH sp1 w1 Hp1)); [congruence|]. rewrite Hq1. cbn [length] in Hlen. lia.
Qed.

(** *** Flow control: no assertion is ever tripped *)

Lemma holding_length w (l : list sender) : (holding w l <= length l)%nat.
Proof. induction l as [|e l IH]; cbn [holding length]; [lia|]. destruct (holds w e); lia. Qed.

Lemma holding_app w (l l' : list sender) : holding w (l ++ l') = (holding w l + holding w l')%nat.
Proof. induction l as [|e l IH]; cbn [holding app]; [reflexivity|]. rewrite IH. lia. Qed.

Lemma holding_ext w w' (l : list sender) :
  (forall t, Sender (Some t) ∈ l -> nonempty w' t = nonempty w t) ->
  holding w' l = holding w l.
Proof.
  induction l as [|e l IH]; intros Hsame; cbn [holding]; [reflexivity|].
  rewrite IH by (intros t Ht; apply Hsame; right; exact Ht).
  f_equal. unfold holds. destruct e as [[t|]]; cbn [sender_p]; [|reflexivity].
  rewrite Hsame by left. reflexivity.
Qed.

Lemma holding_le w w' (l : list sender) :
  (forall t, Sender (Some t) ∈ l -> nonempty w' t = true -> nonempty w t = true) ->
  (holding w' l <= holding w l)%nat.
Proof.
  induction l as [|e l IH]; intros Hle; cbn [holding]; [lia|].
  specialize (IH (fun t Ht => Hle t (list_elem_of_further _ _ _ Ht))).
  unfold holds. destruct e as [[t|]]; cbn [sender_p]; [|lia].
  destruct (nonempty w' t) eqn:E; [|destruct (nonempty w t); lia].
  rewrite (Hle t ltac:(left) E). lia.
Qed.

(** one process more holds a message *)
Lemma holding_one_more w w' p (l : list sender) :
  NoDup l ->
  (forall t, t <> p -> nonempty w' t = nonempty w t) ->
  (holding w' l <= holding w l + 1)%nat.
Proof.
  induction l as [|e l IH]; intros Hnd Hsame; cbn [holding]; [lia|].
  apply NoDup_cons in Hnd as [Hnin Hnd].
  destruct e as [[t|]]; [destruct (decide (t = p)) as [->|Hne]|].
  - assert (Hrest : holding w' l = holding w l).
    { apply holding_ext. intros t Ht. apply Hsame. intros ->. contradiction. }
    rewrite Hrest. destruct (holds w' _), (holds w _); lia.
  - specialize (IH Hnd Hsame). unfold holds at 1 2. cbn [sender_p].
    rewrite (Hsame t Hne). lia.
  - specialize (IH Hnd Hsame). unfold holds at 1 2. cbn [sender_p]. lia.
Qed.

(** one process less holds a message *)
Lemma holding_one_less w w' p (l : list sender) :
  Sender (Some p) ∈ l ->
  nonempty w p = true -> nonempty w' p = false ->
  (forall t, t <> p -> nonempty w' t = nonempty w t) ->
  (holding w' l + 1 <= holding w l)%nat.
Proof.
  induction l as [|e l IH]; intros Hin Hw Hw' Hsame; [inversion Hin|].
  cbn [holding].
  assert (Hle : (holding w' l <= holding w l)%nat).
  { apply holding_le. intros t _ Ht. destruct (decide (t = p)) as [->|Hne]; [exact Hw|].
    rewrite <- Hsame by exact Hne. exact Ht. }
  destruct e as [[t|]]; [destruct (decide (t = p)) as [->|Hne]|].
  - unfold holds at 1 2. cbn [sender_p]. rewrite Hw, Hw'. lia.
  - apply elem_of_cons in Hin as [Heq|Hin]; [congruence|].
    specialize (IH Hin Hw Hw' Hsame). unfold holds at 1 2. cbn [sender_p].
    rewrite (Hsame t Hne). lia.
  - apply elem_of_cons in Hin as [Heq|Hin]; [congruence|].
    specialize (IH Hin Hw Hw' Hsame). unfold holds at 1 2. cbn [sender_p]. lia.
Qed.

Lemma holding_none w (l : list sender) e :
  holding w l = 0%nat -> e ∈ l -> holds w e = false.
Proof.
  induction l as [|e' l IH]; intros Hz Hin; [inversion Hin|].
  cbn [holding] in Hz. apply elem_of_cons in Hin as [->|Hin].
  - destruct (holds w e'); [lia|reflexivity].
  - apply IH; [lia|exact Hin].
Qed.

Lemma holding_some w (l : list sender) e :
  e ∈ l -> holds w e = true -> (1 <= holding w l)%nat.
Proof.
  intros Hin He. destruct (holding w l) eqn:Hz; [|lia].
  rewrite (holding_none w l e Hz Hin) in He. discriminate.
Qed.

Lemma holding_heap w w' (l : list sender) : heap w' = heap w -> holding w' l = holding w l.
Proof.
  intros Hh. apply holding_ext. intros t _. unfold nonempty. rewrite Hh. reflexivity.
Qed.

Lemma flow_inv_same w w' :
  heap w' = heap w -> next_pid w' = next_pid w -> tasks w' = tasks w ->
  flow_inv w -> flow_inv w'.
Proof.
  intros Hh Hn Ht [? ? ? ? ? ? ? ? Hwait ? ? ? ?].
  destruct w' as [h n t tr]. cbn [heap next_pid tasks] in Hh, Hn, Ht. subst h n t.
  split; cbn [heap next_pid tasks]; try assumption.
  intros p sp Hp. erewrite (holding_heap w) by reflexivity. apply (Hwait p). exact Hp.
Qed.

(** an entry of the deque of [p] does not lead to [p] *)
Lemma not_own_target w p sp :
  flow_inv w -> heap w !! p = Some sp -> Sender (Some p) ∉ _downstream sp.
Proof.
  intros Hinv Hp Hin.
  pose proof (fl_down w Hinv p sp p sp Hp Hin Hp) as Hu.
  pose proof (fl_older w Hinv p sp p Hp Hu). lia.
Qed.

(** the object at [p] is replaced by one with the same links *)
Lemma flow_update w w' p sp sp' :
  heap w' = <[p := sp']> (heap w) -> next_pid w' = next_pid w -> tasks w' = tasks w ->
  flow_inv w ->
  heap w !! p = Some sp ->
  _upstream sp' = _upstream sp -> _downstream sp' = _downstream sp ->
  (_process_running sp' = false -> _process_suspend_count sp' = 0) ->
  (p ∈ tasks w -> _process_running sp' = true /\ _process_suspend_count sp' = 0) ->
  (Z.of_nat (holding w (_downstream sp)) <= _process_suspend_count sp' < size_modulus) ->
  (forall u, _upstream sp = Some u -> (length (_process_message_queue sp') <= 1)%nat) ->
  (forall u su, _upstream sp = Some u -> heap w !! u = Some su ->
      _process_message_queue sp' <> [] ->
      Sender (Some p) ∈ _downstream su
      /\ (_process_message_queue sp = [] ->
          Z.of_nat (holding w (_downstream su)) + 1 <= _process_suspend_count su)) ->
  flow_inv w'.
Proof.
  intros Hh Hn Ht Hinv Hp Hup Hdown Hidle Htask Hwait Hone Hlisted.
  destruct w' as [h n t tr]. cbn [heap next_pid tasks] in Hh, Hn, Ht. subst n t.
  set (w' := {| heap := h; next_pid := next_pid w; tasks := tasks w; trace := tr |}).
  change h with (heap w') in Hh.
  assert (Hold : forall x sx', heap w' !! x = Some sx' ->
             exists sx, heap w !! x = Some sx
               /\ _upstream sx' = _upstream sx /\ _downstream sx' = _downstream sx
               /\ ((x = p /\ sx' = sp' /\ sx = sp) \/ (x <> p /\ sx' = sx))).
  { intros x sx' Hx. rewrite Hh in Hx. destruct (decide (x = p)) as [->|Hne].
    - rewrite lookup_insert_eq in Hx. injection Hx as <-. exists sp. auto 10.
    - rewrite lookup_insert_ne in Hx by congruence. exists sx'. auto 10. }
  assert (Hfar : forall t, t <> p -> nonempty w' t = nonempty w t).
  { intros t Hne. unfold nonempty. rewrite Hh, lookup_insert_ne by congruence. reflexivity. }
  split; cbn [next_pid tasks w'].
  - intros x sx' Hx. destruct (Hold _ _ Hx) as (sx & Hx0 & _). eapply fl_dom; eauto.
  - intros x sx' u Hx Hu. destruct (Hold _ _ Hx) as (sx & Hx0 & Eu & _).
    eapply fl_older; [exact Hinv|exact Hx0|congruence].
  - intros q sq' t Hq Hin. destruct (Hold _ _ Hq) as (sq & Hq0 & _ & Ed & _).
    eapply fl_entry; [exact Hinv|exact Hq0|]. rewrite <- Ed. exact Hin.
  - intros q sq' t st' Hq Hin Ht'.
    destruct (Hold _ _ Hq) as (sq & Hq0 & _ & Ed & _).
    destruct (Hold _ _ Ht') as (st & Ht0 & Eu & _).
    rewrite Eu. eapply fl_down; [exact Hinv|exact Hq0| |exact Ht0]. rewrite <- Ed. exact Hin.
  - intros x sx' Hx Hrun. destruct (Hold _ _ Hx) as (sx & Hx0 & _ & _ & [(-> & -> & ->)|(Hne & ->)]).
    + apply Hidle. exact Hrun.
    + eapply fl_idle; eauto.
  - intros x sx' Hin Hx. destruct (Hold _ _ Hx) as (sx & Hx0 & _ & _ & [(-> & -> & ->)|(Hne & ->)]).
    + apply Htask. exact Hin.
    + eapply fl_task; eauto.
  - apply (fl_once w Hinv).
  - apply (fl_sched w Hinv).
  - intros x sx' Hx. destruct (Hold _ _ Hx) as (sx & Hx0 & _ & Ed & [(-> & -> & ->)|(Hne & ->)]).
    + rewrite Hdown.
      rewrite (holding_ext w w'); [exact Hwait|].
      intros t Hin. apply Hfar. intros ->.
      exact (not_own_target w p sp Hinv Hp Hin).
    + pose proof (fl_wait w Hinv x sx Hx0) as Hw.
      destruct (decide (_upstream sp = Some x)) as [Hu|Hu].
      * destruct (_process_message_queue sp') as [|m' rest'] eqn:Hq'.
        { assert (holding w' (_downstream sx) <= holding w (_downstream sx))%nat; [|lia].
          apply holding_le. intros t _ Hn'. destruct (decide (t = p)) as [->|Hnp].
          - unfold nonempty in Hn'. rewrite Hh, lookup_insert_eq, Hq' in Hn'. discriminate.
          - rewrite <- Hfar by exact Hnp. exact Hn'. }
        destruct (_process_message_queue sp) as [|m rest] eqn:Hq.
        { destruct (Hlisted x sx Hu Hx0 ltac:(discriminate)) as [_ Hroom].
          specialize (Hroom eq_refl).
          pose proof (holding_one_more w w' p (_downstream sx) (fl_nodup w Hinv x sx Hx0) Hfar).
          lia. }
        rewrite (holding_ext w w'); [exact Hw|].
        intros t _. destruct (decide (t = p)) as [->|Hnp]; [|apply Hfar; exact Hnp].
        unfold nonempty. rewrite Hh, lookup_insert_eq, Hp, Hq', Hq. reflexivity.
      * rewrite (holding_ext w w'); [exact Hw|].
        intros t Hin. apply Hfar. intros ->.
        apply Hu. eapply fl_down; eauto.
  - intros s ss' u Hs Hu. destruct (Hold _ _ Hs) as (ss & Hs0 & Eu & _ & [(-> & -> & ->)|(Hne & ->)]).
    + apply (Hone u). congruence.
    + eapply fl_one; eauto.
  - intros s ss' u su' Hs Hu Hu' Hq.
    destruct (Hold _ _ Hu') as (su & Hu0 & _ & Ed & _). rewrite Ed.
    destruct (Hold _ _ Hs) as (ss & Hs0 & Eu & _ & [(-> & -> & ->)|(Hne & ->)]).
    + apply (Hlisted u su); [congruence|exact Hu0|exact Hq].
    + eapply fl_listed; eauto.
  - intros x sx' Hx. destruct (Hold _ _ Hx) as (sx & Hx0 & _ & Ed & _).
    rewrite Ed. eapply fl_nodup; eauto.
  - intros x sx' Hx. destruct (Hold _ _ Hx) as (sx & Hx0 & _ & Ed & _).
    rewrite Ed. eapply fl_short; eauto.
Qed.

(** the same, the queue untouched *)
Lemma flow_update_quiet w w' p sp sp' :
  heap w' = <[p := sp']> (heap w) -> next_pid w' = next_pid w -> tasks w' = tasks w ->
  flow_inv w ->
  heap w !! p = Some sp ->
  _upstream sp' = _upstream sp -> _downstream sp' = _downstream sp ->
  _process_message_queue sp' = _process_message_queue sp ->
  (_process_running sp' = false -> _process_suspend_count sp' = 0) ->
  (p ∈ tasks w -> _process_running sp' = true /\ _process_suspend_count sp' = 0) ->
  (Z.of_nat (holding w (_downstream sp)) <= _process_suspend_count sp' < size_modulus) ->
  flow_inv w'.
Proof.
  intros Hh Hn Ht Hinv Hp Hup Hdown Hq Hidle Htask Hwait.
  eapply (flow_update w w' p sp sp'); eauto.
  - intros u Hu. rewrite Hq. eapply fl_one; eauto.
  - intros u su Hu Hsu Hne. rewrite Hq in Hne. split.
    + eapply fl_listed; eauto.
    + intros Hq0. rewrite Hq0 in Hne. contradiction.
Qed.

(** the same, nothing of the flow control touched *)
Lemma flow_update_same w w' p sp sp' :
  heap w' = <[p := sp']> (heap w) -> next_pid w' = next_pid w -> tasks w' = tasks w ->
  flow_inv w ->
  heap w !! p = Some sp ->
  _upstream sp' = _upstream sp -> _downstream sp' = _downstream sp ->
  _process_message_queue sp' = _process_message_queue sp ->
  _process_running sp' = _process_running sp ->
  _process_suspend_count sp' = _process_suspend_count sp ->
  flow_inv w'.
Proof.
  intros Hh Hn Ht Hinv Hp Hup Hdown Hq Hr Hs.
  eapply (flow_update_quiet w w' p sp sp'); eauto; rewrite ?Hr, ?Hs.
  - eapply fl_idle; eauto.
  - intros Hin. eapply fl_task; eauto.
  - eapply fl_wait; eauto.
Qed.

(** a running process that is not suspended is scheduled *)
Lemma flow_run w w' p sp :
  heap w' = heap w -> next_pid w' = next_pid w -> tasks w' = tasks w ++ [p] ->
  flow_inv w ->
  heap w !! p = Some sp ->
  _process_running sp = true -> _process_suspend_count sp = 0 -> p ∉ tasks w ->
  flow_inv w'.
Proof.
  intros Hh Hn Ht Hinv Hp Hr Hs Hnin.
  destruct Hinv as [Hdom ? ? ? ? Htask Hnd Hsched Hwait ? ? ? ?].
  destruct w' as [h n t tr]. cbn [heap next_pid tasks] in Hh, Hn, Ht. subst h n t.
  split; cbn [heap next_pid tasks]; try assumption.
  - intros x sx Hin Hx. apply elem_of_app in Hin as [Hin|Hin]; [eauto|].
    apply list_elem_of_singleton in Hin as ->.
    assert (sx = sp) as -> by congruence. auto.
  - apply NoDup_app. split; [exact Hnd|]. split; [|apply NoDup_singleton].
    intros x Hx Hx'. apply list_elem_of_singleton in Hx' as ->. contradiction.
  - intros x Hin. apply elem_of_app in Hin as [Hin|Hin]; [auto|].
    apply list_elem_of_singleton in Hin as ->. eapply Hdom. exact Hp.
  - intros x sx Hx. erewrite (holding_heap w) by reflexivity. apply (Hwait x). exact Hx.
Qed.

(** the executor takes a closure: its process is at work *)
Lemma flow_take w w' k p :
  heap w' = heap w -> next_pid w' = next_pid w -> tasks w' = delete k (tasks w) ->
  flow_inv w ->
  tasks w !! k = Some p ->
  flow_inv w' /\ (p ∉ tasks w')
  /\ forall sp, heap w' !! p = Some sp ->
       _process_running sp = true /\ _process_suspend_count sp = 0.
Proof.
  intros Hh Hn Ht Hinv Hk.
  assert (Hin : p ∈ tasks w) by (eapply list_elem_of_lookup_2; exact Hk).
  destruct w' as [h n t tr]. cbn [heap next_pid tasks] in Hh, Hn, Ht. subst h n t.
  cbn [heap next_pid tasks].
  split; [|split].
  - destruct Hinv as [? ? ? ? ? Htask Hnd Hsched Hwait ? ? ? ?].
    split; cbn [heap next_pid tasks]; try assumption.
    + intros x sx Hx. apply Htask. eapply list_elem_of_delete_inv. exact Hx.
    + eapply sublist_NoDup; [exact Hnd|apply sublist_delete].
    + intros x Hx. apply Hsched. eapply list_elem_of_delete_inv. exact Hx.
    + intros x sx Hx. erewrite (holding_heap w) by reflexivity. apply (Hwait x). exact Hx.
  -  pose proof (fl_once w Hinv) as Hnd.
    rewrite <- (take_drop_middle _ _ _ Hk) in Hnd.
    rewrite delete_take_drop.
    apply NoDup_app in Hnd as (_ & Hfront & Hback).
    apply NoDup_cons in Hback as [Hback _].
    intros Hx. apply elem_of_app in Hx as [Hx|Hx]; [|contradiction].
    apply (Hfront p Hx). left.
  - intros sp Hp. eapply fl_task; eauto.
Qed.

(** the rules of [wp] *)
Lemma wp_mono {A} (m : M A) (Q Q' : A -> world -> Prop) w :
  wp m Q w -> (forall a w', Q a w' -> Q' a w') -> wp m Q' w.
Proof. unfold wp. destruct (m w); auto. Qed.

Lemma wp_ret {A} (a : A) (Q : A -> world -> Prop) w : Q a w -> wp (ret a) Q w.
Proof. auto. Qed.

Lemma wp_bind {A B} (m : M A) (k : A -> M B) (Q : B -> world -> Prop) w :
  wp m (fun a w1 => wp (k a) Q w1) w -> wp (bind m k) Q w.
Proof. unfold wp, bind. destruct (m w); auto. Qed.

Lemma wp_seq {A B} (m : M A) (k : A -> M B) (Q1 : A -> world -> Prop)
    (Q : B -> world -> Prop) w :
  wp m Q1 w -> (forall a w1, Q1 a w1 -> wp (k a) Q w1) -> wp (bind m k) Q w.
Proof. intros Hm Hk. apply wp_bind. eapply wp_mono; [exact Hm|exact Hk]. Qed.

Lemma wp_load p (Q : shared_process -> world -> Prop) w :
  (forall sp, heap w !! p = Some sp -> Q sp w) -> wp (load p) Q w.
Proof. intros HQ. unfold wp, load. destruct (heap w !! p); [auto|exact I]. Qed.

Lemma wp_store p sp (Q : unit -> world -> Prop) w :
  Q tt {| heap := <[p := sp]> (heap w); next_pid := next_pid w;
          tasks := tasks w; trace := trace w |} ->
  wp (store p sp) Q w.
Proof. auto. Qed.

Lemma wp_emit e (Q : unit -> world -> Prop) w :
  Q tt {| heap := heap w; next_pid := next_pid w; tasks := tasks w;
          trace := trace w ++ [e] |} ->
  wp (emit e) Q w.
Proof. auto. Qed.

Lemma wp_run p (Q : unit -> world -> Prop) w :
  Q tt {| heap := heap w; next_pid := next_pid w; tasks := tasks w ++ [p];
          trace := trace w |} ->
  wp (run p) Q w.
Proof. auto. Qed.

Lemma wp_when b (m : M unit) (Q : unit -> world -> Prop) w :
  (b = true -> wp m Q w) -> (b = false -> Q tt w) -> wp (when b m) Q w.
Proof. intros Ht Hf. destruct b; cbn [when]; [apply Ht; reflexivity|apply Hf; reflexivity]. Qed.

Lemma wp_lock s (Q : option pid -> world -> Prop) w :
  (forall p sp, sender_p s = Some p -> heap w !! p = Some sp -> Q (Some p) w) ->
  Q None w ->
  wp (lock s) Q w.
Proof.
  intros Hlive Hnone. unfold wp, lock. destruct (sender_p s) as [p|]; [|exact Hnone].
  destruct (heap w !! p) as [sp|] eqn:Hp; [eapply Hlive; eauto|exact Hnone].
Qed.

Lemma wp_ok {A} (m : M A) (Q : A -> world -> Prop) w a w' :
  wp m Q w -> m w = Ok a w' -> Q a w'.
Proof. unfold wp. intros H E. rewrite E in H. exact H. Qed.

Lemma only_refl q w : only q w w.
Proof. repeat split; auto. Qed.

Lemma only_trans q w1 w2 w3 : only q w1 w2 -> only q w2 w3 -> only q w1 w3.
Proof.
  intros (H1 & T1 & N1) (H2 & T2 & N2). repeat split.
  - intros x Hx. rewrite H2, H1 by exact Hx. reflexivity.
  - intros x Hx Hin. auto.
  - congruence.
Qed.

Lemma only_store q sq w tr :
  only q w {| heap := <[q := sq]> (heap w); next_pid := next_pid w;
              tasks := tasks w; trace := tr |}.
Proof.
  repeat split; cbn [heap tasks next_pid]; [|auto].
  intros x Hx. rewrite lookup_insert_ne by congruence. reflexivity.
Qed.

Lemma only_store_run q sq w tr :
  only q w {| heap := <[q := sq]> (heap w); next_pid := next_pid w;
              tasks := tasks w ++ [q]; trace := tr |}.
Proof.
  repeat split; cbn [heap tasks next_pid].
  - intros x Hx. rewrite lookup_insert_ne by congruence. reflexivity.
  - intros x Hx Hin. apply elem_of_app in Hin as [Hin|Hin]; [exact Hin|].
    apply list_elem_of_singleton in Hin. contradiction.
Qed.

(** [p], at work, is not what changed *)
Lemma at_work_only p q w w' : p <> q -> only q w w' -> at_work p w -> at_work p w'.
Proof.
  intros Hne (Hh & Ht & _) (sp & Hp & Hr & Hs & Hnin).
  exists sp. rewrite Hh by exact Hne. repeat split; auto.
Qed.

(** a process that is not running is kicked: marked running, scheduled *)
Lemma flow_kick w p sp sp' tr :
  flow_inv w ->
  heap w !! p = Some sp ->
  _process_running sp = false -> _process_running sp' = true ->
  _process_suspend_count sp' = _process_suspend_count sp ->
  _process_message_queue sp' = _process_message_queue sp ->
  _upstream sp' = _upstream sp -> _downstream sp' = _downstream sp ->
  flow_inv {| heap := <[p := sp']> (heap w); next_pid := next_pid w;
              tasks := tasks w ++ [p]; trace := tr |}.
Proof.
  intros Hinv Hp Hr Hr' Hs Hq Hu Hd.
  pose proof (fl_idle w Hinv p sp Hp Hr) as Hs0.
  assert (Hnin : p ∉ tasks w).
  { intros Hin. destruct (fl_task w Hinv p sp Hin Hp) as [Hrun _]. congruence. }
  eapply (flow_run {| heap := <[p := sp']> (heap w); next_pid := next_pid w;
                      tasks := tasks w; trace := tr |} _ p sp');
    try reflexivity; try exact Hr'; try exact Hnin; [|apply lookup_insert_eq|congruence].
  eapply (flow_update_quiet w _ p sp sp'); try reflexivity; eauto.
  - intros Hf. congruence.
  - intros Hin. contradiction.
  - rewrite Hs. eapply fl_wait; eauto.
Qed.

(** *** What each member function does to the flow control *)

Ltac flow_same :=
  match goal with
  | Hp : heap ?w !! ?p = Some ?sp |- flow_inv {| heap := <[?p := ?sp']> (heap ?w) |} =>
      eapply (flow_update_same w _ p sp sp');
      [reflexivity|reflexivity|reflexivity|eassumption|exact Hp|..]; reflexivity
  end.

Lemma flow_add_sender p w :
  flow_inv w -> wp (add_sender p) (fun _ w' => flow_inv w' /\ only p w w') w.
Proof.
  intros Hinv. unfold add_sender. apply wp_bind, wp_load. intros sp Hp. apply wp_store.
  split; [flow_same|apply only_store].
Qed.

Lemma flow_acquire p w :
  flow_inv w -> wp (acquire p) (fun _ w' => flow_inv w' /\ only p w w') w.
Proof.
  intros Hinv. unfold acquire. apply wp_bind, wp_load. intros sp Hp. apply wp_store.
  split; [flow_same|apply only_store].
Qed.

Lemma flow_add_receiver p w :
  flow_inv w -> wp (add_receiver p) (fun _ w' => flow_inv w' /\ only p w w') w.
Proof.
  intros Hinv. unfold add_receiver. apply wp_bind, wp_load. intros sp Hp.
  destruct (result_is_void (process_T sp)).
  - apply wp_ret. split; [exact Hinv|apply only_refl].
  - apply wp_store. split; [flow_same|apply only_store].
Qed.

(** a store that marks [p] running if it was not, then schedules it *)
Lemma flow_store_kick p sp sp' (do_run : bool) w :
  flow_inv w ->
  heap w !! p = Some sp ->
  _upstream sp' = _upstream sp -> _downstream sp' = _downstream sp ->
  _process_message_queue sp' = _process_message_queue sp ->
  _process_suspend_count sp' = _process_suspend_count sp ->
  _process_running sp' = _process_running sp || do_run ->
  (do_run = true -> _process_running sp = false) ->
  wp (store p sp' ;; when do_run (run p)) (fun _ w' => flow_inv w' /\ only p w w') w.
Proof.
  intros Hinv Hp Hu Hd Hq Hs Hr Hdo. apply wp_bind, wp_store.
  destruct do_run; cbn [when].
  - apply wp_run. cbn [heap next_pid tasks trace]. split; [|apply only_store_run].
    eapply flow_kick; eauto. rewrite Hr, orb_true_r. reflexivity.
  - apply wp_ret. split; [|apply only_store].
    rewrite orb_false_r in Hr. eapply (flow_update_same w _ p sp sp'); try reflexivity; eauto.
Qed.

Lemma flow_remove_sender p w :
  flow_inv w -> wp (remove_sender p) (fun _ w' => flow_inv w' /\ only p w w') w.
Proof.
  intros Hinv. unfold remove_sender. apply wp_bind, wp_load. intros sp Hp. cbn zeta.
  destruct (_sender_count (set_sender_count (size_decr (_sender_count sp)) sp) =? 0).
  - unfold remove_sender_locked. cbn zeta.
    eapply (flow_store_kick p sp); eauto; try reflexivity.
    cbn. intros Hdo. apply andb_true_iff in Hdo as [_ Hdo].
    apply negb_true_iff in Hdo. exact Hdo.
  - apply wp_store. split; [flow_same|apply only_store].
Qed.

Lemma flow_remove_receiver p w :
  flow_inv w -> wp (remove_receiver p) (fun _ w' => flow_inv w' /\ only p w w') w.
Proof.
  intros Hinv. unfold remove_receiver. apply wp_bind, wp_load. intros sp Hp.
  destruct (result_is_void (process_T sp)).
  { apply wp_ret. split; [exact Hinv|apply only_refl]. }
  cbn zeta.
  destruct (_receiver_count (set_receiver_count (size_decr (_receiver_count sp)) sp) =? 0).
  - unfold remove_receiver_locked. cbn zeta.
    eapply (flow_store_kick p sp); eauto; try reflexivity.
    cbn. intros Hdo. apply andb_true_iff in Hdo as [_ Hdo].
    apply negb_true_iff in Hdo. exact Hdo.
  - apply wp_store. split; [flow_same|apply only_store].
Qed.

Lemma flow_sender_destroy e w :
  flow_inv w -> wp (sender_destroy e) (fun _ w' => flow_inv w' /\ but e w w') w.
Proof.
  intros Hinv. unfold sender_destroy. apply wp_bind, wp_lock.
  - intros p sp He Hp. eapply wp_mono; [apply flow_remove_sender; exact Hinv|].
    intros [] w' [Hinv' (Hh & Ht & Hn)]. split; [exact Hinv'|].
    repeat split; [| |exact Hn]; intros x Hx; [apply Hh|apply Ht]; congruence.
  - apply wp_ret. split; [exact Hinv|]. repeat split; auto.
Qed.

(** the elements of a deque are destroyed: nothing but the processes they
    lead to is touched *)
Lemma flow_destroy_entries (es : list sender) w :
  flow_inv w ->
  wp (foldr (fun e k => sender_destroy e ;; k) (ret tt) es)
     (fun _ w' => flow_inv w'
        /\ (forall x, Sender (Some x) ∉ es -> heap w' !! x = heap w !! x)
        /\ (forall x, Sender (Some x) ∉ es -> x ∈ tasks w' -> x ∈ tasks w)
        /\ next_pid w' = next_pid w) w.
Proof.
  revert w. induction es as [|e es IH]; intros w Hinv; cbn [foldr].
  - apply wp_ret. auto.
  - eapply wp_seq; [apply flow_sender_destroy; exact Hinv|].
    intros [] w1 [Hinv1 (Hh1 & Ht1 & Hn1)].
    eapply wp_mono; [apply IH; exact Hinv1|].
    intros [] w' (Hinv' & Hh & Ht & Hn). split; [exact Hinv'|].
    assert (Hsplit : forall x, Sender (Some x) ∉ e :: es ->
                       sender_p e <> Some x /\ Sender (Some x) ∉ es).
    { intros x Hx. apply not_elem_of_cons in Hx as [Hne Hx]. split; [|exact Hx].
      intros He. apply Hne. destruct e as [o]. cbn in He. congruence. }
    repeat split; [| |congruence].
    + intros x Hx. destruct (Hsplit x Hx) as [H1 H2]. rewrite Hh, Hh1; auto.
    + intros x Hx Hin. destruct (Hsplit x Hx) as [H1 H2]. auto.
Qed.

(** [send]: to a process without an upstream anything may be sent; to a
    process with one, an empty queue, its sender in the deque of the
    upstream, and the upstream suspended once more than its deque holds
    messages *)
Lemma flow_send p (v : V) w :
  flow_inv w ->
  (forall sp u su, heap w !! p = Some sp -> _upstream sp = Some u ->
      _process_message_queue sp = []
      /\ (heap w !! u = Some su ->
          Sender (Some p) ∈ _downstream su
          /\ Z.of_nat (holding w (_downstream su)) + 1 <= _process_suspend_count su)) ->
  wp (send p v) (fun _ w' => flow_inv w' /\ only p w w') w.
Proof.
  intros Hinv Hstage. unfold send. apply wp_bind, wp_load. intros sp Hp.
  unfold send_locked. cbn zeta.
  set (do_run := (_receiver_count _ =? 0) && negb (_process_running _)).
  set (sp' := set_process_running _ _).
  assert (Hdo : do_run = true -> _process_running sp = false).
  { unfold do_run. cbn. intros Hdo. apply andb_true_iff in Hdo as [_ Hdo].
    apply negb_true_iff in Hdo. exact Hdo. }
  assert (Hr : _process_running sp' = _process_running sp || do_run) by reflexivity.
  assert (Hnin : do_run = true -> p ∉ tasks w).
  { intros Hd Hin. destruct (fl_task w Hinv p sp Hin Hp) as [Hrun _].
    rewrite (Hdo Hd) in Hrun. discriminate. }
  assert (Hinv1 : flow_inv {| heap := <[p := sp']> (heap w); next_pid := next_pid w;
                              tasks := tasks w; trace := trace w |}).
  { eapply (flow_update w _ p sp sp'); try reflexivity; eauto.
    - rewrite Hr. intros Hf. apply orb_false_iff in Hf as [Hf _].
      exact (fl_idle w Hinv p sp Hp Hf).
    - intros Hin. destruct (fl_task w Hinv p sp Hin Hp) as [Hrun Hs].
      rewrite Hr, Hrun. split; [reflexivity|exact Hs].
    - exact (fl_wait w Hinv p sp Hp).
    - intros u Hu. destruct (Hstage sp u sp Hp Hu) as [Hq _].
      cbn. rewrite Hq. cbn. lia.
    - intros u su Hu Hsu _. destruct (Hstage sp u su Hp Hu) as [Hq Hroom].
      destruct (Hroom Hsu) as [Hin Hle]. auto. }
  apply wp_bind, wp_store, wp_bind, wp_emit. cbn [heap next_pid tasks trace].
  assert (Hinv2 : flow_inv {| heap := <[p := sp']> (heap w); next_pid := next_pid w;
                              tasks := tasks w; trace := trace w ++ [EvSend p v] |})
    by (eapply flow_inv_same; [| | |exact Hinv1]; reflexivity).
  destruct do_run eqn:Hdo'; cbn [when].
  - apply wp_run. cbn [heap next_pid tasks trace]. split; [|apply only_store_run].
    eapply (flow_run {| heap := <[p := sp']> (heap w); next_pid := next_pid w;
                        tasks := tasks w; trace := trace w ++ [EvSend p v] |} _ p sp');
      [reflexivity|reflexivity|reflexivity|exact Hinv2|..].
    + cbn [heap]. apply lookup_insert_eq.
    + rewrite Hr, orb_true_r. reflexivity.
    + exact (fl_idle w Hinv p sp Hp (Hdo eq_refl)).
    + cbn [tasks]. apply Hnin. reflexivity.
  - apply wp_ret. split; [exact Hinv2|apply only_store].
Qed.

(** the decrement of [cts] finds [u] suspended once more than its deque
    holds messages: [u] is running, and what is left covers the deque *)
Lemma flow_cts u w :
  flow_inv w ->
  (forall su, heap w !! u = Some su ->
      Z.of_nat (holding w (_downstream su)) + 1 <= _process_suspend_count su) ->
  wp (cts u) (fun _ w' => flow_inv w' /\ only u w w') w.
Proof.
  intros Hinv Hroom. unfold cts. apply wp_bind, wp_emit, wp_bind, wp_load.
  cbn [heap next_pid tasks trace]. intros su Hu.
  specialize (Hroom su Hu).
  pose proof (fl_wait w Hinv u su Hu) as Hwait.
  assert (Hpos : 1 <= _process_suspend_count su < size_modulus) by lia.
  assert (Hrun : _process_running su = true).
  { destruct (_process_running su) eqn:Hr; [reflexivity|].
    pose proof (fl_idle w Hinv u su Hu Hr). lia. }
  assert (Hnin : u ∉ tasks w).
  { intros Hin. destruct (fl_task w Hinv u su Hin Hu) as [_ Hs]. lia. }
  set (w0 := {| heap := heap w; next_pid := next_pid w; tasks := tasks w;
                trace := trace w ++ [EvCts u] |}).
  assert (Hinv0 : flow_inv w0) by (eapply flow_inv_same; [| | |exact Hinv]; reflexivity).
  unfold cts_locked. cbn zeta. cbn [_process_running set_process_suspend_count].
  rewrite Hrun. cbn [negb]. cbn [_process_suspend_count].
  rewrite (size_decr_pos _ Hpos).
  cbn [_process_running _process_suspend_count _process_message_queue _process_close_queue
       process_T _process set_process_suspend_count].
  assert (Hstore : forall sp',
             _upstream sp' = _upstream su -> _downstream sp' = _downstream su ->
             _process_message_queue sp' = _process_message_queue su ->
             _process_suspend_count sp' = _process_suspend_count su - 1 ->
             (_process_running sp' = false -> _process_suspend_count su - 1 = 0) ->
             flow_inv {| heap := <[u := sp']> (heap w0); next_pid := next_pid w0;
                         tasks := tasks w0; trace := trace w0 |}).
  { intros sp' Eu Ed Eq Es Er.
    eapply (flow_update_quiet w0 _ u su sp'); try reflexivity; eauto.
    - intros Hf. rewrite Es. auto.
    - intros Hin. contradiction.
    - rewrite Es. erewrite (holding_heap w) by reflexivity. lia. }
  destruct (_process_suspend_count su - 1 =? 0) eqn:Hz.
  - apply Z.eqb_eq in Hz.
    destruct (process_state_eqb _ _ || negb (deque_empty _) || _process_close_queue _).
    + apply wp_bind, wp_store. cbn [when]. apply wp_run. cbn [heap next_pid tasks trace].
      split; [|unfold w0; cbn [heap next_pid tasks trace]; apply only_store_run].
      eapply (flow_run {| heap := <[u := set_process_suspend_count
                                            (_process_suspend_count su - 1) su]> (heap w0);
                          next_pid := next_pid w0; tasks := tasks w0; trace := trace w0 |}
                _ u);
        [reflexivity|reflexivity|reflexivity|apply Hstore; try reflexivity|..].
      * intros Hf. cbn in Hf. congruence.
      * cbn [heap]. apply lookup_insert_eq.
      * exact Hrun.
      * exact Hz.
      * exact Hnin.
    + apply wp_bind, wp_store. cbn [when]. apply wp_ret.
      split; [|unfold w0; cbn [heap next_pid tasks trace]; apply only_store].
      apply Hstore; try reflexivity. intros _. exact Hz.
  - apply wp_bind, wp_store. cbn [when]. apply wp_ret.
    split; [|unfold w0; cbn [heap next_pid tasks trace]; apply only_store].
    apply Hstore; try reflexivity. intros Hf. cbn in Hf. congruence.
Qed.

Lemma nonempty_queue w t st :
  heap w !! t = Some st -> nonempty w t = false -> _process_message_queue st = [].
Proof.
  intros Ht Hn. unfold nonempty in Hn. rewrite Ht in Hn.
  destruct (_process_message_queue st); [reflexivity|discriminate].
Qed.

(** the iteration of [broadcast] over the rest of the deque of [p], which
    was suspended for the whole deque and itself: none of the processes
    still to come holds a message *)
Lemma flow_deliver p sp (v : V) (rest : list sender) w :
  flow_inv w ->
  heap w !! p = Some sp ->
  _process_suspend_count sp = Z.of_nat (length (_downstream sp)) + 1 ->
  (forall e, e ∈ rest -> e ∈ _downstream sp) ->
  NoDup rest ->
  (forall e, e ∈ rest -> holds w e = false) ->
  wp (for_each_n rest (length rest) (fun e => sender_call e v))
     (fun _ w' => flow_inv w' /\ heap w' !! p = Some sp
                  /\ (p ∈ tasks w' -> p ∈ tasks w)
                  /\ next_pid w' = next_pid w) w.
Proof.
  revert w. induction rest as [|e rest IH]; intros w Hinv Hp Hs Hsub Hnd Hempty;
    cbn [for_each_n length].
  { apply wp_ret. auto. }
  apply NoDup_cons in Hnd as [Hnin Hnd].
  assert (Hsub' : forall e', e' ∈ rest -> e' ∈ _downstream sp)
    by (intros e' He'; apply Hsub; right; exact He').
  eapply wp_seq with
    (Q1 := fun _ w1 => flow_inv w1 /\ heap w1 !! p = Some sp
                       /\ (p ∈ tasks w1 -> p ∈ tasks w)
                       /\ next_pid w1 = next_pid w
                       /\ forall e', e' ∈ rest -> holds w1 e' = false).
  - unfold sender_call. apply wp_bind, wp_lock.
    + intros t st He Ht.
      assert (Ee : e = Sender (Some t)) by (destruct e as [o]; cbn in He; congruence).
      subst e.
      assert (Hin : Sender (Some t) ∈ _downstream sp) by (apply Hsub; left).
      pose proof (fl_down w Hinv p sp t st Hp Hin Ht) as Hup.
      pose proof (fl_older w Hinv t st p Ht Hup) as Hlt.
      eapply wp_mono.
      * apply flow_send; [exact Hinv|].
        intros st' u su Ht' Hu'. assert (st' = st) as -> by congruence.
        assert (u = p) as -> by congruence.
        split.
        -- eapply nonempty_queue; [exact Ht|].
           specialize (Hempty (Sender (Some t)) ltac:(left)). exact Hempty.
        -- intros Hsu. assert (su = sp) as -> by congruence. split; [exact Hin|].
           pose proof (holding_length w (_downstream sp)). lia.
      * intros [] w1 [Hinv1 (Hh & Htk & Hn)].
        split; [exact Hinv1|]. split; [rewrite Hh by lia; exact Hp|].
        split; [apply Htk; lia|]. split; [exact Hn|].
        intros e' He'. rewrite <- (Hempty e' ltac:(right; exact He')).
        unfold holds. destruct e' as [[t'|]]; cbn [sender_p]; [|reflexivity].
        unfold nonempty. rewrite Hh; [reflexivity|].
        intros ->. contradiction.
    + apply wp_ret. split; [exact Hinv|]. split; [exact Hp|]. split; [auto|].
      split; [reflexivity|]. intros e' He'. apply Hempty. right. exact He'.
  - intros [] w1 (Hinv1 & Hp1 & Htk1 & Hn1 & Hempty1).
    eapply wp_mono; [apply (IH w1 Hinv1 Hp1 Hs Hsub' Hnd Hempty1)|].
    intros [] w' (Hinv' & Hp' & Htk' & Hn').
    split; [exact Hinv'|]. split; [exact Hp'|]. split; [auto|congruence].
Qed.

(** [broadcast] by a process at work: afterwards it is suspended for its
    whole deque and for itself *)
Lemma flow_broadcast p (v : V) w :
  flow_inv w -> bounded w -> at_work p w ->
  wp (broadcast p v)
     (fun _ w' => flow_inv w' /\ next_pid w' = next_pid w
        /\ exists sp', heap w' !! p = Some sp'
             /\ _process_suspend_count sp'
                = Z.of_nat (length (_downstream sp')) + 1
             /\ p ∉ tasks w') w.
Proof.
  intros Hinv Hb (sp & Hp & Hrun & Hs & Hnin).
  unfold broadcast. apply wp_bind, wp_emit.
  set (w0 := {| heap := heap w; next_pid := next_pid w; tasks := tasks w;
                trace := trace w ++ [EvBroadcast p v] |}).
  assert (Hinv0 : flow_inv w0) by (eapply flow_inv_same; [| | |exact Hinv]; reflexivity).
  unfold broadcast_snapshot. apply wp_bind, wp_bind, wp_load. intros sp0 Hp0.
  assert (sp0 = sp) as -> by (cbn [heap w0] in Hp0; congruence).
  rewrite Hs. cbn [Z.eqb negb].
  pose proof (fl_short w Hinv p sp Hp) as Hshort.
  assert (Hmod : (Z.of_nat (length (_downstream sp)) + 1) mod size_modulus
                 = Z.of_nat (length (_downstream sp)) + 1).
  { apply Z.mod_small. unfold bounded in Hb. lia. }
  rewrite Hmod.
  apply wp_bind, wp_store, wp_ret.
  set (sp1 := set_process_suspend_count (Z.of_nat (length (_downstream sp)) + 1) sp).
  set (w1 := {| heap := <[p := sp1]> (heap w0); next_pid := next_pid w0;
                tasks := tasks w0; trace := trace w0 |}).
  assert (Hzero : holding w (_downstream sp) = 0%nat).
  { pose proof (fl_wait w Hinv p sp Hp). lia. }
  assert (Hinv1 : flow_inv w1).
  { eapply (flow_update_quiet w0 w1 p sp sp1); try reflexivity; eauto.
    - intros Hf. cbn in Hf. congruence.
    - intros Hin. contradiction.
    - cbn [_process_suspend_count sp1 set_process_suspend_count].
      pose proof (holding_length w0 (_downstream sp)). unfold bounded in Hb. lia. }
  unfold broadcast_deliver. apply wp_bind, wp_load. intros sp1' Hp1.
  assert (sp1' = sp1) as ->
    by (cbn [heap w1] in Hp1; rewrite lookup_insert_eq in Hp1; congruence).
  change (_downstream sp1) with (_downstream sp).
  eapply wp_mono.
  - apply (flow_deliver p sp1 v (_downstream sp) w1 Hinv1).
    + cbn [heap w1]. apply lookup_insert_eq.
    + reflexivity.
    + auto.
    + exact (fl_nodup w Hinv p sp Hp).
    + intros e He. rewrite <- (holding_none w _ e Hzero He).
      unfold holds. destruct e as [[t|]]; cbn [sender_p]; [|reflexivity].
      unfold nonempty. cbn [heap w1 w0]. rewrite lookup_insert_ne; [reflexivity|].
      intros <-. exact (not_own_target w p sp Hinv Hp He).
  - intros [] w' (Hinv' & Hp' & Htk & Hn).
    split; [exact Hinv'|]. split; [exact Hn|].
    exists sp1. split; [exact Hp'|]. split; [reflexivity|].
    intros Hin. apply Hnin. exact (Htk Hin).
Qed.

(** the deque of [p] is replaced *)
Lemma flow_relink w w' p sp sp' :
  heap w' = <[p := sp']> (heap w) -> next_pid w' = next_pid w -> tasks w' = tasks w ->
  flow_inv w ->
  heap w !! p = Some sp ->
  _upstream sp' = _upstream sp ->
  _process_message_queue sp' = _process_message_queue sp ->
  _process_running sp' = _process_running sp ->
  _process_suspend_count sp' = _process_suspend_count sp ->
  (forall t, Sender (Some t) ∈ _downstream sp' ->
     (t < next_pid w)%nat /\ forall st, heap w !! t = Some st -> _upstream st = Some p) ->
  (Z.of_nat (holding w (_downstream sp')) <= _process_suspend_count sp) ->
  (forall s ss, heap w !! s = Some ss -> _upstream ss = Some p ->
     _process_message_queue ss <> [] -> Sender (Some s) ∈ _downstream sp') ->
  NoDup (_downstream sp') ->
  (length (_downstream sp') <= next_pid w)%nat ->
  flow_inv w'.
Proof.
  intros Hh Hn Ht Hinv Hp Hup Hq Hr Hs Hentry Hwait Hlisted Hnd Hshort.
  destruct w' as [h n t tr]. cbn [heap next_pid tasks] in Hh, Hn, Ht. subst n t.
  set (w' := {| heap := h; next_pid := next_pid w; tasks := tasks w; trace := tr |}).
  change h with (heap w') in Hh.
  assert (Hold : forall x sx', heap w' !! x = Some sx' ->
             exists sx, heap w !! x = Some sx
               /\ _upstream sx' = _upstream sx
               /\ _process_message_queue sx' = _process_message_queue sx
               /\ _process_running sx' = _process_running sx
               /\ _process_suspend_count sx' = _process_suspend_count sx
               /\ ((x = p /\ sx' = sp' /\ sx = sp) \/ (x <> p /\ sx' = sx))).
  { intros x sx' Hx. rewrite Hh in Hx. destruct (decide (x = p)) as [->|Hne].
    - rewrite lookup_insert_eq in Hx. injection Hx as <-. exists sp. auto 10.
    - rewrite lookup_insert_ne in Hx by congruence. exists sx'. auto 10. }
  assert (Hsame : forall l, holding w' l = holding w l).
  { intros l. apply holding_ext. intros t _. unfold nonempty. rewrite Hh.
    destruct (decide (t = p)) as [->|Hne].
    - rewrite lookup_insert_eq, Hp, Hq. reflexivity.
    - rewrite lookup_insert_ne by congruence. reflexivity. }
  split; cbn [next_pid tasks w'].
  - intros x sx' Hx. destruct (Hold _ _ Hx) as (sx & Hx0 & _). eapply fl_dom; eauto.
  - intros x sx' u Hx Hu. destruct (Hold _ _ Hx) as (sx & Hx0 & Eu & _).
    eapply fl_older; [exact Hinv|exact Hx0|congruence].
  - intros q sq' t Hq' Hin.
    destruct (Hold _ _ Hq') as (sq & Hq0 & _ & _ & _ & _ & [(-> & -> & ->)|(Hne & ->)]).
    + apply (Hentry t Hin).
    + eapply fl_entry; eauto.
  - intros q sq' t st' Hq' Hin Ht'.
    destruct (Hold _ _ Ht') as (st & Ht0 & Eu & _). rewrite Eu.
    destruct (Hold _ _ Hq') as (sq & Hq0 & _ & _ & _ & _ & [(-> & -> & ->)|(Hne & ->)]).
    + apply (Hentry t Hin). exact Ht0.
    + eapply fl_down; eauto.
  - intros x sx' Hx Hrun. destruct (Hold _ _ Hx) as (sx & Hx0 & _ & _ & Er & Es & _).
    rewrite Es. apply (fl_idle w Hinv x sx Hx0). congruence.
  - intros x sx' Hin Hx. destruct (Hold _ _ Hx) as (sx & Hx0 & _ & _ & Er & Es & _).
    rewrite Er, Es. exact (fl_task w Hinv x sx Hin Hx0).
  - apply (fl_once w Hinv).
  - apply (fl_sched w Hinv).
  - intros x sx' Hx. rewrite Hsame.
    destruct (Hold _ _ Hx) as (sx & Hx0 & _ & _ & _ & Es & [(-> & -> & ->)|(Hne & ->)]).
    + rewrite Hs. pose proof (fl_wait w Hinv p sp Hp). lia.
    + eapply fl_wait; eauto.
  - intros s ss' u Hs' Hu. destruct (Hold _ _ Hs') as (ss & Hs0 & Eu & Eq & _).
    rewrite Eq. eapply fl_one; [exact Hinv|exact Hs0|rewrite <- Eu; exact Hu].
  - intros s ss' u su' Hs' Hu Hu' Hne.
    destruct (Hold _ _ Hs') as (ss & Hs0 & Eu & Eq & _).
    rewrite Eq in Hne. rewrite Eu in Hu.
    destruct (Hold _ _ Hu') as (su & Hu0 & _ & _ & _ & _ & [(-> & -> & ->)|(Hnp & ->)]).
    + eapply Hlisted; eauto.
    + eapply fl_listed; eauto.
  - intros x sx' Hx.
    destruct (Hold _ _ Hx) as (sx & Hx0 & _ & _ & _ & _ & [(-> & -> & ->)|(Hne & ->)]).
    + exact Hnd.
    + eapply fl_nodup; eauto.
  - intros x sx' Hx.
    destruct (Hold _ _ Hx) as (sx & Hx0 & _ & _ & _ & _ & [(-> & -> & ->)|(Hne & ->)]).
    + exact Hshort.
    + eapply fl_short; eauto.
Qed.

(** [_downstream.clear()] of a process that is not suspended *)
Lemma flow_clear_downstream p w :
  flow_inv w ->
  (forall sp, heap w !! p = Some sp -> _process_suspend_count sp = 0) ->
  wp (clear_downstream p) (fun _ w' => flow_inv w' /\ next_pid w' = next_pid w) w.
Proof.
  intros Hinv Hzero. unfold clear_downstream. apply wp_bind, wp_load. intros sp Hp.
  specialize (Hzero sp Hp). apply wp_bind, wp_store.
  assert (Hnone : holding w (_downstream sp) = 0%nat).
  { pose proof (fl_wait w Hinv p sp Hp). lia. }
  eapply wp_mono.
  - apply flow_destroy_entries.
    eapply (flow_relink w _ p sp (set_downstream [] sp)); try reflexivity; eauto.
    + intros t Hin. inversion Hin.
    + cbn. lia.
    + intros s ss Hs Hu Hne. exfalso.
      pose proof (fl_listed w Hinv s ss p sp Hs Hu Hp Hne) as Hin.
      pose proof (holding_none w _ _ Hnone Hin) as Hh.
      unfold holds, nonempty in Hh. cbn [sender_p] in Hh. rewrite Hs in Hh.
      destruct (_process_message_queue ss); [contradiction|discriminate].
    + apply NoDup_nil_2.
    + cbn. lia.
  - intros [] w' (Hinv' & _ & _ & Hn). auto.
Qed.

(** [p] stays at work when its object changes in nothing that counts *)
Lemma at_work_store p sp sp' w tr :
  at_work p w -> heap w !! p = Some sp ->
  _process_running sp' = _process_running sp ->
  _process_suspend_count sp' = _process_suspend_count sp ->
  at_work p {| heap := <[p := sp']> (heap w); next_pid := next_pid w;
               tasks := tasks w; trace := tr |}.
Proof.
  intros (sp0 & Hp0 & Hr & Hs & Hnin) Hp Er Es.
  assert (sp0 = sp) as -> by congruence.
  exists sp'. cbn [heap tasks]. rewrite lookup_insert_eq.
  repeat split; [congruence|congruence|exact Hnin].
Qed.

Lemma at_work_same p w w' :
  heap w' = heap w -> tasks w' = tasks w -> at_work p w -> at_work p w'.
Proof. intros Hh Ht (sp & Hp & H). exists sp. rewrite Hh, Ht. auto. Qed.

(** [task_done] of a process at work whose queue is empty and that has no
    close pending: it stops running *)
Lemma flow_task_done p w :
  flow_inv w -> at_work p w ->
  (forall sp, heap w !! p = Some sp ->
     _process_message_queue sp = [] /\ _process_close_queue sp = false) ->
  wp (task_done p) (fun _ w' => flow_inv w' /\ next_pid w' = next_pid w) w.
Proof.
  intros Hinv (sp & Hp & Hrun & Hs & Hnin) Hdrained.
  destruct (Hdrained sp Hp) as [Hq Hcq].
  unfold task_done. apply wp_bind, wp_emit, wp_bind, wp_load.
  cbn [heap next_pid tasks trace]. intros sp0 Hp0.
  assert (sp0 = sp) as -> by congruence.
  unfold task_done_locked. rewrite Hq, Hcq. cbn [deque_empty negb orb andb].
  apply wp_bind, wp_store, wp_bind, wp_ret. cbn [when].
  apply wp_bind, wp_ret. cbn [heap next_pid tasks trace].
  set (w1 := {| heap := <[p := set_process_running false sp]> (heap w);
                next_pid := next_pid w; tasks := tasks w;
                trace := trace w ++ [EvTaskDone p] |}).
  assert (Hinv1 : flow_inv w1).
  { eapply (flow_update_quiet w w1 p sp); try reflexivity; eauto;
      try (intros Hin; contradiction).
    cbn. pose proof (fl_wait w Hinv p sp Hp). lia. }
  apply wp_when; [intros Hfin|intros Hfin; auto].
  apply (flow_clear_downstream p w1 Hinv1).
  intros sp1 Hp1. cbn [heap w1] in Hp1. rewrite lookup_insert_eq in Hp1.
  injection Hp1 as <-. exact Hs.
Qed.

Lemma wp_assoc {A B C} (m : M A) (k1 : A -> M B) (k2 : B -> M C)
    (Q : C -> world -> Prop) w :
  wp (bind (bind m k1) k2) Q w -> wp (bind m (fun x => bind (k1 x) k2)) Q w.
Proof. unfold wp. rewrite bind_bind. auto. Qed.

(** a process at work takes the front of its queue; if that empties the
    queue of a process with an upstream, the upstream gets its [cts] *)
Lemma flow_front p sp (m : V) rest w :
  flow_inv w -> at_work p w ->
  heap w !! p = Some sp ->
  _process_message_queue sp = m :: rest ->
  wp (store p (set_process_message_queue rest sp) ;;
      upstream_cts p (Nat.eqb (length rest) 0))
     (fun _ w' => flow_inv w' /\ at_work p w' /\ next_pid w' = next_pid w) w.
Proof.
  intros Hinv Hwork Hp Hq.
  pose proof Hwork as (sp0 & Hp0 & Hrun & Hs & Hnin).
  assert (sp0 = sp) as -> by congruence. clear Hp0.
  apply wp_bind, wp_store.
  set (sp1 := set_process_message_queue rest sp).
  set (w1 := {| heap := <[p := sp1]> (heap w); next_pid := next_pid w;
                tasks := tasks w; trace := trace w |}).
  assert (Hrest : forall u, _upstream sp = Some u -> rest = []).
  { intros u Hu. pose proof (fl_one w Hinv p sp u Hp Hu) as Hlen.
    rewrite Hq in Hlen. cbn [length] in Hlen. destruct rest; [reflexivity|cbn in Hlen; lia]. }
  assert (Hinv1 : flow_inv w1).
  { refine (flow_update w w1 p sp sp1 eq_refl eq_refl eq_refl Hinv Hp eq_refl eq_refl
              _ _ _ _ _).
    - intros Hf. cbn in Hf. congruence.
    - intros Hin. contradiction.
    - exact (fl_wait w Hinv p sp Hp).
    - intros u Hu. cbn. rewrite (Hrest u Hu). cbn. lia.
    - intros u su Hu Hsu Hne. cbn in Hne. rewrite (Hrest u Hu) in Hne. contradiction. }
  assert (Hwork1 : at_work p w1) by (apply (at_work_store p sp); auto).
  unfold upstream_cts. apply wp_bind, wp_load. intros sp1' Hp1.
  assert (sp1' = sp1) as ->
    by (cbn [heap w1] in Hp1; rewrite lookup_insert_eq in Hp1; congruence).
  change (_upstream sp1) with (_upstream sp).
  destruct (_upstream sp) as [u|] eqn:Hu; [|apply wp_ret; auto].
  rewrite (Hrest u eq_refl). cbn [length Nat.eqb when].
  pose proof (fl_older w Hinv p sp u Hp Hu) as Hlt.
  apply wp_bind, wp_emit.
  set (w2 := {| heap := heap w1; next_pid := next_pid w1; tasks := tasks w1;
                trace := trace w1 ++ [EvCtsUpstream p u] |}).
  assert (Hinv2 : flow_inv w2) by (eapply flow_inv_same; [| | |exact Hinv1]; reflexivity).
  assert (Hwork2 : at_work p w2) by (eapply at_work_same; [| |exact Hwork1]; reflexivity).
  eapply wp_mono.
  - apply (flow_cts u w2 Hinv2). intros su Hsu.
    cbn [heap w2 w1] in Hsu. rewrite lookup_insert_ne in Hsu by lia.
    assert (Hin : Sender (Some p) ∈ _downstream su).
    { eapply (fl_listed w Hinv p sp u su); eauto. rewrite Hq. discriminate. }
    pose proof (fl_wait w Hinv u su Hsu) as Hwait.
    assert (Hless : (holding w2 (_downstream su) + 1 <= holding w (_downstream su))%nat).
    { apply (holding_one_less w w2 p); [exact Hin| | |].
      - unfold nonempty. rewrite Hp, Hq. reflexivity.
      - unfold nonempty. cbn [heap w2 w1]. rewrite lookup_insert_eq.
        cbn. rewrite (Hrest u eq_refl). reflexivity.
      - intros t Hne. unfold nonempty. cbn [heap w2 w1].
        rewrite lookup_insert_ne by congruence. reflexivity. }
    lia.
  - intros [] w' [Hinv' Honly]. split; [exact Hinv'|].
    split; [eapply (at_work_only p u); [lia|exact Honly|exact Hwork2]|].
    destruct Honly as (_ & _ & Hn). exact Hn.
Qed.

Lemma flow_process_close p w :
  flow_inv w -> at_work p w ->
  (forall sp, heap w !! p = Some sp ->
     _process_message_queue sp = [] /\ _process_close_queue sp = false) ->
  wp (process_close p)
     (fun _ w' => flow_inv w' /\ at_work p w' /\ next_pid w' = next_pid w
        /\ forall sp', heap w' !! p = Some sp' ->
             _process_message_queue sp' = [] /\ _process_close_queue sp' = false) w.
Proof.
  intros Hinv Hwork Hdrained. unfold process_close. apply wp_bind, wp_load. intros sp Hp.
  destruct (t_close (process_T sp)) as [close|]; [|apply wp_ret; auto].
  apply wp_bind, wp_store, wp_emit. cbn [heap next_pid tasks trace].
  split; [|split; [|split]].
  - eapply (flow_update_same w _ p sp); try reflexivity; eauto.
  - apply (at_work_store p sp); auto.
  - reflexivity.
  - intros sp' Hp'. cbn [heap] in Hp'. rewrite lookup_insert_eq in Hp'.
    injection Hp' as <-. exact (Hdrained sp Hp).
Qed.

(** [dequeue] by a process at work *)
Lemma flow_dequeue await_ p w :
  flow_inv w -> at_work p w ->
  wp (dequeue await_ p)
     (fun b w' => flow_inv w' /\ at_work p w' /\ next_pid w' = next_pid w
        /\ (b = false ->
            forall sp', heap w' !! p = Some sp' ->
              _process_message_queue sp' = [] /\ _process_close_queue sp' = false)) w.
Proof.
  intros Hinv Hwork. unfold dequeue. apply wp_bind, wp_load. intros sp Hp.
  unfold dequeue_locked.
  destruct (_process_message_queue sp) as [|m rest] eqn:Hq.
  - apply wp_bind, wp_store.
    set (sp1 := set_process_final _ _).
    set (w1 := {| heap := <[p := sp1]> (heap w); next_pid := next_pid w;
                  tasks := tasks w; trace := trace w |}).
    assert (Hinv1 : flow_inv w1)
      by (eapply (flow_update_same w w1 p sp sp1); try reflexivity; eauto).
    assert (Hwork1 : at_work p w1) by (apply (at_work_store p sp); auto).
    assert (Hdrained : forall sp', heap w1 !! p = Some sp' ->
               _process_message_queue sp' = [] /\ _process_close_queue sp' = false).
    { intros sp' Hp'. cbn [heap w1] in Hp'. rewrite lookup_insert_eq in Hp'.
      injection Hp' as <-. split; [exact Hq|reflexivity]. }
    apply wp_bind. unfold upstream_cts. apply wp_bind, wp_load. intros sp1' Hp1.
    assert (Hskip : forall o : option pid,
               match o with
               | Some u => when false (emit (EvCtsUpstream p u) ;; cts u)
               | None => ret tt
               end = (ret tt : M unit)) by (intros [u|]; reflexivity).
    rewrite Hskip. apply wp_ret.
    apply wp_bind, wp_when.
    + intros Hcq. eapply wp_mono; [apply (flow_process_close p w1); auto|].
      intros [] w' (Hinv' & Hwork' & Hn' & Hdr'). apply wp_ret. auto.
    + intros Hcq. apply wp_ret. auto.
  - apply wp_assoc. eapply wp_seq with
      (Q1 := fun _ w1 => flow_inv w1 /\ at_work p w1 /\ next_pid w1 = next_pid w).
    + apply (flow_front p sp m rest w); auto.
    + intros [] w1 (Hinv1 & Hwork1 & Hn1).
      apply wp_bind, wp_load. intros sp1 Hp1.
      apply wp_bind, wp_store, wp_bind, wp_emit, wp_ret. cbn [heap next_pid tasks trace].
      split; [|split; [|split]].
      * eapply (flow_update_same w1 _ p sp1); try reflexivity; eauto.
      * apply (at_work_store p sp1); auto.
      * exact Hn1.
      * discriminate.
Qed.

(** the loop of [step]: on its way out the process reports [yield], or its
    queue is empty and no close is pending *)
Lemma flow_step_loop fuel await_ p w :
  flow_inv w -> at_work p w ->
  wp (step_loop fuel await_ p)
     (fun _ w' => flow_inv w' /\ at_work p w' /\ next_pid w' = next_pid w
        /\ forall sp', heap w' !! p = Some sp' ->
             get_process_state (process_T sp') (_process sp') = yield
             \/ (_process_message_queue sp' = [] /\ _process_close_queue sp' = false)) w.
Proof.
  revert w. induction fuel as [|fuel IH]; intros w Hinv Hwork; cbn [step_loop].
  { exact I. }
  apply wp_bind, wp_load. intros sp Hp.
  destruct (process_state_eqb (get_process_state (process_T sp) (_process sp)) yield) eqn:Hst.
  - apply wp_ret. split; [exact Hinv|]. split; [exact Hwork|]. split; [reflexivity|].
    intros sp' Hp'. assert (sp' = sp) as -> by congruence.
    left. destruct (get_process_state _ _); try discriminate. reflexivity.
  - eapply wp_seq; [apply (flow_dequeue await_ p w Hinv Hwork)|].
    intros [|] w1 (Hinv1 & Hwork1 & Hn1 & Hdr).
    + eapply wp_mono; [apply (IH w1 Hinv1 Hwork1)|].
      intros [] w' (Hinv' & Hwork' & Hn' & Hend).
      split; [exact Hinv'|]. split; [exact Hwork'|]. split; [congruence|exact Hend].
    + apply wp_ret. split; [exact Hinv1|]. split; [exact Hwork1|]. split; [exact Hn1|].
      intros sp' Hp'. right. apply Hdr; [reflexivity|exact Hp'].
Qed.

(** [broadcast] and the [cts] that follows it, by a process at work *)
Lemma flow_broadcast_cts p (v : V) w :
  flow_inv w -> bounded w -> at_work p w ->
  wp (broadcast p v ;; cts p) (fun _ w' => flow_inv w' /\ next_pid w' = next_pid w) w.
Proof.
  intros Hinv Hb Hwork.
  eapply wp_seq; [apply (flow_broadcast p v w Hinv Hb Hwork)|].
  intros [] w1 (Hinv1 & Hn1 & sp1 & Hp1 & Hs1 & Hnin1).
  eapply wp_mono.
  - apply (flow_cts p w1 Hinv1). intros su Hsu. assert (su = sp1) as -> by congruence.
    pose proof (holding_length w1 (_downstream sp1)). lia.
  - intros [] w' [Hinv' (_ & _ & Hn')]. split; [exact Hinv'|congruence].
Qed.

Lemma flow_step_tail yield_ p w :
  flow_inv w -> bounded w -> at_work p w ->
  (forall sp, heap w !! p = Some sp ->
     get_process_state (process_T sp) (_process sp) = yield
     \/ (_process_message_queue sp = [] /\ _process_close_queue sp = false)) ->
  wp (step_tail yield_ p) (fun _ w' => flow_inv w' /\ next_pid w' = next_pid w) w.
Proof.
  intros Hinv Hb Hwork Hend. unfold step_tail. apply wp_bind, wp_load. intros sp Hp.
  destruct (process_state_eqb (get_process_state (process_T sp) (_process sp)) await) eqn:Hst.
  - apply (flow_task_done p w Hinv Hwork).
    intros sp' Hp'. assert (sp' = sp) as -> by congruence.
    destruct (Hend sp Hp) as [Hy|Hdr]; [|exact Hdr].
    rewrite Hy in Hst. discriminate.
  - destruct (yield_ (_process sp)) as [v x].
    apply wp_bind, wp_store, wp_bind, wp_emit. cbn [heap next_pid tasks trace].
    set (w1 := {| heap := <[p := set_process x sp]> (heap w); next_pid := next_pid w;
                  tasks := tasks w; trace := trace w ++ [EvYield p v] |}).
    assert (Hinv1 : flow_inv w1)
      by (eapply (flow_update_same w w1 p sp); try reflexivity; eauto).
    assert (Hwork1 : at_work p w1) by (apply (at_work_store p sp); auto).
    apply (flow_broadcast_cts p v w1 Hinv1 Hb Hwork1).
Qed.

Lemma flow_step_yield await_ yield_ p w :
  flow_inv w -> bounded w -> at_work p w ->
  wp (step_yield await_ yield_ p) (fun _ w' => flow_inv w' /\ next_pid w' = next_pid w) w.
Proof.
  intros Hinv Hb Hwork. unfold step_yield. apply wp_bind, wp_load. intros sp Hp.
  eapply wp_seq; [apply (flow_step_loop _ await_ p w Hinv Hwork)|].
  intros [] w1 (Hinv1 & Hwork1 & Hn1 & Hend).
  eapply wp_mono.
  - apply (flow_step_tail yield_ p w1 Hinv1); [|exact Hwork1|exact Hend].
    unfold bounded in *. rewrite Hn1. exact Hb.
  - intros [] w' [Hinv' Hn']. split; [exact Hinv'|congruence].
Qed.

Lemma flow_step_call call p w :
  flow_inv w -> bounded w -> at_work p w ->
  wp (step_call call p) (fun _ w' => flow_inv w' /\ next_pid w' = next_pid w) w.
Proof.
  intros Hinv Hb Hwork. unfold step_call. apply wp_bind, wp_load. intros sp Hp.
  unfold dequeue_locked.
  destruct (_process_message_queue sp) as [|m rest] eqn:Hq.
  - apply wp_bind, wp_store.
    set (sp1 := set_process_final _ _).
    set (w1 := {| heap := <[p := sp1]> (heap w); next_pid := next_pid w;
                  tasks := tasks w; trace := trace w |}).
    assert (Hinv1 : flow_inv w1)
      by (eapply (flow_update_same w w1 p sp sp1); try reflexivity; eauto).
    assert (Hwork1 : at_work p w1) by (apply (at_work_store p sp); auto).
    apply wp_bind. unfold upstream_cts. apply wp_bind, wp_load. intros sp1' Hp1.
    assert (Hskip : forall o : option pid,
               match o with
               | Some u => when false (emit (EvCtsUpstream p u) ;; cts u)
               | None => ret tt
               end = (ret tt : M unit)) by (intros [u|]; reflexivity).
    rewrite Hskip. apply wp_ret.
    apply (flow_task_done p w1 Hinv1 Hwork1).
    intros sp' Hp'. cbn [heap w1] in Hp'. rewrite lookup_insert_eq in Hp'.
    injection Hp' as <-. split; [exact Hq|reflexivity].
  - apply wp_assoc. eapply wp_seq; [apply (flow_front p sp m rest w); auto|].
    intros [] w1 (Hinv1 & Hwork1 & Hn1).
    apply wp_bind, wp_load. intros sp1 Hp1.
    destruct (call (_process sp1) m) as [v x].
    apply wp_bind, wp_store, wp_bind, wp_emit. cbn [heap next_pid tasks trace].
    set (w2 := {| heap := <[p := set_process x sp1]> (heap w1); next_pid := next_pid w1;
                  tasks := tasks w1; trace := trace w1 ++ [EvInvoke p m] |}).
    assert (Hinv2 : flow_inv w2)
      by (eapply (flow_update_same w1 w2 p sp1); try reflexivity; eauto).
    assert (Hwork2 : at_work p w2) by (apply (at_work_store p sp1); auto).
    eapply wp_mono.
    + apply (flow_broadcast_cts p v w2 Hinv2); [|exact Hwork2].
      unfold bounded in *. cbn [next_pid w2]. rewrite Hn1. exact Hb.
    + intros [] w' [Hinv' Hn']. split; [exact Hinv'|]. rewrite Hn'. exact Hn1.
Qed.

Lemma flow_step p w :
  flow_inv w -> bounded w -> at_work p w ->
  wp (step p) (fun _ w' => flow_inv w' /\ next_pid w' = next_pid w) w.
Proof.
  intros Hinv Hb Hwork. unfold step. apply wp_bind, wp_load. intros sp Hp.
  destruct (t_body (process_T sp)) as [call|await_ yield_].
  - apply flow_step_call; assumption.
  - apply flow_step_yield; assumption.
Qed.

(** the executor runs a pending closure: no assertion is tripped *)
Lemma flow_execute k w :
  flow_inv w -> bounded w ->
  wp (execute k) (fun _ w' => flow_inv w' /\ next_pid w' = next_pid w) w.
Proof.
  intros Hinv Hb. unfold wp, execute.
  destruct (tasks w !! k) as [p|] eqn:Hk; [|auto].
  set (w0 := {| heap := heap w; next_pid := next_pid w; tasks := delete k (tasks w);
                trace := trace w |}).
  destruct (flow_take w w0 k p eq_refl eq_refl eq_refl Hinv Hk) as (Hinv0 & Hnin & Hrun).
  change (wp (task p) (fun _ w' => flow_inv w' /\ next_pid w' = next_pid w) w0).
  unfold task. apply wp_bind, wp_lock.
  - intros q sq Hq Hsq. cbn [sender_p] in Hq. injection Hq as <-.
    apply (flow_step p w0 Hinv0 Hb).
    exists sq. destruct (Hrun sq Hsq) as [Hr Hs]. auto.
  - apply wp_ret. auto.
Qed.

Lemma wp_erase p (Q : unit -> world -> Prop) w :
  Q tt {| heap := delete p (heap w); next_pid := next_pid w; tasks := tasks w;
          trace := trace w |} ->
  wp (erase p) Q w.
Proof. auto. Qed.

Lemma wp_alloc sp (Q : pid -> world -> Prop) w :
  Q (next_pid w) {| heap := <[next_pid w := sp]> (heap w); next_pid := S (next_pid w);
                    tasks := tasks w; trace := trace w |} ->
  wp (alloc sp) Q w.
Proof. auto. Qed.

(** an object is destroyed *)
Lemma flow_erase w p tr :
  flow_inv w ->
  flow_inv {| heap := delete p (heap w); next_pid := next_pid w; tasks := tasks w;
              trace := tr |}.
Proof.
  intros Hinv.
  set (w' := {| heap := delete p (heap w); next_pid := next_pid w; tasks := tasks w;
                trace := tr |}).
  assert (Hold : forall x sx, heap w' !! x = Some sx -> heap w !! x = Some sx).
  { intros x sx Hx. cbn [heap w'] in Hx. apply lookup_delete_Some in Hx as [_ Hx]. exact Hx. }
  assert (Hle : forall l, (holding w' l <= holding w l)%nat).
  { intros l. apply holding_le. intros t _. unfold nonempty.
    destruct (heap w' !! t) as [st|] eqn:Ht; [|discriminate].
    rewrite (Hold _ _ Ht). auto. }
  split; cbn [next_pid tasks w'].
  - intros x sx Hx. eapply fl_dom; eauto.
  - intros x sx u Hx Hu. eapply fl_older; eauto.
  - intros q sq t Hq Hin. eapply fl_entry; eauto.
  - intros q sq t st Hq Hin Ht. eapply fl_down; eauto.
  - intros x sx Hx Hr. eapply fl_idle; eauto.
  - intros x sx Hin Hx. eapply fl_task; eauto.
  - apply (fl_once w Hinv).
  - apply (fl_sched w Hinv).
  - intros x sx Hx. pose proof (fl_wait w Hinv x sx (Hold _ _ Hx)). specialize (Hle (_downstream sx)).
    lia.
  - intros s ss u Hs Hu. eapply fl_one; eauto.
  - intros s ss u su Hs Hu Hsu Hne. eapply fl_listed; eauto.
  - intros x sx Hx. eapply fl_nodup; eauto.
  - intros x sx Hx. eapply fl_short; eauto.
Qed.

(** a process is made: idle, its queue and deque empty *)
Lemma flow_alloc w sp tr :
  flow_inv w ->
  _process_running sp = false -> _process_suspend_count sp = 0 ->
  _process_message_queue sp = [] -> _downstream sp = [] ->
  (forall u, _upstream sp = Some u -> (u < next_pid w)%nat) ->
  flow_inv {| heap := <[next_pid w := sp]> (heap w); next_pid := S (next_pid w);
              tasks := tasks w; trace := tr |}.
Proof.
  intros Hinv Hr Hs Hq Hd Hu.
  set (w' := {| heap := <[next_pid w := sp]> (heap w); next_pid := S (next_pid w);
                tasks := tasks w; trace := tr |}).
  assert (Hfresh : heap w !! next_pid w = None).
  { destruct (heap w !! next_pid w) as [sx|] eqn:Hx; [|reflexivity].
    pose proof (fl_dom w Hinv _ _ Hx). lia. }
  assert (Hold : forall x sx, heap w' !! x = Some sx ->
             (x = next_pid w /\ sx = sp) \/ (x <> next_pid w /\ heap w !! x = Some sx)).
  { intros x sx Hx. cbn [heap w'] in Hx. destruct (decide (x = next_pid w)) as [->|Hne].
    - rewrite lookup_insert_eq in Hx. injection Hx as <-. auto.
    - rewrite lookup_insert_ne in Hx by congruence. auto. }
  assert (Hsame : forall x sx, heap w !! x = Some sx ->
             holding w' (_downstream sx) = holding w (_downstream sx)).
  { intros x sx Hx. apply holding_ext. intros t Hin. unfold nonempty. cbn [heap w'].
    rewrite lookup_insert_ne; [reflexivity|].
    pose proof (fl_entry w Hinv x sx t Hx Hin). lia. }
  split; cbn [next_pid tasks w'].
  - intros x sx Hx. destruct (Hold _ _ Hx) as [(-> & ->)|(Hne & Hx0)]; [lia|].
    pose proof (fl_dom w Hinv _ _ Hx0). lia.
  - intros x sx u Hx Hux. destruct (Hold _ _ Hx) as [(-> & ->)|(Hne & Hx0)].
    + apply Hu. exact Hux.
    + eapply fl_older; eauto.
  - intros q sq t Hq' Hin. destruct (Hold _ _ Hq') as [(-> & ->)|(Hne & Hq0)].
    + rewrite Hd in Hin. inversion Hin.
    + pose proof (fl_entry w Hinv q sq t Hq0 Hin). lia.
  - intros q sq t st Hq' Hin Ht. destruct (Hold _ _ Hq') as [(-> & ->)|(Hne & Hq0)].
    { rewrite Hd in Hin. inversion Hin. }
    destruct (Hold _ _ Ht) as [(-> & ->)|(Hnt & Ht0)].
    + pose proof (fl_entry w Hinv q sq _ Hq0 Hin). lia.
    + eapply fl_down; eauto.
  - intros x sx Hx Hrx. destruct (Hold _ _ Hx) as [(-> & ->)|(Hne & Hx0)]; [exact Hs|].
    eapply fl_idle; eauto.
  - intros x sx Hin Hx. destruct (Hold _ _ Hx) as [(-> & ->)|(Hne & Hx0)].
    + pose proof (fl_sched w Hinv _ Hin). lia.
    + eapply fl_task; eauto.
  - apply (fl_once w Hinv).
  - intros x Hin. pose proof (fl_sched w Hinv _ Hin). lia.
  - intros x sx Hx. destruct (Hold _ _ Hx) as [(-> & ->)|(Hne & Hx0)].
    + rewrite Hd, Hs. cbn. unfold size_modulus. lia.
    + rewrite (Hsame x sx Hx0). eapply fl_wait; eauto.
  - intros s ss u Hsx Hux. destruct (Hold _ _ Hsx) as [(-> & ->)|(Hne & Hs0)].
    + rewrite Hq. cbn. lia.
    + eapply fl_one; eauto.
  - intros s ss u su Hsx Hux Hsu Hne. destruct (Hold _ _ Hsx) as [(-> & ->)|(Hns & Hs0)].
    { rewrite Hq in Hne. contradiction. }
    destruct (Hold _ _ Hsu) as [(-> & ->)|(Hnu & Hu0)].
    + pose proof (fl_older w Hinv s ss _ Hs0 Hux). pose proof (fl_dom w Hinv s ss Hs0). lia.
    + eapply fl_listed; eauto.
  - intros x sx Hx. destruct (Hold _ _ Hx) as [(-> & ->)|(Hne & Hx0)].
    + rewrite Hd. apply NoDup_nil_2.
    + eapply fl_nodup; eauto.
  - intros x sx Hx. destruct (Hold _ _ Hx) as [(-> & ->)|(Hne & Hx0)].
    + rewrite Hd. cbn. lia.
    + pose proof (fl_short w Hinv x sx Hx0). lia.
Qed.

(** *** The handles *)

(** the last owner destroys the process: the upstream pointer first, the
    elements of the deque last *)
Lemma flow_release_last p (up : M unit) (es : list sender) w :
  flow_inv w ->
  (forall w0, flow_inv w0 ->
     wp up (fun _ w' => flow_inv w' /\ next_pid w' = next_pid w0) w0) ->
  wp (erase p ;; up ;; foldr (fun e k => sender_destroy e ;; k) (ret tt) es)
     (fun _ w' => flow_inv w' /\ next_pid w' = next_pid w) w.
Proof.
  intros Hinv Hup. apply wp_bind, wp_erase.
  eapply wp_seq; [apply Hup, flow_erase; exact Hinv|].
  intros [] w1 [Hinv1 Hn1]. cbn [next_pid] in Hn1.
  eapply wp_mono; [apply flow_destroy_entries; exact Hinv1|].
  intros [] w' (Hinv' & _ & _ & Hn). split; [exact Hinv'|congruence].
Qed.

(** the end of a shared pointer *)
Lemma flow_release fuel p w :
  flow_inv w ->
  wp (release fuel p) (fun _ w' => flow_inv w' /\ next_pid w' = next_pid w) w.
Proof.
  revert p w. induction fuel as [|fuel IH]; intros p w Hinv; cbn [release];
    apply wp_bind, wp_load; intros sp Hp.
  - destruct (use_count sp) as [|[|n]].
    3: apply wp_store; split; [flow_same|reflexivity].
    all: apply flow_release_last; [exact Hinv|]; intros w0 Hinv0.
    all: destruct (_upstream sp) as [u|]; [exact I|apply wp_ret; auto].
  - destruct (use_count sp) as [|[|n]].
    3: apply wp_store; split; [flow_same|reflexivity].
    all: apply flow_release_last; [exact Hinv|]; intros w0 Hinv0.
    all: destruct (_upstream sp) as [u|]; [apply IH; exact Hinv0|apply wp_ret; auto].
Qed.

Lemma flow_receiver_destroy r w :
  flow_inv w ->
  wp (receiver_destroy r) (fun _ w' => flow_inv w' /\ next_pid w' = next_pid w) w.
Proof.
  intros Hinv. unfold receiver_destroy. destruct (receiver_p r) as [p|].
  - eapply (wp_seq _ _ (fun _ w' => flow_inv w' /\ next_pid w' = next_pid w)).
    + apply wp_when; [|auto]. intros _.
      eapply wp_mono; [apply flow_remove_receiver; exact Hinv|].
      intros [] w' [Hinv' (_ & _ & Hn)]. auto.
    + intros [] w1 [Hinv1 Hn1].
      eapply wp_mono; [apply flow_release; exact Hinv1|].
      intros [] w' [Hinv' Hn]. split; [exact Hinv'|congruence].
  - apply wp_ret. auto.
Qed.

Lemma flow_receiver_copy r w :
  flow_inv w ->
  wp (receiver_copy r) (fun _ w' => flow_inv w' /\ next_pid w' = next_pid w) w.
Proof.
  intros Hinv. unfold receiver_copy. destruct (receiver_p r) as [p|].
  - eapply wp_seq; [apply flow_acquire; exact Hinv|].
    intros [] w1 [Hinv1 (_ & _ & Hn1)].
    eapply wp_seq; [apply flow_add_sender; exact Hinv1|].
    intros [] w2 [Hinv2 (_ & _ & Hn2)]. apply wp_ret. split; [exact Hinv2|congruence].
  - apply wp_ret. auto.
Qed.

Lemma flow_set_ready r w :
  flow_inv w ->
  wp (set_ready r) (fun _ w' => flow_inv w' /\ next_pid w' = next_pid w) w.
Proof.
  intros Hinv. unfold set_ready.
  eapply (wp_seq _ _ (fun _ w' => flow_inv w' /\ next_pid w' = next_pid w)).
  - destruct (receiver_p r) as [p|]; [|apply wp_ret; auto].
    apply wp_when; [|auto]. intros _.
    eapply wp_mono; [apply flow_remove_receiver; exact Hinv|].
    intros [] w' [Hinv' (_ & _ & Hn)]. auto.
  - intros [] w1 H1. apply wp_ret. exact H1.
Qed.

Lemma flow_sender_copy e w :
  flow_inv w ->
  wp (sender_copy e) (fun e' w' => e' = Sender (sender_p e) /\ flow_inv w' /\ but e w w') w.
Proof.
  intros Hinv. unfold sender_copy. apply wp_bind, wp_lock.
  - intros p sp He Hp. eapply wp_seq; [apply flow_add_sender; exact Hinv|].
    intros [] w' [Hinv' (Hh & Ht & Hn)]. apply wp_ret.
    split; [reflexivity|]. split; [exact Hinv'|].
    repeat split; [| |exact Hn]; intros x Hx; [apply Hh|apply Ht]; congruence.
  - apply wp_bind, wp_ret, wp_ret. split; [reflexivity|]. split; [exact Hinv|].
    repeat split; auto.
Qed.

(** a value is sent into a channel from outside *)
Lemma flow_sender_call p sp (v : V) w :
  flow_inv w -> heap w !! p = Some sp -> _upstream sp = None ->
  wp (sender_call (Sender (Some p)) v) (fun _ w' => flow_inv w' /\ next_pid w' = next_pid w) w.
Proof.
  intros Hinv Hp Hup. unfold sender_call. apply wp_bind, wp_lock.
  - intros q sq Hq Hsq. cbn [sender_p] in Hq. injection Hq as <-.
    eapply wp_mono.
    + apply flow_send; [exact Hinv|]. intros sp' u su Hp' Hu. congruence.
    + intros [] w' [Hinv' (_ & _ & Hn)]. auto.
  - apply wp_ret. auto.
Qed.

Lemma flow_channel w :
  flow_inv w ->
  wp channel (fun _ w' => flow_inv w' /\ next_pid w' = S (next_pid w)) w.
Proof.
  intros Hinv. unfold channel. apply wp_bind, wp_alloc, wp_ret.
  split; [|reflexivity]. apply flow_alloc; try reflexivity; [exact Hinv|].
  intros u Hu. discriminate.
Qed.

Lemma wp_after {A B} (m : M A) (k : A -> M B) (Q : B -> world -> Prop) w a w' :
  m w = Ok a w' -> wp (k a) Q w' -> wp (bind m k) Q w.
Proof. unfold wp, bind. intros ->. auto. Qed.

(** a copy of a sender whose process is alive *)
Lemma sender_copy_live t st w :
  heap w !! t = Some st ->
  sender_copy (Sender (Some t)) w
  = Ok (Sender (Some t))
       {| heap := <[t := set_sender_count (size_incr (_sender_count st)) st]> (heap w);
          next_pid := next_pid w; tasks := tasks w; trace := trace w |}.
Proof.
  intros Ht. unfold sender_copy, add_sender, lock, load, store, bind, ret. cbn [sender_p].
  rewrite Ht. cbn. rewrite Ht. reflexivity.
Qed.

(** [operator|]: the stage is made and its sender appended to the deque of
    the upstream *)
Lemma flow_pipe_live q (F : process) (f : St) w :
  flow_inv w ->
  wp (acquire q ;;
      let* p := alloc (make_shared_process F f (Some q)) in
      map q (Sender (Some p)) ;;
      ret (Receiver (Some p) false))
     (fun _ w' => flow_inv w' /\ next_pid w' = S (next_pid w)) w.
Proof.
  intros Hinv.
  unfold acquire. apply wp_bind, wp_bind, wp_load. intros sq0 Hq0. apply wp_store.
  set (sq := set_use_count (S (use_count sq0)) sq0).
  set (w1 := {| heap := <[q := sq]> (heap w); next_pid := next_pid w; tasks := tasks w;
                trace := trace w |}).
  assert (Hinv1 : flow_inv w1) by (unfold w1, sq; flow_same).
  assert (Hq1 : heap w1 !! q = Some sq) by (cbn [heap w1]; apply lookup_insert_eq).
  apply wp_bind, wp_alloc.
  change (next_pid w1) with (next_pid w).
  set (t := next_pid w).
  set (st := make_shared_process F f (Some q)).
  set (w2 := {| heap := <[t := st]> (heap w1); next_pid := S t; tasks := tasks w1;
                trace := trace w1 |}).
  assert (Hqt : q <> t).
  { pose proof (fl_dom w Hinv q sq0 Hq0). unfold t. lia. }
  assert (Hinv2 : flow_inv w2).
  { apply (flow_alloc w1 st (trace w1) Hinv1); try reflexivity.
    intros u Hu. injection Hu as <-. exact (fl_dom w1 Hinv1 q sq Hq1). }
  assert (Ht2 : heap w2 !! t = Some st) by (cbn [heap w2]; apply lookup_insert_eq).
  apply wp_bind. unfold map.
  eapply wp_after; [apply (sender_copy_live t st w2 Ht2)|].
  set (st' := set_sender_count (size_incr (_sender_count st)) st).
  set (w3 := {| heap := <[t := st']> (heap w2); next_pid := next_pid w2; tasks := tasks w2;
                trace := trace w2 |}).
  assert (Hinv3 : flow_inv w3) by (unfold w3, st'; flow_same).
  assert (Ht3 : heap w3 !! t = Some st') by (cbn [heap w3]; apply lookup_insert_eq).
  assert (Hq3 : heap w3 !! q = Some sq).
  { cbn [heap w3 w2]. rewrite !lookup_insert_ne by congruence. exact Hq1. }
  apply wp_bind, wp_load. intros sq3 Hsq3.
  assert (sq3 = sq) as -> by congruence. clear Hsq3.
  apply wp_bind, wp_store.
  set (sq' := set_downstream (_downstream sq ++ [Sender (Some t)]) sq).
  set (w4 := {| heap := <[q := sq']> (heap w3); next_pid := next_pid w3; tasks := tasks w3;
                trace := trace w3 |}).
  assert (Hfresh : Sender (Some t) ∉ _downstream sq).
  { intros Hin. pose proof (fl_entry w1 Hinv1 q sq t Hq1 Hin) as Hlt.
    cbn [next_pid w1] in Hlt. unfold t in Hlt. lia. }
  assert (Hinv4 : flow_inv w4).
  { refine (flow_relink w3 w4 q sq sq' eq_refl eq_refl eq_refl Hinv3 Hq3
              eq_refl eq_refl eq_refl eq_refl _ _ _ _ _); cbn [_downstream sq' set_downstream].
    - intros t' Hin. apply elem_of_app in Hin as [Hin|Hin].
      + split; [exact (fl_entry w3 Hinv3 q sq t' Hq3 Hin)|].
        intros st3 Hst3. exact (fl_down w3 Hinv3 q sq t' st3 Hq3 Hin Hst3).
      + apply list_elem_of_singleton in Hin. injection Hin as ->.
        split; [cbn [next_pid w3 w2]; lia|].
        intros st3 Hst3. assert (st3 = st') as -> by congruence. reflexivity.
    - rewrite holding_app. cbn [holding]. unfold holds, nonempty. cbn [sender_p].
      rewrite Ht3. cbn [st' st _process_message_queue make_shared_process set_sender_count
                        deque_empty negb].
      pose proof (fl_wait w3 Hinv3 q sq Hq3). lia.
    - intros s ss Hs Hu Hne. apply elem_of_app. left.
      exact (fl_listed w3 Hinv3 s ss q sq Hs Hu Hq3 Hne).
    - apply NoDup_app. split; [exact (fl_nodup w3 Hinv3 q sq Hq3)|].
      split; [|apply NoDup_singleton].
      intros x Hx Hx'. apply list_elem_of_singleton in Hx' as ->. contradiction.
    - rewrite length_app. cbn [length].
      pose proof (fl_short w1 Hinv1 q sq Hq1) as Hlen. cbn [next_pid w3 w2 w1].
      cbn [next_pid w1] in Hlen. unfold t. lia. }
  eapply wp_mono; [apply flow_sender_destroy; exact Hinv4|].
  intros [] w' [Hinv' (_ & _ & Hn)]. apply wp_ret. split; [exact Hinv'|].
  rewrite Hn. reflexivity.
Qed.

Lemma flow_pipe r (F : process) (f : St) w r' w' :
  flow_inv w ->
  pipe r F f w = Ok r' w' ->
  flow_inv w' /\ next_pid w' = S (next_pid w).
Proof.
  intros Hinv. unfold pipe. destruct (receiver_p r) as [q|]; [|discriminate].
  intros Hrun. exact (wp_ok _ _ _ _ _ (flow_pipe_live q F f w Hinv) Hrun).
Qed.

(** *** No move takes an identifier back *)

Lemma grows_ret {A} (a : A) : grows (@ret V St A a).
Proof. intros w a' w' [= _ <-]. lia. Qed.

Lemma grows_fail {A} f : grows (@fail V St A f).
Proof. intros w a w' [=]. Qed.

Lemma grows_bind {A B} (m : M A) (k : A -> M B) :
  grows m -> (forall a, grows (k a)) -> grows (bind m k).
Proof.
  intros Hm Hk w b w' Hrun. unfold bind in Hrun.
  destruct (m w) as [a w1|f] eqn:E; [|discriminate].
  pose proof (Hm w a w1 E). pose proof (Hk a w1 b w' Hrun). lia.
Qed.

Lemma grows_load p : grows (load p).
Proof.
  intros w a w'. unfold load. destruct (heap w !! p); [|discriminate].
  intros [= _ <-]. lia.
Qed.

Lemma grows_store p sp : grows (store p sp).
Proof. intros w a w' E. inversion E; subst; cbn; lia. Qed.

Lemma grows_erase p : grows (erase p).
Proof. intros w a w' E. inversion E; subst; cbn; lia. Qed.

Lemma grows_alloc sp : grows (alloc sp).
Proof. intros w a w' E. inversion E; subst; cbn; lia. Qed.

Lemma grows_emit e : grows (emit e).
Proof. intros w a w' E. inversion E; subst; cbn; lia. Qed.

Lemma grows_run p : grows (run p).
Proof. intros w a w' E. inversion E; subst; cbn; lia. Qed.

Lemma grows_lock s : grows (lock s).
Proof.
  intros w a w'. unfold lock.
  destruct (sender_p s) as [p|]; [destruct (heap w !! p)|]; intros [= _ <-]; lia.
Qed.

Lemma grows_when b (m : M unit) : grows m -> grows (when b m).
Proof. intros Hm. destruct b; [exact Hm|apply grows_ret]. Qed.

Ltac grow_step :=
  first
    [ solve [auto with grow nocore]
    | apply grows_ret | apply grows_fail
    | apply grows_load | apply grows_store | apply grows_erase | apply grows_alloc
    | apply grows_emit | apply grows_run | apply grows_lock
    | apply grows_when
    | apply grows_bind; [|intros ?]
    | match goal with
      | |- grows (match ?x with _ => _ end) => destruct x
      | |- grows (if ?x then _ else _) => destruct x
      | |- grows (let '(_, _) := ?x in _) => destruct x
      end ].

Lemma grows_remove_sender p : grows (remove_sender p).
Proof. unfold remove_sender, remove_sender_locked. repeat grow_step. Qed.
#[local] Hint Resolve grows_remove_sender : grow.

Lemma grows_add_sender p : grows (add_sender p).
Proof. unfold add_sender. repeat grow_step. Qed.
#[local] Hint Resolve grows_add_sender : grow.

Lemma grows_remove_receiver p : grows (remove_receiver p).
Proof. unfold remove_receiver, remove_receiver_locked. repeat grow_step. Qed.
#[local] Hint Resolve grows_remove_receiver : grow.

Lemma grows_sender_destroy s : grows (sender_destroy s).
Proof. unfold sender_destroy. repeat grow_step. Qed.
#[local] Hint Resolve grows_sender_destroy : grow.

Lemma grows_destroy_entries (es : list sender) :
  grows (foldr (fun e k => sender_destroy e ;; k) (ret tt) es).
Proof. induction es as [|e es IH]; cbn [foldr]; repeat grow_step; auto. Qed.
#[local] Hint Resolve grows_destroy_entries : grow.

Lemma grows_task_done p : grows (task_done p).
Proof. unfold task_done, task_done_locked, clear_downstream. repeat grow_step. Qed.
#[local] Hint Resolve grows_task_done : grow.

Lemma grows_cts p : grows (cts p).
Proof. unfold cts. repeat grow_step. Qed.
#[local] Hint Resolve grows_cts : grow.

Lemma grows_send p (v : V) : grows (send p v).
Proof. unfold send, send_locked. repeat grow_step. Qed.
#[local] Hint Resolve grows_send : grow.

Lemma grows_sender_call s (v : V) : grows (sender_call s v).
Proof. unfold sender_call. repeat grow_step. Qed.
#[local] Hint Resolve grows_sender_call : grow.

Lemma grows_for_each_n (l : list sender) n (v : V) :
  grows (for_each_n l n (fun e => sender_call e v)).
Proof.
  revert l. induction n as [|n IH]; intros l; cbn [for_each_n]; repeat grow_step; auto.
Qed.
#[local] Hint Resolve grows_for_each_n : grow.

Lemma grows_broadcast p (v : V) : grows (broadcast p v).
Proof. unfold broadcast, broadcast_snapshot, broadcast_deliver. repeat grow_step. Qed.
#[local] Hint Resolve grows_broadcast : grow.

Lemma grows_dequeue await_ p : grows (dequeue await_ p).
Proof. unfold dequeue, upstream_cts, process_close. repeat grow_step. Qed.
#[local] Hint Resolve grows_dequeue : grow.

Lemma grows_step_loop fuel await_ p : grows (step_loop fuel await_ p).
Proof. induction fuel as [|fuel IH]; cbn [step_loop]; repeat grow_step; auto. Qed.
#[local] Hint Resolve grows_step_loop : grow.

Lemma grows_step p : grows (step p).
Proof.
  unfold step, step_call, step_yield, step_tail, upstream_cts. repeat grow_step.
Qed.
#[local] Hint Resolve grows_step : grow.

Lemma grows_execute k : grows (execute k).
Proof.
  intros w a w' Hrun. unfold execute in Hrun.
  destruct (tasks w !! k) as [p|]; [|injection Hrun as _ <-; lia].
  assert (G : grows (task p)) by (unfold task; repeat grow_step).
  exact (G _ _ _ Hrun).
Qed.

Lemma grows_release fuel p : grows (release fuel p).
Proof.
  revert p. induction fuel as [|fuel IH]; intros p; cbn [release]; repeat grow_step; auto.
Qed.
#[local] Hint Resolve grows_release : grow.

Lemma grows_sender_copy s : grows (sender_copy s).
Proof. unfold sender_copy. repeat grow_step. Qed.
#[local] Hint Resolve grows_sender_copy : grow.

Lemma grows_channel : grows channel.
Proof. unfold channel. repeat grow_step. Qed.

Lemma grows_receiver_copy r : grows (receiver_copy r).
Proof. unfold receiver_copy, acquire. repeat grow_step. Qed.

Lemma grows_receiver_destroy r : grows (receiver_destroy r).
Proof. unfold receiver_destroy. repeat grow_step. Qed.

Lemma grows_set_ready r : grows (set_ready r).
Proof. unfold set_ready. repeat grow_step. Qed.

Lemma grows_pipe r (F : process) (f : St) : grows (pipe r F f).
Proof. unfold pipe, acquire, map. repeat grow_step. Qed.

Lemma api_step_grows w w' : api_step w w' -> (next_pid w <= next_pid w')%nat.
Proof.
  intros Hstep. destruct Hstep as
    [w s r w' Hrun|w p sp v w' _ _ Hrun|w p sp s' w' _ _ Hrun|w p sp w' _ _ Hrun
    |w r r' w' Hrun|w r w' Hrun|w q w' Hrun|w r r' w' Hrun|w r F f r' w' Hrun|w k w' Hrun];
    revert Hrun.
  - apply grows_channel.
  - apply grows_sender_call.
  - apply grows_sender_copy.
  - apply grows_sender_destroy.
  - apply grows_receiver_copy.
  - apply grows_receiver_destroy.
  - apply grows_release.
  - apply grows_set_ready.
  - apply grows_pipe.
  - apply grows_execute.
Qed.

(** *** The states of a program *)

Lemma flow_empty : flow_inv (@empty_world V St).
Proof.
  split; cbn [heap next_pid tasks empty_world];
    try (intros;
         match goal with
         | H : ∅ !! _ = Some _ |- _ => rewrite lookup_empty in H; discriminate
         end).
  - apply NoDup_nil_2.
  - intros p Hin. inversion Hin.
Qed.

Lemma api_step_flow w w' : flow_inv w -> bounded w -> api_step w w' -> flow_inv w'.
Proof.
  intros Hinv Hb Hstep. destruct Hstep as
    [w s r w' Hrun|w p sp v w' Hp Hu Hrun|w p sp s' w' _ _ Hrun|w p sp w' _ _ Hrun
    |w r r' w' Hrun|w r w' Hrun|w q w' Hrun|w r r' w' Hrun|w r F f r' w' Hrun|w k w' Hrun].
  - exact (proj1 (wp_ok _ _ _ _ _ (flow_channel w Hinv) Hrun)).
  - exact (proj1 (wp_ok _ _ _ _ _ (flow_sender_call p sp v w Hinv Hp Hu) Hrun)).
  - exact (proj1 (proj2 (wp_ok _ _ _ _ _ (flow_sender_copy _ w Hinv) Hrun))).
  - exact (proj1 (wp_ok _ _ _ _ _ (flow_sender_destroy _ w Hinv) Hrun)).
  - exact (proj1 (wp_ok _ _ _ _ _ (flow_receiver_copy r w Hinv) Hrun)).
  - exact (proj1 (wp_ok _ _ _ _ _ (flow_receiver_destroy r w Hinv) Hrun)).
  - exact (proj1 (wp_ok _ _ _ _ _ (flow_release q q w Hinv) Hrun)).
  - exact (proj1 (wp_ok _ _ _ _ _ (flow_set_ready r w Hinv) Hrun)).
  - exact (proj1 (flow_pipe r F f w r' w' Hinv Hrun)).
  - exact (proj1 (wp_ok _ _ _ _ _ (flow_execute k w Hinv Hb) Hrun)).
Qed.

Lemma bounded_le w w' : (next_pid w <= next_pid w')%nat -> bounded w' -> bounded w.
Proof. unfold bounded. lia. Qed.

(** the flow control holds in every state of a program that has made
    fewer processes than a counter can count *)
Lemma reachable_flow w : reachable w -> bounded w -> flow_inv w.
Proof.
  unfold reachable. intros Hreach. revert w Hreach.
  refine (rtc_ind_r _ _ _ _); [intros _; apply flow_empty|].
  intros w1 w2 Hreach Hstep IH Hb.
  - pose proof (bounded_le w1 w2 (api_step_grows w1 w2 Hstep) Hb) as Hb1.
    exact (api_step_flow w1 w2 (IH Hb1) Hb1 Hstep).
Qed.

(** X15.  In a state that a program reaches through the public interface,
    with fewer processes made than [std::size_t] can count, a pending
    closure that the executor runs trips no assertion of [task_done], [cts]
    and [broadcast], and [for_each_n] does not walk past the end of the
    deque: the closure returns, in a state of the program where the flow
    control holds again, or it finds a pointer without an object. *)
Theorem execute_trips_no_assertion w k :
  reachable w -> bounded w ->
  match execute k w with
  | Ok _ w' => reachable w' /\ flow_inv w'
  | Fail f => exists p, f = Dangling p
  end.
Proof.
  intros Hreach Hb. pose proof (reachable_flow w Hreach Hb) as Hinv.
  pose proof (flow_execute k w Hinv Hb) as Hwp. unfold wp in Hwp.
  destruct (execute k w) as [[] w'|f] eqn:Hrun.
  - split; [|exact (proj1 Hwp)].
    eapply rtc_r; [exact Hreach|]. eapply Api_execute. exact Hrun.
  - destruct f; try contradiction.
    + eauto.
    + exfalso. exact (fueled_execute k w Hrun).
Qed.

(** X16.  Back-pressure: in a state of a program, a process that has an
    upstream holds one message at most; while it holds one, its sender is
    in the deque of the upstream and the upstream is suspended, so that it
    does not broadcast again before the message is taken. *)
Theorem stage_holds_one_message w s ss u :
  reachable w -> bounded w ->
  heap w !! s = Some ss -> _upstream ss = Some u ->
  (length (_process_message_queue ss) <= 1)%nat
  /\ forall su, heap w !! u = Some su -> _process_message_queue ss <> [] ->
       Sender (Some s) ∈ _downstream su /\ 1 <= _process_suspend_count su.
Proof.
  intros Hreach Hb Hs Hu. pose proof (reachable_flow w Hreach Hb) as Hinv.
  split; [exact (fl_one w Hinv s ss u Hs Hu)|].
  intros su Hsu Hne.
  pose proof (fl_listed w Hinv s ss u su Hs Hu Hsu Hne) as Hin.
  split; [exact Hin|].
  assert (Hholds : holds w (Sender (Some s)) = true).
  { unfold holds, nonempty. cbn [sender_p]. rewrite Hs.
    destruct (_process_message_queue ss); [contradiction|reflexivity]. }
  pose proof (holding_some w _ _ Hin Hholds).
  pose proof (fl_wait w Hinv u su Hsu). lia.
Qed.

(** X17.  In a state of a program no process has two closures pending; a
    process with a pending closure is marked running and is not suspended,
    and a process that is not running is not suspended. *)
Theorem pending_closures_distinct w :
  reachable w -> bounded w ->
  NoDup (tasks w)
  /\ forall p sp, heap w !! p = Some sp ->
       (p ∈ tasks w -> _process_running sp = true /\ _process_suspend_count sp = 0)
       /\ (_process_running sp = false -> _process_suspend_count sp = 0 /\ p ∉ tasks w).
Proof.
  intros Hreach Hb. pose proof (reachable_flow w Hreach Hb) as Hinv.
  split; [exact (fl_once w Hinv)|].
  intros p sp Hp. split.
  - intros Hin. exact (fl_task w Hinv p sp Hin Hp).
  - intros Hidle. split; [exact (fl_idle w Hinv p sp Hp Hidle)|].
    intros Hin. destruct (fl_task w Hinv p sp Hin Hp) as [Hrun _]. congruence.
Qed.

(** *** Wake-up: no process with something to do is left behind *)

Lemma wlp_mono {A} (m : M A) (Q Q' : A -> world -> Prop) w :
  wlp m Q w -> (forall a w', Q a w' -> Q' a w') -> wlp m Q' w.
Proof. unfold wlp. destruct (m w); auto. Qed.

Lemma wlp_ret {A} (a : A) (Q : A -> world -> Prop) w : Q a w -> wlp (ret a) Q w.
Proof. auto. Qed.

Lemma wlp_fail {A} f (Q : A -> world -> Prop) w : wlp (fail f) Q w.
Proof. exact I. Qed.

Lemma wlp_bind {A B} (m : M A) (k : A -> M B) (Q : B -> world -> Prop) w :
  wlp m (fun a w1 => wlp (k a) Q w1) w -> wlp (bind m k) Q w.
Proof. unfold wlp, bind. destruct (m w); auto. Qed.

Lemma wlp_seq {A B} (m : M A) (k : A -> M B) (Q1 : A -> world -> Prop)
    (Q : B -> world -> Prop) w :
  wlp m Q1 w -> (forall a w1, Q1 a w1 -> wlp (k a) Q w1) -> wlp (bind m k) Q w.
Proof. intros Hm Hk. apply wlp_bind. eapply wlp_mono; [exact Hm|exact Hk]. Qed.

Lemma wlp_load p (Q : shared_process -> world -> Prop) w :
  (forall sp, heap w !! p = Some sp -> Q sp w) -> wlp (load p) Q w.
Proof. intros HQ. unfold wlp, load. destruct (heap w !! p); [auto|exact I]. Qed.

Lemma wlp_store p sp (Q : unit -> world -> Prop) w :
  Q tt {| heap := <[p := sp]> (heap w); next_pid := next_pid w;
          tasks := tasks w; trace := trace w |} ->
  wlp (store p sp) Q w.
Proof. auto. Qed.

Lemma wlp_erase p (Q : unit -> world -> Prop) w :
  Q tt {| heap := delete p (heap w); next_pid := next_pid w; tasks := tasks w;
          trace := trace w |} ->
  wlp (erase p) Q w.
Proof. auto. Qed.

Lemma wlp_alloc sp (Q : pid -> world -> Prop) w :
  Q (next_pid w) {| heap := <[next_pid w := sp]> (heap w); next_pid := S (next_pid w);
                    tasks := tasks w; trace := trace w |} ->
  wlp (alloc sp) Q w.
Proof. auto. Qed.

Lemma wlp_emit e (Q : unit -> world -> Prop) w :
  Q tt {| heap := heap w; next_pid := next_pid w; tasks := tasks w;
          trace := trace w ++ [e] |} ->
  wlp (emit e) Q w.
Proof. auto. Qed.

Lemma wlp_run p (Q : unit -> world -> Prop) w :
  Q tt {| heap := heap w; next_pid := next_pid w; tasks := tasks w ++ [p];
          trace := trace w |} ->
  wlp (run p) Q w.
Proof. auto. Qed.

Lemma wlp_when b (m : M unit) (Q : unit -> world -> Prop) w :
  (b = true -> wlp m Q w) -> (b = false -> Q tt w) -> wlp (when b m) Q w.
Proof. intros Ht Hf. destruct b; cbn [when]; [apply Ht; reflexivity|apply Hf; reflexivity]. Qed.

Lemma wlp_lock s (Q : option pid -> world -> Prop) w :
  (forall p sp, sender_p s = Some p -> heap w !! p = Some sp -> Q (Some p) w) ->
  ((forall p, sender_p s = Some p -> heap w !! p = None) -> Q None w) ->
  wlp (lock s) Q w.
Proof.
  intros Hlive Hnone. unfold wlp, lock. destruct (sender_p s) as [p|]; [|apply Hnone; discriminate].
  destruct (heap w !! p) as [sp|] eqn:Hp; [eapply Hlive; eauto|].
  apply Hnone. intros q [= <-]. exact Hp.
Qed.

Lemma wlp_ok {A} (m : M A) (Q : A -> world -> Prop) w a w' :
  wlp m Q w -> m w = Ok a w' -> Q a w'.
Proof. unfold wlp. intros H E. rewrite E in H. exact H. Qed.

(** the object at [p] is replaced, closures are added at most: [p] is
    looked at again, and is excused under [E'] if it was under [E] *)
Lemma wake_update E E' w w' p sp' :
  heap w' = <[p := sp']> (heap w) ->
  (forall x, x ∈ tasks w -> x ∈ tasks w') ->
  (forall x, x <> p -> Some x <> E' -> Some x <> E) ->
  wake_but E w ->
  (_receiver_count sp' = 0 -> has_work sp' -> _process_running sp' = true) ->
  (Some p <> E' -> _process_running sp' = true -> _process_suspend_count sp' = 0 ->
   p ∈ tasks w') ->
  wake_but E' w'.
Proof.
  intros Hh Ht He Hinv Hready Hsched. split.
  - intros x sx Hx. rewrite Hh in Hx. destruct (decide (x = p)) as [->|Hne].
    + rewrite lookup_insert_eq in Hx. injection Hx as <-. exact Hready.
    + rewrite lookup_insert_ne in Hx by congruence. exact (wk_ready E w Hinv x sx Hx).
  - intros x sx Hx Hex. rewrite Hh in Hx. destruct (decide (x = p)) as [->|Hne].
    + rewrite lookup_insert_eq in Hx. injection Hx as <-. exact (Hsched Hex).
    + rewrite lookup_insert_ne in Hx by congruence. intros Hr Hs. apply Ht.
      exact (wk_sched E w Hinv x sx Hx (He x Hne Hex) Hr Hs).
Qed.

(** a store that leaves the process with no more to do than before, as
    running and as suspended as before *)
Lemma wake_store E w p sp sp' tr :
  wake_but E w ->
  heap w !! p = Some sp ->
  (_receiver_count sp' = 0 -> has_work sp' -> _receiver_count sp = 0 /\ has_work sp) ->
  _process_running sp' = _process_running sp ->
  (Some p <> E -> _process_suspend_count sp' = _process_suspend_count sp) ->
  wake_but E {| heap := <[p := sp']> (heap w); next_pid := next_pid w; tasks := tasks w;
                trace := tr |}.
Proof.
  intros Hinv Hp Hwork Hr Hs.
  apply (wake_update E E w _ p sp'); cbn [heap tasks]; auto.
  - rewrite Hr. intros Hz Hw. destruct (Hwork Hz Hw) as [Hz' Hw'].
    exact (wk_ready E w Hinv p sp Hp Hz' Hw').
  - intros He. rewrite Hr, (Hs He). exact (wk_sched E w Hinv p sp Hp He).
Qed.

(** nothing but the trace and the pending closures has changed, and no
    closure is gone *)
Lemma wake_frame E w w' :
  heap w' = heap w -> (forall x, x ∈ tasks w -> x ∈ tasks w') ->
  wake_but E w -> wake_but E w'.
Proof.
  intros Hh Ht Hinv. split.
  - intros x sx Hx. rewrite Hh in Hx. exact (wk_ready E w Hinv x sx Hx).
  - intros x sx Hx He Hr Hs. rewrite Hh in Hx. apply Ht.
    exact (wk_sched E w Hinv x sx Hx He Hr Hs).
Qed.

(** a store that marks [p] running where it has to, then schedules it *)
Lemma wake_kick E p sp sp' (do_run : bool) w :
  wake_but E w ->
  heap w !! p = Some sp ->
  _process_suspend_count sp' = _process_suspend_count sp ->
  _process_running sp' = _process_running sp || do_run ->
  (_receiver_count sp' = 0 -> has_work sp' -> _process_running sp || do_run = true) ->
  wlp (store p sp' ;; when do_run (run p)) (fun _ w' => wake_but E w') w.
Proof.
  intros Hinv Hp Hs Hr Hready. apply wlp_bind, wlp_store.
  destruct do_run; cbn [when]; [apply wlp_run|apply wlp_ret];
    (apply (wake_update E E w _ p sp'); cbn [heap tasks];
     [reflexivity| |auto|exact Hinv|rewrite Hr; exact Hready|]).
  - intros x Hx. apply elem_of_app. left. exact Hx.
  - intros _ _ _. apply elem_of_app. right. apply list_elem_of_singleton. reflexivity.
  - auto.
  - rewrite Hr, Hs, orb_false_r. exact (wk_sched E w Hinv p sp Hp).
Qed.

Lemma has_work_true sp :
  has_work sp ->
  negb (deque_empty (_process_message_queue sp)) || _process_close_queue sp = true.
Proof.
  intros [Hq|Hc]; [|rewrite Hc; apply orb_true_r].
  destruct (_process_message_queue sp); [contradiction|reflexivity].
Qed.

Ltac wake_same :=
  match goal with
  | Hinv : wake_but ?E ?w, Hp : heap ?w !! ?p = Some ?sp
    |- wake_but ?E {| heap := <[?p := ?sp']> (heap ?w) |} =>
      apply (wake_store E w p sp sp' _ Hinv Hp); [auto|reflexivity|intros _; reflexivity]
  end.

Lemma wake_add_sender E p w :
  wake_but E w -> wlp (add_sender p) (fun _ w' => wake_but E w') w.
Proof.
  intros Hinv. unfold add_sender. apply wlp_bind, wlp_load. intros sp Hp. apply wlp_store.
  wake_same.
Qed.

Lemma wake_acquire E p w :
  wake_but E w -> wlp (acquire p) (fun _ w' => wake_but E w') w.
Proof.
  intros Hinv. unfold acquire. apply wlp_bind, wlp_load. intros sp Hp. apply wlp_store.
  wake_same.
Qed.

(** the last sender is gone: the process is told to close, and is
    scheduled for it unless it runs or waits for a receiver *)
Lemma wake_remove_sender E p w :
  wake_but E w -> wlp (remove_sender p) (fun _ w' => wake_but E w') w.
Proof.
  intros Hinv. unfold remove_sender. apply wlp_bind, wlp_load. intros sp Hp. cbn zeta.
  destruct (_sender_count (set_sender_count (size_decr (_sender_count sp)) sp) =? 0).
  - unfold remove_sender_locked. cbn zeta.
    apply (wake_kick E p sp); [exact Hinv|exact Hp|reflexivity|reflexivity|].
    cbn. intros -> _. destruct (_process_running sp); reflexivity.
  - apply wlp_store. wake_same.
Qed.

(** the last receiver is ready: the process is scheduled if it has
    something to do *)
Lemma wake_remove_receiver E p w :
  wake_but E w -> wlp (remove_receiver p) (fun _ w' => wake_but E w') w.
Proof.
  intros Hinv. unfold remove_receiver. apply wlp_bind, wlp_load. intros sp Hp.
  destruct (result_is_void (process_T sp)); [apply wlp_ret; exact Hinv|].
  cbn zeta.
  destruct (_receiver_count (set_receiver_count (size_decr (_receiver_count sp)) sp) =? 0)
    eqn:Hz.
  - unfold remove_receiver_locked. cbn zeta.
    apply (wake_kick E p sp); [exact Hinv|exact Hp|reflexivity|reflexivity|].
    intros _ Hw. apply has_work_true in Hw. cbn in Hw |- *. rewrite Hw.
    destruct (_process_running sp); reflexivity.
  - apply wlp_store. apply (wake_store E w p sp _ _ Hinv Hp); [|reflexivity|reflexivity].
    intros Hrc. apply Z.eqb_neq in Hz. contradiction.
Qed.

Lemma wake_sender_destroy E e w :
  wake_but E w -> wlp (sender_destroy e) (fun _ w' => wake_but E w') w.
Proof.
  intros Hinv. unfold sender_destroy. apply wlp_bind, wlp_lock.
  - intros p sp _ _. apply wake_remove_sender. exact Hinv.
  - intros _. apply wlp_ret. exact Hinv.
Qed.

Lemma wake_destroy_entries E (es : list sender) w :
  wake_but E w ->
  wlp (foldr (fun e k => sender_destroy e ;; k) (ret tt) es) (fun _ w' => wake_but E w') w.
Proof.
  revert w. induction es as [|e es IH]; intros w Hinv; cbn [foldr].
  - apply wlp_ret. exact Hinv.
  - eapply wlp_seq; [apply wake_sender_destroy; exact Hinv|].
    intros [] w1 Hinv1. apply IH. exact Hinv1.
Qed.

(** a message arrives: the process is scheduled unless it runs or waits
    for a receiver *)
Lemma wake_send E p (v : V) w :
  wake_but E w -> wlp (send p v) (fun _ w' => wake_but E w') w.
Proof.
  intros Hinv. unfold send. apply wlp_bind, wlp_load. intros sp Hp.
  unfold send_locked. cbn zeta.
  set (do_run := (_receiver_count _ =? 0) && negb (_process_running _)).
  set (sp' := set_process_running _ _).
  apply wlp_bind, wlp_store, wlp_bind, wlp_emit.
  assert (Hready : _receiver_count sp' = 0 -> _process_running sp || do_run = true).
  { unfold do_run. cbn. intros ->. destruct (_process_running sp); reflexivity. }
  destruct do_run eqn:Hdo; cbn [when]; [apply wlp_run|apply wlp_ret];
    (apply (wake_update E E w _ p sp'); cbn [heap tasks];
     [reflexivity| |auto|exact Hinv|intros Hz _; exact (Hready Hz)|]).
  - intros x Hx. apply elem_of_app. left. exact Hx.
  - intros _ _ _. apply elem_of_app. right. apply list_elem_of_singleton. reflexivity.
  - auto.
  - cbn. rewrite orb_false_r. exact (wk_sched E w Hinv p sp Hp).
Qed.

Lemma wake_sender_call E e (v : V) w :
  wake_but E w -> wlp (sender_call e v) (fun _ w' => wake_but E w') w.
Proof.
  intros Hinv. unfold sender_call. apply wlp_bind, wlp_lock.
  - intros p sp _ _. apply wake_send. exact Hinv.
  - intros _. apply wlp_ret. exact Hinv.
Qed.

Lemma wake_for_each_n E (l : list sender) n (v : V) w :
  wake_but E w ->
  wlp (for_each_n l n (fun e => sender_call e v)) (fun _ w' => wake_but E w') w.
Proof.
  revert l w. induction n as [|n IH]; intros l w Hinv; cbn [for_each_n].
  - apply wlp_ret. exact Hinv.
  - destruct l as [|e l]; [apply wlp_fail|].
    eapply wlp_seq; [apply wake_sender_call; exact Hinv|].
    intros [] w1 Hinv1. apply IH. exact Hinv1.
Qed.

(** [cts]: when the count comes to zero the process is scheduled or
    marked idle, so that it needs no excuse afterwards *)
Lemma wake_cts E E' u w :
  (forall x, x <> u -> Some x <> E' -> Some x <> E) ->
  wake_but E w -> wlp (cts u) (fun _ w' => wake_but E' w') w.
Proof.
  intros He Hinv. unfold cts. apply wlp_bind, wlp_emit, wlp_bind, wlp_load.
  cbn [heap]. intros sp Hp.
  destruct (cts_locked sp) as [[sp' do_run]|] eqn:Hc; [|apply wlp_fail].
  unfold cts_locked in Hc. cbn zeta in Hc.
  cbn [_process_running set_process_suspend_count _process_suspend_count] in Hc.
  destruct (_process_running sp) eqn:Hr; [|discriminate]. cbn [negb] in Hc.
  destruct (size_decr (_process_suspend_count sp) =? 0) eqn:Hz.
  - destruct (_ || _ || _) eqn:Hwork in Hc; injection Hc as <- <-;
      apply wlp_bind, wlp_store; cbn [when]; [apply wlp_run|apply wlp_ret];
      (eapply (wake_update E E' w _ u); cbn [heap tasks];
       [reflexivity| |exact He|exact Hinv| |]).
    + intros x Hx. apply elem_of_app. left. exact Hx.
    + intros _ _. exact Hr.
    + intros _ _ _. apply elem_of_app. right. apply list_elem_of_singleton. reflexivity.
    + auto.
    + intros _ Hw. apply has_work_true in Hw. cbn in Hw, Hwork.
      rewrite <- orb_assoc, Hw, orb_true_r in Hwork. discriminate.
    + intros _. cbn. discriminate.
  - injection Hc as <- <-. apply wlp_bind, wlp_store. cbn [when]. apply wlp_ret.
    eapply (wake_update E E' w _ u); cbn [heap tasks]; [reflexivity|auto|exact He|exact Hinv| |].
    + intros _ _. exact Hr.
    + intros _ _ Hs. cbn in Hs. apply Z.eqb_neq in Hz. contradiction.
Qed.

Lemma wake_upstream_cts E p (do_cts : bool) w :
  wake_but E w -> wlp (upstream_cts p do_cts) (fun _ w' => wake_but E w') w.
Proof.
  intros Hinv. unfold upstream_cts. apply wlp_bind, wlp_load. intros sp Hp.
  destruct (_upstream sp) as [u|]; [|apply wlp_ret; exact Hinv].
  apply wlp_when; [|auto]. intros _. apply wlp_bind, wlp_emit.
  apply (wake_cts E E); [auto|]. eapply wake_frame; [| |exact Hinv]; auto.
Qed.

Lemma wake_process_close E p w :
  wake_but E w -> wlp (process_close p) (fun _ w' => wake_but E w') w.
Proof.
  intros Hinv. unfold process_close. apply wlp_bind, wlp_load. intros sp Hp.
  destruct (t_close (process_T sp)) as [close|]; [|apply wlp_ret; exact Hinv].
  apply wlp_bind, wlp_store, wlp_emit. cbn [heap next_pid tasks trace].
  apply (wake_store E w p sp _ _ Hinv Hp); [auto|reflexivity|intros _; reflexivity].
Qed.

(** what the locked block of [dequeue] and of the one-shot [step] leaves
    to do is no more than there was *)
Lemma dequeue_locked_work sp sp1 message (do_cts do_close : bool) :
  dequeue_locked sp = (sp1, message, do_cts, do_close) ->
  _receiver_count sp1 = _receiver_count sp
  /\ (has_work sp1 -> has_work sp)
  /\ _process_running sp1 = _process_running sp
  /\ _process_suspend_count sp1 = _process_suspend_count sp.
Proof.
  unfold dequeue_locked. destruct (_process_message_queue sp) as [|m rest] eqn:Hq;
    intros [= <- _ _ _]; cbn; repeat split.
  - intros [Hw|Hw]; [contradiction|discriminate].
  - intros [Hw|Hw]; [left; rewrite Hq; discriminate|right; exact Hw].
Qed.

Lemma wake_dequeue_store E p sp sp1 message (do_cts do_close : bool) w :
  wake_but E w -> heap w !! p = Some sp ->
  dequeue_locked sp = (sp1, message, do_cts, do_close) ->
  wake_but E {| heap := <[p := sp1]> (heap w); next_pid := next_pid w; tasks := tasks w;
                trace := trace w |}.
Proof.
  intros Hinv Hp Hd. destruct (dequeue_locked_work _ _ _ _ _ Hd) as (Hrc & Hw & Hr & Hs).
  apply (wake_store E w p sp sp1 _ Hinv Hp); [|exact Hr|intros _; exact Hs].
  intros Hz Hw1. split; [congruence|auto].
Qed.

Lemma wake_dequeue E await_ p w :
  wake_but E w -> wlp (dequeue await_ p) (fun _ w' => wake_but E w') w.
Proof.
  intros Hinv. unfold dequeue. apply wlp_bind, wlp_load. intros sp Hp.
  destruct (dequeue_locked sp) as [[[sp1 message] do_cts] do_close] eqn:Hd.
  apply wlp_bind, wlp_store.
  pose proof (wake_dequeue_store E p sp sp1 message do_cts do_close w Hinv Hp Hd) as Hinv1.
  eapply wlp_seq; [apply wake_upstream_cts; exact Hinv1|].
  intros [] w2 Hinv2. destruct message as [m|].
  - apply wlp_bind, wlp_load. intros sp2 Hp2.
    apply wlp_bind, wlp_store, wlp_bind, wlp_emit, wlp_ret. cbn [heap next_pid tasks trace].
    apply (wake_store E w2 p sp2 _ _ Hinv2 Hp2); [auto|reflexivity|intros _; reflexivity].
  - eapply wlp_seq.
    + apply wlp_when; [intros _; apply wake_process_close; exact Hinv2|].
      intros _. exact Hinv2.
    + intros [] w3 Hinv3. apply wlp_ret. exact Hinv3.
Qed.

(** [broadcast] by the process whose closure runs: the downstream
    processes are scheduled as [send] has it *)
Lemma wake_broadcast p (v : V) w :
  wake_but (Some p) w -> wlp (broadcast p v) (fun _ w' => wake_but (Some p) w') w.
Proof.
  intros Hinv. unfold broadcast. apply wlp_bind, wlp_emit.
  unfold broadcast_snapshot. apply wlp_bind, wlp_bind, wlp_load. cbn [heap]. intros sp Hp.
  destruct (negb (_process_suspend_count sp =? 0)); [apply wlp_fail|].
  apply wlp_bind, wlp_store, wlp_ret. cbn [heap next_pid tasks trace].
  unfold broadcast_deliver. apply wlp_bind, wlp_load. intros sp1 Hp1.
  apply wake_for_each_n.
  apply (wake_store (Some p) w p sp _ _ Hinv Hp); [auto|reflexivity|].
  intros He. congruence.
Qed.

Lemma wake_clear_downstream E p w :
  wake_but E w -> wlp (clear_downstream p) (fun _ w' => wake_but E w') w.
Proof.
  intros Hinv. unfold clear_downstream. apply wlp_bind, wlp_load. intros sp Hp.
  apply wlp_bind, wlp_store. apply wake_destroy_entries. wake_same.
Qed.

(** [task_done]: the process is scheduled again if it has something to
    do, and is idle otherwise: it needs no excuse afterwards *)
Lemma wake_task_done E E' p w :
  (forall x, x <> p -> Some x <> E' -> Some x <> E) ->
  wake_but E w -> wlp (task_done p) (fun _ w' => wake_but E' w') w.
Proof.
  intros He Hinv. unfold task_done. apply wlp_bind, wlp_emit, wlp_bind, wlp_load.
  cbn [heap]. intros sp Hp. unfold task_done_locked. cbn zeta.
  set (do_run := negb (deque_empty (_process_message_queue sp)) || _process_close_queue sp).
  apply wlp_bind, wlp_store, wlp_bind.
  destruct (do_run && _process_final sp); [apply wlp_fail|]. apply wlp_ret.
  cbn [heap next_pid tasks trace].
  eapply (wlp_seq _ _ (fun _ w' => wake_but E' w')).
  - destruct do_run eqn:Hdo; cbn [when]; [apply wlp_run|apply wlp_ret];
      (eapply (wake_update E E' w _ p); cbn [heap tasks];
       [reflexivity| |exact He|exact Hinv| |]).
    + intros x Hx. apply elem_of_app. left. exact Hx.
    + reflexivity.
    + intros _ _ _. apply elem_of_app. right. apply list_elem_of_singleton. reflexivity.
    + auto.
    + intros _ Hw. apply has_work_true in Hw. cbn in Hw. fold do_run in Hw. congruence.
    + intros _. cbn. discriminate.
  - intros [] w1 Hinv1. apply wlp_when; [|auto]. intros _.
    apply wake_clear_downstream. exact Hinv1.
Qed.

Lemma wake_step_loop E fuel await_ p w :
  wake_but E w -> wlp (step_loop fuel await_ p) (fun _ w' => wake_but E w') w.
Proof.
  revert w. induction fuel as [|fuel IH]; intros w Hinv; cbn [step_loop]; [apply wlp_fail|].
  apply wlp_bind, wlp_load. intros sp Hp.
  destruct (process_state_eqb _ _); [apply wlp_ret; exact Hinv|].
  eapply wlp_seq; [apply wake_dequeue; exact Hinv|].
  intros more w1 Hinv1. destruct more; [apply IH; exact Hinv1|apply wlp_ret; exact Hinv1].
Qed.

(** [broadcast] and the [cts] of the process itself, which ends the step *)
Lemma wake_broadcast_cts p (v : V) w :
  wake_but (Some p) w -> wlp (broadcast p v ;; cts p) (fun _ w' => wake_but None w') w.
Proof.
  intros Hinv. eapply wlp_seq; [apply wake_broadcast; exact Hinv|].
  intros [] w1 Hinv1. apply (wake_cts (Some p) None); [|exact Hinv1].
  intros x Hne _. congruence.
Qed.

Lemma wake_step_tail yield_ p w :
  wake_but (Some p) w -> wlp (step_tail yield_ p) (fun _ w' => wake_but None w') w.
Proof.
  intros Hinv. unfold step_tail. apply wlp_bind, wlp_load. intros sp Hp.
  destruct (process_state_eqb _ _).
  - apply (wake_task_done (Some p) None); [|exact Hinv]. intros x Hne _. congruence.
  - destruct (yield_ (_process sp)) as [v x].
    apply wlp_bind, wlp_store, wlp_bind, wlp_emit. cbn [heap next_pid tasks trace].
    apply wake_broadcast_cts.
    apply (wake_store (Some p) w p sp _ _ Hinv Hp); [auto|reflexivity|intros _; reflexivity].
Qed.

Lemma wake_step_yield await_ yield_ p w :
  wake_but (Some p) w ->
  wlp (step_yield await_ yield_ p) (fun _ w' => wake_but None w') w.
Proof.
  intros Hinv. unfold step_yield. apply wlp_bind, wlp_load. intros sp Hp.
  eapply wlp_seq; [apply wake_step_loop; exact Hinv|].
  intros [] w1 Hinv1. apply wake_step_tail. exact Hinv1.
Qed.

Lemma wake_step_call call p w :
  wake_but (Some p) w -> wlp (step_call call p) (fun _ w' => wake_but None w') w.
Proof.
  intros Hinv. unfold step_call. apply wlp_bind, wlp_load. intros sp Hp.
  destruct (dequeue_locked sp) as [[[sp1 message] do_cts] do_close] eqn:Hd.
  apply wlp_bind, wlp_store.
  pose proof (wake_dequeue_store _ p sp sp1 message do_cts do_close w Hinv Hp Hd) as Hinv1.
  eapply wlp_seq; [apply wake_upstream_cts; exact Hinv1|].
  intros [] w2 Hinv2. destruct message as [m|].
  - apply wlp_bind, wlp_load. intros sp2 Hp2.
    destruct (call (_process sp2) m) as [v x].
    apply wlp_bind, wlp_store, wlp_bind, wlp_emit. cbn [heap next_pid tasks trace].
    apply wake_broadcast_cts.
    apply (wake_store (Some p) w2 p sp2 _ _ Hinv2 Hp2);
      [auto|reflexivity|intros _; reflexivity].
  - apply (wake_task_done (Some p) None); [|exact Hinv2]. intros x Hne _. congruence.
Qed.

(** a step ends with [cts] or [task_done] of the process itself: the
    excuse ends with it *)
Lemma wake_step p w :
  wake_but (Some p) w -> wlp (step p) (fun _ w' => wake_but None w') w.
Proof.
  intros Hinv. unfold step. apply wlp_bind, wlp_load. intros sp Hp.
  destruct (t_body (process_T sp)) as [call|await_ yield_].
  - apply wake_step_call. exact Hinv.
  - apply wake_step_yield. exact Hinv.
Qed.

Lemma elem_of_delete_other {A} (l : list A) k (x y : A) :
  l !! k = Some y -> x <> y -> x ∈ l -> x ∈ delete k l.
Proof.
  intros Hk Hne Hin. rewrite <- (take_drop_middle _ _ _ Hk) in Hin.
  rewrite delete_take_drop. apply elem_of_app in Hin as [Hin|Hin].
  - apply elem_of_app. left. exact Hin.
  - apply elem_of_cons in Hin as [->|Hin]; [contradiction|].
    apply elem_of_app. right. exact Hin.
Qed.

(** the executor takes a closure: its process is excused *)
Lemma wake_take w k p tr :
  wake_but None w -> tasks w !! k = Some p ->
  wake_but (Some p) {| heap := heap w; next_pid := next_pid w; tasks := delete k (tasks w);
                       trace := tr |}.
Proof.
  intros Hinv Hk. split; cbn [heap tasks].
  - exact (wk_ready None w Hinv).
  - intros x sx Hx He Hr Hs. apply (elem_of_delete_other _ _ _ p Hk); [congruence|].
    apply (wk_sched None w Hinv x sx Hx); [discriminate|exact Hr|exact Hs].
Qed.

(** a process that is gone needs no excuse *)
Lemma wake_gone p w : wake_but (Some p) w -> heap w !! p = None -> wake_but None w.
Proof.
  intros Hinv Hp. split.
  - exact (wk_ready _ w Hinv).
  - intros x sx Hx _. apply (wk_sched _ w Hinv x sx Hx). intros [= ->]. congruence.
Qed.

Lemma wake_execute k w :
  wake_but None w -> wlp (execute k) (fun _ w' => wake_but None w') w.
Proof.
  intros Hinv. unfold wlp, execute.
  destruct (tasks w !! k) as [p|] eqn:Hk; [|exact Hinv].
  set (w0 := {| heap := heap w; next_pid := next_pid w; tasks := delete k (tasks w);
                trace := trace w |}).
  pose proof (wake_take w k p (trace w) Hinv Hk) as Hinv0. fold w0 in Hinv0.
  change (wlp (task p) (fun _ w' => wake_but None w') w0).
  unfold task. apply wlp_bind, wlp_lock.
  - intros q sq Hq _. cbn [sender_p] in Hq. injection Hq as <-.
    apply wake_step. exact Hinv0.
  - intros Hgone. apply wlp_ret. apply (wake_gone p); [exact Hinv0|].
    apply Hgone. reflexivity.
Qed.

Lemma wake_erase E w p tr :
  wake_but E w ->
  wake_but E {| heap := delete p (heap w); next_pid := next_pid w; tasks := tasks w;
                trace := tr |}.
Proof.
  intros Hinv. split; cbn [heap tasks].
  - intros x sx Hx. apply lookup_delete_Some in Hx as [_ Hx].
    exact (wk_ready E w Hinv x sx Hx).
  - intros x sx Hx. apply lookup_delete_Some in Hx as [_ Hx].
    exact (wk_sched E w Hinv x sx Hx).
Qed.

(** a process is made idle, with nothing to do *)
Lemma wake_alloc E w q sp n tr :
  wake_but E w ->
  _process_running sp = false -> _process_message_queue sp = [] ->
  _process_close_queue sp = false ->
  wake_but E {| heap := <[q := sp]> (heap w); next_pid := n; tasks := tasks w;
                trace := tr |}.
Proof.
  intros Hinv Hr Hq Hc.
  apply (wake_update E E w _ q sp); cbn [heap tasks]; auto.
  - intros _ [Hw|Hw]; congruence.
  - intros _. congruence.
Qed.

Lemma wake_release E fuel p w :
  wake_but E w -> wlp (release fuel p) (fun _ w' => wake_but E w') w.
Proof.
  revert p w. induction fuel as [|fuel IH]; intros p w Hinv; cbn [release];
    apply wlp_bind, wlp_load; intros sp Hp.
  - destruct (use_count sp) as [|[|n]].
    3: apply wlp_store; wake_same.
    all: apply wlp_bind, wlp_erase.
    all: eapply (wlp_seq _ _ (fun _ w' => wake_but E w'));
      [|intros [] w1 Hinv1; apply wake_destroy_entries; exact Hinv1].
    all: destruct (_upstream sp) as [u|]; [apply wlp_fail|].
    all: apply wlp_ret, wake_erase; exact Hinv.
  - destruct (use_count sp) as [|[|n]].
    3: apply wlp_store; wake_same.
    all: apply wlp_bind, wlp_erase.
    all: eapply (wlp_seq _ _ (fun _ w' => wake_but E w'));
      [|intros [] w1 Hinv1; apply wake_destroy_entries; exact Hinv1].
    all: destruct (_upstream sp) as [u|]; [apply IH|apply wlp_ret]; apply wake_erase;
      exact Hinv.
Qed.

Lemma wake_receiver_destroy r w :
  wake_but None w -> wlp (receiver_destroy r) (fun _ w' => wake_but None w') w.
Proof.
  intros Hinv. unfold receiver_destroy. destruct (receiver_p r) as [p|].
  - eapply (wlp_seq _ _ (fun _ w' => wake_but None w')).
    + apply wlp_when; [|auto]. intros _. apply wake_remove_receiver. exact Hinv.
    + intros [] w1 Hinv1. apply wake_release. exact Hinv1.
  - apply wlp_ret. exact Hinv.
Qed.

Lemma wake_receiver_copy r w :
  wake_but None w -> wlp (receiver_copy r) (fun _ w' => wake_but None w') w.
Proof.
  intros Hinv. unfold receiver_copy. destruct (receiver_p r) as [p|].
  - eapply wlp_seq; [apply wake_acquire; exact Hinv|].
    intros [] w1 Hinv1. eapply wlp_seq; [apply wake_add_sender; exact Hinv1|].
    intros [] w2 Hinv2. apply wlp_ret. exact Hinv2.
  - apply wlp_ret. exact Hinv.
Qed.

Lemma wake_set_ready r w :
  wake_but None w -> wlp (set_ready r) (fun _ w' => wake_but None w') w.
Proof.
  intros Hinv. unfold set_ready.
  eapply (wlp_seq _ _ (fun _ w' => wake_but None w')).
  - destruct (receiver_p r) as [p|]; [|apply wlp_ret; exact Hinv].
    apply wlp_when; [|auto]. intros _. apply wake_remove_receiver. exact Hinv.
  - intros [] w1 Hinv1. apply wlp_ret. exact Hinv1.
Qed.

Lemma wake_sender_copy E e w :
  wake_but E w -> wlp (sender_copy e) (fun _ w' => wake_but E w') w.
Proof.
  intros Hinv. unfold sender_copy. apply wlp_bind, wlp_lock.
  - intros p sp _ _. eapply wlp_seq; [apply wake_add_sender; exact Hinv|].
    intros [] w1 Hinv1. apply wlp_ret. exact Hinv1.
  - intros _. apply wlp_bind, wlp_ret, wlp_ret. exact Hinv.
Qed.

Lemma wake_channel w :
  wake_but None w -> wlp channel (fun _ w' => wake_but None w') w.
Proof.
  intros Hinv. unfold channel. apply wlp_bind, wlp_alloc, wlp_ret.
  apply wake_alloc; [exact Hinv|reflexivity..].
Qed.

Lemma wake_pipe r (F : process) (f : St) w :
  wake_but None w -> wlp (pipe r F f) (fun _ w' => wake_but None w') w.
Proof.
  intros Hinv. unfold pipe. destruct (receiver_p r) as [q|]; [|apply wlp_fail].
  eapply wlp_seq; [apply wake_acquire; exact Hinv|].
  intros [] w1 Hinv1. apply wlp_bind, wlp_alloc, wlp_bind. unfold map.
  eapply wlp_seq.
  - apply wake_sender_copy. apply wake_alloc; [exact Hinv1|reflexivity..].
  - intros e w2 Hinv2. apply wlp_bind, wlp_load. intros sq Hq.
    apply wlp_bind, wlp_store.
    cbv beta in Hinv2.
    eapply wlp_mono; [apply (wake_sender_destroy None); wake_same|].
    intros [] w3 Hinv3. apply wlp_ret. exact Hinv3.
Qed.

Lemma wake_empty : wake_but None (@empty_world V St).
Proof.
  split; cbn [heap empty_world]; intros p sp Hp; rewrite lookup_empty in Hp; discriminate.
Qed.

Lemma api_step_wake w w' : wake_but None w -> api_step w w' -> wake_but None w'.
Proof.
  intros Hinv Hstep. destruct Hstep as
    [w s r w' Hrun|w p sp v w' _ _ Hrun|w p sp s' w' _ _ Hrun|w p sp w' _ _ Hrun
    |w r r' w' Hrun|w r w' Hrun|w q w' Hrun|w r r' w' Hrun|w r F f r' w' Hrun|w k w' Hrun].
  - exact (wlp_ok _ _ _ _ _ (wake_channel w Hinv) Hrun).
  - exact (wlp_ok _ _ _ _ _ (wake_sender_call None _ v w Hinv) Hrun).
  - exact (wlp_ok _ _ _ _ _ (wake_sender_copy None _ w Hinv) Hrun).
  - exact (wlp_ok _ _ _ _ _ (wake_sender_destroy None _ w Hinv) Hrun).
  - exact (wlp_ok _ _ _ _ _ (wake_receiver_copy r w Hinv) Hrun).
  - exact (wlp_ok _ _ _ _ _ (wake_receiver_destroy r w Hinv) Hrun).
  - exact (wlp_ok _ _ _ _ _ (wake_release None q q w Hinv) Hrun).
  - exact (wlp_ok _ _ _ _ _ (wake_set_ready r w Hinv) Hrun).
  - exact (wlp_ok _ _ _ _ _ (wake_pipe r F f w Hinv) Hrun).
  - exact (wlp_ok _ _ _ _ _ (wake_execute k w Hinv) Hrun).
Qed.

Lemma reachable_wake w : reachable w -> wake_but None w.
Proof.
  unfold reachable. revert w. refine (rtc_ind_r _ _ _ _); [apply wake_empty|].
  intros w1 w2 _ Hstep IH. exact (api_step_wake w1 w2 IH Hstep).
Qed.

(** X18.  No wake-up is lost: in a state of a program, a process that has
    a message to take or a close to carry out, and no receiver left to wait
    for, is marked running; a running process has a closure pending with
    the executor or is suspended, waiting for the [cts] of a downstream
    process; so when nothing is pending, a process that waits for neither a
    receiver nor a [cts] has an empty queue and no close to carry out. *)
Theorem ready_work_is_scheduled w p sp :
  reachable w -> heap w !! p = Some sp ->
  (_receiver_count sp = 0 ->
   _process_message_queue sp <> [] \/ _process_close_queue sp = true ->
   _process_running sp = true)
  /\ (_process_running sp = true -> p ∈ tasks w \/ _process_suspend_count sp <> 0)
  /\ (tasks w = [] -> _receiver_count sp = 0 -> _process_suspend_count sp = 0 ->
      _process_message_queue sp = [] /\ _process_close_queue sp = false).
Proof.
  intros Hreach Hp. pose proof (reachable_wake w Hreach) as Hinv.
  assert (Hsched : _process_running sp = true ->
                   p ∈ tasks w \/ _process_suspend_count sp <> 0).
  { intros Hr. destruct (decide (_process_suspend_count sp = 0)) as [Hs|Hs]; [|auto].
    left. apply (wk_sched None w Hinv p sp Hp); [discriminate|exact Hr|exact Hs]. }
  split; [exact (wk_ready None w Hinv p sp Hp)|]. split; [exact Hsched|].
  intros Hnone Hrc Hs.
  assert (Hidle : ~ has_work sp).
  { intros Hw. destruct (Hsched (wk_ready None w Hinv p sp Hp Hrc Hw)) as [Hin|Hne].
    - rewrite Hnone in Hin. inversion Hin.
    - contradiction. }
  split.
  - destruct (_process_message_queue sp) eqn:Hq; [reflexivity|].
    exfalso. apply Hidle. left. rewrite Hq. discriminate.
  - destruct (_process_close_queue sp) eqn:Hc; [|reflexivity].
    exfalso. apply Hidle. right. exact Hc.
Qed.

(** *** The two-stage pipeline *)

Lemma setup_idle (f : V -> V) (x : St) :
  pipeline_setup f x empty_world = Ok (Sender (Some 0%nat)) (phase_world f x Idle []).
Proof. vm_compute. reflexivity. Qed.

Lemma move_after (f : V -> V) (x : St) (m : move) ph tr :
  play (Sender (Some 0%nat)) [m] (phase_world f x ph tr)
  = Ok tt (phase_world f x (after f m ph).1 (tr ++ (after f m ph).2)).
Proof.
  destruct m as [v|[|k]], ph as [|[|u q]|[|u q] v']; cbn [after fst snd];
    rewrite ?app_nil_r, ?app_snoc_cons; vm_compute; reflexivity.
Qed.

Lemma play_cons s (m : @move V) ms (w : world) :
  play s (m :: ms) w = bind (play s [m]) (fun _ => play s ms) w.
Proof. destruct m; cbn [play]; rewrite bind_bind; reflexivity. Qed.

Lemma play_after_all (f : V -> V) (x : St) ms ph tr :
  play (Sender (Some 0%nat)) ms (phase_world f x ph tr)
  = Ok tt (phase_world f x (after_all f ms ph).1 (tr ++ (after_all f ms ph).2)).
Proof.
  revert ph tr. induction ms as [|m ms IH]; intros ph tr.
  - cbn. rewrite app_nil_r. reflexivity.
  - rewrite play_cons. unfold bind. rewrite move_after.
    cbn [after_all]. destruct (after f m ph) as [ph1 e1]. cbn [fst snd].
    rewrite IH. destruct (after_all f ms ph1) as [ph2 e2]. cbn [fst snd].
    rewrite app_assoc. reflexivity.
Qed.

Lemma run_all_play n (w : world) :
  run_all n w = play (Sender (Some 0%nat)) (replicate n (Execute 0%nat)) w.
Proof.
  revert w. induction n as [|n IH]; intros w; [reflexivity|].
  cbn [run_all replicate play]. unfold bind. destruct (execute 0 w); [apply IH|reflexivity].
Qed.

(** what one move does to the values in flight *)
Lemma after_accounts (f : V -> V) (m : move) ph :
  let '(ph', e) := after f m ph in
  consumed 1%nat e ++ pending ph' = pending ph ++ produced [m]
  /\ outputs 1%nat e = f <$> consumed 1%nat e
  /\ upstream_cts_count 1%nat e = length (consumed 1%nat e)
  /\ (m = Execute 0%nat -> (remaining ph' <= pred (remaining ph))%nat).
Proof.
  destruct m as [v|[|k]], ph as [|[|u q]|[|u q] v']; cbn;
    rewrite ?app_nil_r; repeat split; try reflexivity; try discriminate; intros; try lia.
Qed.

Lemma after_all_accounts (f : V -> V) ms ph :
  let '(ph', e) := after_all f ms ph in
  consumed 1%nat e ++ pending ph' = pending ph ++ produced ms
  /\ outputs 1%nat e = f <$> consumed 1%nat e
  /\ upstream_cts_count 1%nat e = length (consumed 1%nat e).
Proof.
  revert ph. induction ms as [|m ms IH]; intros ph.
  - cbn. rewrite app_nil_r. auto.
  - cbn [after_all]. pose proof (after_accounts f m ph) as H1.
    destruct (after f m ph) as [ph1 e1]. specialize (IH ph1).
    destruct (after_all f ms ph1) as [ph2 e2].
    destruct H1 as (Hc1 & Ho1 & Hu1 & _). destruct IH as (Hc2 & Ho2 & Hu2).
    rewrite consumed_app, outputs_app, upstream_cts_count_app, fmap_app, length_app.
    repeat split; try congruence.
    rewrite <- app_assoc, Hc2, app_assoc, Hc1, <- app_assoc.
    f_equal. destruct m; reflexivity.
Qed.

Lemma drain_remaining (f : V -> V) n ph :
  (remaining ph <= n)%nat -> (after_all f (replicate n (Execute 0%nat)) ph).1 = Idle.
Proof.
  revert ph. induction n as [|n IH]; intros ph Hn.
  - destruct ph; cbn in *; try lia. reflexivity.
  - cbn [replicate after_all].
    pose proof (after_accounts f (Execute 0%nat) ph) as H1.
    destruct (after f (Execute 0%nat) ph) as [ph1 e1].
    destruct H1 as (_ & _ & _ & Hr). specialize (Hr eq_refl).
    specialize (IH ph1 ltac:(lia)).
    destruct (after_all f (replicate n (Execute 0%nat)) ph1) as [ph2 e2]. exact IH.
Qed.

Lemma produced_replicate n : produced (replicate n (@Execute V 0%nat)) = [].
Proof. induction n; [reflexivity|exact IHn]. Qed.

(** every schedule of the two-stage pipeline: what the stage has consumed,
    broadcast and acknowledged to the head, so far and once drained *)
Lemma pipeline_accounts (f : V -> V) (x : St) (ms : list move) :
  exists s w0 w,
    pipeline_setup f x empty_world = Ok s w0
    /\ play s ms w0 = Ok tt w
    /\ consumed 1%nat (trace w) `prefix_of` produced ms
    /\ outputs 1%nat (trace w) = f <$> consumed 1%nat (trace w)
    /\ upstream_cts_count 1%nat (trace w) = length (consumed 1%nat (trace w))
    /\ (tasks w = [] -> consumed 1%nat (trace w) = produced ms)
    /\ exists n w',
         run_all n w = Ok tt w'
         /\ tasks w' = []
         /\ consumed 1%nat (trace w') = produced ms
         /\ outputs 1%nat (trace w') = f <$> produced ms
         /\ upstream_cts_count 1%nat (trace w') = length (produced ms).
Proof.
  exists (Sender (Some 0%nat)), (phase_world f x Idle []).
  pose proof (play_after_all f x ms Idle []) as Hplay.
  pose proof (after_all_accounts f ms Idle) as Hacc.
  destruct (after_all f ms Idle) as [ph e] eqn:Hafter. cbn [fst snd] in Hplay.
  destruct Hacc as (Hc & Ho & Hu). cbn [pending app] in Hc.
  exists (phase_world f x ph ([] ++ e)).
  split; [apply setup_idle|]. split; [exact Hplay|].
  assert (Htr : trace (phase_world f x ph ([] ++ e)) = e) by (destruct ph; reflexivity).
  rewrite Htr.
  split; [exists (pending ph); symmetry; exact Hc|].
  split; [exact Ho|]. split; [exact Hu|]. split.
  - intros Ht. destruct ph; cbn in Ht; try discriminate.
    cbn in Hc. rewrite app_nil_r in Hc. exact Hc.
  - exists (remaining ph).
    pose proof (play_after_all f x (replicate (remaining ph) (Execute 0%nat)) ph ([] ++ e)) as Hdrain.
    pose proof (after_all_accounts f (replicate (remaining ph) (Execute 0%nat)) ph) as Hacc'.
    pose proof (drain_remaining f (remaining ph) ph (Nat.le_refl _)) as Hidle.
    destruct (after_all f (replicate (remaining ph) (Execute 0%nat)) ph) as [ph' e'].
    cbn [fst snd] in *. subst ph'.
    destruct Hacc' as (Hc' & Ho' & Hu').
    rewrite produced_replicate in Hc'. cbn [pending] in Hc'. rewrite !app_nil_r in Hc'.
    eexists. rewrite run_all_play. split; [exact Hdrain|].
    cbn [phase_world tasks trace app]. split; [reflexivity|].
    rewrite consumed_app, outputs_app, upstream_cts_count_app, Ho, Ho', Hu, Hu',
      <- fmap_app, <- length_app, Hc', Hc. auto.
Qed.

(** *** The pipeline before its receivers are ready *)

Lemma objects_unready (f : V -> V) (x : St) :
  pipeline_objects f x empty_world
  = Ok (Sender (Some 0%nat), Receiver (Some 0%nat) false, Receiver (Some 1%nat) false)
       (unready_world f x false [] []).
Proof. vm_compute. reflexivity. Qed.

Lemma move_unready (f : V -> V) (x : St) b (m : move) q tr :
  play (Sender (Some 0%nat)) [m] (unready_world f x b q tr)
  = Ok tt (unready_world f x b (q ++ produced [m]) (tr ++ (EvSend 0%nat <$> produced [m]))).
Proof.
  destruct m as [v|k], b; cbn [produced fmap list_fmap]; rewrite ?app_nil_r;
    vm_compute; reflexivity.
Qed.

Lemma produced_app (ms ms' : list (@move V)) : produced (ms ++ ms') = produced ms ++ produced ms'.
Proof.
  induction ms as [|[v|k] ms IH]; cbn [produced app]; [reflexivity| |exact IH].
  rewrite IH. reflexivity.
Qed.

Lemma play_unready (f : V -> V) (x : St) b ms q tr :
  play (Sender (Some 0%nat)) ms (unready_world f x b q tr)
  = Ok tt (unready_world f x b (q ++ produced ms) (tr ++ (EvSend 0%nat <$> produced ms))).
Proof.
  revert q tr. induction ms as [|m ms IH]; intros q tr.
  - cbn. rewrite !app_nil_r. reflexivity.
  - rewrite play_cons. unfold bind. rewrite move_unready, IH.
    change (m :: ms) with ([m] ++ ms). rewrite produced_app, fmap_app, !app_assoc. reflexivity.
Qed.

Lemma ready_head_first (f : V -> V) (x : St) q tr :
  set_ready (Receiver (Some 0%nat) false) (unready_world f x false q tr)
  = Ok (Receiver (Some 0%nat) true) (half_world f x (started q) tr).
Proof. destruct q; vm_compute; reflexivity. Qed.

Lemma ready_stage_first (f : V -> V) (x : St) q tr :
  set_ready (Receiver (Some 1%nat) false) (unready_world f x false q tr)
  = Ok (Receiver (Some 1%nat) true) (unready_world f x true q tr).
Proof. vm_compute. reflexivity. Qed.

Lemma ready_head_last (f : V -> V) (x : St) q tr :
  set_ready (Receiver (Some 0%nat) false) (unready_world f x true q tr)
  = Ok (Receiver (Some 0%nat) true) (phase_world f x (started q) tr).
Proof. destruct q; vm_compute; reflexivity. Qed.

Lemma ready_stage_last (f : V -> V) (x : St) ph tr :
  set_ready (Receiver (Some 1%nat) false) (half_world f x ph tr)
  = Ok (Receiver (Some 1%nat) true) (phase_world f x ph tr).
Proof. destruct ph; vm_compute; reflexivity. Qed.

Lemma move_half (f : V -> V) (x : St) (m : move) ph tr :
  play (Sender (Some 0%nat)) [m] (half_world f x ph tr)
  = Ok tt (half_world f x (half_after m ph).1 (tr ++ (half_after m ph).2)).
Proof.
  destruct m as [v|[|k]], ph as [|[|u q]|[|u q] v']; cbn [half_after fst snd];
    rewrite ?app_nil_r, ?app_snoc_cons; vm_compute; reflexivity.
Qed.

Lemma play_half (f : V -> V) (x : St) ms ph tr :
  play (Sender (Some 0%nat)) ms (half_world f x ph tr)
  = Ok tt (half_world f x (half_after_all ms ph).1 (tr ++ (half_after_all ms ph).2)).
Proof.
  revert ph tr. induction ms as [|m ms IH]; intros ph tr.
  - cbn. rewrite app_nil_r. reflexivity.
  - rewrite play_cons. unfold bind. rewrite move_half.
    cbn [half_after_all]. destruct (half_after m ph) as [ph1 e1]. cbn [fst snd].
    rewrite IH. destruct (half_after_all ms ph1) as [ph2 e2]. cbn [fst snd].
    rewrite app_assoc. reflexivity.
Qed.

(** while the stage is not ready it is invoked on nothing, and the head on
    one value at most: the one the stage holds *)
Lemma half_after_accounts (m : @move V) ph :
  let '(ph', e) := half_after m ph in
  consumed 1%nat e = [] /\ outputs 1%nat e = []
  /\ pending ph' = pending ph ++ produced [m]
  /\ (length (consumed 0%nat e) + match ph with Stage_scheduled _ _ => 1 | _ => 0 end
      = match ph' with Stage_scheduled _ _ => 1 | _ => 0 end)%nat.
Proof.
  destruct m as [v|[|k]], ph as [|[|u q]|[|u q] v']; cbn;
    rewrite ?app_nil_r; repeat split; reflexivity.
Qed.

Lemma half_after_all_accounts (ms : list (@move V)) ph :
  let '(ph', e) := half_after_all ms ph in
  consumed 1%nat e = [] /\ outputs 1%nat e = []
  /\ pending ph' = pending ph ++ produced ms
  /\ (length (consumed 0%nat e) + match ph with Stage_scheduled _ _ => 1 | _ => 0 end
      = match ph' with Stage_scheduled _ _ => 1 | _ => 0 end)%nat.
Proof.
  revert ph. induction ms as [|m ms IH]; intros ph.
  - cbn. rewrite app_nil_r. auto.
  - cbn [half_after_all]. pose proof (half_after_accounts m ph) as H1.
    destruct (half_after m ph) as [ph1 e1]. specialize (IH ph1).
    destruct (half_after_all ms ph1) as [ph2 e2].
    destruct H1 as (Hc1 & Ho1 & Hp1 & Hn1). destruct IH as (Hc2 & Ho2 & Hp2 & Hn2).
    rewrite !consumed_app, outputs_app, length_app, Hc1, Hc2, Ho1, Ho2, Hp2, Hp1.
    repeat split; [|lia].
    rewrite <- app_assoc. f_equal. destruct m; reflexivity.
Qed.

Lemma pending_started (q : list V) : pending (started q) = q.
Proof. destruct q; reflexivity. Qed.

Lemma consumed_sends p q (vs : list V) : consumed p (EvSend q <$> vs) = [].
Proof. induction vs; [reflexivity|exact IHvs]. Qed.

Lemma outputs_sends p q (vs : list V) : outputs p (EvSend q <$> vs) = [].
Proof. induction vs; [reflexivity|exact IHvs]. Qed.

Lemma trace_phase_world (f : V -> V) (x : St) ph tr : trace (phase_world f x ph tr) = tr.
Proof. destruct ph; reflexivity. Qed.

Lemma tasks_phase_world (f : V -> V) (x : St) ph tr :
  tasks (phase_world f x ph tr) = [] -> ph = Idle.
Proof. destruct ph; [reflexivity|discriminate|discriminate]. Qed.

(** from any phase, with any trace so far: every schedule, then the drain *)
Lemma phase_accounts (f : V -> V) (x : St) ms ph tr (sent : list V) :
  consumed 1%nat tr = [] -> outputs 1%nat tr = [] -> pending ph = sent ->
  exists w,
    play (Sender (Some 0%nat)) ms (phase_world f x ph tr) = Ok tt w
    /\ consumed 1%nat (trace w) `prefix_of` sent ++ produced ms
    /\ outputs 1%nat (trace w) = f <$> consumed 1%nat (trace w)
    /\ exists n w',
         run_all n w = Ok tt w'
         /\ tasks w' = []
         /\ consumed 1%nat (trace w') = sent ++ produced ms
         /\ outputs 1%nat (trace w') = f <$> (sent ++ produced ms).
Proof.
  intros Hc0 Ho0 Hsent.
  pose proof (play_after_all f x ms ph tr) as Hplay.
  pose proof (after_all_accounts f ms ph) as Hacc.
  destruct (after_all f ms ph) as [ph1 e] eqn:Hafter. cbn [fst snd] in Hplay.
  destruct Hacc as (Hc & Ho & _). rewrite Hsent in Hc.
  eexists. split; [exact Hplay|]. rewrite trace_phase_world.
  rewrite consumed_app, outputs_app, Hc0, Ho0. cbn [app].
  split; [exists (pending ph1); symmetry; exact Hc|]. split; [exact Ho|].
  exists (remaining ph1).
  pose proof (play_after_all f x (replicate (remaining ph1) (Execute 0%nat)) ph1 (tr ++ e)) as Hdrain.
  pose proof (after_all_accounts f (replicate (remaining ph1) (Execute 0%nat)) ph1) as Hacc'.
  pose proof (drain_remaining f (remaining ph1) ph1 (Nat.le_refl _)) as Hidle.
  destruct (after_all f (replicate (remaining ph1) (Execute 0%nat)) ph1) as [ph' e'].
  cbn [fst snd] in *. subst ph'.
  destruct Hacc' as (Hc' & Ho' & _).
  rewrite produced_replicate in Hc'. cbn [pending] in Hc'. rewrite !app_nil_r in Hc'.
  eexists. rewrite run_all_play. split; [exact Hdrain|].
  cbn [phase_world tasks trace]. split; [reflexivity|].
  rewrite !consumed_app, !outputs_app, Hc0, Ho0, Ho, Ho', Hc'. cbn [app].
  split; [exact Hc|]. rewrite <- Hc, fmap_app. reflexivity.
Qed.

(** X6.  The receivers of the channel and of the mapping stage may be set
    ready late and in either order, with sends and runs of the executor in
    between.  While neither is ready nothing is scheduled and nothing
    processed; while one is missing the stage is invoked on nothing and the
    head passes on one value at most; once both are ready and the executor
    has run the pending closures, the stage has consumed every value sent,
    before or after, in the order sent, and broadcast [f] of each. *)
Theorem late_ready_delivers_in_order (f : V -> V) (x : St) (head_first : bool)
    (ms0 ms1 ms2 : list move) :
  exists s r0 r1 w0 w1 w2 w,
    pipeline_objects f x empty_world = Ok (s, r0, r1) w0
    /\ play s ms0 w0 = Ok tt w1
    /\ tasks w1 = [] /\ consumed 0%nat (trace w1) = []
    /\ (set_ready (if head_first then r0 else r1) ;; play s ms1) w1 = Ok tt w2
    /\ consumed 1%nat (trace w2) = []
    /\ (length (consumed 0%nat (trace w2)) <= 1)%nat
    /\ (set_ready (if head_first then r1 else r0) ;; play s ms2) w2 = Ok tt w
    /\ consumed 1%nat (trace w) `prefix_of` produced (ms0 ++ ms1 ++ ms2)
    /\ exists n w',
         run_all n w = Ok tt w'
         /\ tasks w' = []
         /\ consumed 1%nat (trace w') = produced (ms0 ++ ms1 ++ ms2)
         /\ outputs 1%nat (trace w') = f <$> produced (ms0 ++ ms1 ++ ms2).
Proof.
  set (q0 := produced ms0). set (tr1 := EvSend 0%nat <$> q0).
  assert (Hc1 : forall p, consumed p tr1 = []) by (intros p; apply consumed_sends).
  assert (Ho1 : forall p, outputs p tr1 = []) by (intros p; apply outputs_sends).
  exists (Sender (Some 0%nat)), (Receiver (Some 0%nat) false), (Receiver (Some 1%nat) false),
    (unready_world f x false [] []), (unready_world f x false q0 tr1).
  destruct head_first.
  - pose proof (play_half f x ms1 (started q0) tr1) as Hplay.
    pose proof (half_after_all_accounts ms1 (started q0)) as Hacc.
    destruct (half_after_all ms1 (started q0)) as [ph2 e1]. cbn [fst snd] in Hplay.
    destruct Hacc as (Hce & Hoe & Hpe & Hne). rewrite pending_started in Hpe.
    destruct (phase_accounts f x ms2 ph2 (tr1 ++ e1) (q0 ++ produced ms1))
      as (w & Hw & Hpre & _ & n & w' & Hrun & Ht & Hc & Ho).
    { rewrite consumed_app, Hc1, Hce. reflexivity. }
    { rewrite outputs_app, Ho1, Hoe. reflexivity. }
    { exact Hpe. }
    exists (half_world f x ph2 (tr1 ++ e1)), w.
    split; [apply objects_unready|]. split; [apply play_unready|].
    split; [reflexivity|]. split; [apply Hc1|].
    split; [unfold bind; rewrite ready_head_first; exact Hplay|].
    assert (Htr : trace (half_world f x ph2 (tr1 ++ e1)) = tr1 ++ e1) by (destruct ph2; reflexivity).
    rewrite Htr, !consumed_app, !Hc1, Hce. cbn [app].
    split; [reflexivity|].
    split; [destruct (started q0), ph2; cbn in Hne |- *; lia|].
    split; [unfold bind; rewrite ready_stage_last; exact Hw|].
    rewrite !produced_app, app_assoc.
    split; [exact Hpre|]. exists n, w'. auto.
  - destruct (phase_accounts f x ms2 (started (q0 ++ produced ms1))
                (tr1 ++ (EvSend 0%nat <$> produced ms1)) (q0 ++ produced ms1))
      as (w & Hw & Hpre & _ & n & w' & Hrun & Ht & Hc & Ho).
    { rewrite consumed_app, Hc1, consumed_sends. reflexivity. }
    { rewrite outputs_app, Ho1, outputs_sends. reflexivity. }
    { apply pending_started. }
    exists (unready_world f x true (q0 ++ produced ms1) (tr1 ++ (EvSend 0%nat <$> produced ms1))), w.
    split; [apply objects_unready|]. split; [apply play_unready|].
    split; [reflexivity|]. split; [apply Hc1|].
    split; [unfold bind; rewrite ready_stage_first; apply play_unready|].
    cbn [unready_world two_objects trace].
    rewrite !consumed_app, !Hc1, !consumed_sends. cbn [app length].
    split; [reflexivity|]. split; [lia|].
    split; [unfold bind; rewrite ready_head_last; exact Hw|].
    rewrite !produced_app, app_assoc.
    split; [exact Hpre|]. exists n, w'. auto.
Qed.

(** what the identity head has been invoked on, it has broadcast, and the
    stage has consumed it or holds it *)
Lemma after_head_accounts (f : V -> V) (m : move) ph :
  let '(ph', e) := after f m ph in
  outputs 0%nat e = consumed 0%nat e
  /\ match ph with Stage_scheduled _ v => [v] | _ => [] end ++ consumed 0%nat e
     = consumed 1%nat e ++ match ph' with Stage_scheduled _ v => [v] | _ => [] end.
Proof.
  destruct m as [v|[|k]], ph as [|[|u q]|[|u q] v']; cbn; split; reflexivity.
Qed.

Lemma after_all_head_accounts (f : V -> V) ms ph :
  let '(ph', e) := after_all f ms ph in
  outputs 0%nat e = consumed 0%nat e
  /\ match ph with Stage_scheduled _ v => [v] | _ => [] end ++ consumed 0%nat e
     = consumed 1%nat e ++ match ph' with Stage_scheduled _ v => [v] | _ => [] end.
Proof.
  revert ph. induction ms as [|m ms IH]; intros ph.
  - cbn. rewrite app_nil_r. auto.
  - cbn [after_all]. pose proof (after_head_accounts f m ph) as H1.
    destruct (after f m ph) as [ph1 e1]. specialize (IH ph1).
    destruct (after_all f ms ph1) as [ph2 e2].
    destruct H1 as (Ho1 & Hh1). destruct IH as (Ho2 & Hh2).
    rewrite !consumed_app, outputs_app, Ho1, Ho2. split; [reflexivity|].
    rewrite app_assoc, Hh1, <- app_assoc, Hh2, app_assoc. reflexivity.
Qed.

(** X7.  Under every schedule of the pipeline of a channel and one mapping
    stage, both ready, no value is lost, duplicated or reordered on the way:
    what the stage has consumed, then the queue of the stage, then the queue
    of the head, are the values sent.  The identity head broadcasts what it
    is invoked on, unchanged: the values the stage has consumed or holds.
    The stage never holds more than one value, the head is suspended
    exactly while the stage holds one, and at most one closure is pending
    at any time. *)
Theorem pipeline_holds_values_in_order (f : V -> V) (x : St) (ms : list move) :
  exists s w0 w sh ss,
    pipeline_setup f x empty_world = Ok s w0
    /\ play s ms w0 = Ok tt w
    /\ heap w !! 0%nat = Some sh /\ heap w !! 1%nat = Some ss
    /\ consumed 1%nat (trace w) ++ _process_message_queue ss ++ _process_message_queue sh
       = produced ms
    /\ outputs 0%nat (trace w) = consumed 0%nat (trace w)
    /\ consumed 0%nat (trace w) = consumed 1%nat (trace w) ++ _process_message_queue ss
    /\ (length (_process_message_queue ss) <= 1)%nat
    /\ _process_suspend_count sh = Z.of_nat (length (_process_message_queue ss))
    /\ (length (tasks w) <= 1)%nat
    /\ (tasks w = [] -> _process_message_queue ss ++ _process_message_queue sh = []).
Proof.
  pose proof (play_after_all f x ms Idle []) as Hplay.
  pose proof (after_all_accounts f ms Idle) as Hacc.
  pose proof (after_all_head_accounts f ms Idle) as Hhead.
  destruct (after_all f ms Idle) as [ph e]. cbn [fst snd app] in Hplay.
  destruct Hacc as (Hc & _). cbn [pending app] in Hc.
  destruct Hhead as (Ho & Hh). cbn [app] in Hh.
  exists (Sender (Some 0%nat)), (phase_world f x Idle []), (phase_world f x ph e).
  destruct ph as [|q|q v].
  - exists (head_process false 0 []), (stage_process f x false []).
    split; [apply setup_idle|]. split; [exact Hplay|].
    repeat split; try reflexivity; cbn; try lia; [exact Hc|exact Ho|exact Hh].
  - exists (head_process true 0 q), (stage_process f x false []).
    split; [apply setup_idle|]. split; [exact Hplay|].
    repeat split; try reflexivity; cbn; try lia; [exact Hc|exact Ho|exact Hh|discriminate].
  - exists (head_process true 1 q), (stage_process f x true [v]).
    split; [apply setup_idle|]. split; [exact Hplay|].
    repeat split; try reflexivity; cbn; try lia; [exact Hc|exact Ho|exact Hh|discriminate].
Qed.

(** *** The pipeline after its sender is closed *)

Lemma close_phase (f : V -> V) (x : St) ph tr :
  sender_close (Sender (Some 0%nat)) (phase_world f x ph tr)
  = Ok (Sender None) (closing_world f x (closing_of ph) tr).
Proof. destruct ph; vm_compute; reflexivity. Qed.

Lemma closing_step (f : V -> V) (x : St) c tr :
  execute 0 (closing_world f x c tr)
  = Ok tt (closing_world f x (closing_after f c).1 (tr ++ (closing_after f c).2)).
Proof.
  destruct c as [[|v q]|[|u q] v| |]; cbn [closing_after fst snd];
    rewrite ?app_nil_r, ?app_snoc_cons; vm_compute; reflexivity.
Qed.

Lemma run_all_closing (f : V -> V) (x : St) n c tr :
  run_all n (closing_world f x c tr)
  = Ok tt (closing_world f x (closing_after_n f n c).1 (tr ++ (closing_after_n f n c).2)).
Proof.
  revert c tr. induction n as [|n IH]; intros c tr.
  - cbn. rewrite app_nil_r. reflexivity.
  - cbn [run_all closing_after_n]. unfold bind. rewrite closing_step.
    destruct (closing_after f c) as [c1 e1]. cbn [fst snd]. rewrite IH.
    destruct (closing_after_n f n c1) as [c2 e2]. cbn [fst snd].
    rewrite app_assoc. reflexivity.
Qed.

Lemma closing_after_n_closed (f : V -> V) n : closing_after_n f n Closed = (Closed, []).
Proof. induction n as [|n IH]; [reflexivity|]. cbn [closing_after_n closing_after]. rewrite IH. reflexivity. Qed.

(** the queues drain in order, then the head is done, then the stage *)
Lemma closing_drains (f : V -> V) n c :
  (closing_remaining c <= n)%nat ->
  (2 <= closing_remaining c)%nat ->
  exists e,
    closing_after_n f n c = (Closed, e ++ [EvTaskDone 0%nat; EvTaskDone 1%nat])
    /\ consumed 1%nat e = closing_pending c
    /\ outputs 1%nat e = f <$> closing_pending c.
Proof.
  revert c. induction n as [|n IH]; intros c Hn Hc; [lia|].
  destruct c as [[|v q]|q v| |]; cbn [closing_remaining length] in Hn, Hc; try lia.
  - exists []. destruct n as [|n]; [lia|].
    cbn [closing_after_n closing_after]. rewrite closing_after_n_closed. auto.
  - destruct (IH (Closing_stage q v)) as (e & He & Hce & Hoe); [cbn; lia|cbn; lia|].
    cbn [closing_after_n closing_after]. rewrite He.
    eexists (_ ++ e). rewrite <- app_assoc. split; [reflexivity|].
    rewrite consumed_app, outputs_app, Hce, Hoe. auto.
  - destruct (IH (Closing_head q)) as (e & He & Hce & Hoe); [cbn; lia|cbn; lia|].
    cbn [closing_after_n closing_after]. rewrite He.
    eexists (_ ++ e). rewrite <- app_assoc. split; [reflexivity|].
    rewrite consumed_app, outputs_app, Hce, Hoe. cbn. rewrite ?Nat.eqb_refl. auto.
Qed.

Lemma closing_of_pending (ph : @phase V) : closing_pending (closing_of ph) = pending ph.
Proof. destruct ph; reflexivity. Qed.

(** X8.  The sender of the pipeline is closed after any schedule of sends
    and runs.  The executor then drains the queues: the stage consumes
    every value sent, in the order sent, and broadcasts [f] of each; only
    then is the head done, final, its downstream deque cleared, and after
    it the stage, whose last sender that deque held.  Nothing is left
    pending, and a further run of the executor changes nothing. *)
Theorem close_drains_then_finalises (f : V -> V) (x : St) (ms : list move) :
  exists s w0 w1 s' w2,
    pipeline_setup f x empty_world = Ok s w0
    /\ play s ms w0 = Ok tt w1
    /\ sender_close s w1 = Ok s' w2
    /\ exists n w' tr sh ss,
         run_all n w2 = Ok tt w'
         /\ tasks w' = []
         /\ trace w' = tr ++ [EvTaskDone 0%nat; EvTaskDone 1%nat]
         /\ consumed 1%nat tr = produced ms
         /\ outputs 1%nat tr = f <$> produced ms
         /\ heap w' !! 0%nat = Some sh /\ heap w' !! 1%nat = Some ss
         /\ _process_final sh = true /\ _downstream sh = []
         /\ _process_message_queue sh = []
         /\ _process_final ss = true /\ _sender_count ss = 0
         /\ _process_message_queue ss = []
         /\ execute 0 w' = Ok tt w'.
Proof.
  pose proof (play_after_all f x ms Idle []) as Hplay.
  pose proof (after_all_accounts f ms Idle) as Hacc.
  destruct (after_all f ms Idle) as [ph e]. cbn [fst snd app] in Hplay.
  destruct Hacc as (Hc & Ho & _). cbn [pending app] in Hc.
  exists (Sender (Some 0%nat)), (phase_world f x Idle []), (phase_world f x ph e),
    (Sender None), (closing_world f x (closing_of ph) e).
  split; [apply setup_idle|]. split; [exact Hplay|]. split; [apply close_phase|].
  destruct (closing_drains f (closing_remaining (closing_of ph)) (closing_of ph))
    as (e' & He' & Hce & Hoe); [lia|destruct ph; cbn; lia|].
  rewrite closing_of_pending in Hce, Hoe.
  exists (closing_remaining (closing_of ph)).
  eexists _, (e ++ e'), _, _.
  split; [rewrite run_all_closing, He'; reflexivity|].
  cbn [fst snd closing_world two_objects tasks trace heap].
  split; [reflexivity|]. split; [rewrite app_assoc; reflexivity|].
  rewrite consumed_app, outputs_app, Ho, Hce, Hoe, <- fmap_app, Hc.
  do 2 (split; [reflexivity|]).
  split; [reflexivity|]. split; [reflexivity|].
  cbn. repeat split; reflexivity.
Qed.

(** *** The pipeline after the stage is destroyed *)

Lemma drop_stage (f : V -> V) (x : St) ph tr :
  receiver_destroy (Receiver (Some 1%nat) true) (phase_world f x ph tr)
  = Ok tt (orphan_world (orphan_of ph) tr).
Proof. destruct ph; vm_compute; reflexivity. Qed.

Lemma move_orphan (m : @move V) o tr :
  play (Sender (Some 0%nat)) [m] (@orphan_world V St _ o tr)
  = Ok tt (orphan_world (orphan_after m o).1 (tr ++ (orphan_after m o).2)).
Proof.
  destruct m as [v|[|k]], o as [|[|u q]|q [|]]; cbn [orphan_after fst snd];
    rewrite ?app_nil_r, ?app_snoc_cons; vm_compute; reflexivity.
Qed.

Lemma play_orphan (ms : list (@move V)) o tr :
  play (Sender (Some 0%nat)) ms (@orphan_world V St _ o tr)
  = Ok tt (orphan_world (orphan_after_all ms o).1 (tr ++ (orphan_after_all ms o).2)).
Proof.
  revert o tr. induction ms as [|m ms IH]; intros o tr.
  - cbn. rewrite app_nil_r. reflexivity.
  - rewrite play_cons. unfold bind. rewrite move_orphan.
    cbn [orphan_after_all]. destruct (orphan_after m o) as [o1 e1]. cbn [fst snd].
    rewrite IH. destruct (orphan_after_all ms o1) as [o2 e2]. cbn [fst snd].
    rewrite app_assoc. reflexivity.
Qed.

(** the head takes one value at most, and only if it is not stalled yet *)
Lemma orphan_after_all_accounts (ms : list (@move V)) o :
  let '(o', e) := orphan_after_all ms o in
  consumed 1%nat e = []
  /\ consumed 0%nat e ++ orphan_queue o' = orphan_queue o ++ produced ms
  /\ (length (consumed 0%nat e) + match o with Orphan_stalled _ _ => 1 | _ => 0 end
      = match o' with Orphan_stalled _ _ => 1 | _ => 0 end)%nat.
Proof.
  revert o. induction ms as [|m ms IH]; intros o.
  - cbn. rewrite app_nil_r. auto.
  - cbn [orphan_after_all].
    assert (H1 : let '(o1, e1) := orphan_after m o in
                 consumed 1%nat e1 = []
                 /\ consumed 0%nat e1 ++ orphan_queue o1 = orphan_queue o ++ produced [m]
                 /\ (length (consumed 0%nat e1) + match o with Orphan_stalled _ _ => 1 | _ => 0 end
                     = match o1 with Orphan_stalled _ _ => 1 | _ => 0 end)%nat).
    { destruct m as [v|[|k]], o as [|[|u q]|q [|]]; cbn; rewrite ?app_nil_r;
        repeat split; reflexivity. }
    destruct (orphan_after m o) as [o1 e1]. specialize (IH o1).
    destruct (orphan_after_all ms o1) as [o2 e2].
    destruct H1 as (Hs1 & Hq1 & Hn1). destruct IH as (Hs2 & Hq2 & Hn2).
    rewrite !consumed_app, length_app, Hs1, Hs2.
    split; [reflexivity|]. split; [|lia].
    rewrite <- app_assoc, Hq2, app_assoc, Hq1, <- app_assoc.
    f_equal. destruct m; reflexivity.
Qed.

(** X14.  The receiver of the mapping stage is destroyed after any
    schedule, and the stage with it; its sender stays in the downstream
    deque of the head, expired.  Whatever is sent and run from then on, the
    head is invoked on one more value at most: its broadcast counts the
    expired sender, no [cts] ever answers for it, and the head stays
    suspended with every later value in its queue, never scheduled
    again. *)
Theorem dropped_stage_stalls_head (f : V -> V) (x : St) (ms0 ms : list move) :
  exists s w0 w1 w2 w sh,
    pipeline_setup f x empty_world = Ok s w0
    /\ play s ms0 w0 = Ok tt w1
    /\ receiver_destroy (Receiver (Some 1%nat) true) w1 = Ok tt w2
    /\ play s ms w2 = Ok tt w
    /\ heap w !! 1%nat = None /\ heap w !! 0%nat = Some sh
    /\ consumed 1%nat (trace w) = consumed 1%nat (trace w1)
    /\ consumed 0%nat (trace w) ++ _process_message_queue sh = produced (ms0 ++ ms)
    /\ (length (consumed 0%nat (trace w)) <= S (length (consumed 1%nat (trace w1))))%nat
    /\ (length (consumed 0%nat (trace w)) = S (length (consumed 1%nat (trace w1))) ->
        _process_running sh = true /\ _process_suspend_count sh = 1
        /\ forall k, tasks w !! k <> Some 0%nat).
Proof.
  pose proof (play_after_all f x ms0 Idle []) as Hplay0.
  pose proof (after_all_accounts f ms0 Idle) as Hacc0.
  pose proof (after_all_head_accounts f ms0 Idle) as Hhead0.
  destruct (after_all f ms0 Idle) as [ph e0]. cbn [fst snd app] in Hplay0.
  destruct Hacc0 as (Hc0 & _). cbn [pending app] in Hc0.
  destruct Hhead0 as (_ & Hh0). cbn [app] in Hh0.
  pose proof (play_orphan ms (orphan_of ph) e0) as Hplay.
  pose proof (orphan_after_all_accounts ms (orphan_of ph)) as Hacc.
  destruct (orphan_after_all ms (orphan_of ph)) as [o e]. cbn [fst snd] in Hplay.
  destruct Hacc as (Hs & Hq & Hn).
  exists (Sender (Some 0%nat)), (phase_world f x Idle []), (phase_world f x ph e0),
    (orphan_world (orphan_of ph) e0), (orphan_world o (e0 ++ e)).
  set (sh := match o return shared_process with
             | Orphan_idle => orphan_object false 0 []
             | Orphan_head q => orphan_object true 0 q
             | Orphan_stalled q _ => orphan_object true 1 q
             end).
  exists sh.
  split; [apply setup_idle|]. split; [exact Hplay0|]. split; [apply drop_stage|].
  split; [exact Hplay|].
  assert (Htr : trace (@orphan_world V St _ o (e0 ++ e)) = e0 ++ e) by (destruct o; reflexivity).
  rewrite Htr, trace_phase_world, !consumed_app, Hs, app_nil_r, produced_app.
  split; [destruct o; reflexivity|]. split; [destruct o; reflexivity|].
  split; [reflexivity|].
  assert (Hqueue : _process_message_queue sh = orphan_queue o) by (destruct o; reflexivity).
  rewrite Hqueue. clear Hqueue.
  assert (Hlen : (length (consumed 0%nat e0)
                  = length (consumed 1%nat e0)
                    + match ph with Stage_scheduled _ _ => 1 | _ => 0 end)%nat).
  { rewrite Hh0, length_app. destruct ph; cbn; lia. }
  assert (Hsame : match orphan_of ph with Orphan_stalled _ _ => 1%nat | _ => 0%nat end
                  = match ph with Stage_scheduled _ _ => 1%nat | _ => 0%nat end)
    by (destruct ph; reflexivity).
  rewrite Hsame in Hn.
  split; [|split].
  - rewrite <- app_assoc, Hq.
    assert (Hpend : consumed 0%nat e0 ++ orphan_queue (orphan_of ph) = produced ms0).
    { rewrite Hh0, <- Hc0, <- app_assoc. f_equal. destruct ph; reflexivity. }
    rewrite app_assoc, Hpend. reflexivity.
  - rewrite length_app. destruct o; lia.
  - rewrite length_app. intros Hfull.
    destruct o as [| |q stale]; [lia|lia|].
    split; [reflexivity|]. split; [reflexivity|].
    intros k. destruct stale, k as [|[|k]]; cbn; discriminate.
Qed.

(** C4.  A producer sends [v1, ..., vn] through an identity channel into one
    mapping receiver [f], both receivers set ready, closures run by the
    executor in any order and at any point between the sends.  Whatever the
    schedule [ms], nothing aborts; what the mapping stage has been invoked
    on so far is a prefix of the values sent, in the order sent, and it has
    broadcast [f] of each; once the executor has run the pending closures
    the stage has consumed [v1, ..., vn] and broadcast [f v1, ..., f vn]. *)
Theorem fifo_through_mapping_receiver (f : V -> V) (x : St) (ms : list move) :
  exists s w0 w,
    pipeline_setup f x empty_world = Ok s w0
    /\ play s ms w0 = Ok tt w
    /\ consumed 1%nat (trace w) `prefix_of` produced ms
    /\ outputs 1%nat (trace w) = f <$> consumed 1%nat (trace w)
    /\ (tasks w = [] -> consumed 1%nat (trace w) = produced ms)
    /\ exists n w',
         run_all n w = Ok tt w'
         /\ tasks w' = []
         /\ consumed 1%nat (trace w') = produced ms
         /\ outputs 1%nat (trace w') = f <$> produced ms.
Proof.
  destruct (pipeline_accounts f x ms)
    as (s & w0 & w & Hset & Hplay & Hpre & Hout & _ & Hdone & n & w' & Hrun & Ht & Hc & Ho & _).
  exists s, w0, w. repeat (split; [assumption|]).
  exists n, w'. auto.
Qed.

(** more rules of [wlp] *)
Lemma wlp_intro {A} (m : M A) (Q : A -> world -> Prop) w :
  (forall a w', m w = Ok a w' -> Q a w') -> wlp m Q w.
Proof. unfold wlp. destruct (m w); auto. Qed.

Lemma wlp_conj {A} (m : M A) (Q1 Q2 : A -> world -> Prop) w :
  wlp m Q1 w -> wlp m Q2 w -> wlp m (fun a w' => Q1 a w' /\ Q2 a w') w.
Proof. unfold wlp. destruct (m w); auto. Qed.

Lemma wlp_assoc {A B C} (m : M A) (k1 : A -> M B) (k2 : B -> M C)
    (Q : C -> world -> Prop) w :
  wlp (bind (bind m k1) k2) Q w -> wlp (bind m (fun x => bind (k1 x) k2)) Q w.
Proof. unfold wlp. rewrite bind_bind. auto. Qed.

(** *** The close hooks of a pipeline, upstream first *)

Lemma ancestor_alive w a p : ancestor w a p -> is_Some (heap w !! p).
Proof. intros [? ? ? H _|? ? ? ? H _ _]; rewrite H; eauto. Qed.

Lemma ancestor_sub w w' a p : sub_chain w w' -> ancestor w' a p -> ancestor w a p.
Proof.
  intros Hsub Hanc. induction Hanc as [p sp u Hp Hu|p sp u a Hp Hu _ IH];
    destruct (Hsub _ _ Hp) as (sp0 & Hp0 & _ & Eu); rewrite Eu in Hu.
  - eapply anc_parent; eauto.
  - eapply anc_far; eauto.
Qed.

Lemma ac_sub w w' p (tr tr' : list event) :
  sub_chain w w' -> (forall x, (closes x tr <= closes x tr')%nat) ->
  ancestors_closed w p tr -> ancestors_closed w' p tr'.
Proof.
  intros Hsub Htr Hac a sa' Hanc Ha Hh.
  destruct (Hsub _ _ Ha) as (sa & Ha0 & ET & _). rewrite ET in Hh.
  specialize (Hac a sa (ancestor_sub w w' a p Hsub Hanc) Ha0 Hh). specialize (Htr a). lia.
Qed.

Lemma ancestor_inv w a p :
  ancestor w a p ->
  exists sp u, heap w !! p = Some sp /\ _upstream sp = Some u /\ (a = u \/ ancestor w a u).
Proof. intros [p' sp u Hp Hu|p' sp u a' Hp Hu Hfar]; eauto 6. Qed.

Lemma ac_root w p sp (tr : list event) :
  heap w !! p = Some sp -> _upstream sp = None -> ancestors_closed w p tr.
Proof.
  intros Hp Hu a sa Hanc. exfalso.
  apply ancestor_inv in Hanc as (sp' & u & Hp' & Hu' & _). congruence.
Qed.

(** a process whose upstream is gone has nothing upstream *)
Lemma ac_orphan w p sp u (tr : list event) :
  heap w !! p = Some sp -> _upstream sp = Some u -> heap w !! u = None ->
  ancestors_closed w p tr.
Proof.
  intros Hp Hu Hgone a sa Hanc Ha. exfalso.
  apply ancestor_inv in Hanc as (sp' & u' & Hp' & Hu' & Hfar).
  assert (u' = u) as -> by congruence.
  destruct Hfar as [->|Hfar]; [congruence|].
  destruct (ancestor_alive _ _ _ Hfar) as [su Hsu]. congruence.
Qed.

(** what is upstream of a process that has an upstream: that one, and
    what is upstream of it *)
Lemma ac_child w p sp u (tr : list event) :
  heap w !! p = Some sp -> _upstream sp = Some u ->
  (forall su, heap w !! u = Some su -> hook_capable (process_T su) = true ->
     (1 <= closes u tr)%nat) ->
  ancestors_closed w u tr ->
  ancestors_closed w p tr.
Proof.
  intros Hp Hu Hparent Hfar a sa Hanc Ha Hh.
  apply ancestor_inv in Hanc as (sp' & u' & Hp' & Hu' & Hup).
  assert (u' = u) as -> by congruence.
  destruct Hup as [->|Hup]; [eapply Hparent; eauto|eapply Hfar; eauto].
Qed.

Lemma snoc_split {A} (l pre post : list A) e x :
  l ++ [e] = pre ++ x :: post ->
  (post = [] /\ pre = l /\ x = e) \/ (exists post', post = post' ++ [e] /\ l = pre ++ x :: post').
Proof.
  destruct post as [|e' post' _] using rev_ind; intros H.
  - left. apply (app_inj_tail l pre e x) in H as [-> ->]. auto.
  - right. exists post'. rewrite app_comm_cons, app_assoc in H.
    apply app_inj_tail in H as [-> ->]. auto.
Qed.

Lemma sub_chain_heap w w' : heap w' = heap w -> sub_chain w w'.
Proof. intros Hh x sx Hx. rewrite Hh in Hx. eauto. Qed.

Lemma sub_chain_store w p sp sp' n ts tr :
  heap w !! p = Some sp ->
  process_T sp' = process_T sp -> _upstream sp' = _upstream sp ->
  sub_chain w {| heap := <[p := sp']> (heap w); next_pid := n; tasks := ts; trace := tr |}.
Proof.
  intros Hp HT Hu x sx Hx. cbn [heap] in Hx. destruct (decide (x = p)) as [->|Hne].
  - rewrite lookup_insert_eq in Hx. injection Hx as <-. eauto.
  - rewrite lookup_insert_ne in Hx by congruence. eauto.
Qed.

(** a store that tells the process to close only if it was told, or if
    the hooks upstream have been called *)
Lemma oi_store w p sp sp' :
  order_inv w -> heap w !! p = Some sp ->
  process_T sp' = process_T sp -> _upstream sp' = _upstream sp ->
  (told sp' -> told sp \/ ancestors_closed w p (trace w)) ->
  order_inv {| heap := <[p := sp']> (heap w); next_pid := next_pid w; tasks := tasks w;
               trace := trace w |}.
Proof.
  intros Hinv Hp HT Hu Htold.
  pose proof (sub_chain_store w p sp sp' (next_pid w) (tasks w) (trace w) Hp HT Hu) as Hsub.
  split; cbn [heap trace].
  - intros x sx Hx Hsx. eapply ac_sub; [exact Hsub|intros; reflexivity|].
    destruct (decide (x = p)) as [->|Hne].
    + rewrite lookup_insert_eq in Hx. injection Hx as <-.
      destruct (Htold Hsx) as [H|H]; [exact (oi_told w Hinv p sp Hp H)|exact H].
    + rewrite lookup_insert_ne in Hx by congruence. exact (oi_told w Hinv x sx Hx Hsx).
  - intros pre post x Htr. eapply ac_sub; [exact Hsub|intros; reflexivity|].
    exact (oi_order w Hinv pre post x Htr).
Qed.

Lemma oi_tasks w ts :
  order_inv w ->
  order_inv {| heap := heap w; next_pid := next_pid w; tasks := ts; trace := trace w |}.
Proof.
  intros Hinv.
  assert (Hsub : sub_chain w {| heap := heap w; next_pid := next_pid w; tasks := ts;
                                trace := trace w |}) by (apply sub_chain_heap; reflexivity).
  split; cbn [heap trace].
  - intros p sp Hp Hsp. eapply ac_sub; [exact Hsub|intros; reflexivity|].
    exact (oi_told w Hinv p sp Hp Hsp).
  - intros pre post p Htr. eapply ac_sub; [exact Hsub|intros; reflexivity|].
    exact (oi_order w Hinv pre post p Htr).
Qed.

(** an event is recorded; if it is a [close()], the hooks upstream have
    been called *)
Lemma oi_emit w e :
  order_inv w ->
  (forall p, e = EvClose p -> ancestors_closed w p (trace w)) ->
  order_inv {| heap := heap w; next_pid := next_pid w; tasks := tasks w;
               trace := trace w ++ [e] |}.
Proof.
  intros Hinv He.
  assert (Hsub : sub_chain w {| heap := heap w; next_pid := next_pid w; tasks := tasks w;
                                trace := trace w ++ [e] |}) by (apply sub_chain_heap; reflexivity).
  split; cbn [heap trace].
  - intros p sp Hp Hsp. eapply ac_sub; [exact Hsub|intros x; apply closes_snoc|].
    exact (oi_told w Hinv p sp Hp Hsp).
  - intros pre post p Htr. eapply ac_sub; [exact Hsub|intros; reflexivity|].
    apply snoc_split in Htr as [(-> & -> & <-)|(post' & -> & Htr)].
    + apply He. reflexivity.
    + exact (oi_order w Hinv pre post' p Htr).
Qed.

Lemma oi_erase w p :
  order_inv w ->
  order_inv {| heap := delete p (heap w); next_pid := next_pid w; tasks := tasks w;
               trace := trace w |}.
Proof.
  intros Hinv.
  assert (Hsub : sub_chain w {| heap := delete p (heap w); next_pid := next_pid w;
                                tasks := tasks w; trace := trace w |}).
  { intros x sx Hx. cbn [heap] in Hx. apply lookup_delete_Some in Hx as [_ Hx]. eauto. }
  split; cbn [heap trace].
  - intros x sx Hx Hsx. apply lookup_delete_Some in Hx as [_ Hx].
    eapply ac_sub; [exact Hsub|intros; reflexivity|]. exact (oi_told w Hinv x sx Hx Hsx).
  - intros pre post x Htr. eapply ac_sub; [exact Hsub|intros; reflexivity|].
    exact (oi_order w Hinv pre post x Htr).
Qed.

(** a process is made, not told to close: nothing that was there is
    downstream of it *)
Lemma oi_alloc w sp :
  order_inv w ->
  (forall x sx, heap w !! x = Some sx -> (x < next_pid w)%nat) ->
  (forall x sx u, heap w !! x = Some sx -> _upstream sx = Some u -> (u < next_pid w)%nat) ->
  (forall x, (1 <= closes x (trace w))%nat -> (x < next_pid w)%nat) ->
  _process_close_queue sp = false -> _process_final sp = false ->
  order_inv {| heap := <[next_pid w := sp]> (heap w); next_pid := S (next_pid w);
               tasks := tasks w; trace := trace w |}.
Proof.
  intros Hinv Hdom Hup Hcl Hcq Hfin.
  set (w' := {| heap := <[next_pid w := sp]> (heap w); next_pid := S (next_pid w);
                tasks := tasks w; trace := trace w |}).
  assert (Hold : forall x sx, x <> next_pid w -> heap w' !! x = Some sx -> heap w !! x = Some sx).
  { intros x sx Hne Hx. cbn [heap w'] in Hx. rewrite lookup_insert_ne in Hx by congruence.
    exact Hx. }
  assert (Hanc : forall a x, ancestor w' a x -> x <> next_pid w ->
                   ancestor w a x /\ a <> next_pid w).
  { intros a x H. induction H as [x sx u Hx Hu|x sx u a Hx Hu _ IH]; intros Hne;
      pose proof (Hold x sx Hne Hx) as Hx0; pose proof (Hup x sx u Hx0 Hu) as Hlt.
    - split; [eapply anc_parent; eauto|lia].
    - destruct IH as [IH Ha]; [lia|]. split; [eapply anc_far; eauto|exact Ha]. }
  assert (Hac : forall x tr, x <> next_pid w ->
                  ancestors_closed w x tr -> ancestors_closed w' x tr).
  { intros x tr Hne Hc a sa Ha Hsa Hh. destruct (Hanc a x Ha Hne) as [Ha0 Hna].
    exact (Hc a sa Ha0 (Hold a sa Hna Hsa) Hh). }
  split; cbn [trace w'].
  - intros x sx Hx Hsx. destruct (decide (x = next_pid w)) as [->|Hne].
    + cbn [heap w'] in Hx. rewrite lookup_insert_eq in Hx. injection Hx as <-.
      destruct Hsx; congruence.
    + apply Hac; [exact Hne|]. exact (oi_told w Hinv x sx (Hold x sx Hne Hx) Hsx).
  - intros pre post x Htr. apply Hac; [|exact (oi_order w Hinv pre post x Htr)].
    assert (1 <= closes x (trace w))%nat.
    { rewrite Htr, closes_app. cbn. rewrite Nat.eqb_refl. lia. }
    apply Hcl in H. lia.
Qed.

Lemma oi_empty : order_inv (@empty_world V St).
Proof.
  split; cbn [heap trace empty_world].
  - intros p sp Hp. rewrite lookup_empty in Hp. discriminate.
  - intros pre post p Htr. destruct pre; discriminate.
Qed.

Lemma orderly_ret {A} (a : A) : orderly (@ret V St A a).
Proof. intros w Hinv. exact Hinv. Qed.

Lemma orderly_fail {A} f : orderly (@fail V St A f).
Proof. intros w Hinv. exact I. Qed.

Lemma orderly_bind {A B} (m : M A) (k : A -> M B) :
  orderly m -> (forall a, orderly (k a)) -> orderly (bind m k).
Proof.
  intros Hm Hk w Hinv. eapply wlp_seq; [apply Hm; exact Hinv|].
  intros a w1 Hinv1. apply Hk. exact Hinv1.
Qed.

Lemma orderly_when b (m : M unit) : orderly m -> orderly (when b m).
Proof. intros Hm. destruct b; [exact Hm|apply orderly_ret]. Qed.

Lemma orderly_run p : orderly (run p).
Proof. intros w Hinv. apply wlp_run, oi_tasks. exact Hinv. Qed.

Lemma orderly_emit e : not_close e -> orderly (emit e).
Proof.
  intros He w Hinv. apply wlp_emit, oi_emit; [exact Hinv|].
  intros p ->. contradiction.
Qed.

Lemma orderly_erase p : orderly (erase p).
Proof. intros w Hinv. apply wlp_erase, oi_erase. exact Hinv. Qed.

Lemma orderly_lock s : orderly (lock s).
Proof. intros w Hinv. apply wlp_lock; intros; exact Hinv. Qed.

Lemma orderly_load {A} p (k : shared_process -> M A) :
  (forall sp, orderly_at p sp (k sp)) -> orderly (bind (load p) k).
Proof. intros Hk w Hinv. apply wlp_bind, wlp_load. intros sp Hp. apply Hk; assumption. Qed.

Lemma orderly_at_store p sp sp' : steady sp' sp -> orderly_at p sp (store p sp').
Proof.
  intros (HT & Hu & Ht) w Hinv Hp. apply wlp_store. eapply oi_store; eauto.
Qed.

Lemma orderly_at_bind_store {A} p sp sp' (k : unit -> M A) :
  steady sp' sp -> orderly (k tt) -> orderly_at p sp (bind (store p sp') k).
Proof.
  intros (HT & Hu & Ht) Hk w Hinv Hp. apply wlp_bind, wlp_store. apply Hk.
  eapply oi_store; eauto.
Qed.

Lemma orderly_at_any {A} p sp (m : M A) : orderly m -> orderly_at p sp m.
Proof. intros Hm w Hinv _. apply Hm. exact Hinv. Qed.

Ltac steady_state := split; [reflexivity|split; [reflexivity|exact (fun H => H)]].

Ltac order_step :=
  first
    [ solve [auto with order nocore]
    | apply orderly_ret | apply orderly_fail | apply orderly_run | apply orderly_lock
    | apply orderly_erase
    | apply orderly_emit; exact I
    | apply orderly_when
    | apply orderly_load; intros ?
    | apply orderly_at_store; steady_state
    | apply orderly_at_bind_store; [steady_state|]
    | apply orderly_bind; [|intros ?]
    | match goal with
      | |- orderly (match ?x with _ => _ end) => destruct x
      | |- orderly (if ?x then _ else _) => destruct x
      | |- orderly_at _ _ (match ?x with _ => _ end) => destruct x
      | |- orderly_at _ _ (if ?x then _ else _) => destruct x
      end
    | apply orderly_at_any ].

Lemma orderly_add_sender p : orderly (add_sender p).
Proof. unfold add_sender. repeat order_step. Qed.

Lemma orderly_acquire p : orderly (acquire p).
Proof. unfold acquire. repeat order_step. Qed.

Lemma orderly_remove_receiver p : orderly (remove_receiver p).
Proof. unfold remove_receiver, remove_receiver_locked. cbn zeta. repeat order_step. Qed.

Lemma orderly_send p (v : V) : orderly (send p v).
Proof. unfold send, send_locked. cbn zeta. repeat order_step. Qed.

#[local] Hint Resolve orderly_add_sender orderly_acquire orderly_remove_receiver
  orderly_send : order.

Lemma cts_locked_steady sp sp' b : cts_locked sp = Some (sp', b) -> steady sp' sp.
Proof.
  unfold cts_locked. intros H.
  repeat match type of H with
         | context [if ?c then _ else _] => destruct c
         end; try discriminate; injection H as <- <-; steady_state.
Qed.

Lemma orderly_cts p : orderly (cts p).
Proof.
  unfold cts. apply orderly_bind; [apply orderly_emit; exact I|intros _].
  apply orderly_load. intros sp.
  destruct (cts_locked sp) as [[sp' b]|] eqn:Hc; [|apply orderly_at_any, orderly_fail].
  apply orderly_at_bind_store; [exact (cts_locked_steady _ _ _ Hc)|].
  repeat order_step.
Qed.
#[local] Hint Resolve orderly_cts : order.

Lemma orderly_sender_call s (v : V) : orderly (sender_call s v).
Proof. unfold sender_call. repeat order_step. Qed.
#[local] Hint Resolve orderly_sender_call : order.

Lemma orderly_for_each_n (l : list sender) n (v : V) :
  orderly (for_each_n l n (fun e => sender_call e v)).
Proof.
  revert l. induction n as [|n IH]; intros l; cbn [for_each_n]; repeat order_step; auto.
Qed.
#[local] Hint Resolve orderly_for_each_n : order.

Lemma orderly_broadcast p (v : V) : orderly (broadcast p v).
Proof. unfold broadcast, broadcast_snapshot, broadcast_deliver. repeat order_step. Qed.
#[local] Hint Resolve orderly_broadcast : order.

Lemma orderly_upstream_cts p b : orderly (upstream_cts p b).
Proof. unfold upstream_cts. repeat order_step. Qed.
#[local] Hint Resolve orderly_upstream_cts : order.

Lemma orderly_sender_copy s : orderly (sender_copy s).
Proof. unfold sender_copy. repeat order_step. Qed.
#[local] Hint Resolve orderly_sender_copy : order.

Lemma orderly_receiver_copy r : orderly (receiver_copy r).
Proof. unfold receiver_copy. repeat order_step. Qed.

Lemma orderly_set_ready r : orderly (set_ready r).
Proof. unfold set_ready. repeat order_step. Qed.

(** [close()] is called by a [dequeue] that finds the process told to
    close, which it is only after the hooks upstream *)
Lemma orderly_dequeue await_ p : orderly (dequeue await_ p).
Proof.
  unfold dequeue. apply orderly_load. intros sp.
  unfold dequeue_locked. destruct (_process_message_queue sp) as [|m rest] eqn:Hq.
  - intros w Hinv Hp. apply wlp_bind, wlp_store.
    set (sp1 := set_process_final _ _).
    set (w1 := {| heap := <[p := sp1]> (heap w); next_pid := next_pid w; tasks := tasks w;
                  trace := trace w |}).
    assert (Hinv1 : order_inv w1).
    { apply (oi_store w p sp sp1 Hinv Hp); [reflexivity..|].
      intros [H|H]; [discriminate|]. left. left. exact H. }
    assert (Hp1 : heap w1 !! p = Some sp1) by (cbn [heap w1]; apply lookup_insert_eq).
    apply wlp_bind. unfold wlp at 1. erewrite upstream_cts_false by exact Hp1.
    eapply (wlp_seq _ _ (fun _ w' => order_inv w'));
      [|intros [] w2 Hinv2; apply wlp_ret; exact Hinv2].
    apply wlp_when; [intros Hcq|intros _; exact Hinv1].
    unfold process_close. apply wlp_bind, wlp_load. intros sp1' Hp1'.
    assert (sp1' = sp1) as -> by congruence.
    destruct (t_close (process_T sp1)) as [close|]; [|apply wlp_ret; exact Hinv1].
    apply wlp_bind, wlp_store, wlp_emit.
    set (sp2 := set_process _ sp1).
    assert (Hinv2 : order_inv {| heap := <[p := sp2]> (heap w1); next_pid := next_pid w1;
                                 tasks := tasks w1; trace := trace w1 |}).
    { apply (oi_store w1 p sp1 sp2 Hinv1 Hp1); [reflexivity..|]. auto. }
    apply oi_emit; [exact Hinv2|].
    intros x [= <-]. apply (oi_told _ Hinv2 p sp2); [cbn [heap]; apply lookup_insert_eq|].
    right. exact Hcq.
  - apply orderly_at_bind_store; [steady_state|]. repeat order_step.
Qed.
#[local] Hint Resolve orderly_dequeue : order.

Lemma orderly_step_loop fuel await_ p : orderly (step_loop fuel await_ p).
Proof. induction fuel as [|fuel IH]; cbn [step_loop]; repeat order_step; auto. Qed.
#[local] Hint Resolve orderly_step_loop : order.

(** the last sender of [p] is gone, after the hooks upstream of [p] *)
Lemma oi_remove_sender p w :
  order_inv w -> ancestors_closed w p (trace w) ->
  wlp (remove_sender p) (fun _ w' => order_inv w') w.
Proof.
  intros Hinv Hac. unfold remove_sender. apply wlp_bind, wlp_load. intros sp Hp. cbn zeta.
  destruct (_sender_count (set_sender_count (size_decr (_sender_count sp)) sp) =? 0).
  - unfold remove_sender_locked. cbn zeta. apply wlp_bind, wlp_store.
    apply orderly_when; [apply orderly_run|].
    apply (oi_store w p sp _ Hinv Hp); [reflexivity..|]. auto.
  - apply wlp_store. apply (oi_store w p sp _ Hinv Hp); [reflexivity..|]. auto.
Qed.

Lemma oi_sender_destroy e w :
  order_inv w ->
  (forall p, sender_p e = Some p -> ancestors_closed w p (trace w)) ->
  wlp (sender_destroy e) (fun _ w' => order_inv w') w.
Proof.
  intros Hinv Hac. unfold sender_destroy. apply wlp_bind, wlp_lock.
  - intros p sp He _. apply oi_remove_sender; auto.
  - intros _. apply wlp_ret. exact Hinv.
Qed.

Lemma ac_shape w w' p :
  same_shape w w' -> ancestors_closed w p (trace w) -> ancestors_closed w' p (trace w').
Proof. intros [Hobj Htr]. apply ac_sub; [exact Hobj|exact Htr]. Qed.

(** the senders of a deque are destroyed, each after the hooks upstream of
    the process it leads to *)
Lemma oi_destroy_entries (es : list sender) w :
  order_inv w ->
  (forall p, Sender (Some p) ∈ es -> ancestors_closed w p (trace w)) ->
  wlp (foldr (fun e k => sender_destroy e ;; k) (ret tt) es) (fun _ w' => order_inv w') w.
Proof.
  revert w. induction es as [|e es IH]; intros w Hinv Hac; cbn [foldr].
  - apply wlp_ret. exact Hinv.
  - eapply wlp_seq.
    + apply (wlp_conj _ (fun _ w1 => order_inv w1) (fun _ w1 => same_shape w w1));
        [apply (oi_sender_destroy e w Hinv)|apply wlp_intro].
      * intros p He. apply Hac. destruct e as [o]. cbn in He. subst o. left.
      * intros a w1 Hrun. destruct a. exact (sender_destroy_shape e w w1 Hrun).
    + intros [] w1 [Hinv1 Hshape]. apply IH; [exact Hinv1|].
      intros p Hin. apply (ac_shape w w1 p Hshape). apply Hac. right. exact Hin.
Qed.

(** [task_done] of a process whose deque leads to processes downstream of
    it, and whose own [close()], if it is final and has the hook, has been
    called *)
Lemma oi_task_done p w :
  order_inv w ->
  (forall sp x sx,
      heap w !! p = Some sp -> Sender (Some x) ∈ _downstream sp ->
      heap w !! x = Some sx -> _upstream sx = Some p) ->
  (forall sp, heap w !! p = Some sp -> _process_final sp = true ->
     hook_capable (process_T sp) = true -> (1 <= closes p (trace w))%nat) ->
  wlp (task_done p) (fun _ w' => order_inv w') w.
Proof.
  intros Hinv Hdown Hfinal. unfold task_done.
  apply wlp_bind, wlp_emit, wlp_bind, wlp_load. cbn [heap]. intros sp Hp.
  unfold task_done_locked. cbn zeta.
  set (do_run := negb (deque_empty (_process_message_queue sp)) || _process_close_queue sp).
  set (sp1 := set_process_running do_run sp).
  apply wlp_bind, wlp_store, wlp_bind.
  destruct (do_run && _process_final sp); [exact I|]. apply wlp_ret.
  set (w1 := {| heap := <[p := sp1]> (heap _); next_pid := _; tasks := _; trace := _ |}).
  assert (Hinv1 : order_inv w1).
  { apply (oi_store _ p sp sp1); [|exact Hp|reflexivity|reflexivity|auto].
    apply oi_emit; [exact Hinv|]. intros x [=]. }
  assert (Hshape : same_shape w w1).
  { split.
    - intros x sx Hx. cbn [heap w1] in Hx. destruct (decide (x = p)) as [->|Hne].
      + rewrite lookup_insert_eq in Hx. injection Hx as <-. eauto.
      + rewrite lookup_insert_ne in Hx by congruence. eauto.
    - intros x. cbn [trace w1]. apply closes_snoc. }
  assert (Hp1 : heap w1 !! p = Some sp1) by (cbn [heap w1]; apply lookup_insert_eq).
  eapply (wlp_seq _ _ (fun _ w2 => order_inv w2 /\ heap w2 = heap w1 /\ trace w2 = trace w1)).
  { destruct do_run; cbn [when]; [apply wlp_run|apply wlp_ret];
      (split; [|split; reflexivity]); [apply oi_tasks|]; exact Hinv1. }
  intros [] w2 (Hinv2 & Hh2 & Htr2).
  apply wlp_when; [intros Hdo_final|intros _; exact Hinv2].
  unfold clear_downstream. apply wlp_bind, wlp_load. intros sp2 Hp2.
  assert (sp2 = sp1) as -> by (rewrite Hh2 in Hp2; congruence).
  apply wlp_bind, wlp_store.
  set (sp3 := set_downstream [] sp1).
  set (w3 := {| heap := <[p := sp3]> (heap w2); next_pid := next_pid w2; tasks := tasks w2;
                trace := trace w2 |}).
  assert (Hinv3 : order_inv w3).
  { apply (oi_store w2 p sp1 sp3 Hinv2 Hp2); [reflexivity..|]. auto. }
  change (_downstream sp1) with (_downstream sp).
  apply (oi_destroy_entries _ w3 Hinv3).
  intros x Hin.
  (* the targets: downstream of [p], which is final *)
  assert (Hsub : sub_chain w1 w3).
  { intros y sy Hy. cbn [heap w3] in Hy. rewrite Hh2 in Hy.
    destruct (decide (y = p)) as [->|Hne].
    - rewrite lookup_insert_eq in Hy. injection Hy as <-. exists sp1. auto.
    - rewrite lookup_insert_ne in Hy by congruence. eauto. }
  eapply (ac_sub w1 w3); [exact Hsub|cbn [trace w3]; rewrite Htr2; reflexivity|].
  apply (ac_shape w w1 x Hshape).
  intros a sa Hanc Ha Hh.
  apply ancestor_inv in Hanc as (sx & u & Hx & Hu & Hup).
  assert (u = p) as ->.
  { specialize (Hdown sp x sx Hp Hin Hx). congruence. }
  destruct Hup as [->|Hup].
  - assert (sa = sp) as -> by congruence. exact (Hfinal sp Hp Hdo_final Hh).
  - refine (oi_told w Hinv p sp Hp _ a sa Hup Ha Hh). right. exact Hdo_final.
Qed.

Lemma wlp_preserves {A} (m : M A) w :
  preserves m -> close_inv w -> wlp m (fun _ w' => close_inv w') w.
Proof. intros Hm Hc. apply wlp_intro. intros a w' Hrun. exact (Hm w a w' Hc Hrun). Qed.

Lemma oi_task_done_inv p w :
  close_inv w -> order_inv w -> wlp (task_done p) (fun _ w' => order_inv w') w.
Proof.
  intros Hc Hinv. apply oi_task_done; [exact Hinv| |].
  - intros sp x sx Hp Hin Hx. exact (inv_down w Hc p sp x sx Hp Hin Hx).
  - intros sp Hp Hf Hh. exact (inv_final w Hc p sp Hp Hf Hh).
Qed.

Lemma oi_step_tail yield_ p w :
  close_inv w -> order_inv w -> wlp (step_tail yield_ p) (fun _ w' => order_inv w') w.
Proof.
  intros Hc Hinv. unfold step_tail. apply wlp_bind, wlp_load. intros sp Hp.
  destruct (process_state_eqb _ _); [apply oi_task_done_inv; assumption|].
  assert (Hrest : orderly_at p sp
            (let '(v, x) := yield_ (_process sp) in
             store p (set_process x sp) ;; emit (EvYield p v) ;; broadcast p v ;; cts p))
    by repeat order_step.
  apply Hrest; assumption.
Qed.

Lemma oi_step_call call p w :
  close_inv w -> order_inv w ->
  (forall sp, heap w !! p = Some sp -> has_process_yield (process_T sp) = false) ->
  wlp (step_call call p) (fun _ w' => order_inv w') w.
Proof.
  intros Hc Hinv Hone. unfold step_call. apply wlp_bind, wlp_load. intros sp Hp.
  unfold dequeue_locked. destruct (_process_message_queue sp) as [|m rest] eqn:Hq.
  - apply wlp_bind, wlp_store.
    set (sp1 := set_process_final _ _).
    set (w1 := {| heap := <[p := sp1]> (heap w); next_pid := next_pid w; tasks := tasks w;
                  trace := trace w |}).
    assert (Hinv1 : order_inv w1).
    { apply (oi_store w p sp sp1 Hinv Hp); [reflexivity..|].
      intros [H|H]; [discriminate|]. left. left. exact H. }
    assert (Hp1 : heap w1 !! p = Some sp1) by (cbn [heap w1]; apply lookup_insert_eq).
    apply wlp_bind. unfold wlp at 1. erewrite upstream_cts_false by exact Hp1.
    apply oi_task_done; [exact Hinv1| |].
    + intros sp1' x sx Hp1' Hin Hx. assert (sp1' = sp1) as -> by congruence.
      cbn [heap w1] in Hx. destruct (decide (x = p)) as [->|Hne].
      * rewrite lookup_insert_eq in Hx. injection Hx as <-.
        exact (inv_down w Hc p sp p sp Hp Hin Hp).
      * rewrite lookup_insert_ne in Hx by congruence.
        exact (inv_down w Hc p sp x sx Hp Hin Hx).
    + intros sp1' Hp1' _ Hh. assert (sp1' = sp1) as -> by congruence.
      unfold hook_capable in Hh. change (process_T sp1) with (process_T sp) in Hh.
      rewrite (Hone sp Hp) in Hh. discriminate.
  - assert (Hrest : orderly_at p sp
              (store p (set_process_message_queue rest sp) ;;
               upstream_cts p (Nat.eqb (length rest) 0) ;;
               let* sp := load p in
               let '(v, x) := call (_process sp) m in
               store p (set_process x sp) ;;
               emit (EvInvoke p m) ;; broadcast p v ;; cts p))
      by repeat order_step.
    apply Hrest; assumption.
Qed.

Lemma oi_step p w :
  close_inv w -> order_inv w -> wlp (step p) (fun _ w' => order_inv w') w.
Proof.
  intros Hc Hinv. unfold step. apply wlp_bind, wlp_load. intros sp Hp.
  destruct (t_body (process_T sp)) as [call|await_ yield_] eqn:Hbody.
  - apply oi_step_call; [exact Hc|exact Hinv|].
    intros sp' Hp'. assert (sp' = sp) as -> by congruence.
    unfold has_process_yield. rewrite Hbody. reflexivity.
  - unfold step_yield. apply wlp_bind, wlp_load. intros sp' Hp'.
    eapply wlp_seq.
    + apply (wlp_conj _ (fun _ w1 => close_inv w1) (fun _ w1 => order_inv w1)).
      * apply wlp_preserves; [apply preserves_step_loop|exact Hc].
      * apply orderly_step_loop. exact Hinv.
    + intros [] w1 [Hc1 Hinv1]. apply oi_step_tail; assumption.
Qed.

Lemma oi_execute k w :
  close_inv w -> order_inv w -> wlp (execute k) (fun _ w' => order_inv w') w.
Proof.
  intros Hc Hinv. unfold wlp, execute.
  destruct (tasks w !! k) as [p|] eqn:Hk; [|exact Hinv].
  set (w0 := {| heap := heap w; next_pid := next_pid w; tasks := delete k (tasks w);
                trace := trace w |}).
  change (wlp (task p) (fun _ w' => order_inv w') w0).
  unfold task. apply wlp_bind, wlp_lock.
  - intros q sq Hq _. cbn [sender_p] in Hq. injection Hq as <-.
    apply oi_step; [apply close_inv_tasks; exact Hc|apply oi_tasks; exact Hinv].
  - intros _. apply wlp_ret, oi_tasks. exact Hinv.
Qed.

(** the end of a shared pointer: what the deque of a destroyed process
    leads to has nothing upstream any more *)
Lemma oi_release fuel p w :
  close_inv w -> order_inv w -> wlp (release fuel p) (fun _ w' => order_inv w') w.
Proof.
  revert p w.
  assert (Hlast : forall p sp w (up : M unit),
             close_inv w -> order_inv w -> heap w !! p = Some sp ->
             (forall w1, close_inv w1 -> order_inv w1 ->
                wlp up (fun _ w2 => order_inv w2 /\ same_shape w1 w2) w1) ->
             wlp (erase p ;; up ;;
                  foldr (fun e k => sender_destroy e ;; k) (ret tt) (_downstream sp))
                 (fun _ w' => order_inv w') w).
  { intros p sp w up Hc Hinv Hp Hup. apply wlp_bind, wlp_erase.
    set (w1 := {| heap := delete p (heap w); next_pid := next_pid w; tasks := tasks w;
                  trace := trace w |}).
    eapply wlp_seq; [apply (Hup w1); [apply close_inv_erase; exact Hc
                                      |apply oi_erase; exact Hinv]|].
    intros [] w2 [Hinv2 [Hobj _]]. apply oi_destroy_entries; [exact Hinv2|].
    intros x Hin a sa Hanc Ha Hh. exfalso.
    assert (Hgone : forall s, heap w2 !! p = Some s -> False).
    { intros s Hs. destruct (Hobj _ _ Hs) as (s0 & Hs0 & _).
      cbn [heap w1] in Hs0. rewrite lookup_delete_eq in Hs0. discriminate. }
    apply ancestor_inv in Hanc as (sx & u & Hx & Hu & Hfar).
    destruct (Hobj _ _ Hx) as (sx0 & Hx0 & _ & Eu). cbn [heap w1] in Hx0.
    apply lookup_delete_Some in Hx0 as [_ Hx0].
    pose proof (inv_down w Hc p sp x sx0 Hp Hin Hx0) as Hparent.
    assert (u = p) as -> by congruence.
    destruct Hfar as [->|Hfar]; [exact (Hgone sa Ha)|].
    destruct (ancestor_alive _ _ _ Hfar) as [s Hs]. exact (Hgone s Hs). }
  induction fuel as [|fuel IH]; intros p w Hc Hinv; cbn [release];
    apply wlp_bind, wlp_load; intros sp Hp.
  - destruct (use_count sp) as [|[|n]].
    3: apply wlp_store; apply (oi_store w p sp _ Hinv Hp); [reflexivity..|auto].
    all: apply (Hlast p sp w _ Hc Hinv Hp); intros w1 Hc1 Hinv1.
    all: destruct (_upstream sp) as [u|]; [exact I|].
    all: apply wlp_ret; split; [exact Hinv1|apply same_shape_refl].
  - destruct (use_count sp) as [|[|n]].
    3: apply wlp_store; apply (oi_store w p sp _ Hinv Hp); [reflexivity..|auto].
    all: apply (Hlast p sp w _ Hc Hinv Hp); intros w1 Hc1 Hinv1.
    all: destruct (_upstream sp) as [u|];
      [|apply wlp_ret; split; [exact Hinv1|apply same_shape_refl]].
    all: apply (wlp_conj _ (fun _ w2 => order_inv w2) (fun _ w2 => same_shape w1 w2));
      [apply IH; assumption|apply wlp_intro; intros [] w2 Hrun; eapply release_shape; eauto].
Qed.

Lemma oi_receiver_destroy r w :
  close_inv w -> order_inv w -> wlp (receiver_destroy r) (fun _ w' => order_inv w') w.
Proof.
  intros Hc Hinv. unfold receiver_destroy. destruct (receiver_p r) as [p|];
    [|apply wlp_ret; exact Hinv].
  eapply wlp_seq.
  - apply (wlp_conj _ (fun _ w1 => close_inv w1) (fun _ w1 => order_inv w1)).
    + apply wlp_preserves; [apply preserves_when, preserves_remove_receiver|exact Hc].
    + apply orderly_when; [apply orderly_remove_receiver|exact Hinv].
  - intros [] w1 [Hc1 Hinv1]. apply oi_release; assumption.
Qed.

Lemma oi_channel w :
  close_inv w -> order_inv w -> wlp channel (fun _ w' => order_inv w') w.
Proof.
  intros Hc Hinv. unfold channel. apply wlp_bind, wlp_alloc, wlp_ret.
  apply oi_alloc; [exact Hinv|exact (inv_dom w Hc)|exact (inv_up w Hc)
                  |exact (inv_closed w Hc)|reflexivity|reflexivity].
Qed.

Lemma oi_pipe r (F : process) (f : St) w :
  close_inv w -> order_inv w -> wlp (pipe r F f) (fun _ w' => order_inv w') w.
Proof.
  intros Hc Hinv. apply wlp_intro. intros r' w' Hrun.
  destruct (receiver_p r) as [q|] eqn:Hr;
    [|unfold pipe in Hrun; rewrite Hr in Hrun; discriminate].
  destruct (heap w !! q) as [sq|] eqn:Hq.
  2:{ unfold pipe, acquire, bind, load in Hrun. rewrite Hr, Hq in Hrun. discriminate. }
  assert (Hfresh : heap w !! next_pid w = None).
  { destruct (heap w !! next_pid w) as [sx|] eqn:E; [|reflexivity].
    apply (inv_dom w Hc) in E. lia. }
  rewrite (pipe_result r F f w q sq Hr Hq Hfresh) in Hrun. injection Hrun as _ <-.
  set (sq' := set_downstream _ _).
  set (w1 := {| heap := <[q := sq']> (heap w); next_pid := next_pid w; tasks := tasks w;
                trace := trace w |}).
  assert (Hold : forall x sx, heap w1 !! x = Some sx ->
             exists sx0, heap w !! x = Some sx0 /\ _upstream sx = _upstream sx0).
  { intros x sx Hx. cbn [heap w1] in Hx. destruct (decide (x = q)) as [->|Hne].
    - rewrite lookup_insert_eq in Hx. injection Hx as <-. eauto.
    - rewrite lookup_insert_ne in Hx by congruence. eauto. }
  apply (oi_alloc w1 (make_shared_process F f (Some q))).
  - apply (oi_store w q sq sq' Hinv Hq); [reflexivity..|]. auto.
  - intros x sx Hx. destruct (Hold x sx Hx) as (sx0 & Hx0 & _).
    exact (inv_dom w Hc x sx0 Hx0).
  - intros x sx u Hx Hu. destruct (Hold x sx Hx) as (sx0 & Hx0 & Eu). rewrite Eu in Hu.
    exact (inv_up w Hc x sx0 u Hx0 Hu).
  - exact (inv_closed w Hc).
  - reflexivity.
  - reflexivity.
Qed.

Lemma api_step_order w w' :
  close_inv w -> order_inv w -> api_step w w' -> order_inv w'.
Proof.
  intros Hc Hinv Hstep. destruct Hstep as
    [w s r w' Hrun|w p sp v w' Hp Hu Hrun|w p sp s' w' _ _ Hrun|w p sp w' Hp Hu Hrun
    |w r r' w' Hrun|w r w' Hrun|w q w' Hrun|w r r' w' Hrun|w r F f r' w' Hrun|w k w' Hrun].
  - exact (wlp_ok _ _ _ _ _ (oi_channel w Hc Hinv) Hrun).
  - exact (wlp_ok _ _ _ _ _ (orderly_sender_call _ v w Hinv) Hrun).
  - exact (wlp_ok _ _ _ _ _ (orderly_sender_copy _ w Hinv) Hrun).
  - refine (wlp_ok _ _ _ _ _ (oi_sender_destroy _ w Hinv _) Hrun).
    intros x [= <-]. exact (ac_root w p sp _ Hp Hu).
  - exact (wlp_ok _ _ _ _ _ (orderly_receiver_copy r w Hinv) Hrun).
  - exact (wlp_ok _ _ _ _ _ (oi_receiver_destroy r w Hc Hinv) Hrun).
  - exact (wlp_ok _ _ _ _ _ (oi_release q q w Hc Hinv) Hrun).
  - exact (wlp_ok _ _ _ _ _ (orderly_set_ready r w Hinv) Hrun).
  - exact (wlp_ok _ _ _ _ _ (oi_pipe r F f w Hc Hinv) Hrun).
  - exact (wlp_ok _ _ _ _ _ (oi_execute k w Hc Hinv) Hrun).
Qed.

(** in every state of a program a [close()] comes after the [close()] of
    every process upstream that has the hook *)
Lemma reachable_order w : reachable w -> order_inv w.
Proof.
  unfold reachable. revert w. refine (rtc_ind_r _ _ _ _); [apply oi_empty|].
  intros w1 w2 Hreach Hstep IH.
  exact (api_step_order w1 w2 (reachable_close_inv w1 Hreach) IH Hstep).
Qed.


(** *** One upstream [cts] per message taken off the queue *)

Lemma dequeued_app p (a b : list event) :
  dequeued p (a ++ b) = dequeued p a ++ dequeued p b.
Proof.
  induction a as [|e a IH]; [reflexivity|].
  destruct e; simpl; try exact IH; destruct (Nat.eqb p p0); simpl; congruence.
Qed.

Lemma toll_free_counts p (tr : list event) e :
  toll_free e ->
  upstream_cts_count p (tr ++ [e]) = upstream_cts_count p tr
  /\ dequeued p (tr ++ [e]) = dequeued p tr.
Proof.
  intros He. rewrite upstream_cts_count_app, dequeued_app.
  destruct e; cbn in *; try contradiction; rewrite ?app_nil_r; auto with lia.
Qed.

Lemma cb_store E w p sp sp' :
  cts_bal E w -> heap w !! p = Some sp -> _upstream sp' = _upstream sp ->
  cts_bal E {| heap := <[p := sp']> (heap w); next_pid := next_pid w; tasks := tasks w;
               trace := trace w |}.
Proof.
  intros Hinv Hp Hu. split; cbn [heap next_pid trace].
  - intros x sx Hx. destruct (decide (x = p)) as [->|Hne].
    + exact (cb_dom E w Hinv p sp Hp).
    + rewrite lookup_insert_ne in Hx by congruence. exact (cb_dom E w Hinv x sx Hx).
  - exact (cb_fresh E w Hinv).
  - intros x sx u Hx Hxu. destruct (decide (x = p)) as [->|Hne].
    + rewrite lookup_insert_eq in Hx. injection Hx as <-. rewrite Hu in Hxu.
      exact (cb_count E w Hinv p sp u Hp Hxu).
    + rewrite lookup_insert_ne in Hx by congruence. exact (cb_count E w Hinv x sx u Hx Hxu).
Qed.

Lemma cb_tasks E w ts :
  cts_bal E w ->
  cts_bal E {| heap := heap w; next_pid := next_pid w; tasks := ts; trace := trace w |}.
Proof. intros [? ? ?]. split; assumption. Qed.

Lemma cb_emit E w e :
  cts_bal E w -> toll_free e ->
  cts_bal E {| heap := heap w; next_pid := next_pid w; tasks := tasks w;
               trace := trace w ++ [e] |}.
Proof.
  intros Hinv He. split; cbn [heap next_pid trace].
  - exact (cb_dom E w Hinv).
  - intros x Hx. destruct (toll_free_counts x (trace w) e He) as [-> ->].
    exact (cb_fresh E w Hinv x Hx).
  - intros x sx u Hx Hxu. destruct (toll_free_counts x (trace w) e He) as [-> ->].
    exact (cb_count E w Hinv x sx u Hx Hxu).
Qed.

Lemma cb_erase E w p :
  cts_bal E w ->
  cts_bal E {| heap := delete p (heap w); next_pid := next_pid w; tasks := tasks w;
               trace := trace w |}.
Proof.
  intros Hinv. split; cbn [heap next_pid trace].
  - intros x sx Hx. apply lookup_delete_Some in Hx as [_ Hx]. exact (cb_dom E w Hinv x sx Hx).
  - exact (cb_fresh E w Hinv).
  - intros x sx u Hx. apply lookup_delete_Some in Hx as [_ Hx].
    exact (cb_count E w Hinv x sx u Hx).
Qed.

(** a process is made: it has called nothing and taken nothing *)
Lemma cb_alloc w sp :
  cts_bal None w ->
  cts_bal None {| heap := <[next_pid w := sp]> (heap w); next_pid := S (next_pid w);
                  tasks := tasks w; trace := trace w |}.
Proof.
  intros Hinv. split; cbn [heap next_pid trace].
  - intros x sx Hx. destruct (decide (x = next_pid w)) as [->|Hne]; [lia|].
    rewrite lookup_insert_ne in Hx by congruence. pose proof (cb_dom None w Hinv x sx Hx). lia.
  - intros x Hx. apply (cb_fresh None w Hinv). lia.
  - intros x sx u Hx Hxu. destruct (decide (x = next_pid w)) as [->|Hne].
    + destruct (cb_fresh None w Hinv (next_pid w) (le_n _)) as [-> ->]. reflexivity.
    + rewrite lookup_insert_ne in Hx by congruence. exact (cb_count None w Hinv x sx u Hx Hxu).
Qed.

(** [p] calls [_upstream->cts()]: it owes the message *)
Lemma cb_emit_cts w p sp u :
  cts_bal None w -> heap w !! p = Some sp ->
  cts_bal (Some p) {| heap := heap w; next_pid := next_pid w; tasks := tasks w;
                      trace := trace w ++ [EvCtsUpstream p u] |}.
Proof.
  intros Hinv Hp. pose proof (cb_dom None w Hinv p sp Hp) as Hlt.
  split; cbn [heap next_pid trace].
  - exact (cb_dom None w Hinv).
  - intros x Hx. rewrite upstream_cts_count_app, dequeued_app. cbn.
    destruct (Nat.eqb_spec x p) as [->|Hne]; [lia|]. rewrite app_nil_r, Nat.add_0_r.
    exact (cb_fresh None w Hinv x Hx).
  - intros x sx u' Hx Hxu. rewrite upstream_cts_count_app, dequeued_app. cbn.
    rewrite app_nil_r, (cb_count None w Hinv x sx u' Hx Hxu).
    destruct (Nat.eqb_spec x p) as [->|Hne]; repeat case_decide; simplify_eq; cbn; lia.
Qed.

(** [p] hands the message over: it owes nothing *)
Lemma cb_emit_deq w p sp e :
  cts_bal (Some p) w -> heap w !! p = Some sp ->
  (exists m, e = EvAwait p m \/ e = EvInvoke p m) ->
  cts_bal None {| heap := heap w; next_pid := next_pid w; tasks := tasks w;
                  trace := trace w ++ [e] |}.
Proof.
  intros Hinv Hp (m & He). pose proof (cb_dom _ w Hinv p sp Hp) as Hlt.
  assert (Hc : forall x, upstream_cts_count x (trace w ++ [e]) = upstream_cts_count x (trace w)
                 /\ length (dequeued x (trace w ++ [e]))
                    = (length (dequeued x (trace w)) + if decide (Some p = Some x) then 1 else 0)%nat).
  { intros x. rewrite upstream_cts_count_app, dequeued_app, length_app.
    destruct He as [-> | ->]; cbn; destruct (Nat.eqb_spec x p) as [->|Hne];
      repeat case_decide; simplify_eq; cbn; lia. }
  split; cbn [heap next_pid trace].
  - exact (cb_dom _ w Hinv).
  - intros x Hx. destruct (Hc x) as [-> Hlen].
    destruct (cb_fresh _ w Hinv x Hx) as [-> Hd]. split; [reflexivity|].
    rewrite Hd in Hlen. case_decide; simplify_eq; [lia|].
    destruct (dequeued x (trace w ++ [e])); [reflexivity|cbn in Hlen; lia].
  - intros x sx u Hx Hxu. destruct (Hc x) as [-> ->].
    rewrite (cb_count _ w Hinv x sx u Hx Hxu).
    repeat case_decide; simplify_eq; lia.
Qed.

(** a process without an upstream takes a message *)
Lemma cb_emit_deq_head w p sp e :
  cts_bal None w -> heap w !! p = Some sp -> _upstream sp = None ->
  (exists m, e = EvAwait p m \/ e = EvInvoke p m) ->
  cts_bal None {| heap := heap w; next_pid := next_pid w; tasks := tasks w;
                  trace := trace w ++ [e] |}.
Proof.
  intros Hinv Hp Hup (m & He). pose proof (cb_dom _ w Hinv p sp Hp) as Hlt.
  assert (Hc : forall x, upstream_cts_count x (trace w ++ [e]) = upstream_cts_count x (trace w)
                 /\ (x <> p -> dequeued x (trace w ++ [e]) = dequeued x (trace w))).
  { intros x. rewrite upstream_cts_count_app, dequeued_app.
    destruct He as [-> | ->]; cbn; (split; [lia|]); intros Hne;
      destruct (Nat.eqb_spec x p) as [->|_]; try contradiction; apply app_nil_r. }
  split; cbn [heap next_pid trace].
  - exact (cb_dom _ w Hinv).
  - intros x Hx. destruct (Hc x) as [-> Hd]. rewrite Hd by lia.
    exact (cb_fresh _ w Hinv x Hx).
  - intros x sx u Hx Hxu. destruct (Hc x) as [-> Hd].
    rewrite Hd by (intros ->; congruence). exact (cb_count _ w Hinv x sx u Hx Hxu).
Qed.

Lemma tally_ret E {A} (a : A) : tally E (@ret V St A a).
Proof. intros w Hinv. exact Hinv. Qed.

Lemma tally_fail E {A} f : tally E (@fail V St A f).
Proof. intros w Hinv. exact I. Qed.

Lemma tally_bind E {A B} (m : M A) (k : A -> M B) :
  tally E m -> (forall a, tally E (k a)) -> tally E (bind m k).
Proof.
  intros Hm Hk w Hinv. eapply wlp_seq; [apply Hm; exact Hinv|].
  intros a w1 Hinv1. apply Hk. exact Hinv1.
Qed.

Lemma tally_when E b (m : M unit) : tally E m -> tally E (when b m).
Proof. intros Hm. destruct b; [exact Hm|apply tally_ret]. Qed.

Lemma tally_run E p : tally E (run p).
Proof. intros w Hinv. apply wlp_run, cb_tasks. exact Hinv. Qed.

Lemma tally_emit E e : toll_free e -> tally E (emit e).
Proof. intros He w Hinv. apply wlp_emit, cb_emit; assumption. Qed.

Lemma tally_erase E p : tally E (erase p).
Proof. intros w Hinv. apply wlp_erase, cb_erase. exact Hinv. Qed.

Lemma tally_alloc sp : tally None (alloc sp).
Proof. intros w Hinv. apply wlp_alloc, cb_alloc. exact Hinv. Qed.

Lemma tally_lock E s : tally E (lock s).
Proof. intros w Hinv. apply wlp_lock; intros; exact Hinv. Qed.

Lemma tally_load E {A} p (k : shared_process -> M A) :
  (forall sp, tally_at E p sp (k sp)) -> tally E (bind (load p) k).
Proof. intros Hk w Hinv. apply wlp_bind, wlp_load. intros sp Hp. apply Hk; assumption. Qed.

Lemma tally_at_store E p sp sp' :
  _upstream sp' = _upstream sp -> tally_at E p sp (store p sp').
Proof. intros Hu w Hinv Hp. apply wlp_store. eapply cb_store; eauto. Qed.

Lemma tally_at_bind_store E {A} p sp sp' (k : unit -> M A) :
  _upstream sp' = _upstream sp -> tally E (k tt) -> tally_at E p sp (bind (store p sp') k).
Proof.
  intros Hu Hk w Hinv Hp. apply wlp_bind, wlp_store. apply Hk. eapply cb_store; eauto.
Qed.

Lemma tally_at_any E {A} p sp (m : M A) : tally E m -> tally_at E p sp m.
Proof. intros Hm w Hinv _. apply Hm. exact Hinv. Qed.

Ltac tally_step :=
  first
    [ solve [auto with tally nocore]
    | apply tally_ret | apply tally_fail | apply tally_run | apply tally_lock
    | apply tally_erase | apply tally_alloc
    | apply tally_emit; exact I
    | apply tally_when
    | apply tally_load; intros ?
    | apply tally_at_store; reflexivity
    | apply tally_at_bind_store; [reflexivity|]
    | apply tally_bind; [|intros ?]
    | match goal with
      | |- tally _ (match ?x with _ => _ end) => destruct x
      | |- tally _ (if ?x then _ else _) => destruct x
      | |- tally_at _ _ _ (match ?x with _ => _ end) => destruct x
      | |- tally_at _ _ _ (if ?x then _ else _) => destruct x
      end
    | apply tally_at_any ].

Lemma tally_add_sender E p : tally E (add_sender p).
Proof. unfold add_sender. repeat tally_step. Qed.

Lemma tally_acquire E p : tally E (acquire p).
Proof. unfold acquire. repeat tally_step. Qed.

Lemma tally_remove_sender E p : tally E (remove_sender p).
Proof. unfold remove_sender, remove_sender_locked. cbn zeta. repeat tally_step. Qed.

Lemma tally_remove_receiver E p : tally E (remove_receiver p).
Proof. unfold remove_receiver, remove_receiver_locked. cbn zeta. repeat tally_step. Qed.

Lemma tally_send E p (v : V) : tally E (send p v).
Proof. unfold send, send_locked. cbn zeta. repeat tally_step. Qed.

#[local] Hint Resolve tally_add_sender tally_acquire tally_remove_sender
  tally_remove_receiver tally_send : tally.

Lemma tally_sender_destroy E e : tally E (sender_destroy e).
Proof. unfold sender_destroy. repeat tally_step. Qed.
#[local] Hint Resolve tally_sender_destroy : tally.

Lemma tally_destroy_entries E (es : list sender) :
  tally E (foldr (fun e k => sender_destroy e ;; k) (ret tt) es).
Proof. induction es as [|e es IH]; cbn [foldr]; repeat tally_step; auto. Qed.
#[local] Hint Resolve tally_destroy_entries : tally.

Lemma cts_locked_upstream sp sp' b :
  cts_locked sp = Some (sp', b) ->
  _upstream sp' = _upstream sp
  /\ _process_message_queue sp' = _process_message_queue sp.
Proof.
  unfold cts_locked. intros H.
  repeat match type of H with
         | context [if ?c then _ else _] => destruct c
         end; try discriminate; injection H as <- <-; split; reflexivity.
Qed.

Lemma tally_cts E p : tally E (cts p).
Proof.
  unfold cts. apply tally_bind; [apply tally_emit; exact I|intros _].
  apply tally_load. intros sp.
  destruct (cts_locked sp) as [[sp' b]|] eqn:Hc; [|apply tally_at_any, tally_fail].
  apply tally_at_bind_store; [exact (proj1 (cts_locked_upstream _ _ _ Hc))|].
  repeat tally_step.
Qed.
#[local] Hint Resolve tally_cts : tally.

Lemma tally_sender_call E s (v : V) : tally E (sender_call s v).
Proof. unfold sender_call. repeat tally_step. Qed.
#[local] Hint Resolve tally_sender_call : tally.

Lemma tally_for_each_n E (l : list sender) n (v : V) :
  tally E (for_each_n l n (fun e => sender_call e v)).
Proof.
  revert l. induction n as [|n IH]; intros l; cbn [for_each_n]; repeat tally_step; auto.
Qed.
#[local] Hint Resolve tally_for_each_n : tally.

Lemma tally_broadcast E p (v : V) : tally E (broadcast p v).
Proof. unfold broadcast, broadcast_snapshot, broadcast_deliver. repeat tally_step. Qed.
#[local] Hint Resolve tally_broadcast : tally.

Lemma tally_task_done E p : tally E (task_done p).
Proof. unfold task_done, task_done_locked, clear_downstream. cbn zeta. repeat tally_step. Qed.
#[local] Hint Resolve tally_task_done : tally.

Lemma tally_process_close E p : tally E (process_close p).
Proof. unfold process_close. repeat tally_step. Qed.
#[local] Hint Resolve tally_process_close : tally.

Lemma tally_sender_copy E s : tally E (sender_copy s).
Proof. unfold sender_copy. repeat tally_step. Qed.
#[local] Hint Resolve tally_sender_copy : tally.

Lemma tally_release E fuel p : tally E (release fuel p).
Proof.
  revert p. induction fuel as [|fuel IH]; intros p; cbn [release]; repeat tally_step; auto.
Qed.
#[local] Hint Resolve tally_release : tally.

Lemma tally_receiver_destroy E r : tally E (receiver_destroy r).
Proof. unfold receiver_destroy. repeat tally_step. Qed.

Lemma tally_receiver_copy E r : tally E (receiver_copy r).
Proof. unfold receiver_copy. repeat tally_step. Qed.

Lemma tally_set_ready E r : tally E (set_ready r).
Proof. unfold set_ready. repeat tally_step. Qed.

Lemma tally_channel : tally None channel.
Proof. unfold channel. repeat tally_step. Qed.

Lemma tally_pipe r (F : process) (f : St) : tally None (pipe r F f).
Proof. unfold pipe, map. repeat tally_step. Qed.

Lemma tally_step_tail yield_ p : tally None (step_tail yield_ p).
Proof. unfold step_tail. repeat tally_step. Qed.

(** [cts] leaves every queue and every upstream pointer as it is *)
Lemma cts_frame u w :
  wlp (cts u)
      (fun _ w' => forall x sx, heap w !! x = Some sx ->
         exists sx', heap w' !! x = Some sx'
           /\ _upstream sx' = _upstream sx
           /\ _process_message_queue sx' = _process_message_queue sx) w.
Proof.
  unfold cts. apply wlp_bind, wlp_emit, wlp_bind, wlp_load. cbn [heap]. intros su Hu.
  destruct (cts_locked su) as [[su' b]|] eqn:Hc; [|exact I].
  destruct (cts_locked_upstream _ _ _ Hc) as [Eu Eq].
  apply wlp_bind, wlp_store.
  assert (H : forall ts tr x sx, heap w !! x = Some sx ->
            exists sx', heap {| heap := <[u := su']> (heap w); next_pid := next_pid w;
                                tasks := ts; trace := tr |} !! x = Some sx'
              /\ _upstream sx' = _upstream sx
              /\ _process_message_queue sx' = _process_message_queue sx).
  { intros ts tr x sx Hx. cbn [heap]. destruct (decide (x = u)) as [->|Hne].
    - rewrite lookup_insert_eq. assert (sx = su) as -> by congruence. eauto.
    - rewrite lookup_insert_ne by congruence. eauto. }
  destruct b; cbn [when]; [apply wlp_run|apply wlp_ret]; apply H.
Qed.

(** the message is handed to the process: the count is even again *)
Lemma cb_handed w p sp e :
  heap w !! p = Some sp -> cts_bal (owes sp p) w ->
  (exists m, e = EvAwait p m \/ e = EvInvoke p m) ->
  cts_bal None {| heap := heap w; next_pid := next_pid w; tasks := tasks w;
                  trace := trace w ++ [e] |}.
Proof.
  intros Hp Hinv He. unfold owes in Hinv. destruct (_upstream sp) as [u|] eqn:Hu.
  - eapply cb_emit_deq; eauto.
  - eapply cb_emit_deq_head; eauto.
Qed.

(** the locked block that takes a message, and the [cts] to the upstream:
    a process with an upstream holds no second message, so that it calls
    [_upstream->cts()] for the one it takes *)
Lemma cb_take p sp sp1 (m : V) (do_cts do_close : bool) w :
  cts_bal None w ->
  heap w !! p = Some sp ->
  (_upstream sp <> None -> (length (_process_message_queue sp) <= 1)%nat) ->
  dequeue_locked sp = (sp1, Some m, do_cts, do_close) ->
  wlp (store p sp1 ;; upstream_cts p do_cts)
      (fun _ w2 => exists sp2, heap w2 !! p = Some sp2
         /\ (_upstream sp2 <> None -> (length (_process_message_queue sp2) <= 1)%nat)
         /\ cts_bal (owes sp2 p) w2) w.
Proof.
  intros Hinv Hp Hshort Hd. unfold dequeue_locked in Hd.
  destruct (_process_message_queue sp) as [|m' rest] eqn:Hq; [discriminate|].
  injection Hd as <- <- <- <-.
  apply wlp_bind, wlp_store.
  set (sp1 := set_process_message_queue rest sp).
  set (w1 := {| heap := <[p := sp1]> (heap w); next_pid := next_pid w; tasks := tasks w;
                trace := trace w |}).
  assert (Hinv1 : cts_bal None w1) by (apply (cb_store None w p sp sp1 Hinv Hp); reflexivity).
  assert (Hp1 : heap w1 !! p = Some sp1) by (cbn [heap w1]; apply lookup_insert_eq).
  unfold upstream_cts. apply wlp_bind, wlp_load. intros sp1' Hp1'.
  assert (sp1' = sp1) as -> by congruence. clear Hp1'.
  change (_upstream sp1) with (_upstream sp).
  destruct (_upstream sp) as [u|] eqn:Hu.
  - assert (rest = []) as ->.
    { specialize (Hshort ltac:(discriminate)). destruct rest; [reflexivity|cbn in Hshort; lia]. }
    cbn [length Nat.eqb when]. apply wlp_bind, wlp_emit.
    pose proof (cb_emit_cts w1 p sp1 u Hinv1 Hp1) as Hinv2.
    eapply wlp_mono; [apply wlp_conj; [apply (tally_cts (Some p) u); exact Hinv2
                                     |apply cts_frame]|].
    intros [] w3 [Hinv3 Hframe]. cbn [heap] in Hframe.
    destruct (Hframe p sp1 Hp1) as (sp3 & Hp3 & Eu & Eq).
    exists sp3. split; [exact Hp3|]. split; [intros _; rewrite Eq; cbn; lia|].
    unfold owes. rewrite Eu. change (_upstream sp1) with (_upstream sp). rewrite Hu.
    exact Hinv3.
  - assert (Hown : cts_bal (owes sp1 p) w1).
    { unfold owes. change (_upstream sp1) with (_upstream sp). rewrite Hu. exact Hinv1. }
    apply wlp_ret. exists sp1. split; [exact Hp1|]. split; [|exact Hown].
    change (_upstream sp1) with (_upstream sp). rewrite Hu. congruence.
Qed.

(** the same block when the queue is empty: no message, no [cts] *)
Lemma cb_idle p sp sp1 (do_cts do_close : bool) w :
  cts_bal None w ->
  heap w !! p = Some sp ->
  dequeue_locked sp = (sp1, None, do_cts, do_close) ->
  wlp (store p sp1 ;; upstream_cts p do_cts)
      (fun _ w2 => exists sp2, heap w2 !! p = Some sp2
         /\ _process_message_queue sp2 = []
         /\ cts_bal None w2) w.
Proof.
  intros Hinv Hp Hd. unfold dequeue_locked in Hd.
  destruct (_process_message_queue sp) as [|m' rest] eqn:Hq; [|discriminate].
  injection Hd as <- <- <-.
  apply wlp_bind, wlp_store.
  set (sp1 := set_process_final _ _).
  set (w1 := {| heap := <[p := sp1]> (heap w); next_pid := next_pid w; tasks := tasks w;
                trace := trace w |}).
  assert (Hinv1 : cts_bal None w1) by (apply (cb_store None w p sp sp1 Hinv Hp); reflexivity).
  assert (Hp1 : heap w1 !! p = Some sp1) by (cbn [heap w1]; apply lookup_insert_eq).
  unfold upstream_cts. apply wlp_bind, wlp_load. intros sp1' Hp1'.
  destruct (_upstream sp1'); cbn [when]; apply wlp_ret; exists sp1; auto.
Qed.

(** a [dequeue] by a process that, if it has an upstream, holds one
    message at most *)
Lemma cb_dequeue await_ p w :
  cts_bal None w -> short p w ->
  wlp (dequeue await_ p) (fun _ w' => cts_bal None w' /\ short p w') w.
Proof.
  intros Hinv (sp0 & Hp0 & Hshort). unfold dequeue. apply wlp_bind, wlp_load. intros sp Hp.
  assert (sp0 = sp) as -> by congruence. clear Hp0.
  destruct (dequeue_locked sp) as [[[sp1 [m|]] do_cts] do_close] eqn:Hd.
  - apply wlp_assoc, wlp_bind.
    eapply wlp_mono; [exact (cb_take p sp sp1 m do_cts do_close w Hinv Hp Hshort Hd)|].
    intros [] w2 (sp2 & Hp2 & Hshort2 & Hinv2).
    apply wlp_bind, wlp_load. intros sp2' Hp2'. assert (sp2' = sp2) as -> by congruence.
    apply wlp_bind, wlp_store, wlp_bind, wlp_emit, wlp_ret. split.
    + apply (cb_handed _ p (set_process (await_ (_process sp2) m) sp2));
        [cbn [heap]; apply lookup_insert_eq| |eauto].
      apply (cb_store _ w2 p sp2); [exact Hinv2|exact Hp2|reflexivity].
    + eexists. split; [cbn [heap]; apply lookup_insert_eq|exact Hshort2].
  - apply wlp_assoc, wlp_bind.
    eapply wlp_mono; [exact (cb_idle p sp sp1 do_cts do_close w Hinv Hp Hd)|].
    intros [] w2 (sp2 & Hp2 & Hq2 & Hinv2).
    eapply (wlp_seq _ _ (fun _ w' => cts_bal None w' /\ short p w')).
    + apply wlp_when; [intros _|intros _; split; [exact Hinv2|]].
      * unfold process_close. apply wlp_bind, wlp_load. intros sp2' Hp2'.
        assert (sp2' = sp2) as -> by congruence.
        destruct (t_close (process_T sp2)) as [close|].
        -- apply wlp_bind, wlp_store, wlp_emit. split.
           ++ apply cb_emit; [|exact I].
              apply (cb_store _ w2 p sp2); [exact Hinv2|exact Hp2|reflexivity].
           ++ eexists. split; [cbn [heap]; apply lookup_insert_eq|].
              cbn. rewrite Hq2. cbn. lia.
        -- apply wlp_ret. split; [exact Hinv2|].
           exists sp2. split; [exact Hp2|]. rewrite Hq2. cbn. lia.
      * exists sp2. split; [exact Hp2|]. rewrite Hq2. cbn. lia.
    + intros [] w3 H3. apply wlp_ret. exact H3.
Qed.

Lemma cb_step_loop fuel await_ p w :
  cts_bal None w -> short p w ->
  wlp (step_loop fuel await_ p) (fun _ w' => cts_bal None w') w.
Proof.
  revert w. induction fuel as [|fuel IH]; intros w Hinv Hshort; cbn [step_loop]; [exact I|].
  apply wlp_bind, wlp_load. intros sp Hp.
  destruct (process_state_eqb _ _); [apply wlp_ret; exact Hinv|].
  eapply wlp_seq; [apply cb_dequeue; assumption|].
  intros more w1 [Hinv1 Hshort1].
  destruct more; [apply IH; assumption|apply wlp_ret; exact Hinv1].
Qed.

Lemma cb_step_call call p w :
  cts_bal None w -> short p w ->
  wlp (step_call call p) (fun _ w' => cts_bal None w') w.
Proof.
  intros Hinv (sp0 & Hp0 & Hshort). unfold step_call. apply wlp_bind, wlp_load. intros sp Hp.
  assert (sp0 = sp) as -> by congruence. clear Hp0.
  destruct (dequeue_locked sp) as [[[sp1 [m|]] do_cts] do_close] eqn:Hd.
  - apply wlp_assoc, wlp_bind.
    eapply wlp_mono; [exact (cb_take p sp sp1 m do_cts do_close w Hinv Hp Hshort Hd)|].
    intros [] w2 (sp2 & Hp2 & Hshort2 & Hinv2).
    apply wlp_bind, wlp_load. intros sp2' Hp2'. assert (sp2' = sp2) as -> by congruence.
    destruct (call (_process sp2) m) as [v x].
    apply wlp_bind, wlp_store, wlp_bind, wlp_emit.
    assert (Htail : tally None (broadcast p v ;; cts p)) by repeat tally_step.
    apply Htail.
    apply (cb_handed _ p (set_process x sp2));
      [cbn [heap]; apply lookup_insert_eq| |eauto].
    apply (cb_store _ w2 p sp2); [exact Hinv2|exact Hp2|reflexivity].
  - apply wlp_assoc, wlp_bind.
    eapply wlp_mono; [exact (cb_idle p sp sp1 do_cts do_close w Hinv Hp Hd)|].
    intros [] w2 (sp2 & Hp2 & Hq2 & Hinv2). apply tally_task_done. exact Hinv2.
Qed.

Lemma cb_step p w :
  cts_bal None w -> short p w -> wlp (step p) (fun _ w' => cts_bal None w') w.
Proof.
  intros Hinv Hshort. unfold step. apply wlp_bind, wlp_load. intros sp Hp.
  destruct (t_body (process_T sp)) as [call|await_ yield_].
  - apply cb_step_call; assumption.
  - unfold step_yield. apply wlp_bind, wlp_load. intros sp' Hp'.
    eapply wlp_seq; [apply cb_step_loop; assumption|].
    intros [] w1 Hinv1. apply tally_step_tail. exact Hinv1.
Qed.

(** the executor runs a closure, in a state where the flow control holds *)
Lemma cb_execute k w :
  cts_bal None w -> flow_inv w -> wlp (execute k) (fun _ w' => cts_bal None w') w.
Proof.
  intros Hinv Hflow. unfold wlp, execute.
  destruct (tasks w !! k) as [p|] eqn:Hk; [|exact Hinv].
  set (w0 := {| heap := heap w; next_pid := next_pid w; tasks := delete k (tasks w);
                trace := trace w |}).
  change (wlp (task p) (fun _ w' => cts_bal None w') w0).
  unfold task. apply wlp_bind, wlp_lock.
  - intros q sq Hq Hsq. cbn [sender_p] in Hq. injection Hq as <-.
    apply cb_step; [apply cb_tasks; exact Hinv|].
    exists sq. split; [exact Hsq|]. intros Hu.
    destruct (_upstream sq) as [u|] eqn:Eu; [|contradiction].
    exact (fl_one w Hflow p sq u Hsq Eu).
  - intros _. apply wlp_ret, cb_tasks. exact Hinv.
Qed.

Lemma cb_empty : cts_bal None (@empty_world V St).
Proof.
  split; cbn [heap next_pid trace empty_world].
  - intros p sp Hp. rewrite lookup_empty in Hp. discriminate.
  - auto.
  - intros p sp u Hp. rewrite lookup_empty in Hp. discriminate.
Qed.

Lemma api_step_cts w w' :
  cts_bal None w -> flow_inv w -> api_step w w' -> cts_bal None w'.
Proof.
  intros Hinv Hflow Hstep. destruct Hstep as
    [w s r w' Hrun|w p sp v w' _ _ Hrun|w p sp s' w' _ _ Hrun|w p sp w' _ _ Hrun
    |w r r' w' Hrun|w r w' Hrun|w q w' Hrun|w r r' w' Hrun|w r F f r' w' Hrun|w k w' Hrun].
  - exact (wlp_ok _ _ _ _ _ (tally_channel w Hinv) Hrun).
  - exact (wlp_ok _ _ _ _ _ (tally_sender_call None _ v w Hinv) Hrun).
  - exact (wlp_ok _ _ _ _ _ (tally_sender_copy None _ w Hinv) Hrun).
  - exact (wlp_ok _ _ _ _ _ (tally_sender_destroy None _ w Hinv) Hrun).
  - exact (wlp_ok _ _ _ _ _ (tally_receiver_copy None r w Hinv) Hrun).
  - exact (wlp_ok _ _ _ _ _ (tally_receiver_destroy None r w Hinv) Hrun).
  - exact (wlp_ok _ _ _ _ _ (tally_release None q q w Hinv) Hrun).
  - exact (wlp_ok _ _ _ _ _ (tally_set_ready None r w Hinv) Hrun).
  - exact (wlp_ok _ _ _ _ _ (tally_pipe r F f w Hinv) Hrun).
  - exact (wlp_ok _ _ _ _ _ (cb_execute k w Hinv Hflow) Hrun).
Qed.

(** in every state of a program that has made fewer processes than a
    counter can count, every process with an upstream has called
    [_upstream->cts()] once for each message it has taken *)
Lemma reachable_cts w : reachable w -> bounded w -> cts_bal None w.
Proof.
  unfold reachable. revert w. refine (rtc_ind_r _ _ _ _); [intros _; apply cb_empty|].
  intros w1 w2 Hreach Hstep IH Hb.
  pose proof (bounded_le w1 w2 (api_step_grows w1 w2 Hstep) Hb) as Hb1.
  exact (api_step_cts w1 w2 (IH Hb1) (reachable_flow w1 Hreach Hb1) Hstep).
Qed.

(** C1.  In every state that a program reaches through the public interface
    (with fewer processes made than [std::size_t] can count), a process
    that has an upstream has called [_upstream->cts()] once for each message
    it has taken off its queue.  However a step is scheduled, such a process
    holds one message at most when it runs, so that the [dequeue], or the
    one-shot [step], that takes the message leaves the queue empty and
    calls [_upstream->cts()] once.  In the pipeline of a channel and one
    mapping receiver, under every schedule, the stage has called the [cts]
    of the head once for each value it has consumed: once drained, once for
    each value sent. *)
Theorem one_upstream_cts_per_message :
  (forall w p sp u,
      reachable w -> bounded w ->
      heap w !! p = Some sp -> _upstream sp = Some u ->
      upstream_cts_count p (trace w) = length (dequeued p (trace w))
      /\ (length (_process_message_queue sp) <= 1)%nat
      /\ forall (m : V) (rest : list V),
           _process_message_queue sp = m :: rest ->
           rest = []
           /\ (forall await_ b w',
                  dequeue await_ p w = Ok b w' ->
                  b = true
                  /\ upstream_cts_count p (trace w') = S (upstream_cts_count p (trace w)))
           /\ (forall call w',
                  step_call call p w = Ok tt w' ->
                  consumed p (trace w') = consumed p (trace w) ++ [m]
                  /\ upstream_cts_count p (trace w') = S (upstream_cts_count p (trace w))))
  /\ (forall (f : V -> V) (x : St) (ms : list move),
        exists s w0 w,
          pipeline_setup f x empty_world = Ok s w0
          /\ play s ms w0 = Ok tt w
          /\ upstream_cts_count 1%nat (trace w) = length (consumed 1%nat (trace w))
          /\ exists n w',
               run_all n w = Ok tt w'
               /\ tasks w' = []
               /\ upstream_cts_count 1%nat (trace w') = length (produced ms)).
Proof.
  split.
  - intros w p sp u Hreach Hb Hp Hu.
    pose proof (reachable_flow w Hreach Hb) as Hflow.
    pose proof (fl_one w Hflow p sp u Hp Hu) as Hone.
    split; [|split; [exact Hone|]].
    + rewrite (cb_count None w (reachable_cts w Hreach Hb) p sp u Hp Hu).
      rewrite decide_False by discriminate. lia.
    + intros m rest Hq.
      assert (rest = []) as ->.
      { rewrite Hq in Hone. destruct rest; [reflexivity|cbn in Hone; lia]. }
      destruct (dequeue_cts_when_emptied p sp u w m [] Hp Hq Hu) as [Hdeq Hcall].
      split; [reflexivity|]. split.
      * intros await_ b w' Hrun. destruct (Hdeq await_ b w' Hrun) as [-> ->].
        split; [reflexivity|lia].
      * intros call w' Hrun. destruct (Hcall call w' Hrun) as [-> ->].
        split; [reflexivity|lia].
  - intros f x ms.
    destruct (pipeline_accounts f x ms)
      as (s & w0 & w & Hset & Hplay & _ & _ & Hu & _ & n & w' & Hrun & Ht & _ & _ & Hu').
    exists s, w0, w. repeat (split; [assumption|]).
    exists n, w'. auto.
Qed.

End Theorems.

Lemma task_done_never_asserts_witness :
  _process_final (c_object closed_head) = true
  /\ (_process_final (c_object closed_head) = true ->
        _process_message_queue (c_object closed_head) = []
        /\ _process_close_queue (c_object closed_head) = false)
  /\ (let '(_, do_run, do_final) := task_done_locked (c_object closed_head) in
      (do_run && do_final) = false)
  /\ is_Some (perform Task_done_block closed_head).
Proof.
  split; [vm_compute; reflexivity|].
  apply (task_done_never_asserts identity tt None close_schedule closed_head).
  vm_compute. reflexivity.
Defined.


(** the run of [closed_three_stages] is a run through the interface *)
Lemma closed_three_stages_reachable : reachable closed_three_stages.
Proof.
  unfold reachable.
  eapply rtc_l; [eapply Api_channel; vm_compute; reflexivity|].
  eapply rtc_l;
    [eapply (Api_pipe _ (Receiver (Some 0%nat) false) batcher []); vm_compute; reflexivity|].
  eapply rtc_l;
    [eapply (Api_pipe _ (Receiver (Some 1%nat) false) batcher []); vm_compute; reflexivity|].
  eapply rtc_l; [eapply (Api_set_ready _ (Receiver (Some 0%nat) false)); vm_compute; reflexivity|].
  eapply rtc_l; [eapply (Api_set_ready _ (Receiver (Some 1%nat) false)); vm_compute; reflexivity|].
  eapply rtc_l; [eapply (Api_set_ready _ (Receiver (Some 2%nat) false)); vm_compute; reflexivity|].
  eapply rtc_l; [eapply (Api_sender_call _ 0%nat _ 1); vm_compute; reflexivity|].
  eapply rtc_l; [eapply (Api_sender_end _ 0%nat); vm_compute; reflexivity|].
  do 10 (eapply rtc_l; [eapply (Api_execute _ 0%nat); vm_compute; reflexivity|]).
  vm_compute. apply rtc_refl.
Qed.

(** the same run, with the one sender of the program counted *)
Lemma closed_three_stages_counted :
  reachable_counted closed_three_stages (fewer 0%nat (more 0%nat (fun _ => 0%nat))).
Proof.
  unfold reachable_counted.
  eapply rtc_l; [eapply (Move_channel _ _ 0%nat); vm_compute; reflexivity|].
  eapply rtc_l;
    [eapply (Move_pipe _ _ (Receiver (Some 0%nat) false) batcher []); vm_compute; reflexivity|].
  eapply rtc_l;
    [eapply (Move_pipe _ _ (Receiver (Some 1%nat) false) batcher []); vm_compute; reflexivity|].
  eapply rtc_l;
    [eapply (Move_set_ready _ _ (Receiver (Some 0%nat) false)); vm_compute; reflexivity|].
  eapply rtc_l;
    [eapply (Move_set_ready _ _ (Receiver (Some 1%nat) false)); vm_compute; reflexivity|].
  eapply rtc_l;
    [eapply (Move_set_ready _ _ (Receiver (Some 2%nat) false)); vm_compute; reflexivity|].
  eapply rtc_l;
    [eapply (Move_sender_call _ _ 0%nat 1); [vm_compute; lia|vm_compute; reflexivity]|].
  eapply rtc_l;
    [eapply (Move_sender_end _ _ 0%nat); [vm_compute; lia|vm_compute; reflexivity]|].
  do 10 (eapply rtc_l; [eapply (Move_execute _ _ 0%nat); vm_compute; reflexivity|]).
  vm_compute. apply rtc_refl.
Qed.

(** X1 on [closed_three_stages]: the second stage, final and closed, with
    its counter at zero and no sender left. *)
Lemma sender_count_covers_live_senders_witness :
  (_sender_count <$> heap closed_three_stages !! 2%nat) = Some 0
  /\ (_process_final <$> heap closed_three_stages !! 2%nat) = Some true
  /\ fewer 0%nat (more 0%nat (fun _ => 0%nat)) 2%nat = 0%nat.
Proof.
  split; [vm_compute; reflexivity|]. split; [vm_compute; reflexivity|].
  refine (proj1 (proj2 (sender_count_covers_live_senders closed_three_stages _ 2%nat _
                          closed_three_stages_counted _) _)).
  - vm_compute. reflexivity.
  - right. left. reflexivity.
Defined.

(** X2 on [closed_three_stages]: the head is final, and a further
    [task_done] returns. *)
Lemma final_process_stays_drained_witness :
  (_process_final <$> heap closed_three_stages !! 0%nat) = Some true
  /\ (closes 0%nat (trace closed_three_stages) <= 1)%nat
  /\ exists w', task_done 0%nat closed_three_stages = Ok tt w'.
Proof.
  split; [vm_compute; reflexivity|].
  refine (proj2 (final_process_stays_drained closed_three_stages _ 0%nat _
                   closed_three_stages_counted _)).
  vm_compute. reflexivity.
Defined.

(** X3 on [closed_three_stages]: the second stage is behind the first. *)
Lemma downstream_entries_match_upstream_witness :
  (_upstream <$> heap closed_three_stages !! 2%nat) = Some (Some 1%nat)
  /\ (1 < 2 < next_pid closed_three_stages)%nat.
Proof.
  split; [vm_compute; reflexivity|].
  refine (proj2 (downstream_entries_match_upstream closed_three_stages 1%nat _ 2%nat _
                   closed_three_stages_reachable _ _) 1%nat _).
  - vm_compute. reflexivity.
  - vm_compute. reflexivity.
  - reflexivity.
Defined.

(** X4 on a fresh channel: the copy and its end leave the channel as it
    was. *)
Lemma sender_copy_destroy_round_trip_witness :
  (let* c := sender_copy (Sender (Some 0%nat)) in sender_destroy c) fresh_channel
  = Ok tt fresh_channel.
Proof.
  refine (proj1 (sender_copy_destroy_round_trip 0%nat (make_shared_process identity tt None)
                   fresh_channel eq_refl _) _).
  - cbn. unfold size_modulus. lia.
  - discriminate.
Defined.

(** X11 on [stage_owns_head]: with the receiver of the stage both
    processes go. *)
Lemma last_owner_destroys_process_witness :
  exists w',
    release 1 1%nat stage_owns_head = Ok tt w'
    /\ heap w' !! 1%nat = None /\ heap w' !! 0%nat = None.
Proof.
  destruct (release 1 1%nat stage_owns_head) as [[] w'|f] eqn:Hrun;
    [|vm_compute in Hrun; discriminate].
  exists w'. split; [reflexivity|].
  destruct (last_owner_destroys_process 1 1%nat
              (stage_object Z.succ tt 1 1 false false false []) stage_owns_head w'
              eq_refl Hrun) as (_ & _ & Hlast).
  destruct (Hlast ltac:(cbn; lia)) as (Hgone & _ & _ & _ & Hup).
  split; [exact Hgone|].
  eapply (Hup 0%nat); [reflexivity|vm_compute; reflexivity|cbn; lia].
Defined.

(** X12 on a fresh process: its receiver is copied, a value is sent, the
    only sender ends, the queue drains; nothing closes. *)
Lemma uncounted_sender_never_closes_witness :
  exists c',
    perform_all (Receiver_copy :: after_copy_schedule) (created identity tt None) = Some c'
    /\ c_senders c' = 0%nat
    /\ _process_message_queue (c_object c') = []
    /\ _process_close_queue (c_object c') = false
    /\ _process_final (c_object c') = false
    /\ c_closes c' = 0%nat.
Proof.
  destruct (perform_all (Receiver_copy :: after_copy_schedule) (created identity tt None))
    as [c'|] eqn:Hrun; [|vm_compute in Hrun; discriminate].
  exists c'. split; [reflexivity|].
  assert (Hc : c_senders c' = 0%nat /\ _process_message_queue (c_object c') = []).
  { vm_compute in Hrun. injection Hrun as <-. split; reflexivity. }
  destruct Hc as [Hs Hq]. split; [exact Hs|]. split; [exact Hq|].
  cbn [perform_all] in Hrun.
  destruct (perform Receiver_copy (created identity tt None)) as [c1|] eqn:Hcopy;
    [|discriminate].
  apply (uncounted_sender_never_closes identity tt None [] after_copy_schedule Receiver_copy
           (created identity tt None) c1 c' eq_refl ltac:(cbn; lia) (or_introl eq_refl)
           Hcopy Hrun).
Defined.

(** X13 on [queued_batcher]: the loop returns, having stopped on [yield]
    or on an empty queue. *)
Lemma step_loop_awaits_until_yield_witness :
  exists w' sp' taken,
    step_loop 5 (fun s x => s ++ [x]) 0%nat queued_batcher = Ok tt w'
    /\ heap w' !! 0%nat = Some sp'
    /\ [1; 2; 3; 4] = taken ++ _process_message_queue sp'
    /\ (get_process_state (process_T sp') (_process sp') = yield
        \/ _process_message_queue sp' = []).
Proof.
  pose proof (step_loop_awaits_until_yield 5 (fun s x => s ++ [x]) 0%nat
                (set_process_message_queue [1; 2; 3; 4] (batcher_stage []))
                queued_batcher eq_refl) as [Hpost Hret].
  destruct (Hret eq_refl ltac:(cbn; lia)) as (w' & Hrun).
  destruct (Hpost w' Hrun) as (sp' & taken & Hp' & Hq' & _ & _ & Hend & _).
  exists w', sp', taken. auto.
Defined.

(** the run of [sent_three_stages] is a run through the interface *)
Lemma sent_three_stages_reachable : reachable sent_three_stages.
Proof.
  unfold reachable.
  eapply rtc_l; [eapply Api_channel; vm_compute; reflexivity|].
  eapply rtc_l;
    [eapply (Api_pipe _ (Receiver (Some 0%nat) false) batcher []); vm_compute; reflexivity|].
  eapply rtc_l;
    [eapply (Api_pipe _ (Receiver (Some 1%nat) false) batcher []); vm_compute; reflexivity|].
  eapply rtc_l; [eapply (Api_set_ready _ (Receiver (Some 0%nat) false)); vm_compute; reflexivity|].
  eapply rtc_l; [eapply (Api_set_ready _ (Receiver (Some 1%nat) false)); vm_compute; reflexivity|].
  eapply rtc_l; [eapply (Api_set_ready _ (Receiver (Some 2%nat) false)); vm_compute; reflexivity|].
  eapply rtc_l; [eapply (Api_sender_call _ 0%nat _ 1); vm_compute; reflexivity|].
  eapply rtc_l; [eapply (Api_sender_call _ 0%nat _ 2); vm_compute; reflexivity|].
  eapply rtc_l; [eapply (Api_execute _ 0%nat); vm_compute; reflexivity|].
  vm_compute. apply rtc_refl.
Qed.

Lemma sent_three_stages_bounded : bounded sent_three_stages.
Proof. unfold bounded. vm_compute. reflexivity. Qed.

(** X15 on [sent_three_stages]: the closure of the first stage runs. *)
Lemma execute_trips_no_assertion_witness :
  tasks sent_three_stages = [1%nat]
  /\ match execute 0 sent_three_stages with
     | Ok _ w' => reachable w' /\ flow_inv w'
     | Fail f => exists p, f = Dangling p
     end.
Proof.
  split; [vm_compute; reflexivity|].
  exact (execute_trips_no_assertion sent_three_stages 0%nat
           sent_three_stages_reachable sent_three_stages_bounded).
Defined.

(** X16 on [sent_three_stages]: the first stage holds [1], and the head,
    which holds [2], is suspended. *)
Lemma stage_holds_one_message_witness :
  (_process_message_queue <$> heap sent_three_stages !! 1%nat) = Some [1]
  /\ (_process_message_queue <$> heap sent_three_stages !! 0%nat) = Some [2]
  /\ exists su, heap sent_three_stages !! 0%nat = Some su
       /\ Sender (Some 1%nat) ∈ _downstream su /\ 1 <= _process_suspend_count su.
Proof.
  split; [vm_compute; reflexivity|]. split; [vm_compute; reflexivity|].
  eexists. split; [vm_compute; reflexivity|].
  refine (proj2 (stage_holds_one_message sent_three_stages 1%nat _ 0%nat
                   sent_three_stages_reachable sent_three_stages_bounded _ _) _ _ _).
  - vm_compute. reflexivity.
  - reflexivity.
  - reflexivity.
  - discriminate.
Defined.

(** X17 on [sent_three_stages]: one closure is pending, of the first stage. *)
Lemma pending_closures_distinct_witness :
  tasks sent_three_stages = [1%nat] /\ NoDup (tasks sent_three_stages).
Proof.
  split; [vm_compute; reflexivity|].
  exact (proj1 (pending_closures_distinct sent_three_stages
                  sent_three_stages_reachable sent_three_stages_bounded)).
Defined.

(** X18 on [sent_three_stages]: the head holds [2] and runs; it has no
    closure pending and waits for the [cts] of the first stage. *)
Lemma ready_work_is_scheduled_witness :
  tasks sent_three_stages = [1%nat]
  /\ (_process_suspend_count <$> heap sent_three_stages !! 0%nat) = Some 1
  /\ exists sp, heap sent_three_stages !! 0%nat = Some sp /\ _process_running sp = true.
Proof.
  split; [vm_compute; reflexivity|]. split; [vm_compute; reflexivity|].
  eexists. split; [vm_compute; reflexivity|].
  refine (proj1 (ready_work_is_scheduled sent_three_stages 0%nat _
                   sent_three_stages_reachable _) _ _).
  - reflexivity.
  - reflexivity.
  - left. discriminate.
Defined.

(** the run of [closed_four_stages] is a run through the interface *)
Lemma closed_four_stages_reachable : reachable closed_four_stages.
Proof.
  unfold reachable.
  eapply rtc_l; [eapply Api_channel; vm_compute; reflexivity|].
  eapply rtc_l;
    [eapply (Api_pipe _ (Receiver (Some 0%nat) false) batcher []); vm_compute; reflexivity|].
  eapply rtc_l;
    [eapply (Api_pipe _ (Receiver (Some 1%nat) false) (fn Z.succ) []); vm_compute;
     reflexivity|].
  eapply rtc_l;
    [eapply (Api_pipe _ (Receiver (Some 2%nat) false) batcher []); vm_compute; reflexivity|].
  eapply rtc_l; [eapply (Api_set_ready _ (Receiver (Some 0%nat) false)); vm_compute; reflexivity|].
  eapply rtc_l; [eapply (Api_set_ready _ (Receiver (Some 1%nat) false)); vm_compute; reflexivity|].
  eapply rtc_l; [eapply (Api_set_ready _ (Receiver (Some 2%nat) false)); vm_compute; reflexivity|].
  eapply rtc_l; [eapply (Api_set_ready _ (Receiver (Some 3%nat) false)); vm_compute; reflexivity|].
  eapply rtc_l; [eapply (Api_sender_call _ 0%nat _ 1); vm_compute; reflexivity|].
  eapply rtc_l; [eapply (Api_sender_end _ 0%nat); vm_compute; reflexivity|].
  do 11 (eapply rtc_l; [eapply (Api_execute _ 0%nat); vm_compute; reflexivity|]).
  vm_compute. apply rtc_refl.
Qed.


(** C1 on [closed_three_stages]: one value was sent, each stage has taken
    one message and called the [cts] of its upstream once; and on
    [sent_three_stages]: the first stage holds [1], and the [dequeue] that
    takes it calls the [cts] of the head. *)
Lemma one_upstream_cts_per_message_witness :
  upstream_cts_count 1%nat (trace closed_three_stages) = 1%nat
  /\ upstream_cts_count 2%nat (trace closed_three_stages) = 1%nat
  /\ exists w',
       dequeue (fun s v => s ++ [v]) 1%nat sent_three_stages = Ok true w'
       /\ upstream_cts_count 1%nat (trace w')
          = S (upstream_cts_count 1%nat (trace sent_three_stages)).
Proof.
  pose proof (proj1 (@one_upstream_cts_per_message Z (list Z) _)) as Hall.
  split; [|split].
  - refine (eq_trans (proj1 (Hall closed_three_stages 1%nat _ 0%nat
                               closed_three_stages_reachable _ _ _)) _).
    + unfold bounded. vm_compute. reflexivity.
    + vm_compute. reflexivity.
    + reflexivity.
    + vm_compute. reflexivity.
  - refine (eq_trans (proj1 (Hall closed_three_stages 2%nat _ 1%nat
                               closed_three_stages_reachable _ _ _)) _).
    + unfold bounded. vm_compute. reflexivity.
    + vm_compute. reflexivity.
    + reflexivity.
    + vm_compute. reflexivity.
  - eexists. split; [vm_compute; reflexivity|].
    refine (proj2 (proj1 (proj2 (proj2 (proj2 (Hall sent_three_stages 1%nat _ 0%nat
              sent_three_stages_reachable sent_three_stages_bounded _ _)) 1 [] _))
              (fun s v => s ++ [v]) true _ _)).
    + vm_compute. reflexivity.
    + reflexivity.
    + reflexivity.
    + vm_compute. reflexivity.
Defined.

(** C2 as amended, on a fresh channel: [ch.second | f] gives the receiver
    of a new process [1] behind the head, which still counts [ch.second]. *)
Lemma pipe_appends_downstream_witness :
  exists w',
    pipe (Receiver (Some 0%nat) false) (fn Z.succ) tt fresh_channel
    = Ok (Receiver (Some 1%nat) false) w'
    /\ (_upstream <$> heap w' !! 1%nat) = Some (Some 0%nat)
    /\ (_downstream <$> heap w' !! 0%nat) = Some [Sender (Some 1%nat)]
    /\ (_receiver_count <$> heap w' !! 0%nat) = Some 1.
Proof.
  destruct (pipe_appends_downstream (Receiver (Some 0%nat) false) (fn Z.succ) tt fresh_channel
              0%nat (make_shared_process identity tt None) eq_refl eq_refl eq_refl)
    as (w' & Hpipe & Hnew & Hold & _ & Hcount & _).
  exists w'. split; [exact Hpipe|].
  split; [exact (f_equal (fmap _upstream) Hnew)|].
  split; [exact (f_equal (fmap _downstream) Hold)|exact Hcount].
Defined.

(** C2, counterexample.  After [auto r = ch.second | f] the head still counts
    [ch.second]: its [_receiver_count] is 1, not 0, and a value sent now is
    queued without a step being scheduled, as for any receiver that is not
    ready. *)
Lemma pipe_keeps_receiver_counted :
  exists r1 w1,
    pipe (Receiver (Some 0%nat) false) (fn Z.succ) tt fresh_channel = Ok r1 w1
    /\ (_receiver_count <$> heap w1 !! 0%nat) = Some 1
    /\ (_receiver_count <$> heap w1 !! 0%nat) <> Some 0
    /\ tasks (world_of (sender_call (Sender (Some 0%nat)) 7 w1)) = [].
Proof.
  eexists _, _. split; [vm_compute; reflexivity|].
  split; [reflexivity|]. split; [discriminate|]. reflexivity.
Qed.

(** C3, the code at the failing input.  Copying the receiver of a fresh
    channel leaves [_receiver_count] at 1 and raises [_sender_count] to 2
    (the copy constructor calls [add_sender]); the copy is not ready, so
    destroying it takes [_receiver_count] to 0 while the original receiver
    is still held and not ready. *)
Lemma receiver_copy_adds_sender :
  exists c w1 w2,
    receiver_copy (Receiver (Some 0%nat) false) fresh_channel = Ok c w1
    /\ ready c = false
    /\ (_receiver_count <$> heap w1 !! 0%nat) = Some 1
    /\ (_sender_count <$> heap w1 !! 0%nat) = Some 2
    /\ receiver_destroy c w1 = Ok tt w2
    /\ (_receiver_count <$> heap w2 !! 0%nat) = Some 0.
Proof.
  eexists _, _, _. split; [vm_compute; reflexivity|].
  split; [reflexivity|]. split; [reflexivity|]. split; [reflexivity|].
  split; [vm_compute; reflexivity|]. reflexivity.
Qed.

Lemma expired_process_is_noop_witness :
  sender_call (Sender (Some 0%nat)) 7 orphaned = Ok tt orphaned
  /\ sender_close (Sender (Some 0%nat)) orphaned = Ok (Sender None) orphaned
  /\ sender_destroy (Sender (Some 0%nat)) orphaned = Ok tt orphaned
  /\ task 0%nat orphaned = Ok tt orphaned
  /\ (forall k, tasks orphaned !! k = Some 0%nat ->
        execute k orphaned
        = Ok tt {| heap := heap orphaned; next_pid := next_pid orphaned;
                   tasks := delete k (tasks orphaned); trace := trace orphaned |}).
Proof.
  exact (expired_process_is_noop 0%nat 7 orphaned eq_refl).
Defined.


(** C5 on [two_stages]: the head, its deque holding the sender of the
    stage, sets its count to [2] and sends [7] to the stage, once; and on
    [late_joiner], where the sender of a second stage has been appended
    after the snapshot: the iteration calls the first sender only, the new
    stage is sent nothing. *)
Lemma broadcast_snapshot_first_n_witness :
  (exists w',
     broadcast 0%nat 7 (two_stages Z.succ) = Ok tt w'
     /\ trace w' = [EvBroadcast 0%nat 7; EvSend 1%nat 7]
     /\ (_process_suspend_count <$> heap w' !! 0%nat) = Some 2)
  /\ (_downstream <$> heap late_joiner !! 0%nat)
     = Some [Sender (Some 1%nat); Sender (Some 2%nat)]
  /\ (exists w', broadcast_deliver 0%nat 1 7 late_joiner = Ok tt w'
                 /\ trace w' = [EvSend 1%nat 7]
                 /\ (_process_message_queue <$> heap w' !! 1%nat) = Some [7]
                 /\ (_process_message_queue <$> heap w' !! 2%nat) = Some []).
Proof.
  destruct (broadcast_snapshot_first_n 0%nat
              (set_use_count 2 (set_downstream [Sender (Some 1%nat)]
                 (make_shared_process identity tt None)))
              (two_stages Z.succ) 7 [Sender (Some 2%nat)] eq_refl eq_refl) as [_ Hok].
  destruct (Hok eq_refl) as (_ & (w' & Hrun & Htr & Hs) & w1 & _ & _ & _ & _ & _ & Hlate).
  split; [|split].
  - exists w'. split; [exact Hrun|]. split; [|exact Hs].
    rewrite Htr. vm_compute. reflexivity.
  - vm_compute. reflexivity.
  - eexists. split.
    + refine (eq_trans (proj1 (Hlate late_joiner _ _ _)) _).
      * vm_compute. reflexivity.
      * reflexivity.
      * vm_compute. reflexivity.
    + split; [reflexivity|]. split; vm_compute; reflexivity.
Defined.

Lemma cts_zero_schedules_iff_work_witness :
  exists w', cts 0%nat (single suspended_head) = Ok tt w'
    /\ tasks w' = []
    /\ (_process_running <$> heap w' !! 0%nat) = Some false
    /\ (_process_suspend_count <$> heap w' !! 0%nat) = Some 0.
Proof.
  exact (cts_zero_schedules_iff_work 0%nat suspended_head (single suspended_head)
           eq_refl eq_refl eq_refl).
Defined.
